(** * The CSV bulk-import reconciliation engine of the catalogue console

    A shallow embedding of the import page ([src/app/dev/migrate/page.tsx])
    and of the category helpers ([src/lib/categories.ts]), with the
    properties the specification states about them.

    Conventions.
    - A JavaScript string is the list of its UTF-16 code units
      ([str], code units as [N]).
    - [undefined]/[null] are [None]; a truthiness test [if (x)] on an
      optional string is [truthy].
    - A [Map] whose iteration order is observed is an association list
      in insertion order; a [Map] or object used for lookups only is a
      [gmap]. *)

From Stdlib Require Import String Ascii ZArith NArith QArith.
From stdpp Require Import gmap list sorting.
From Equations Require Import Equations.
From Equations.Prop Require Import Logic.

Open Scope nat_scope.
Open Scope N_scope.

(** ** Strings *)

Abbreviation str := (list N) (only parsing).

(** A literal, written with Rocq's string notation. *)
Definition lit (s : string) : str :=
  List.map N_of_ascii (list_ascii_of_string s).

Definition DQUOTE : N := 34.
Definition COMMA : N := 44.
Definition NEWLINE : N := 10.
Definition GT : N := 62.
Definition DASH : N := 45.
Definition UNDERSCORE : N := 95.

Definition str_eqb (a b : str) : bool := bool_decide (a = b).

(** [if (s)] on a string: the empty string is falsy. *)
Definition nonempty (s : str) : bool :=
  match s with [] => false | _ => true end.

(** [if (x)] on an optional string: [undefined] and [''] are falsy. *)
Definition truthy (o : option str) : bool :=
  match o with Some s => nonempty s | None => false end.

(** ECMAScript WhiteSpace and LineTerminator code points: what
    [String.prototype.trim] strips and what the regular expression
    class [\s] matches. *)
Definition is_space (c : N) : bool :=
  (c =? 9) || (c =? 10) || (c =? 11) || (c =? 12) || (c =? 13) ||
  (c =? 32) || (c =? 160) || (c =? 5760) ||
  ((8192 <=? c) && (c <=? 8202)) ||
  (c =? 8232) || (c =? 8233) || (c =? 8239) || (c =? 8287) ||
  (c =? 12288) || (c =? 65279).

Fixpoint trimStart (s : str) : str :=
  match s with
  | [] => []
  | c :: rest => if is_space c then trimStart rest else s
  end.

Definition trimEnd (s : str) : str := rev (trimStart (rev s)).

(** [s.trim()] *)
Definition trim (s : str) : str := trimEnd (trimStart s).

(** [a.includes(b)] *)
Fixpoint starts_with (p s : str) : bool :=
  match p, s with
  | [], _ => true
  | _ :: _, [] => false
  | a :: p', b :: s' => (a =? b) && starts_with p' s'
  end.

Fixpoint includes (s p : str) : bool :=
  starts_with p s ||
  match s with
  | [] => false
  | _ :: s' => includes s' p
  end.

(** [parts.join(sep)] *)
Fixpoint join (sep : str) (parts : list str) : str :=
  match parts with
  | [] => []
  | [p] => p
  | p :: rest => p ++ sep ++ join sep rest
  end.

(** [s.split(sep)] for a one-unit separator. *)
Fixpoint split_loop (sep : N) (s : str) (current : str) : list str :=
  match s with
  | [] => [current]
  | c :: rest =>
      if c =? sep then current :: split_loop sep rest []
      else split_loop sep rest (current ++ [c])
  end.

Definition split (sep : N) (s : str) : list str := split_loop sep s [].

(** ** CSV tokenizer ([parseCSV], lines 957-1002, and [parseCSVLine]) *)

Module Tokenizer.

(** [if (currentLine.trim()) lines.push(currentLine)] *)
Definition pushLine (lines : list str) (currentLine : str) : list str :=
  if nonempty (trim currentLine) then lines ++ [currentLine] else lines.

(** The character loop of [parseCSV] that cuts the text into records:
    a newline outside quotes ends the current line. *)
Fixpoint splitLines_loop (text : str) (lines : list str)
    (currentLine : str) (insideQuotes : bool) : list str :=
  match text with
  | [] => pushLine lines currentLine
  | char :: rest =>
      let insideQuotes :=
        if char =? DQUOTE then negb insideQuotes else insideQuotes in
      if (char =? NEWLINE) && negb insideQuotes then
        splitLines_loop rest (pushLine lines currentLine) [] insideQuotes
      else
        splitLines_loop rest lines (currentLine ++ [char]) insideQuotes
  end.

Definition splitLines (text : str) : list str :=
  splitLines_loop text [] [] false.

(** [parseCSVLine]: quotes toggle the flag and are dropped, a comma
    outside quotes ends the field, every field is trimmed. *)
Fixpoint parseCSVLine_loop (line : str) (result : list str)
    (current : str) (insideQuotes : bool) : list str :=
  match line with
  | [] => result ++ [trim current]
  | char :: rest =>
      if char =? DQUOTE then
        parseCSVLine_loop rest result current (negb insideQuotes)
      else if (char =? COMMA) && negb insideQuotes then
        parseCSVLine_loop rest (result ++ [trim current]) [] insideQuotes
      else
        parseCSVLine_loop rest result (current ++ [char]) insideQuotes
  end.

Definition parseCSVLine (line : str) : list str :=
  parseCSVLine_loop line [] [] false.

End Tokenizer.

(** ** Rows and the product grouper ([parseCSV], lines 1011-1039) *)

Module Grouper.

Record CSVRow := mkCSVRow {
  col_ProductCode : str;
  col_ProductName : str;
  col_Category : str;
  col_ShortDescription : str;
  col_FullDescription : str;
  col_Size : str;
  col_Finish : str;
  col_PackingSize : str;
  col_MRP : str;
  col_HSNCode : str;
  col_Material : str;
  col_VariantCode : str;
  col_ProductImageURL : str;
  col_Notes : str
}.

Definition createEmptyCSVRow : CSVRow :=
  mkCSVRow [] [] [] [] [] [] [] [] [] [] [] [] [] [].

Inductive Column :=
| ProductCode | ProductName | CategoryCol | ShortDescription
| FullDescription | SizeCol | FinishCol | PackingSize | MRP | HSNCode
| Material | VariantCode | ProductImageURL | Notes.

Definition header_of (c : Column) : str :=
  match c with
  | ProductCode => lit "Product Code"
  | ProductName => lit "Product Name"
  | CategoryCol => lit "Category"
  | ShortDescription => lit "Short Description"
  | FullDescription => lit "Full Description"
  | SizeCol => lit "Size (MM / Inch)"
  | FinishCol => lit "Colour / Finish"
  | PackingSize => lit "Packing Size"
  | MRP => lit "MRP (INR)"
  | HSNCode => lit "HSN Code"
  | Material => lit "Material"
  | VariantCode => lit "Variant Code"
  | ProductImageURL => lit "Product Image URL"
  | Notes => lit "Notes"
  end.

#[global] Instance Column_eq_dec : EqDecision Column.
Proof. solve_decision. Defined.

Definition all_columns : list Column :=
  [ProductCode; ProductName; CategoryCol; ShortDescription;
   FullDescription; SizeCol; FinishCol; PackingSize; MRP; HSNCode;
   Material; VariantCode; ProductImageURL; Notes].

(** [header in row], for the keys of the row type. *)
Definition column_of_header (header : str) : option Column :=
  List.find (fun c => str_eqb (header_of c) header) all_columns.

Definition get_column (c : Column) (r : CSVRow) : str :=
  match c with
  | ProductCode => col_ProductCode r
  | ProductName => col_ProductName r
  | CategoryCol => col_Category r
  | ShortDescription => col_ShortDescription r
  | FullDescription => col_FullDescription r
  | SizeCol => col_Size r
  | FinishCol => col_Finish r
  | PackingSize => col_PackingSize r
  | MRP => col_MRP r
  | HSNCode => col_HSNCode r
  | Material => col_Material r
  | VariantCode => col_VariantCode r
  | ProductImageURL => col_ProductImageURL r
  | Notes => col_Notes r
  end.

(** [row[key] = v] *)
Definition set_column (c : Column) (v : str) (r : CSVRow) : CSVRow :=
  let '(mkCSVRow a b c0 d e f g h i j k l m n) := r in
  match c with
  | ProductCode => mkCSVRow v b c0 d e f g h i j k l m n
  | ProductName => mkCSVRow a v c0 d e f g h i j k l m n
  | CategoryCol => mkCSVRow a b v d e f g h i j k l m n
  | ShortDescription => mkCSVRow a b c0 v e f g h i j k l m n
  | FullDescription => mkCSVRow a b c0 d v f g h i j k l m n
  | SizeCol => mkCSVRow a b c0 d e v g h i j k l m n
  | FinishCol => mkCSVRow a b c0 d e f v h i j k l m n
  | PackingSize => mkCSVRow a b c0 d e f g v i j k l m n
  | MRP => mkCSVRow a b c0 d e f g h v j k l m n
  | HSNCode => mkCSVRow a b c0 d e f g h i v k l m n
  | Material => mkCSVRow a b c0 d e f g h i j v l m n
  | VariantCode => mkCSVRow a b c0 d e f g h i j k v m n
  | ProductImageURL => mkCSVRow a b c0 d e f g h i j k l v n
  | Notes => mkCSVRow a b c0 d e f g h i j k l m v
  end.

(** [headers.forEach((header, index) => { if (header in row)
    row[key] = values[index] || '' })], from position [index] on.
    A header that is no column of the row type ([in] also answers for
    inherited property names) leaves the fourteen columns untouched. *)
Fixpoint fillRow (headers : list str) (index : nat) (values : list str)
    (row : CSVRow) : CSVRow :=
  match headers with
  | [] => row
  | header :: rest =>
      let row :=
        match column_of_header header with
        | Some key => set_column key (default [] (values !! index)) row
        | None => row
        end in
      fillRow rest (S index) values row
  end.

(** The loop [for (let i = 1; i < lines.length; i++)]. *)
Definition buildRows (headers : list str) (lines : list str) : list CSVRow :=
  List.map
    (fun line => fillRow headers 0%nat (Tokenizer.parseCSVLine line)
                   createEmptyCSVRow)
    (List.filter (fun line => nonempty (trim line)) lines).

(** Text to rows. [None] is the [TypeError] of [parseCSVLine(lines[0])]
    on an input without any non-blank line, which [parseCSV] catches
    ("Failed to parse CSV file"). *)
Definition tokenize (text : str) : option (list CSVRow) :=
  match Tokenizer.splitLines text with
  | [] => None
  | header :: lines => Some (buildRows (Tokenizer.parseCSVLine header) lines)
  end.

(** *** Prices *)

Definition is_digit (c : N) : bool := (48 <=? c) && (c <=? 57).
Definition DOT : N := 46.

(** [parseFloat] on a string of digits and dots: the longest prefix of
    the form digits, optional dot, digits. The result is the decimal
    value it denotes ([None] is [NaN]); rounding to binary64 is left
    out. *)
Fixpoint read_digits (s : str) (acc : N) (count : nat) : N * nat * str :=
  match s with
  | c :: rest =>
      if is_digit c then read_digits rest (10 * acc + (c - 48)) (S count)
      else (acc, count, s)
  | [] => (acc, count, [])
  end.

Definition parseFloat (s : str) : option Q :=
  let '(int_part, int_count, rest) := read_digits s 0 0%nat in
  let '(mantissa, frac_count) :=
    match rest with
    | c :: rest' =>
        if c =? DOT then
          let '(m, k, _) := read_digits rest' int_part 0%nat in (m, k)
        else (int_part, 0%nat)
    | [] => (int_part, 0%nat)
    end in
  match (int_count + frac_count)%nat with
  | O => None
  | _ => Some (Qmake (Z.of_N mantissa) (Z.to_pos (10 ^ Z.of_nat frac_count)))
  end.

(** [parseFloat(text.replace(/[^0-9.]/g, '')) || 0] *)
Definition parsePrice (text : str) : Q :=
  match parseFloat (List.filter (fun c => is_digit c || (c =? DOT)) text) with
  | Some q => q
  | None => 0%Q
  end.

(** *** Parsed products *)

Inductive ImportAction := create | skip | update.
Inductive CategoryMatchType := match_slug | match_name.
Inductive ExistingMatchType := match_code | match_by_name.

#[global] Instance ImportAction_eq_dec : EqDecision ImportAction.
Proof. solve_decision. Defined.
#[global] Instance CategoryMatchType_eq_dec : EqDecision CategoryMatchType.
Proof. solve_decision. Defined.
#[global] Instance ExistingMatchType_eq_dec : EqDecision ExistingMatchType.
Proof. solve_decision. Defined.

Record Variant := mkVariant {
  v_size : str;
  v_finish : str;
  v_price : Q;
  v_sku : str
}.

Record ParsedProduct := mkParsedProduct {
  productCode : str;
  name : str;
  category : str;
  categoryId : option str;
  categorySlug : option str;
  categoryPath : option (list str);
  categoryPathLabel : option str;
  categoryAncestors : option (list str);
  categoryMatchType : option CategoryMatchType;
  shortDescription : str;
  fullDescription : str;
  variants : list Variant;
  imageUrl : str;
  action : ImportAction;
  existingProductId : option str;
  existingProductName : option str;
  existingUpdatedAt : option str;
  existingMatchType : option ExistingMatchType
}.

(** [{ ...product, variants }] *)
Definition with_variants (vs : list Variant) (p : ParsedProduct) : ParsedProduct :=
  mkParsedProduct (productCode p) (name p) (category p) (categoryId p)
    (categorySlug p) (categoryPath p) (categoryPathLabel p)
    (categoryAncestors p) (categoryMatchType p) (shortDescription p)
    (fullDescription p) vs (imageUrl p) (action p) (existingProductId p)
    (existingProductName p) (existingUpdatedAt p) (existingMatchType p).

(** [{ ...product, action }] *)
Definition with_action (a : ImportAction) (p : ParsedProduct) : ParsedProduct :=
  mkParsedProduct (productCode p) (name p) (category p) (categoryId p)
    (categorySlug p) (categoryPath p) (categoryPathLabel p)
    (categoryAncestors p) (categoryMatchType p) (shortDescription p)
    (fullDescription p) (variants p) (imageUrl p) a (existingProductId p)
    (existingProductName p) (existingUpdatedAt p) (existingMatchType p).

(** The four [existing...] fields replaced at once. *)
Definition with_existing (id nm updated : option str)
    (mt : option ExistingMatchType) (p : ParsedProduct) : ParsedProduct :=
  mkParsedProduct (productCode p) (name p) (category p) (categoryId p)
    (categorySlug p) (categoryPath p) (categoryPathLabel p)
    (categoryAncestors p) (categoryMatchType p) (shortDescription p)
    (fullDescription p) (variants p) (imageUrl p) (action p) id nm updated mt.

(** The six [category...] fields replaced at once. *)
Definition with_category (id slug : option str) (path : option (list str))
    (label : option str) (ancestors : option (list str))
    (mt : option CategoryMatchType) (p : ParsedProduct) : ParsedProduct :=
  mkParsedProduct (productCode p) (name p) (category p) id slug path label
    ancestors mt (shortDescription p) (fullDescription p) (variants p)
    (imageUrl p) (action p) (existingProductId p) (existingProductName p)
    (existingUpdatedAt p) (existingMatchType p).

(** *** Grouping by product code *)

(** An insertion-ordered [Map] with string keys. *)
Fixpoint map_has {V} (key : str) (m : list (str * V)) : bool :=
  match m with
  | [] => false
  | (k, _) :: rest => str_eqb k key || map_has key rest
  end.

Fixpoint map_get {V} (key : str) (m : list (str * V)) : option V :=
  match m with
  | [] => None
  | (k, v) :: rest => if str_eqb k key then Some v else map_get key rest
  end.

(** A mutation of the object stored under [key]. *)
Fixpoint map_modify {V} (key : str) (f : V -> V) (m : list (str * V))
    : list (str * V) :=
  match m with
  | [] => []
  | (k, v) :: rest =>
      if str_eqb k key then (k, f v) :: rest
      else (k, v) :: map_modify key f rest
  end.

(** [Array.from(m.values())] *)
Definition map_values {V} (m : list (str * V)) : list V := List.map snd m.

Definition newProduct (row : CSVRow) : ParsedProduct :=
  {| productCode := col_ProductCode row;
     name := col_ProductName row;
     category := col_Category row;
     categoryId := None; categorySlug := None; categoryPath := None;
     categoryPathLabel := None; categoryAncestors := None;
     categoryMatchType := None;
     shortDescription := col_ShortDescription row;
     fullDescription := col_FullDescription row;
     variants := [];
     imageUrl := col_ProductImageURL row;
     action := create;
     existingProductId := None; existingProductName := None;
     existingUpdatedAt := None; existingMatchType := None |}.

Definition variantOfRow (row : CSVRow) : Variant :=
  {| v_size := col_Size row;
     v_finish := col_Finish row;
     v_price := parsePrice (col_MRP row);
     v_sku :=
       if nonempty (col_VariantCode row) then col_VariantCode row
       else col_ProductCode row ++ [DASH] ++ col_Size row ++ [DASH]
              ++ col_Finish row |}.

(** The body of [rows.forEach(row => ...)]. *)
Definition groupRow (productMap : list (str * ParsedProduct)) (row : CSVRow)
    : list (str * ParsedProduct) :=
  let code := col_ProductCode row in
  let productMap :=
    if map_has code productMap then productMap
    else productMap ++ [(code, newProduct row)] in
  map_modify code
    (fun product => with_variants (variants product ++ [variantOfRow row]) product)
    productMap.

Definition groupRows (rows : list CSVRow) : list ParsedProduct :=
  map_values (foldl groupRow [] rows).

End Grouper.

(** ** CSV serializer

    Modelled from the spec: the serializer of the round-trip property
    (section 8 of the specification) is no code of the repository. It
    writes the header record and one record per row; records are
    joined by newlines and fields by commas; a field that holds a
    comma, a newline or a double quote stands between double quotes,
    its own quotes doubled. *)

Module Serializer.
Import Grouper.

Definition needsQuotes (field : str) : bool :=
  existsb (fun c => (c =? COMMA) || (c =? NEWLINE) || (c =? DQUOTE)) field.

Definition serializeField (field : str) : str :=
  if needsQuotes field then
    [DQUOTE] ++
    flat_map (fun c => if c =? DQUOTE then [DQUOTE; DQUOTE] else [c]) field ++
    [DQUOTE]
  else field.

Definition serializeRecord (fields : list str) : str :=
  join [COMMA] (List.map serializeField fields).

Definition fieldsOf (row : CSVRow) : list str :=
  List.map (fun c => get_column c row) all_columns.

Definition serialize (rows : list CSVRow) : str :=
  join [NEWLINE]
    (serializeRecord (List.map header_of all_columns) ::
     List.map (fun row => serializeRecord (fieldsOf row)) rows).

End Serializer.

(** ** Library functions of the host language

    [String.prototype.toLowerCase] and [String.prototype.localeCompare]
    depend on the Unicode case tables and on the collation of the
    runtime's locale, which are no part of the repository: the
    development is parametric in them. *)

Class JSRuntime := {
  toLowerCase : str -> str;
  (** the sign of [a.localeCompare(b)] *)
  localeCompare : str -> str -> Z
}.

(** A runtime for closed examples: ASCII case folding and comparison of
    code units. *)
Definition ascii_lower (c : N) : N :=
  if (65 <=? c) && (c <=? 90) then c + 32 else c.

Fixpoint unit_compare (a b : str) : Z :=
  match a, b with
  | [], [] => 0%Z
  | [], _ :: _ => (-1)%Z
  | _ :: _, [] => 1%Z
  | x :: a', y :: b' =>
      if x <? y then (-1)%Z else if y <? x then 1%Z else unit_compare a' b'
  end.

Definition asciiRuntime : JSRuntime :=
  {| toLowerCase := List.map ascii_lower; localeCompare := unit_compare |}.

(** ** Slugs and category paths (page.tsx, lines 199-225) *)

(** The class [\w] of a regular expression without the [u] and [i]
    flags. *)
Definition is_word (c : N) : bool :=
  ((48 <=? c) && (c <=? 57)) || ((65 <=? c) && (c <=? 90)) ||
  ((97 <=? c) && (c <=? 122)) || (c =? UNDERSCORE).

(** [[\s_-]] *)
Definition is_separator (c : N) : bool :=
  is_space c || (c =? UNDERSCORE) || (c =? DASH).

(** [.replace(/[\s_-]+/g, '-')]: every maximal run of separators
    becomes one dash. *)
Fixpoint collapse_separators (s : str) (in_run : bool) : str :=
  match s with
  | [] => []
  | c :: rest =>
      if is_separator c then
        if in_run then collapse_separators rest true
        else DASH :: collapse_separators rest true
      else c :: collapse_separators rest false
  end.

Fixpoint strip_leading_dashes (s : str) : str :=
  match s with
  | c :: rest => if c =? DASH then strip_leading_dashes rest else s
  | [] => []
  end.

(** [.replace(/^-+|-+$/g, '')] *)
Definition strip_dashes (s : str) : str :=
  rev (strip_leading_dashes (rev (strip_leading_dashes s))).

Section Slugs.
Context `{JSRuntime}.

Definition slugify (value : str) : str :=
  strip_dashes
    (collapse_separators
       (List.filter (fun c => is_word c || is_space c || (c =? DASH))
          (trim (toLowerCase value)))
       false).

Definition normalizeCategorySegment (value : str) : str := slugify value.

Definition parseCategorySegments (rawValue : option str) : list str :=
  if truthy rawValue then
    List.filter nonempty (List.map trim (split GT (default [] rawValue)))
  else [].

Definition buildCategoryPathKey (segments : list str) : str :=
  join [GT] (List.map normalizeCategorySegment segments).

End Slugs.

(** ** Categories ([src/lib/categories.ts]) *)

Module Categories.

Record Category := mkCategory {
  cat_id : str;                    (* $id *)
  cat_name : str;
  cat_slug : option str;
  cat_description : option str;
  cat_image : option str;
  cat_parentId : option str;
  cat_sortOrder : option Z
}.

(** [new Map(categories.map(category => [category.$id, category]))]:
    of two entries with one id the later stays. *)
Definition buildCategoryMap (categories : list Category)
    : gmap (list N) Category :=
  foldl (fun m category => <[cat_id category := category]> m) ∅ categories.

(** [path.join(' > ')] *)
Definition formatCategoryPath (path : list str) : str :=
  join (lit " > ") path.

End Categories.

Module CategoryPaths.
Import Categories.

(** The loop shared by [getCategoryPath] and [getCategoryAncestry]:
<<
  while (currentId) {
    if (visited.has(currentId)) break;
    visited.add(currentId);
    const category = lookup.get(currentId);
    if (!category) break;
    path.push(field(category));
    currentId = category.parentId ?? null;
  }
>>
    The unvisited part of the map shrinks at every turn. *)
Equations? walk (field : Category -> str) (lookup : gmap (list N) Category)
    (currentId : option str) (visited : gset (list N)) (path : list str)
    : list str by wf (size (dom lookup ∖ visited)) lt :=
  walk field lookup None visited path := path;
  walk field lookup (Some []) visited path := path;
  walk field lookup (Some id) visited path with decide (id ∈ visited) := {
    | left _ => path
    | right Hfresh with inspect (lookup !! id) := {
        | exist _ None _ => path
        | exist _ (Some category) Hget =>
            walk field lookup (cat_parentId category) ({[id]} ∪ visited)
              (path ++ [field category]) } }.
Proof.
  apply subset_size.
  assert (Hdom : n :: l ∈ dom lookup) by (apply elem_of_dom; eauto).
  clear walk. set_solver.
Qed.

Definition getCategoryPath (categoryId : str)
    (lookup : gmap (list N) Category) : list str :=
  rev (walk cat_name lookup (Some categoryId) ∅ []).

Definition getCategoryAncestry (categoryId : str)
    (lookup : gmap (list N) Category) : list str :=
  rev (walk cat_id lookup (Some categoryId) ∅ []).

End CategoryPaths.

(** ** Category resolution and proposals (page.tsx, lines 119-180, 253-388) *)

Module Resolver.
Import Categories CategoryPaths Grouper.

Record ProposedCategory := mkProposedCategory {
  pc_key : str;
  pc_path : list str;
  pc_label : str;
  pc_name : str;
  pc_slug : str;
  pc_parentExistingId : option str;
  pc_parentKey : option str;
  pc_parentPath : list str;
  pc_depth : nat
}.

Record ResolvedCategory := mkResolvedCategory {
  rc_id : str;
  rc_slug : option str;
  rc_path : list str;
  rc_label : str;
  rc_ancestry : list str;
  rc_matchType : CategoryMatchType
}.

Section WithRuntime.
Context `{JSRuntime}.

Definition buildCategorySlugMap (categories : list Category)
    : gmap (list N) Category :=
  foldl (fun m category =>
           match cat_slug category with
           | Some slug =>
               if nonempty slug then <[toLowerCase slug := category]> m else m
           | None => m
           end) ∅ categories.

Definition buildCategoryNameMap (categories : list Category)
    : gmap (list N) Category :=
  foldl (fun m category => <[toLowerCase (cat_name category) := category]> m)
    ∅ categories.

Definition resolvedFrom (matched : Category) (lookup : gmap (list N) Category)
    (matchType : CategoryMatchType) : ResolvedCategory :=
  let path := getCategoryPath (cat_id matched) lookup in
  let ancestry := getCategoryAncestry (cat_id matched) lookup in
  {| rc_id := cat_id matched;
     rc_slug := cat_slug matched;
     rc_path := path;
     rc_label :=
       if (0 <? length path)%nat then formatCategoryPath path
       else cat_name matched;
     rc_ancestry := ancestry;
     rc_matchType := matchType |}.

Definition resolveCategoryFromMaps (rawValue : option str)
    (lookup slugMap nameMap : gmap (list N) Category)
    : option ResolvedCategory :=
  if negb (truthy rawValue) then None
  else
    let trimmed := trim (default [] rawValue) in
    if negb (nonempty trimmed) then None
    else
      let slugValue := slugify trimmed in
      let slugMatch :=
        if nonempty slugValue then slugMap !! slugValue else None in
      match slugMatch with
      | Some matched => Some (resolvedFrom matched lookup match_slug)
      | None =>
          match nameMap !! toLowerCase trimmed with
          | Some matched => Some (resolvedFrom matched lookup match_name)
          | None => None
          end
      end.

Definition ROOT : str := lit "root".

(** [index.set(...)] for one category: used by
    [buildCategoryIndexByParent] and by [addCategoryToIndex]. *)
Definition addCategoryToIndex
    (index : gmap (list N) (gmap (list N) Category)) (category : Category)
    : gmap (list N) (gmap (list N) Category) :=
  let parentKey := default ROOT (cat_parentId category) in
  let bucket := default ∅ (index !! parentKey) in
  let bucket :=
    <[lit "name:" ++ toLowerCase (trim (cat_name category)) := category]>
      bucket in
  let bucket :=
    match cat_slug category with
    | Some slug =>
        if nonempty slug then
          <[lit "slug:" ++ toLowerCase (trim slug) := category]> bucket
        else bucket
    | None => bucket
    end in
  <[parentKey := bucket]> index.

Definition buildCategoryIndexByParent (categories : list Category)
    : gmap (list N) (gmap (list N) Category) :=
  foldl addCategoryToIndex ∅ categories.

Definition findCategoryInIndex
    (index : gmap (list N) (gmap (list N) Category))
    (parentId : option str) (segment : str) : option Category :=
  let parentKey := default ROOT parentId in
  match index !! parentKey with
  | None => None
  | Some bucket =>
      let normalizedName := toLowerCase (trim segment) in
      match bucket !! (lit "name:" ++ normalizedName) with
      | Some nameMatch => Some nameMatch
      | None =>
          let slugCandidate := slugify segment in
          if nonempty slugCandidate then
            bucket !! (lit "slug:" ++ toLowerCase slugCandidate)
          else None
      end
  end.

(** The state of the walk along one product's segments: [parentId],
    [parentPath], and the shared [proposals] map. *)
Definition proposeSegment (index : gmap (list N) (gmap (list N) Category))
    (st : option str * list str * list (str * ProposedCategory))
    (segment : str)
    : option str * list str * list (str * ProposedCategory) :=
  let '(parentId, parentPath, proposals) := st in
  match findCategoryInIndex index parentId segment with
  | Some existing =>
      (Some (cat_id existing), parentPath ++ [cat_name existing], proposals)
  | None =>
      let nextPath := parentPath ++ [segment] in
      let key := buildCategoryPathKey nextPath in
      let proposals :=
        if map_has key proposals then proposals
        else proposals ++
          [(key,
            {| pc_key := key;
               pc_path := nextPath;
               pc_label := formatCategoryPath nextPath;
               pc_name := trim segment;
               pc_slug := slugify segment;
               pc_parentExistingId := parentId;
               pc_parentKey :=
                 if (0 <? length parentPath)%nat
                 then Some (buildCategoryPathKey parentPath) else None;
               pc_parentPath := parentPath;
               pc_depth := length nextPath |})] in
      (None, nextPath, proposals)
  end.

(** The body of [products.forEach(product => ...)]. *)
Definition proposeForProduct (index : gmap (list N) (gmap (list N) Category))
    (proposals : list (str * ProposedCategory)) (product : ParsedProduct)
    : list (str * ProposedCategory) :=
  if negb (nonempty (category product)) || truthy (categoryId product)
  then proposals
  else
    let segments := parseCategorySegments (Some (category product)) in
    snd (foldl (proposeSegment index) (None, [], proposals) segments).

(** The comparator handed to [sort]. *)
Definition compareProposals (a b : ProposedCategory) : Z :=
  if negb (pc_depth a =? pc_depth b)%nat
  then (Z.of_nat (pc_depth a) - Z.of_nat (pc_depth b))%Z
  else localeCompare (pc_label a) (pc_label b).

End WithRuntime.

(** [Array.prototype.sort(compare)], which is stable: an element goes
    behind every element that does not compare greater. *)
Fixpoint sort_insert {A} (compare : A -> A -> Z) (x : A) (sorted : list A)
    : list A :=
  match sorted with
  | [] => [x]
  | y :: rest =>
      if (compare x y <? 0)%Z then x :: y :: rest
      else y :: sort_insert compare x rest
  end.

Definition sort {A} (compare : A -> A -> Z) (l : list A) : list A :=
  foldl (fun sorted x => sort_insert compare x sorted) [] l.

Section WithRuntime.
Context `{JSRuntime}.

Definition buildProposedCategoriesForProducts (products : list ParsedProduct)
    (categories : list Category) : list ProposedCategory :=
  match products with
  | [] => []
  | _ =>
      let categoriesIndex := buildCategoryIndexByParent categories in
      let proposals := foldl (proposeForProduct categoriesIndex) [] products in
      sort compareProposals (map_values proposals)
  end.

End WithRuntime.

End Resolver.

(** ** Duplicate detection (page.tsx, lines 814-886) *)

Module Detector.
Import Grouper.

Record ExistingProductMeta := mkExistingProductMeta {
  meta_id : str;
  meta_name : str;
  meta_updatedAt : str;
  meta_productCode : option str
}.

(** An object literal [{}] used as a dictionary of metas
    ([Record<string, ExistingProductMeta>]): its own properties and its
    prototype. The prototype is [Object.prototype] ([None]) until an
    assignment to the key [__proto__]: that name is a setter of
    [Object.prototype], which makes the assigned meta the prototype of
    the dictionary. *)
Record Dictionary := mkDictionary {
  own : gmap (list N) ExistingProductMeta;
  prototype : option ExistingProductMeta
}.

(** [{}] *)
Definition emptyDictionary : Dictionary := {| own := ∅; prototype := None |}.

Definition PROTO : str := lit "__proto__".

(** [dictionary[key] = meta] *)
Definition assign (key : str) (meta : ExistingProductMeta) (d : Dictionary)
    : Dictionary :=
  if str_eqb key PROTO then {| own := own d; prototype := Some meta |}
  else {| own := <[key := meta]> (own d); prototype := prototype d |}.

(** What a read [dictionary[key]] gives: a meta (an own property, or
    the prototype under [__proto__]), a function of [Object.prototype]
    with its [name], [Object.prototype] itself, a field of the meta
    that is the prototype, or [undefined]. *)
Inductive Read :=
| RMeta (meta : ExistingProductMeta)
| RMethod (name : str)
| RObjectPrototype
| RString (s : str)
| RUndefined.

(** The functions [Object.prototype] holds, each with its [name]. *)
Definition objectPrototypeMethods : list (str * str) :=
  [ (lit "constructor", lit "Object");
    (lit "hasOwnProperty", lit "hasOwnProperty");
    (lit "isPrototypeOf", lit "isPrototypeOf");
    (lit "propertyIsEnumerable", lit "propertyIsEnumerable");
    (lit "toLocaleString", lit "toLocaleString");
    (lit "toString", lit "toString");
    (lit "valueOf", lit "valueOf");
    (lit "__defineGetter__", lit "__defineGetter__");
    (lit "__defineSetter__", lit "__defineSetter__");
    (lit "__lookupGetter__", lit "__lookupGetter__");
    (lit "__lookupSetter__", lit "__lookupSetter__") ].

(** A read that reaches [Object.prototype]; the getter [__proto__]
    answers with the prototype of the dictionary. *)
Definition readObjectPrototype (prototype : option ExistingProductMeta)
    (key : str) : Read :=
  if str_eqb key PROTO then
    match prototype with
    | Some meta => RMeta meta
    | None => RObjectPrototype
    end
  else
    match map_get key objectPrototypeMethods with
    | Some name => RMethod name
    | None => RUndefined
    end.

(** A read that reaches the own properties of a meta: [id], [name],
    [updatedAt], [productCode]. *)
Definition readMeta (meta : ExistingProductMeta) (key : str) : option Read :=
  if str_eqb key (lit "id") then Some (RString (meta_id meta))
  else if str_eqb key (lit "name") then Some (RString (meta_name meta))
  else if str_eqb key (lit "updatedAt") then
    Some (RString (meta_updatedAt meta))
  else if str_eqb key (lit "productCode") then
    Some (match meta_productCode meta with
          | Some code => RString code
          | None => RUndefined
          end)
  else None.

(** [dictionary[key]]: the own property, or else what the chain of
    prototypes holds. *)
Definition read (d : Dictionary) (key : str) : Read :=
  match own d !! key with
  | Some meta => RMeta meta
  | None =>
      match prototype d with
      | Some meta =>
          match readMeta meta key with
          | Some value => value
          | None => readObjectPrototype (Some meta) key
          end
      | None => readObjectPrototype None key
      end
  end.

(** [if (match)] *)
Definition read_truthy (value : Read) : bool :=
  match value with
  | RMeta _ | RMethod _ | RObjectPrototype => true
  | RString s => nonempty s
  | RUndefined => false
  end.

(** [match.id], [match.name], [match.updatedAt] *)
Definition read_id (value : Read) : option str :=
  match value with RMeta meta => Some (meta_id meta) | _ => None end.

Definition read_name (value : Read) : option str :=
  match value with
  | RMeta meta => Some (meta_name meta)
  | RMethod name => Some name
  | _ => None
  end.

Definition read_updatedAt (value : Read) : option str :=
  match value with RMeta meta => Some (meta_updatedAt meta) | _ => None end.

(** The state [existingProducts]: two objects used as dictionaries. *)
Record ExistingProducts := mkExistingProducts {
  byCode : Dictionary;
  byName : Dictionary
}.

Section WithRuntime.
Context `{JSRuntime}.

(** [value ? value.toString().trim().toLowerCase() : ''] *)
Definition normalizeKey (value : option str) : str :=
  if truthy value then toLowerCase (trim (default [] value)) else [].

Definition detectExistingProduct (existingProducts : ExistingProducts)
    (code nm : str) : option (Read * ExistingMatchType) :=
  let codeKey := normalizeKey (Some code) in
  let codeMatch :=
    if nonempty codeKey then read (byCode existingProducts) codeKey
    else RUndefined in
  if read_truthy codeMatch then Some (codeMatch, match_code)
  else
    let nameKey := normalizeKey (Some nm) in
    let nameMatch :=
      if nonempty nameKey then read (byName existingProducts) nameKey
      else RUndefined in
    if read_truthy nameMatch then Some (nameMatch, match_by_name)
    else None.

(** The function mapped over [prev] by the re-detection effect,
    together with the value it gives to [mutated]. *)
Definition redetectProduct (existingProducts : ExistingProducts)
    (product : ParsedProduct) : ParsedProduct * bool :=
  match detectExistingProduct existingProducts
          (productCode product) (name product) with
  | Some (found, type) =>
      let alreadyMatched :=
        bool_decide (existingProductId product = read_id found) &&
        bool_decide (existingMatchType product = Some type) in
      if alreadyMatched then (product, false)
      else
        (with_action
           (if truthy (existingProductId product) then action product
            else skip)
           (with_existing (read_id found) (read_name found)
              (read_updatedAt found) (Some type) product),
         true)
  | None =>
      if truthy (existingProductId product) then
        (with_action
           (match action product with skip => skip | _ => create end)
           (with_existing None None None None product),
         true)
      else (product, false)
  end.

(** The effect of lines 841-886 on the state [parsedData]. *)
Definition redetect (existingLoaded : bool)
    (existingProducts : ExistingProducts) (prev : list ParsedProduct)
    : list ParsedProduct :=
  if negb existingLoaded then prev
  else
    let results := List.map (redetectProduct existingProducts) prev in
    let mutated := existsb snd results in
    let next := List.map fst results in
    if mutated then next else prev.

End WithRuntime.

End Detector.

(** ** The batched execution engine (page.tsx, lines 227-251, 390-580) *)

Module Engine.

(** *** Thrown values and [extractErrorDetails]

    The shapes [extractErrorDetails] tells apart. A numeric property
    is [Some] when [typeof] answers ['number']; status codes are
    integers. *)

Record StatusProps := mkStatusProps {
  prop_code : option Z;
  prop_status : option Z;
  prop_statusCode : option Z;
  prop_responseStatus : option Z;
  prop_responseStatusCode : option Z;
  prop_type : option str
}.

Inductive ThrownValue :=
  (** [error instanceof AppwriteException]; [code] is [None] when it
      is not a finite number *)
| AppwriteException (code : option Z) (message : str) (type : str)
  (** any other [Error] *)
| ErrorInstance (message : str) (props : StatusProps)
  (** an object that is no [Error] *)
| ObjectValue (message : option str) (props : StatusProps)
  (** anything else: [Some (String(error))] for a truthy value, [None]
      for a falsy one *)
| OtherValue (text : option str).

Record ErrorDetails := mkErrorDetails {
  d_code : option Z;
  d_message : option str;
  d_errorType : option str
}.

(** [a ?? b] *)
Definition orElse {A} (a b : option A) : option A :=
  match a with Some _ => a | None => b end.

(** [s || undefined] *)
Definition orUndefined (s : str) : option str :=
  if nonempty s then Some s else None.

Definition statusOf (props : StatusProps) : option Z :=
  orElse (prop_code props)
    (orElse (prop_status props)
       (orElse (prop_statusCode props)
          (orElse (prop_responseStatus props)
             (prop_responseStatusCode props)))).

Definition extractErrorDetails (error : ThrownValue) : ErrorDetails :=
  match error with
  | AppwriteException code message type =>
      {| d_code := code;
         d_message := orUndefined message;
         d_errorType := orUndefined type |}
  | ErrorInstance message props =>
      {| d_code := statusOf props;
         d_message := Some message;
         d_errorType := prop_type props |}
  | ObjectValue message props =>
      {| d_code := statusOf props;
         d_message := message;
         d_errorType := prop_type props |}
  | OtherValue text =>
      {| d_code := None; d_message := text; d_errorType := None |}
  end.

Definition retryableCodes : list Z := [408; 425; 429; 500; 502; 503; 504]%Z.

Definition retryableTexts : list str :=
  [lit "429"; lit "too many requests"; lit "rate limit"; lit "timeout";
   lit "network error"; lit "failed to fetch"].

Section WithRuntime.
Context `{JSRuntime}.

Definition defaultShouldRetry (error : ThrownValue) : bool :=
  let details := extractErrorDetails error in
  let byCode :=
    match d_code details with
    | Some code =>
        negb (code =? 0)%Z && existsb (fun c => (c =? code)%Z) retryableCodes
    | None => false
    end in
  if byCode then true
  else
    match d_message details with
    | Some message =>
        let lowered := toLowerCase message in
        existsb (fun text => includes lowered text) retryableTexts
    | None => false
    end.

End WithRuntime.

(** *** Options, failures, the observable log *)

Section Engine.
Context `{JSRuntime}.

(** The item type, and the state of everything the handler acts on. *)
Variables (T W : Type).

Record RateLimitOptions := mkRateLimitOptions {
  batchSize : nat;
  batchDelayMs : Z;
  parallel : nat;
  perItemDelayMs : Z;
  maxRetries : nat;
  retryInitialDelayMs : Z;
  retryBackoffMultiplier : Z;
  shouldRetry : option (ThrownValue -> T -> bool);
  onProgress : option (nat -> nat -> W -> W)
}.

Record ProcessFailure := mkProcessFailure {
  f_index : nat;
  f_item : T;
  f_error : ThrownValue;
  f_attempts : nat;
  f_code : option Z;
  f_message : option str;
  f_errorType : option str
}.

(** What a run does that can be seen from outside: it settles a
    handler call, sleeps, calls [onProgress]. *)
Inductive Event :=
| EvAttempt (index : nat) (item : T) (attempts : nat)
    (outcome : option ThrownValue)
| EvSleep (ms : Z)
| EvProgress (completed total : nat).

(** The variables the closures of [processWithRateLimit] share
    ([failures], [completed]), the handler's world, and the log. *)
Record Run := mkRun {
  world : W;
  failures : list ProcessFailure;
  completed : nat;
  events : list Event
}.

Definition log (e : Event) (r : Run) : Run :=
  mkRun (world r) (failures r) (completed r) (events r ++ [e]).

(** [await sleep(ms)] *)
Definition sleep (ms : Z) (r : Run) : Run := log (EvSleep ms) r.

(** A call [await handler(item, index)] acts on the world and either
    returns ([None]) or throws. *)
Variable handler : T -> nat -> W -> W * option ThrownValue.
Variable options : RateLimitOptions.
Variable total : nat.

Definition effectiveShouldRetry (error : ThrownValue) (item : T) : bool :=
  match shouldRetry options with
  | Some predicate => predicate error item
  | None => defaultShouldRetry error
  end.

Definition backoffDelay (attempts : nat) : Z :=
  (retryInitialDelayMs options *
   retryBackoffMultiplier options ^ Z.of_nat (attempts - 1))%Z.

Definition canRetry (attempts : nat) (error : ThrownValue) (item : T) : bool :=
  (attempts <=? maxRetries options)%nat && effectiveShouldRetry error item.

Definition failureOf (index : nat) (item : T) (error : ThrownValue)
    (attempts : nat) : ProcessFailure :=
  let errorDetails := extractErrorDetails error in
  {| f_index := index; f_item := item; f_error := error;
     f_attempts := attempts;
     f_code := d_code errorDetails;
     f_message := d_message errorDetails;
     f_errorType := d_errorType errorDetails |}.

(** One turn of the [while (true)] of [executeItem], [attempts] already
    incremented. The flag tells whether the loop goes on. *)
Definition tryOnce (item : T) (index attempts : nat) (r : Run) : Run * bool :=
  let '(w, outcome) := handler item index (world r) in
  let r := log (EvAttempt index item attempts outcome)
             (mkRun w (failures r) (completed r) (events r)) in
  match outcome with
  | None => (r, false)
  | Some error =>
      if negb (canRetry attempts error item) then
        (mkRun (world r)
           (failures r ++ [failureOf index item error attempts])
           (completed r) (events r),
         false)
      else (sleep (backoffDelay attempts) r, true)
  end.

(** What [executeItem] does once the loop is left. *)
Definition afterLoop (r : Run) : Run :=
  let completed := S (completed r) in
  let r :=
    match onProgress options with
    | Some callback =>
        log (EvProgress completed total)
          (mkRun (callback completed total (world r)) (failures r)
             completed (events r))
    | None => mkRun (world r) (failures r) completed (events r)
    end in
  if (0 <? perItemDelayMs options)%Z then sleep (perItemDelayMs options) r
  else r.

(** The [while (true)] loop; [None] when [fuel] turns do not leave it. *)
Fixpoint executeLoop (fuel : nat) (item : T) (index attempts : nat) (r : Run)
    : option Run :=
  match fuel with
  | O => None
  | S fuel =>
      let attempts := S attempts in
      match tryOnce item index attempts r with
      | (r, true) => executeLoop fuel item index attempts r
      | (r, false) => Some r
      end
  end.

(** [executeItem]: no item is tried more than [maxRetries + 1] times. *)
Definition executeItem (item : T) (index : nat) (r : Run) : option Run :=
  afterLoop <$> executeLoop (S (maxRetries options)) item index 0 r.

(** The branch [workerCount <= 1]: the items of the batch in turn. *)
Fixpoint runSequential (batchItems : list T) (offset localIndex : nat)
    (r : Run) : option Run :=
  match batchItems with
  | [] => Some r
  | item :: rest =>
      match executeItem item (offset + localIndex) r with
      | Some r => runSequential rest offset (S localIndex) r
      | None => None
      end
  end.

(** *** The worker pool

    Between two [await]s a worker runs alone. A worker is suspended in
    the handler call of an item, in the sleep before a retry, or
    between two items; which suspended worker goes on next is decided
    outside the program, by a schedule. *)

Inductive Worker :=
| WAwait (item : T) (index attempts : nat)
| WBackoff (item : T) (index attempts : nat)
| WPace
| WDone.

Record Pool := mkPool {
  cursor : nat;
  workers : list Worker;
  run : Run
}.

(** The head of the worker's loop: claim the item under the cursor and
    call the handler, or leave. *)
Definition pull (batchItems : list T) (offset w : nat) (p : Pool) : Pool :=
  match batchItems !! cursor p with
  | Some item =>
      mkPool (S (cursor p))
        (<[w := WAwait item (offset + cursor p) 1]> (workers p)) (run p)
  | None => mkPool (cursor p) (<[w := WDone]> (workers p)) (run p)
  end.

(** Worker [w] goes on until its next [await]. *)
Definition resume (batchItems : list T) (offset w : nat) (p : Pool) : Pool :=
  match workers p !! w with
  | Some (WAwait item index attempts) =>
      match tryOnce item index attempts (run p) with
      | (r, true) =>
          mkPool (cursor p) (<[w := WBackoff item index attempts]> (workers p)) r
      | (r, false) =>
          mkPool (cursor p) (<[w := WPace]> (workers p)) (afterLoop r)
      end
  | Some (WBackoff item index attempts) =>
      mkPool (cursor p) (<[w := WAwait item index (S attempts)]> (workers p))
        (run p)
  | Some WPace => pull batchItems offset w p
  | Some WDone | None => p
  end.

Definition is_live (s : Worker) : bool :=
  match s with WDone => false | _ => true end.

(** The workers that are still suspended, by position. *)
Definition live (ws : list Worker) : list nat :=
  List.filter (fun w => is_live (default WDone (ws !! w))) (seq 0 (length ws)).

(** [Array.from({ length: workerCount }, async () => ...)]: every
    worker runs up to its first [await] as it is created. *)
Definition startPool (batchItems : list T) (offset workerCount : nat)
    (r : Run) : Pool :=
  foldl (fun p w => pull batchItems offset w p)
    (mkPool 0 (replicate workerCount WPace) r) (seq 0 workerCount).

(** [await Promise.all(workers)] under the schedule [choose], which
    picks at every step one of the suspended workers. *)
Fixpoint runPool (fuel : nat) (choose : nat -> nat) (step : nat)
    (batchItems : list T) (offset : nat) (p : Pool) : option Run :=
  match fuel with
  | O => None
  | S fuel =>
      match live (workers p) with
      | [] => Some (run p)
      | (w0 :: _) as ready =>
          let w := nth (choose step mod length ready) ready w0 in
          runPool fuel choose (S step) batchItems offset
            (resume batchItems offset w p)
      end
  end.

Definition runParallel (choose : nat -> nat) (batchItems : list T)
    (offset workerCount : nat) (r : Run) : option Run :=
  runPool (S (length batchItems * (2 * maxRetries options + 2)))
    choose 0 batchItems offset (startPool batchItems offset workerCount r).

(** *** The loop over the batches *)

Variable items : list T.

(** One turn of [for (offset = 0; offset < total; offset += batchSize)]. *)
Definition runBatch (schedule : nat -> nat -> nat) (offset : nat) (r : Run)
    : option Run :=
  let batchItems := firstn (batchSize options) (skipn offset items) in
  let normalizedParallel := Nat.max 1 (parallel options) in
  let workerCount := Nat.min normalizedParallel (length batchItems) in
  let r :=
    if (workerCount <=? 1)%nat then runSequential batchItems offset 0 r
    else runParallel (schedule offset) batchItems offset workerCount r in
  match r with
  | None => None
  | Some r =>
      let processedSoFar := (offset + length batchItems)%nat in
      Some (if (processedSoFar <? total)%nat && (0 <? batchDelayMs options)%Z
            then sleep (batchDelayMs options) r else r)
  end.

Fixpoint runBatches (fuel : nat) (schedule : nat -> nat -> nat)
    (offset : nat) (r : Run) : option Run :=
  match fuel with
  | O => None
  | S fuel =>
      if (offset <? total)%nat then
        match runBatch schedule offset r with
        | Some r => runBatches fuel schedule (offset + batchSize options) r
        | None => None
        end
      else Some r
  end.

(** *** Reading the log *)

(** An attempt after which [executeItem] leaves its loop. *)
Definition isTerminal (e : Event) : bool :=
  match e with
  | EvAttempt _ item attempts (Some error) => negb (canRetry attempts error item)
  | EvAttempt _ _ _ None => true
  | _ => false
  end.

(** The indices of the items that reached their last attempt, in the
    order in which they did. *)
Definition settled (evs : list Event) : list nat :=
  flat_map
    (fun e =>
       match e with
       | EvAttempt index _ _ _ => if isTerminal e then [index] else []
       | _ => []
       end) evs.

(** The failure record of every attempt that failed for good. *)
Definition failuresOf (evs : list Event) : list ProcessFailure :=
  flat_map
    (fun e =>
       match e with
       | EvAttempt index item attempts (Some error) =>
           if canRetry attempts error item then []
           else [failureOf index item error attempts]
       | _ => []
       end) evs.

(** The arguments of the calls of [onProgress]. *)
Definition progressOf (evs : list Event) : list (nat * nat) :=
  flat_map
    (fun e => match e with EvProgress c t => [(c, t)] | _ => [] end) evs.

(** The attempts on one index, read in order: they are numbered from
    one, every attempt but a terminal one is followed by the next, and
    nothing follows a terminal one. *)
Inductive ItemStatus :=
| Open (next : nat)
| Closed
| Broken.

Definition statusStep (index : nat) (s : ItemStatus) (e : Event) : ItemStatus :=
  match e with
  | EvAttempt i _ attempts _ =>
      if (i =? index)%nat then
        match s with
        | Open next =>
            if (attempts =? next)%nat then
              if isTerminal e then Closed else Open (S next)
            else Broken
        | _ => Broken
        end
      else s
  | _ => s
  end.

Definition itemStatus (index : nat) (evs : list Event) : ItemStatus :=
  foldl (statusStep index) (Open 1) evs.

(** Whether every failed attempt that is retried is directly followed
    by the sleep of its back-off delay. *)
Inductive SleepCheck :=
| Quiet
| Owed (ms : Z)
| Missed.

Definition sleepStep (s : SleepCheck) (e : Event) : SleepCheck :=
  match s with
  | Missed => Missed
  | Owed ms =>
      match e with
      | EvSleep ms' => if (ms' =? ms)%Z then Quiet else Missed
      | _ => Missed
      end
  | Quiet =>
      match e with
      | EvAttempt _ item attempts (Some error) =>
          if canRetry attempts error item then Owed (backoffDelay attempts)
          else Quiet
      | _ => Quiet
      end
  end.

Definition backoffCheck (evs : list Event) : SleepCheck :=
  foldl sleepStep Quiet evs.

(** The indices of the attempts, in order. *)
Definition attemptIndices (evs : list Event) : list nat :=
  flat_map
    (fun e => match e with EvAttempt index _ _ _ => [index] | _ => [] end) evs.

End Engine.

Arguments mkRun {T W}.
Arguments world {T W}.
Arguments failures {T W}.
Arguments completed {T W}.
Arguments events {T W}.
Arguments EvAttempt {T}.
Arguments EvSleep {T}.
Arguments EvProgress {T}.
Arguments WAwait {T}.
Arguments WBackoff {T}.
Arguments WPace {T}.
Arguments WDone {T}.

(** [processWithRateLimit(items, handler, options)], from the world [w]
    at the call. The settling order of concurrent handler calls in the
    batch at [offset] is [schedule offset]. [None] stands for a run
    that never returns. *)
Definition processWithRateLimit `{JSRuntime} {T W : Type} (items : list T)
    (handler : T -> nat -> W -> W * option ThrownValue)
    (options : RateLimitOptions T W) (schedule : nat -> nat -> nat) (w : W)
    : option (Run T W) :=
  let total := length items in
  let r := mkRun w [] 0%nat [] in
  if (total =? 0)%nat then Some r
  else runBatches T W handler options total items (S total) schedule 0%nat r.

End Engine.

(** ** The remote document store

    Modelled from the spec: the remote document store is an external
    service, not code of the repository. Section 6 of the specification
    describes it: documents addressed by a store-assigned id, created,
    updated, deleted and listed, a listing filtered by equality
    predicates and limited in length. Any request may fail. *)

Module Store.
Import Grouper Engine.

Record CategoryMeta := mkCategoryMeta {
  cm_id : str;
  cm_slug : option str;
  cm_label : str;
  cm_path : list str;
  cm_ancestors : list str
}.

(** The data of a category document. *)
Record CategoryData := mkCategoryData {
  cd_userId : str;
  cd_businessId : str;
  cd_name : str;
  cd_slug : str;
  cd_parentId : option str;
  cd_sortOrder : Z
}.

(** The data of a product document; a key that a payload leaves out is
    [None]. [category] holds the meta record of which the code stores
    the JSON text. *)
Record ProductData := mkProductData {
  pd_name : str;
  pd_description : option str;
  pd_category : option CategoryMeta;
  pd_basePrice : Z;
  pd_hasVariants : bool;
  pd_businessId : option str;
  pd_userId : option str;
  pd_archived : option bool;
  pd_images : option (list str)
}.

Record VariantData := mkVariantData {
  vd_productId : str;
  vd_userId : option str;
  vd_businessId : option str;
  vd_variantName : str;
  vd_attributes : str * str;       (* Size, Finish *)
  vd_price : Q;
  vd_sku : option str;
  vd_enabled : bool;
  vd_images : list str
}.

Inductive Request :=
| CreateCategory (data : CategoryData)
| CreateProduct (data : ProductData)
| UpdateProduct (id : str) (data : ProductData)
| ListVariants (productId : str) (businessId : option str) (limit : nat)
| DeleteVariant (id : str)
| CreateVariant (data : VariantData)
  (** not a request: a [sleep] between requests *)
| Pause (ms : Z).

Record Remote := mkRemote {
  categoryDocs : list (str * CategoryData);
  productDocs : list (str * ProductData);
  variantDocs : list (str * VariantData);
  nextId : N;
  (** the fault, if any, of the n-th request *)
  faults : nat -> option ThrownValue;
  requests : nat;
  trace : list Request
}.

(** A remote call: a new state and a result or a thrown value. *)
Definition M (A : Type) : Type := Remote -> Remote * (ThrownValue + A).

Definition ret {A} (a : A) : M A := fun s => (s, inr a).

Definition bind {A B} (m : M A) (k : A -> M B) : M B :=
  fun s =>
    match m s with
    | (s, inr a) => k a s
    | (s, inl err) => (s, inl err)
    end.

(** The decimal digits of a number, as in a template literal. *)
Fixpoint digits_of (d : Decimal.uint) : str :=
  match d with
  | Decimal.Nil => []
  | Decimal.D0 d => 48 :: digits_of d
  | Decimal.D1 d => 49 :: digits_of d
  | Decimal.D2 d => 50 :: digits_of d
  | Decimal.D3 d => 51 :: digits_of d
  | Decimal.D4 d => 52 :: digits_of d
  | Decimal.D5 d => 53 :: digits_of d
  | Decimal.D6 d => 54 :: digits_of d
  | Decimal.D7 d => 55 :: digits_of d
  | Decimal.D8 d => 56 :: digits_of d
  | Decimal.D9 d => 57 :: digits_of d
  end.

Definition decimal (n : N) : str := digits_of (N.to_uint n).

Definition record (q : Request) (s : Remote) : Remote :=
  mkRemote (categoryDocs s) (productDocs s) (variantDocs s) (nextId s)
    (faults s) (requests s) (trace s ++ [q]).

(** A request reaches the store, which answers or fails. *)
Definition request {A} (q : Request) (serve : Remote -> Remote * (ThrownValue + A))
    : M A :=
  fun s =>
    let s := record q s in
    let n := requests s in
    let s := mkRemote (categoryDocs s) (productDocs s) (variantDocs s)
               (nextId s) (faults s) (S n) (trace s) in
    match faults s n with
    | Some err => (s, inl err)
    | None => serve s
    end.

Definition notFound : ThrownValue :=
  AppwriteException (Some 404%Z)
    (lit "Document with the requested ID could not be found.")
    (lit "document_not_found").

(** [ID.unique()] *)
Definition freshId (s : Remote) : str := lit "doc" ++ decimal (nextId s).

Definition createCategoryDocument (data : CategoryData) : M (str * CategoryData) :=
  request (CreateCategory data) (fun s =>
    let id := freshId s in
    (mkRemote (categoryDocs s ++ [(id, data)]) (productDocs s) (variantDocs s)
       (nextId s + 1) (faults s) (requests s) (trace s),
     inr (id, data))).

Definition createProductDocument (data : ProductData) : M str :=
  request (CreateProduct data) (fun s =>
    let id := freshId s in
    (mkRemote (categoryDocs s) (productDocs s ++ [(id, data)]) (variantDocs s)
       (nextId s + 1) (faults s) (requests s) (trace s),
     inr id)).

(** The keys present in the payload replace the stored ones. *)
Definition mergeProduct (old new : ProductData) : ProductData :=
  {| pd_name := pd_name new;
     pd_description := pd_description new;
     pd_category := pd_category new;
     pd_basePrice := pd_basePrice new;
     pd_hasVariants := pd_hasVariants new;
     pd_businessId := orElse (pd_businessId new) (pd_businessId old);
     pd_userId := orElse (pd_userId new) (pd_userId old);
     pd_archived := orElse (pd_archived new) (pd_archived old);
     pd_images := orElse (pd_images new) (pd_images old) |}.

Definition updateProductDocument (id : str) (data : ProductData) : M unit :=
  request (UpdateProduct id data) (fun s =>
    if map_has id (productDocs s) then
      (mkRemote (categoryDocs s)
         (map_modify id (fun old => mergeProduct old data) (productDocs s))
         (variantDocs s) (nextId s) (faults s) (requests s) (trace s),
       inr tt)
    else (s, inl notFound)).

(** [Query.equal('productId', ...)], [Query.equal('businessId', ...)]
    when given, [Query.limit(limit)]. *)
Definition matchesVariant (productId : str) (businessId : option str)
    (doc : str * VariantData) : bool :=
  str_eqb (vd_productId (snd doc)) productId &&
  match businessId with
  | Some b => bool_decide (vd_businessId (snd doc) = Some b)
  | None => true
  end.

Definition listVariantDocuments (productId : str) (businessId : option str)
    (limit : nat) : M (list (str * VariantData)) :=
  request (ListVariants productId businessId limit) (fun s =>
    (s, inr (firstn limit
               (List.filter (matchesVariant productId businessId)
                  (variantDocs s))))).

Definition deleteVariantDocument (id : str) : M unit :=
  request (DeleteVariant id) (fun s =>
    if map_has id (variantDocs s) then
      (mkRemote (categoryDocs s) (productDocs s)
         (List.filter (fun doc => negb (str_eqb (fst doc) id)) (variantDocs s))
         (nextId s) (faults s) (requests s) (trace s),
       inr tt)
    else (s, inl notFound)).

Definition createVariantDocument (data : VariantData) : M str :=
  request (CreateVariant data) (fun s =>
    let id := freshId s in
    (mkRemote (categoryDocs s) (productDocs s) (variantDocs s ++ [(id, data)])
       (nextId s + 1) (faults s) (requests s) (trace s),
     inr id)).

(** [await sleep(ms)] between requests. *)
Definition pause (ms : Z) (s : Remote) : Remote := record (Pause ms) s.

End Store.

(** ** The import orchestrator ([handleImport], page.tsx, lines 1216-1713) *)

Module Orchestrator.
Import Categories CategoryPaths Grouper Resolver Engine Store.

Definition IMPORT_RATE_LIMIT_batchSize : nat := 3.
Definition IMPORT_RATE_LIMIT_batchDelayMs : Z := 1500.
Definition IMPORT_RATE_LIMIT_parallel : nat := 1.
Definition IMPORT_RATE_LIMIT_perItemDelayMs : Z := 400.
Definition IMPORT_RATE_LIMIT_maxRetries : nat := 5.
Definition IMPORT_RATE_LIMIT_retryInitialDelayMs : Z := 1500.
Definition IMPORT_RATE_LIMIT_retryBackoffMultiplier : Z := 2.
Definition IMPORT_RATE_LIMIT_requestPauseMs : Z := 250.

(** What [handleImport] reads from the page: component state, the
    operator's answer to [confirm], the clock. *)
Record Page := mkPage {
  isDemoUser : bool;
  userId : option str;
  currentBusiness : option str;          (* currentBusiness.$id *)
  parsedData : list ParsedProduct;
  categories : list Category;
  categoryCreationChoices : gmap (list N) bool;
  confirmAnswer : bool;
  now : N                                 (* Date.now() *)
}.

(** How a call of [handleImport] ends. *)
Inductive Outcome :=
| DemoReadOnly
| NotAuthenticated
| NoBusinessSelected
| NoData
| NothingSelected
| Declined
| UnresolvedInPlan (products : list ParsedProduct)
| Rejected (error : ThrownValue)           (* thrown while creating categories *)
| UnresolvedAfterCreation (products : list ParsedProduct)
| Imported (count : nat) (failed : list (ProcessFailure ParsedProduct))
| NeverReturns.

Notation "'let*' x := m 'in' k" := (bind m (fun x => k))
  (at level 10, x name, m at level 100, k at level 200).

Fixpoint forEach {A} (l : list A) (body : A -> M unit) : M unit :=
  match l with
  | [] => ret tt
  | a :: rest => let* _ := body a in forEach rest body
  end.

(** [runWithRequestPause]: after a failure with a retryable status the
    extra delay, in every case the request pause. *)
Definition runWithRequestPause {A} (action : M A) : M A :=
  fun s =>
    match action s with
    | (s, inr a) =>
        ((if (0 <? IMPORT_RATE_LIMIT_requestPauseMs)%Z
          then pause IMPORT_RATE_LIMIT_requestPauseMs s else s), inr a)
    | (s, inl error) =>
        let s :=
          match d_code (extractErrorDetails error) with
          | Some code =>
              if negb (code =? 0)%Z &&
                 existsb (fun c => (c =? code)%Z) retryableCodes
              then
                let extraDelay :=
                  (IMPORT_RATE_LIMIT_retryInitialDelayMs *
                   IMPORT_RATE_LIMIT_retryBackoffMultiplier)%Z in
                if (0 <? extraDelay)%Z then pause extraDelay s else s
              else s
          | None => s
          end in
        ((if (0 <? IMPORT_RATE_LIMIT_requestPauseMs)%Z
          then pause IMPORT_RATE_LIMIT_requestPauseMs s else s), inl error)
    end.

Section WithRuntime.
Context `{JSRuntime}.

Definition selectedKeysOf (proposedCategories : list ProposedCategory)
    (choices : gmap (list N) bool) : gset (list N) :=
  list_to_set
    (List.map pc_key
       (List.filter (fun proposal => default false (choices !! pc_key proposal))
          proposedCategories)).

(** The [for (const segment of segments)] of [canResolveCategoryForProduct]. *)
Fixpoint canResolveSegments (index : gmap (list N) (gmap (list N) Category))
    (selectedKeys : gset (list N)) (segments : list str)
    (parentId : option str) (parentPath : list str) : bool :=
  match segments with
  | [] => true
  | segment :: rest =>
      match findCategoryInIndex index parentId segment with
      | Some existing =>
          canResolveSegments index selectedKeys rest (Some (cat_id existing))
            (parentPath ++ [cat_name existing])
      | None =>
          let nextPath := parentPath ++ [segment] in
          let key := buildCategoryPathKey nextPath in
          if negb (bool_decide (key ∈ selectedKeys)) then false
          else canResolveSegments index selectedKeys rest None nextPath
      end
  end.

Definition canResolveCategoryForProduct
    (index : gmap (list N) (gmap (list N) Category))
    (selectedKeys : gset (list N)) (product : ParsedProduct) : bool :=
  if truthy (categoryId product) then true
  else
    let rawCategory := category product in
    if negb (nonempty rawCategory) || negb (nonempty (trim rawCategory))
    then true
    else
      canResolveSegments index selectedKeys
        (parseCategorySegments (Some rawCategory)) None [].

(** The state of the category-creation loop. *)
Record Creation := mkCreation {
  createdCategoryIds : list (str * str);
  createdCategories : list Category;
  categoryIndexMutable : gmap (list N) (gmap (list N) Category)
}.

(** [s.replace(/\s+/g, '-')] *)
Fixpoint dash_spaces (s : str) (in_run : bool) : str :=
  match s with
  | [] => []
  | c :: rest =>
      if is_space c then
        if in_run then dash_spaces rest true else DASH :: dash_spaces rest true
      else c :: dash_spaces rest false
  end.

(** [a || b] on strings *)
Definition orString (a b : str) : str := if nonempty a then a else b.

(** [createdCategoryIds.set(key, id)] *)
Definition map_set {V} (key : str) (v : V) (m : list (str * V))
    : list (str * V) :=
  if map_has key m then map_modify key (fun _ => v) m else m ++ [(key, v)].

(** The body of [for (const proposal of categoriesToCreate)]. *)
Definition createCategory (page : Page) (businessId : str)
    (proposal : ProposedCategory) (c : Creation) : M Creation :=
  let parentId := pc_parentExistingId proposal in
  let parentId :=
    if negb (truthy parentId) && truthy (pc_parentKey proposal) then
      map_get (default [] (pc_parentKey proposal)) (createdCategoryIds c)
    else parentId in
  match findCategoryInIndex (categoryIndexMutable c) parentId
          (pc_name proposal) with
  | Some existing =>
      ret (mkCreation
             (map_set (pc_key proposal) (cat_id existing) (createdCategoryIds c))
             (createdCategories c) (categoryIndexMutable c))
  | None =>
      let fallbackSlug :=
        if nonempty (pc_slug proposal) then pc_slug proposal
        else
          orString (slugify (pc_name proposal))
            (orString (dash_spaces (toLowerCase (trim (pc_name proposal))) false)
               (lit "category-" ++ decimal (now page))) in
      let sortOrder := (Z.of_nat (pc_depth proposal) * 100)%Z in
      let* createdDoc := runWithRequestPause
        (createCategoryDocument
           {| cd_userId := default [] (userId page);
              cd_businessId := businessId;
              cd_name := pc_name proposal;
              cd_slug := fallbackSlug;
              cd_parentId := parentId;
              cd_sortOrder := sortOrder |}) in
      let normalizedCategory :=
        {| cat_id := fst createdDoc;
           cat_name := cd_name (snd createdDoc);
           cat_slug :=
             Some (if nonempty (cd_slug (snd createdDoc))
                   then cd_slug (snd createdDoc) else fallbackSlug);
           cat_description := None;
           cat_image := None;
           cat_parentId :=
             if truthy (cd_parentId (snd createdDoc))
             then cd_parentId (snd createdDoc) else parentId;
           cat_sortOrder := Some (cd_sortOrder (snd createdDoc)) |} in
      ret (mkCreation
             (map_set (pc_key proposal) (cat_id normalizedCategory)
                (createdCategoryIds c))
             (createdCategories c ++ [normalizedCategory])
             (addCategoryToIndex (categoryIndexMutable c) normalizedCategory))
  end.

Fixpoint createCategories (page : Page) (businessId : str)
    (categoriesToCreate : list ProposedCategory) (c : Creation) : M Creation :=
  match categoriesToCreate with
  | [] => ret c
  | proposal :: rest =>
      let* c := createCategory page businessId proposal c in
      createCategories page businessId rest c
  end.

(** The function mapped over [productsToProcess] for
    [productsReadyForImport]. *)
Definition reresolve (effectiveCategoryLookup effectiveCategorySlugMap
    effectiveCategoryNameMap : gmap (list N) Category)
    (product : ParsedProduct) : ParsedProduct :=
  let byId :=
    match categoryId product with
    | Some id =>
        if nonempty id then
          match effectiveCategoryLookup !! id with
          | Some matched =>
              Some (resolvedFrom matched effectiveCategoryLookup
                      (default match_name (categoryMatchType product)))
          | None => None
          end
        else None
    | None => None
    end in
  let resolved :=
    match byId with
    | Some r => Some r
    | None =>
        resolveCategoryFromMaps (Some (category product))
          effectiveCategoryLookup effectiveCategorySlugMap
          effectiveCategoryNameMap
    end in
  match resolved with
  | Some r =>
      with_category (Some (rc_id r)) (rc_slug r) (Some (rc_path r))
        (Some (rc_label r)) (Some (rc_ancestry r)) (Some (rc_matchType r))
        product
  | None => with_category None None None None None None product
  end.

(** The filter that yields [unresolvedAfterCreation]. *)
Definition unresolvedAfterCreation (products : list ParsedProduct)
    : list ParsedProduct :=
  List.filter
    (fun product =>
       nonempty (category product) &&
       (0 <? length (trim (category product)))%nat &&
       negb (truthy (categoryId product)))
    products.

(** [importProduct], the handler of the write phase. *)
Definition importProduct (page : Page) (businessId : str)
    (categoryLookupForImport : gmap (list N) Category)
    (product : ParsedProduct) : M unit :=
  let images := if nonempty (imageUrl product) then [imageUrl product] else [] in
  let resolvedPath :=
    match categoryPath product with
    | Some ((_ :: _) as path) => path
    | _ =>
        match categoryId product with
        | Some ((_ :: _) as id) => getCategoryPath id categoryLookupForImport
        | _ => []
        end
    end in
  let resolvedAncestors :=
    match categoryAncestors product with
    | Some ((_ :: _) as ancestors) => ancestors
    | _ =>
        match categoryId product with
        | Some ((_ :: _) as id) => getCategoryAncestry id categoryLookupForImport
        | _ => []
        end
    end in
  let categoryName :=
    if (0 <? length resolvedPath)%nat then last resolvedPath
    else
      if nonempty (category product) then orUndefined (trim (category product))
      else None in
  let categoryPathLabel :=
    orElse (categoryPathLabel product)
      (if (0 <? length resolvedPath)%nat
       then Some (formatCategoryPath resolvedPath) else None) in
  let matchedCategory :=
    match categoryId product with
    | Some ((_ :: _) as id) => categoryLookupForImport !! id
    | _ => None
    end in
  let categorySlug :=
    orElse (categorySlug product)
      (match matchedCategory with Some c => cat_slug c | None => None end) in
  let categoryLabel := orElse categoryPathLabel categoryName in
  let categoryMeta :=
    match categoryId product, categoryLabel with
    | Some ((_ :: _) as id), Some ((_ :: _) as label) =>
        Some {| cm_id := id;
                cm_slug :=
                  orElse categorySlug
                    (match matchedCategory with
                     | Some c => cat_slug c | None => None end);
                cm_label := label;
                cm_path := resolvedPath;
                cm_ancestors := resolvedAncestors |}
    | _, _ => None
    end in
  let baseProductData (forUser : option str) (archived : option bool)
      (imgs : option (list str)) :=
    {| pd_name := name product;
       pd_description :=
         orUndefined (orString (fullDescription product)
                        (shortDescription product));
       pd_category := categoryMeta;
       pd_basePrice := 0%Z;
       pd_hasVariants := (0 <? length (variants product))%nat;
       pd_businessId := Some businessId;
       pd_userId := forUser;
       pd_archived := archived;
       pd_images := imgs |} in
  let insertVariants (targetProductId : str) :=
    forEach (variants product) (fun variant =>
      let* _ := runWithRequestPause
        (createVariantDocument
           {| vd_productId := targetProductId;
              vd_userId := userId page;
              vd_businessId := Some businessId;
              vd_variantName := v_size variant ++ lit " - " ++ v_finish variant;
              vd_attributes := (v_size variant, v_finish variant);
              vd_price := v_price variant;
              vd_sku := orUndefined (v_sku variant);
              vd_enabled := true;
              vd_images := [] |}) in
      ret tt) in
  match action product, existingProductId product with
  | update, Some ((_ :: _) as existingProductId) =>
      let* _ := runWithRequestPause
        (updateProductDocument existingProductId
           (baseProductData None None
              (if (0 <? length images)%nat then Some images else None))) in
      let targetProductId := existingProductId in
      let* existingVariants := runWithRequestPause
        (listVariantDocuments targetProductId (Some businessId) 200) in
      let* existingVariants :=
        if (length existingVariants =? 0)%nat then
          runWithRequestPause (listVariantDocuments targetProductId None 200)
        else ret existingVariants in
      let* _ := forEach existingVariants (fun variant =>
        runWithRequestPause (deleteVariantDocument (fst variant))) in
      insertVariants targetProductId
  | _, _ =>
      let* createdProduct := runWithRequestPause
        (createProductDocument
           (baseProductData (userId page) (Some false) (Some images))) in
      insertVariants createdProduct
  end.

(** The handler as the engine sees it. *)
Definition importHandler (page : Page) (businessId : str)
    (lookup : gmap (list N) Category) (product : ParsedProduct) (index : nat)
    (s : Remote) : Remote * option ThrownValue :=
  match importProduct page businessId lookup product s with
  | (s, inr _) => (s, None)
  | (s, inl error) => (s, Some error)
  end.

Definition importOptions : RateLimitOptions ParsedProduct Remote :=
  {| batchSize := IMPORT_RATE_LIMIT_batchSize;
     batchDelayMs := IMPORT_RATE_LIMIT_batchDelayMs;
     parallel := IMPORT_RATE_LIMIT_parallel;
     perItemDelayMs := IMPORT_RATE_LIMIT_perItemDelayMs;
     maxRetries := IMPORT_RATE_LIMIT_maxRetries;
     retryInitialDelayMs := IMPORT_RATE_LIMIT_retryInitialDelayMs;
     retryBackoffMultiplier := IMPORT_RATE_LIMIT_retryBackoffMultiplier;
     shouldRetry := None;
     (* setProgress: component state, not the store *)
     onProgress := Some (fun _ _ s => s) |}.

(** What [handleImport] has in hand when the write phase is due. *)
Inductive Prepared :=
| Stopped (outcome : Outcome)
| Ready (businessId : str) (productsReadyForImport : list ParsedProduct)
    (categoryLookupForImport : gmap (list N) Category).

(** [handleImport] up to line 1479: the guards, the plan check, the
    category creation, the re-resolution. *)
Definition prepare (page : Page) (s : Remote) : Remote * Prepared :=
  if isDemoUser page then (s, Stopped DemoReadOnly)
  else if negb (truthy (userId page)) then (s, Stopped NotAuthenticated)
  else
    match currentBusiness page with
    | None => (s, Stopped NoBusinessSelected)
    | Some businessId =>
        if (length (parsedData page) =? 0)%nat then (s, Stopped NoData)
        else
          let productsToProcess :=
            List.filter (fun product => negb (bool_decide (action product = skip)))
              (parsedData page) in
          if (length productsToProcess =? 0)%nat then (s, Stopped NothingSelected)
          else if negb (confirmAnswer page) then (s, Stopped Declined)
          else
            let categoriesSnapshot := categories page in
            let proposedCategories :=
              buildProposedCategoriesForProducts (parsedData page)
                (categories page) in
            let selectedCategoryKeys :=
              selectedKeysOf proposedCategories (categoryCreationChoices page) in
            let categoryIndexForValidation :=
              buildCategoryIndexByParent categoriesSnapshot in
            let unresolvedProducts :=
              List.filter
                (fun product =>
                   negb (canResolveCategoryForProduct categoryIndexForValidation
                           selectedCategoryKeys product))
                productsToProcess in
            if (0 <? length unresolvedProducts)%nat
            then (s, Stopped (UnresolvedInPlan unresolvedProducts))
            else
              let categoriesSelectedForCreation :=
                List.filter
                  (fun proposal =>
                     default false
                       (categoryCreationChoices page !! pc_key proposal))
                  proposedCategories in
              let categoriesToCreate :=
                sort (fun a b => (Z.of_nat (pc_depth a) - Z.of_nat (pc_depth b))%Z)
                  categoriesSelectedForCreation in
              match createCategories page businessId categoriesToCreate
                      (mkCreation [] [] categoryIndexForValidation) s with
              | (s, inl error) => (s, Stopped (Rejected error))
              | (s, inr creation) =>
                  let categoriesAfterCreation :=
                    categoriesSnapshot ++ createdCategories creation in
                  let effectiveCategoryLookup :=
                    buildCategoryMap categoriesAfterCreation in
                  let effectiveCategorySlugMap :=
                    buildCategorySlugMap categoriesAfterCreation in
                  let effectiveCategoryNameMap :=
                    buildCategoryNameMap categoriesAfterCreation in
                  (s, Ready businessId
                        (List.map
                           (reresolve effectiveCategoryLookup
                              effectiveCategorySlugMap effectiveCategoryNameMap)
                           productsToProcess)
                        effectiveCategoryLookup)
              end
    end.

(** The write phase: the products through the engine. *)
Definition writeProducts (page : Page) (businessId : str)
    (productsReadyForImport : list ParsedProduct)
    (lookup : gmap (list N) Category) (schedule : nat -> nat -> nat)
    (s : Remote) : option (Run ParsedProduct Remote) :=
  processWithRateLimit productsReadyForImport
    (importHandler page businessId lookup) importOptions schedule s.

Definition handleImport (page : Page) (schedule : nat -> nat -> nat)
    (s : Remote) : Remote * Outcome :=
  match prepare page s with
  | (s, Stopped outcome) => (s, outcome)
  | (s, Ready businessId productsReadyForImport lookup) =>
      let unresolved := unresolvedAfterCreation productsReadyForImport in
      if (0 <? length unresolved)%nat
      then (s, UnresolvedAfterCreation unresolved)
      else
        match writeProducts page businessId productsReadyForImport lookup
                schedule s with
        | Some r =>
            (world r, Imported (length productsReadyForImport - length (failures r))
                        (failures r))
        | None => (s, NeverReturns)
        end
  end.

End WithRuntime.

End Orchestrator.

(** ** [parseCSV] as a whole (page.tsx, lines 957-1081) *)

Module Parser.
Import Categories Grouper Resolver Detector.

Section WithRuntime.
Context `{JSRuntime}.

(** The function mapped over the grouped products for
    [productsWithActions]. *)
Definition enrich (categories : list Category)
    (existingProducts : ExistingProducts) (product : ParsedProduct)
    : ParsedProduct :=
  let resolvedCategory :=
    resolveCategoryFromMaps (Some (category product))
      (buildCategoryMap categories) (buildCategorySlugMap categories)
      (buildCategoryNameMap categories) in
  let enrichedProduct :=
    match resolvedCategory with
    | Some r =>
        with_category (Some (rc_id r)) (rc_slug r) (Some (rc_path r))
          (Some (rc_label r)) (Some (rc_ancestry r)) (Some (rc_matchType r))
          product
    | None => product
    end in
  match detectExistingProduct existingProducts
          (productCode enrichedProduct) (name enrichedProduct) with
  | Some (found, type) =>
      with_action skip
        (with_existing (read_id found) (read_name found)
           (read_updatedAt found) (Some type) enrichedProduct)
  | None => with_action create enrichedProduct
  end.

(** The new value of [parsedData]; [None] when the parse fails. *)
Definition parseCSV (text : str) (categories : list Category)
    (existingProducts : ExistingProducts) : option (list ParsedProduct) :=
  match tokenize text with
  | Some rows =>
      Some (List.map (enrich categories existingProducts) (groupRows rows))
  | None => None
  end.

End WithRuntime.

End Parser.

(** ** The state of the page (page.tsx, lines 608-625, 696-738, 888-941,
    1106-1162) *)

Module PageState.
Import Categories CategoryPaths Grouper Resolver Detector.

(** What [loadExistingProducts] reads of a listed product document;
    [name] and [productCode] are [None] when they are no strings. *)
Record ProductDocument := mkProductDocument {
  doc_id : str;                          (* $id *)
  doc_updatedAt : str;                   (* $updatedAt *)
  doc_name : option str;
  doc_productCode : option str
}.

Section WithRuntime.
Context `{JSRuntime}.

(** The body of [response.documents.forEach(doc => ...)]. *)
Definition indexDocument (index : ExistingProducts) (doc : ProductDocument)
    : ExistingProducts :=
  let nameValue := default [] (doc_name doc) in
  let productCodeValue := doc_productCode doc in
  let meta :=
    {| meta_id := doc_id doc; meta_name := nameValue;
       meta_updatedAt := doc_updatedAt doc;
       meta_productCode := productCodeValue |} in
  let codes :=
    if truthy productCodeValue then
      let key := toLowerCase (trim (default [] productCodeValue)) in
      if nonempty key then assign key meta (byCode index) else byCode index
    else byCode index in
  let names :=
    if nonempty nameValue then
      let nameKey := toLowerCase (trim nameValue) in
      if nonempty nameKey then assign nameKey meta (byName index)
      else byName index
    else byName index in
  {| byCode := codes; byName := names |}.

(** The value handed to [setExistingProducts]. *)
Definition indexExistingProducts (documents : list ProductDocument)
    : ExistingProducts :=
  foldl indexDocument
    {| byCode := emptyDictionary; byName := emptyDictionary |} documents.

(** The function mapped over [prev] by the category effect (lines
    888-941), with the value it gives to [mutated]. An array is truthy
    also when it is empty. *)
Definition recategorizeProduct (categories : list Category)
    (product : ParsedProduct) : ParsedProduct * bool :=
  let resolved :=
    resolveCategoryFromMaps (Some (category product))
      (buildCategoryMap categories) (buildCategorySlugMap categories)
      (buildCategoryNameMap categories) in
  match resolved with
  | Some r =>
      let alreadyMatched :=
        bool_decide (categoryId product = Some (rc_id r)) &&
        bool_decide (categoryPathLabel product = Some (rc_label r)) &&
        bool_decide (categoryMatchType product = Some (rc_matchType r)) in
      if alreadyMatched then (product, false)
      else
        (with_category (Some (rc_id r)) (rc_slug r) (Some (rc_path r))
           (Some (rc_label r)) (Some (rc_ancestry r)) (Some (rc_matchType r))
           product,
         true)
  | None =>
      if truthy (categoryId product) ||
         bool_decide (categoryPath product <> None) ||
         truthy (categoryPathLabel product) ||
         bool_decide (categoryAncestors product <> None) ||
         bool_decide (categoryMatchType product <> None)
      then (with_category None None None None None None product, true)
      else (product, false)
  end.

(** The effect of lines 888-941 on the state [parsedData]. *)
Definition recategorize (categoriesLoaded : bool) (categories : list Category)
    (prev : list ParsedProduct) : list ParsedProduct :=
  if negb categoriesLoaded then prev
  else
    let results := List.map (recategorizeProduct categories) prev in
    let mutated := existsb snd results in
    let next := List.map fst results in
    if mutated then next else prev.

End WithRuntime.

(** The effect of lines 608-625 on the state
    [categoryCreationChoices]: a choice for every proposal, the earlier
    one where there was one, [true] otherwise. *)
Definition nextChoices (proposedCategories : list ProposedCategory)
    (prev : gmap (list N) bool) : gmap (list N) bool :=
  foldl (fun next proposal =>
           <[pc_key proposal := default true (prev !! pc_key proposal)]> next)
    ∅ proposedCategories.

Definition syncCategoryChoices (proposedCategories : list ProposedCategory)
    (prev : gmap (list N) bool) : gmap (list N) bool :=
  let next := nextChoices proposedCategories prev in
  if (size prev =? size next)%nat &&
     forallb (fun entry => bool_decide (next !! fst entry = Some (snd entry)))
       (map_to_list prev)
  then prev else next.

Definition toggleCategoryCreationChoice (key : str) (value : bool)
    (prev : gmap (list N) bool) : gmap (list N) bool :=
  if bool_decide (prev !! key = Some value) then prev else <[key := value]> prev.

Definition bulkSetCategoryCreationChoice (value : bool)
    (prev : gmap (list N) bool) : gmap (list N) bool :=
  if (size prev =? 0)%nat then prev
  else if forallb (fun entry => bool_decide (snd entry = value))
            (map_to_list prev)
  then prev
  else (fun _ => value) <$> prev.

(** [updateProductAction] and [applyBulkActionToDuplicates] as
    functions on [parsedData]. *)
Definition updateProductAction (index : nat) (a : ImportAction)
    (prev : list ParsedProduct) : list ParsedProduct :=
  imap (fun i product => if (i =? index)%nat then with_action a product
                         else product) prev.

Definition applyBulkActionToDuplicates (a : ImportAction)
    (prev : list ParsedProduct) : list ParsedProduct :=
  List.map (fun product =>
              if truthy (existingProductId product) then with_action a product
              else product) prev.

(** The figures of the summary (lines 1158-1162). *)
Definition selectedForImport (parsedData : list ParsedProduct)
    : list ParsedProduct :=
  List.filter (fun product => negb (bool_decide (action product = skip)))
    parsedData.

Definition createCount (parsedData : list ParsedProduct) : nat :=
  length (List.filter (fun product => bool_decide (action product = create))
            (selectedForImport parsedData)).

Definition updateCount (parsedData : list ParsedProduct) : nat :=
  length (List.filter (fun product => bool_decide (action product = update))
            (selectedForImport parsedData)).

Definition skipCount (parsedData : list ParsedProduct) : nat :=
  length (List.filter (fun product => bool_decide (action product = skip))
            parsedData).

Definition totalVariants (parsedData : list ParsedProduct) : nat :=
  foldl (fun sum product => (sum + length (variants product))%nat) 0%nat
    parsedData.

End PageState.

(** ** The category tree (categories.ts, lines 63-113) *)

Module CategoryTree.
Import Categories Grouper Resolver.

Record CategoryOption := mkCategoryOption {
  opt_id : str;
  opt_label : str;
  opt_depth : nat
}.

(** [map.set(category.$id, { ...category, children: [] })]: an id that
    comes again keeps its place in the [Map] and takes the later
    category. *)
Definition setNode (nodes : list (str * Category)) (category : Category)
    : list (str * Category) :=
  if map_has (cat_id category) nodes
  then map_modify (cat_id category) (fun _ => category) nodes
  else nodes ++ [(cat_id category, category)].

(** The [Map] of [buildCategoryTree] after [categories.forEach]. *)
Definition treeNodes (categories : list Category) : list (str * Category) :=
  foldl setNode [] categories.

(** [node.parentId && map.has(node.parentId)] *)
Definition hasListedParent (nodes : list (str * Category)) (node : Category)
    : bool :=
  match cat_parentId node with
  | Some parentId => nonempty parentId && map_has parentId nodes
  | None => false
  end.

(** [roots] after [map.forEach]: the nodes pushed by the [else]
    branch, in the order of the [Map]. *)
Definition rootsOf (nodes : list (str * Category)) : list Category :=
  List.filter (fun node => negb (hasListedParent nodes node)) (map_values nodes).

(** The [children] array of the node stored under [id] after
    [map.forEach]: the nodes pushed to [map.get(node.parentId)], in the
    order of the [Map]. *)
Definition childrenOf (nodes : list (str * Category)) (id : str)
    : list Category :=
  List.filter
    (fun node =>
       hasListedParent nodes node &&
       str_eqb (default [] (cat_parentId node)) id)
    (map_values nodes).

(** [`${prefix}${node.name}`] with
    [prefix = depth > 0 ? `${'>'.repeat(depth)} ` : ''] *)
Definition optionLabel (depth : nat) (name : str) : str :=
  (if (0 <? depth)%nat
   then List.concat (List.repeat (lit ">") depth) ++ lit " " else []) ++ name.

(** [nodes.forEach(node => ...)] where the body pushes options. *)
Fixpoint forEachNode {A B} (body : A -> option (list B)) (nodes : list A)
    : option (list B) :=
  match nodes with
  | [] => Some []
  | node :: rest =>
      match body node with
      | Some pushed =>
          match forEachNode body rest with
          | Some after => Some (pushed ++ after)
          | None => None
          end
      | None => None
      end
  end.

Section WithRuntime.
Context `{JSRuntime}.

(** The comparator of [sortNodes]; sort orders are integers. *)
Definition compareNodes (a b : Category) : Z :=
  let orderA := default 0%Z (cat_sortOrder a) in
  let orderB := default 0%Z (cat_sortOrder b) in
  if negb (orderA =? orderB)%Z then (orderA - orderB)%Z
  else localeCompare (cat_name a) (cat_name b).

(** The body of [traverse] for one node. Its [children] array is the
    one [sortNodes] has sorted. [sortNodes] and [traverse] recurse along
    the [children] arrays; [fuel] bounds the depth of the recursion, and
    [None] stands for a recursion that goes deeper. *)
Fixpoint traverseNode (fuel : nat) (nodes : list (str * Category))
    (depth : nat) (node : Category) : option (list CategoryOption) :=
  match fuel with
  | O => None
  | S fuel =>
      match
        forEachNode (traverseNode fuel nodes (S depth))
          (sort compareNodes (childrenOf nodes (cat_id node)))
      with
      | Some below =>
          Some (mkCategoryOption (cat_id node)
                  (optionLabel depth (cat_name node)) depth :: below)
      | None => None
      end
  end.

(** [traverse(tree, 0)] over the sorted roots. No node lies deeper than
    there are nodes. *)
Definition buildCategoryOptions (categories : list Category)
    : option (list CategoryOption) :=
  let nodes := treeNodes categories in
  forEachNode (traverseNode (length nodes) nodes 0)
    (sort compareNodes (rootsOf nodes)).

End WithRuntime.

End CategoryTree.

(** * Vocabulary of the statements

    What the theorems below say about the program is phrased with the
    predicates and readings collected here. *)

(** ** Tokenizer and grouper *)

Module TokenizerSpec.
Import Tokenizer Grouper.

(** A string that does not begin with white space. *)
Definition head_clear (s : str) : Prop :=
  match s with [] => True | c :: _ => is_space c = false end.

(** A field as the tokenizer emits it. *)
Definition field_ok (field : str) : Prop :=
  trim field = field /\ ~ In DQUOTE field.

Definition row_ok (r : CSVRow) : Prop := forall c, field_ok (get_column c r).

(** Scanning a stretch of text that holds no record separator: the
    quoting state it ends in. *)
Fixpoint stays (q : bool) (s : str) : option bool :=
  match s with
  | [] => Some q
  | c :: rest =>
      let q' := if c =? DQUOTE then negb q else q in
      if (c =? NEWLINE) && negb q' then None else stays q' rest
  end.

Definition plain (c : N) : bool :=
  negb ((c =? COMMA) || (c =? NEWLINE) || (c =? DQUOTE)).

(** The rows of one product code. *)
Definition rowsOf (code : str) (rows : list CSVRow) : list CSVRow :=
  List.filter (fun row => str_eqb (col_ProductCode row) code) rows.

(** The drafts under construction agree with the rows read so far. *)
Definition grouped (rows : list CSVRow) (m : list (str * ParsedProduct)) : Prop :=
  NoDup (List.map fst m) /\
  (forall code, In code (List.map fst m) <-> In code (List.map col_ProductCode rows)) /\
  Forall (fun entry =>
            productCode (snd entry) = fst entry /\
            variants (snd entry) = List.map variantOfRow (rowsOf (fst entry) rows))
         m.

(** A draft under construction is, its variants apart, the draft made
    from the first row of its code. *)
Definition based (rows : list CSVRow) (entry : str * ParsedProduct) : Prop :=
  exists row rest,
    rowsOf (fst entry) rows = row :: rest /\
    with_variants [] (snd entry) = newProduct row.

(** The last position, counted from [index], at which [header] stands
    in the header line. *)
Fixpoint lastIndexFrom (header : str) (headers : list str) (index : nat)
    : option nat :=
  match headers with
  | [] => None
  | h :: rest =>
      match lastIndexFrom header rest (S index) with
      | Some i => Some i
      | None => if str_eqb h header then Some index else None
      end
  end.

(** The value a record holds for a column: the field under the last
    header of that name, [''] when the record is too short or no header
    names the column. *)
Definition valueUnder (headers values : list str) (c : Column) : str :=
  match lastIndexFrom (header_of c) headers 0 with
  | Some i => default [] (values !! i)
  | None => []
  end.

End TokenizerSpec.

(** ** Slugs and segments *)

Module SlugSpec.

(** A letter or a digit. *)
Definition is_alnum (c : N) : bool := is_word c && negb (c =? UNDERSCORE).

(** No two dashes side by side. *)
Fixpoint no_double_dash (s : str) : bool :=
  match s with
  | a :: ((b :: _) as rest) =>
      negb ((a =? DASH) && (b =? DASH)) && no_double_dash rest
  | _ => true
  end.

(** A segment of a category path as [parseCategorySegments] returns
    it. *)
Definition segment_ok (segment : str) : Prop :=
  segment <> [] /\ trim segment = segment /\ ~ In GT segment.

End SlugSpec.

(** ** Proposals *)

Module ResolverSpec.
Import Categories Resolver.

(** A proposal as [buildProposedCategoriesForProducts] writes it: all
    its fields follow from the path of its parent and its segment. *)
Definition proposal_ok `{JSRuntime} (proposal : ProposedCategory) : Prop :=
  exists segment,
    pc_path proposal = pc_parentPath proposal ++ [segment] /\
    pc_key proposal = buildCategoryPathKey (pc_path proposal) /\
    pc_label proposal = formatCategoryPath (pc_path proposal) /\
    pc_name proposal = trim segment /\
    pc_slug proposal = slugify segment /\
    pc_depth proposal = length (pc_path proposal) /\
    pc_parentKey proposal =
      (if (0 <? length (pc_parentPath proposal))%nat
       then Some (buildCategoryPathKey (pc_parentPath proposal)) else None).

(** The keys under which [buildCategoryIndexByParent] files a category
    in the bucket of its parent. *)
Definition filed_under `{JSRuntime} (category : Category) (key : str) : Prop :=
  key = lit "name:" ++ toLowerCase (trim (cat_name category)) \/
  exists slug,
    cat_slug category = Some slug /\ nonempty slug = true /\
    key = lit "slug:" ++ toLowerCase (trim slug).

(** What holds of the map of the proposals while the products are
    walked. *)
Definition keyed `{JSRuntime} (proposals : list (str * ProposedCategory))
    : Prop :=
  NoDup (List.map fst proposals) /\
  Forall (fun entry => fst entry = pc_key (snd entry) /\ proposal_ok (snd entry))
    proposals.

(** No deeper proposal stands before a shallower one. *)
Definition by_depth (proposals : list ProposedCategory) : Prop :=
  StronglySorted (fun a b => (pc_depth a <= pc_depth b)%nat) proposals.

End ResolverSpec.

(** ** Category walks *)

Module CategorySpec.
Import Categories.

(** The categories a walk from [currentId] goes through, child first:
    each is looked up under the parent id of the one before, and the
    walk ends at a missing or empty id, at an id it has seen, or at an
    id the lookup does not hold. *)
Inductive linked (lookup : gmap (list N) Category)
    : gset (list N) -> option str -> list (str * Category) -> Prop :=
| linked_none visited : linked lookup visited None []
| linked_empty visited : linked lookup visited (Some []) []
| linked_seen visited id : id ∈ visited -> linked lookup visited (Some id) []
| linked_absent visited id :
    lookup !! id = None -> linked lookup visited (Some id) []
| linked_step visited id category chain :
    id <> [] -> id ∉ visited -> lookup !! id = Some category ->
    linked lookup ({[id]} ∪ visited) (cat_parentId category) chain ->
    linked lookup visited (Some id) ((id, category) :: chain).

(** The categories a walk goes through, with the ids under which the
    lookup holds them. *)
Definition chain_ok (lookup : gmap (list N) Category) (visited : gset (list N))
    (chain : list (str * Category)) : Prop :=
  NoDup (List.map fst chain) /\
  Forall (fun step => lookup !! fst step = Some (snd step) /\ fst step ∉ visited)
    chain.

End CategorySpec.

(** ** The category tree *)

Module TreeSpec.
Import Categories Grouper CategoryTree.

(** [rooted nodes id depth]: from the node stored under [id], [depth]
    steps from a node to its listed parent lead to a node that has
    none. A node on a cycle of parents is rooted at no depth. *)
Inductive rooted (nodes : list (str * Category)) : str -> nat -> Prop :=
| rooted_root id node :
    map_get id nodes = Some node -> hasListedParent nodes node = false ->
    rooted nodes id 0
| rooted_child id node parentId depth :
    map_get id nodes = Some node -> hasListedParent nodes node = true ->
    cat_parentId node = Some parentId -> rooted nodes parentId depth ->
    rooted nodes id (S depth).

(** [descends nodes top id]: the node under [id] is the node under
    [top] or has it among its listed ancestors. *)
Inductive descends (nodes : list (str * Category)) (top : str)
    : str -> Prop :=
| descends_self : descends nodes top top
| descends_child id node parentId :
    map_get id nodes = Some node -> hasListedParent nodes node = true ->
    cat_parentId node = Some parentId -> descends nodes top parentId ->
    descends nodes top id.

(** The nodes are stored under their own ids, each id once. *)
Definition stored (nodes : list (str * Category)) : Prop :=
  NoDup (List.map fst nodes) /\
  Forall (fun entry => fst entry = cat_id (snd entry)) nodes.

(** What holds of the options pushed for the subtree of [node]. *)
Definition subtree_ok (nodes : list (str * Category)) (top : str)
    (options : list CategoryOption) : Prop :=
  NoDup (List.map opt_id options) /\
  Forall (fun item =>
            (exists node,
               map_get (opt_id item) nodes = Some node /\
               opt_label item = optionLabel (opt_depth item) (cat_name node)) /\
            rooted nodes (opt_id item) (opt_depth item) /\
            descends nodes top (opt_id item))
    options /\
  (forall id, descends nodes top id -> In id (List.map opt_id options)).

End TreeSpec.

(** ** The engine *)

Module EngineSpec.
Import Engine.

Section Spec.
Context `{JSRuntime} {T W : Type}.
Variable handler : T -> nat -> W -> W * option ThrownValue.
Variable options : RateLimitOptions T W.
Variable items : list T.
Variable total : nat.

(** The calls of [onProgress] after [c] items. *)
Definition expectedProgress (c : nat) : list (nat * nat) :=
  match onProgress T W options with
  | Some _ => List.map (fun k => (k, total)) (seq 1 c)
  | None => []
  end.

(** An attempt in the log is a call of the handler on an item of the
    list, at its index. *)
Definition justified (e : Event T) : Prop :=
  match e with
  | EvAttempt index item attempts outcome =>
      items !! index = Some item /\
      exists w, outcome = snd (handler item index w)
  | _ => True
  end.

(** What holds of a run between two steps. *)
Record Inv (r : Run T W) : Prop := mkInv {
  inv_failures : failures r = failuresOf T W options (events r);
  inv_progress : progressOf T (events r) = expectedProgress (completed r);
  inv_backoff : backoffCheck T W options (events r) = Quiet;
  inv_justified : Forall justified (events r);
  inv_completed : completed r = length (settled T W options (events r))
}.

(** What one attempt adds to the log when the loop goes on, and what
    [executeItem] adds when the loop is left. *)
Definition retryEvents (index : nat) (item : T) (attempts : nat)
    (error : ThrownValue) : list (Event T) :=
  [EvAttempt index item attempts (Some error);
   EvSleep (backoffDelay T W options attempts)].

Definition closingEvents (c : nat) : list (Event T) :=
  match onProgress T W options with
  | Some _ => [EvProgress (S c) total]
  | None => []
  end ++
  if (0 <? perItemDelayMs T W options)%Z
  then [EvSleep (perItemDelayMs T W options)] else [].

(** What the run of one item adds. *)
Definition itemDone (index : nat) (r r' : Run T W) : Prop :=
  Inv r' /\
  settled T W options (events r') = settled T W options (events r) ++ [index] /\
  (exists added,
     attemptIndices T (events r') = attemptIndices T (events r) ++ added /\
     Forall (fun j => j = index) added) /\
  (forall j, j <> index ->
     itemStatus T W options j (events r') = itemStatus T W options j (events r)) /\
  itemStatus T W options index (events r') = Closed.

(** What the run of the items [first .. first + count - 1] adds. *)
Definition rangeDone (first count : nat) (r r' : Run T W) : Prop :=
  Inv r' /\
  Permutation (settled T W options (events r'))
    (settled T W options (events r) ++ seq first count) /\
  (exists added,
     attemptIndices T (events r') = attemptIndices T (events r) ++ added /\
     Forall (fun j => first <= j < first + count)%nat added) /\
  (forall j, ~ (first <= j < first + count)%nat ->
     itemStatus T W options j (events r') = itemStatus T W options j (events r)) /\
  (forall j, (first <= j < first + count)%nat ->
     itemStatus T W options j (events r') = Closed).

(** The index a worker holds. *)
Definition inflightOf (s : Worker T) : list nat :=
  match s with
  | WAwait _ index _ | WBackoff _ index _ => [index]
  | _ => []
  end.

Definition inflight (ws : list (Worker T)) : list nat := flat_map inflightOf ws.

(** A bound on the steps a worker still takes on its item. *)
Definition workerCost (s : Worker T) : nat :=
  match s with
  | WAwait _ _ attempts => 2 * (maxRetries T W options + 1 - attempts) + 2
  | WBackoff _ _ attempts => 2 * (maxRetries T W options - attempts) + 3
  | WPace => 1
  | WDone => 0
  end.

Definition poolCost (len : nat) (p : Pool T W) : nat :=
  sum_list_with workerCost (workers T W p) +
  (len - cursor T W p) * (2 * maxRetries T W options + 2).

Definition workerOK (evs : list (Event T)) (s : Worker T) : Prop :=
  match s with
  | WAwait item index attempts =>
      items !! index = Some item /\
      itemStatus T W options index evs = Open attempts
  | WBackoff item index attempts =>
      items !! index = Some item /\
      itemStatus T W options index evs = Open (S attempts)
  | _ => True
  end.

(** What holds of the pool that runs the batch [batchItems], which
    starts at [offset], from the run [r0]. *)
Record PoolInv (batchItems : list T) (offset : nat) (r0 : Run T W)
    (p : Pool T W) : Prop := mkPoolInv {
  pi_inv : Inv (run T W p);
  pi_perm :
    Permutation
      (settled T W options (events (run T W p)) ++ inflight (workers T W p) ++
       seq (offset + cursor T W p) (length batchItems - cursor T W p))
      (settled T W options (events r0) ++ seq offset (length batchItems));
  pi_cursor : (cursor T W p <= length batchItems)%nat;
  pi_workers : Forall (workerOK (events (run T W p))) (workers T W p);
  pi_range :
    Forall (fun j => offset <= j < offset + cursor T W p)%nat
      (inflight (workers T W p));
  pi_unclaimed : forall j,
    (offset + cursor T W p <= j)%nat ->
    itemStatus T W options j (events (run T W p)) = Open 1;
  pi_closed : forall j,
    (offset <= j < offset + cursor T W p)%nat ->
    j ∉ inflight (workers T W p) ->
    itemStatus T W options j (events (run T W p)) = Closed;
  pi_before : forall j,
    (j < offset)%nat ->
    itemStatus T W options j (events (run T W p)) =
    itemStatus T W options j (events r0);
  pi_done : WDone ∈ workers T W p -> cursor T W p = length batchItems;
  pi_added : exists added,
    attemptIndices T (events (run T W p)) =
      attemptIndices T (events r0) ++ added /\
    Forall (fun j => offset <= j < offset + length batchItems)%nat added
}.

(** The items below [n] are through, the others untouched. *)
Definition Progress (n : nat) (r : Run T W) : Prop :=
  Inv r /\
  Permutation (settled T W options (events r)) (seq 0 n) /\
  (forall j, (j < n)%nat -> itemStatus T W options j (events r) = Closed) /\
  (forall j, (n <= j)%nat -> itemStatus T W options j (events r) = Open 1) /\
  Forall (fun j => j < n)%nat (attemptIndices T (events r)).

(** Every Kth handler call fails for good, every other one succeeds. *)
Definition everyKthFails (K : nat) : Prop :=
  forall index item w,
    items !! index = Some item ->
    match snd (handler item index w) with
    | Some error =>
        (S index mod K = 0)%nat /\
        effectiveShouldRetry T W options error item = false
    | None => (S index mod K)%nat <> 0%nat
    end.

(** The attempt counts of the handler calls on one index, in order. *)
Definition attemptsOf (index : nat) (evs : list (Event T)) : list nat :=
  flat_map
    (fun e =>
       match e with
       | EvAttempt i _ attempts _ => if (i =? index)%nat then [attempts] else []
       | _ => []
       end) evs.

(** A failure record as [executeItem] writes it. *)
Definition failure_ok (f : ProcessFailure T) : Prop :=
  items !! f_index T f = Some (f_item T f) /\
  (1 <= f_attempts T f <= maxRetries T W options + 1)%nat /\
  ((f_attempts T f <= maxRetries T W options)%nat ->
   effectiveShouldRetry T W options (f_error T f) (f_item T f) = false) /\
  f_code T f = d_code (extractErrorDetails (f_error T f)) /\
  f_message T f = d_message (extractErrorDetails (f_error T f)) /\
  f_errorType T f = d_errorType (extractErrorDetails (f_error T f)).

(** *** The log and the world *)

(** What an event of the log does to the world the handler acts on: a
    call of the handler acts on it, a call of [onProgress] acts on it,
    a sleep leaves it. *)
Definition effect (e : Event T) (w : W) : W :=
  match e with
  | EvAttempt index item _ _ => fst (handler item index w)
  | EvSleep _ => w
  | EvProgress completed total =>
      match onProgress T W options with
      | Some callback => callback completed total w
      | None => w
      end
  end.

(** The world after the events [evs], from the world [w]. *)
Definition replay (evs : list (Event T)) (w : W) : W :=
  foldl (fun w e => effect e w) w evs.

(** The log tells what happened from the world [w] on: the outcome of
    every attempt is the outcome that the call of the handler had in
    the world of its moment. *)
Fixpoint happened (evs : list (Event T)) (w : W) : Prop :=
  match evs with
  | [] => True
  | e :: rest =>
      match e with
      | EvAttempt index item _ outcome =>
          outcome = snd (handler item index w)
      | _ => True
      end /\
      happened rest (effect e w)
  end.

(** A run whose log tells what happened from the world [w0] on, and
    whose world is the world after the events of the log. *)
Definition Traced (w0 : W) (r : Run T W) : Prop :=
  happened (events r) w0 /\ world r = replay (events r) w0.

(** An attempt is a call on an item of the list, at its index. *)
Definition called (e : Event T) : Prop :=
  match e with
  | EvAttempt index item _ _ => items !! index = Some item
  | _ => True
  end.

(** *** The retry rule, in the words of the specification *)

(** The retry predicate: the one the caller gives, or else the one
    that accepts an error with one of seven status codes, or with one
    of six texts in its lower-cased message. *)
Definition accepts (error : ThrownValue) (item : T) : bool :=
  match shouldRetry T W options with
  | Some predicate => predicate error item
  | None =>
      match d_code (extractErrorDetails error) with
      | Some code =>
          existsb (Z.eqb code) [408; 425; 429; 500; 502; 503; 504]%Z
      | None => false
      end ||
      match d_message (extractErrorDetails error) with
      | Some message =>
          existsb (includes (toLowerCase message))
            [lit "429"; lit "too many requests"; lit "rate limit";
             lit "timeout"; lit "network error"; lit "failed to fetch"]
      | None => false
      end
  end.

(** A failed attempt is retried when the predicate accepts its error
    and the attempt count is at most [maxRetries]. *)
Definition retried (attempts : nat) (error : ThrownValue) (item : T) : bool :=
  (attempts <=? maxRetries T W options)%nat && accepts error item.

(** The record of a permanent failure. *)
Definition recordOf (index : nat) (item : T) (error : ThrownValue)
    (attempts : nat) : ProcessFailure T :=
  {| f_index := index; f_item := item; f_error := error;
     f_attempts := attempts;
     f_code := d_code (extractErrorDetails error);
     f_message := d_message (extractErrorDetails error);
     f_errorType := d_errorType (extractErrorDetails error) |}.

(** The records of the attempts of the log that failed and were not
    retried, in the order of the log. *)
Definition recorded (evs : list (Event T)) : list (ProcessFailure T) :=
  flat_map
    (fun e =>
       match e with
       | EvAttempt index item attempts (Some error) =>
           if retried attempts error item then []
           else [recordOf index item error attempts]
       | _ => []
       end) evs.

(** The handler calls of the log: index and attempt count. *)
Definition calls (evs : list (Event T)) : list (nat * nat) :=
  flat_map
    (fun e =>
       match e with
       | EvAttempt index _ attempts _ => [(index, attempts)]
       | _ => []
       end) evs.

(** Every Kth handler call throws an error that the retry predicate
    refuses, every other one returns. *)
Definition everyKthRefused (K : nat) : Prop :=
  forall index item w,
    items !! index = Some item ->
    match snd (handler item index w) with
    | Some error => (S index mod K = 0)%nat /\ accepts error item = false
    | None => (S index mod K)%nat <> 0%nat
    end.

End Spec.

End EngineSpec.

(** ** The orchestrator and the store *)

Module OrchestratorSpec.
Import Grouper Engine Store Orchestrator.

(** A step that touches no product and no variant document. *)
Definition isCategoryStep (q : Request) : Prop :=
  match q with
  | CreateCategory _ | Pause _ => True
  | _ => False
  end.

(** From [s] to [s'] only category documents were written. *)
Definition categoriesOnly (s s' : Remote) : Prop :=
  productDocs s' = productDocs s /\
  variantDocs s' = variantDocs s /\
  exists added, trace s' = trace s ++ added /\ Forall isCategoryStep added.

(** A store that answers every request. *)
Definition answers (s : Remote) : Prop := forall n, faults s n = None.

(** The store once a request has reached it. *)
Definition reached (q : Request) (s : Remote) : Remote :=
  mkRemote (categoryDocs s) (productDocs s) (variantDocs s) (nextId s)
    (faults s) (S (requests s)) (trace s ++ [q]).

(** The documents a run of deletions leaves. *)
Definition without (ids : list str) (docs : list (str * VariantData))
    : list (str * VariantData) :=
  List.filter (fun doc => negb (bool_decide (fst doc ∈ ids))) docs.

Definition deletionSteps (docs : list (str * VariantData)) : list Request :=
  flat_map (fun doc => [DeleteVariant (fst doc);
                        Pause IMPORT_RATE_LIMIT_requestPauseMs]) docs.

Definition creationSteps (payloads : list VariantData) : list Request :=
  flat_map (fun data => [CreateVariant data;
                         Pause IMPORT_RATE_LIMIT_requestPauseMs]) payloads.

(** The listing [importProduct] deletes from: the variants of the
    product in the business, or, when there is none, the variants of
    the product, cut at 200. *)
Definition listedVariants (productId businessId : str)
    (docs : list (str * VariantData)) : list (str * VariantData) :=
  let first :=
    firstn 200 (List.filter (matchesVariant productId (Some businessId)) docs) in
  if (length first =? 0)%nat
  then firstn 200 (List.filter (matchesVariant productId None) docs)
  else first.

(** The steps that are requests. *)
Definition isRequest (q : Request) : bool :=
  match q with Pause _ => false | _ => true end.

(** A step of the write phase: anything but the creation of a
    category. *)
Definition isWriteStep (q : Request) : Prop :=
  match q with
  | CreateCategory _ => False
  | _ => True
  end.

(** From [s] to [s'] the steps [added] were taken: they were added to
    the trace, the requests among them were counted, and the pattern of
    the faults is the same. *)
Definition continues (s s' : Remote) (added : list Request) : Prop :=
  faults s' = faults s /\
  trace s' = trace s ++ added /\
  requests s' = (requests s + length (List.filter isRequest added))%nat.

(** How a run of requests from [s] to [s'] ends, by the faults of the
    store: it goes through when no request met a fault, and it throws
    the fault of its last request, the first one that met a fault. *)
Definition endsByFaults {A} (s s' : Remote) (result : ThrownValue + A)
    : Prop :=
  match result with
  | inr _ =>
      forall n, (requests s <= n < requests s')%nat -> faults s n = None
  | inl error =>
      (requests s < requests s')%nat /\
      faults s (requests s' - 1) = Some error /\
      forall n, (requests s <= n < requests s' - 1)%nat -> faults s n = None
  end.

(** An action that, from any store, takes steps of the write phase
    only. *)
Definition writesOnly {A} (m : M A) : Prop :=
  forall s, exists added,
    continues s (fst (m s)) added /\ Forall isWriteStep added.

(** The data of the variant document written for a draft. *)
Definition variantDataOf (page : Page) (businessId productId : str)
    (variant : Variant) : VariantData :=
  {| vd_productId := productId;
     vd_userId := userId page;
     vd_businessId := Some businessId;
     vd_variantName := v_size variant ++ lit " - " ++ v_finish variant;
     vd_attributes := (v_size variant, v_finish variant);
     vd_price := v_price variant;
     vd_sku := orUndefined (v_sku variant);
     vd_enabled := true;
     vd_images := [] |}.

(** The key under which [loadExistingProducts] files a document by its
    product code, when it does. *)
Definition codeKeyOf `{JSRuntime} (doc : PageState.ProductDocument)
    : option str :=
  if truthy (PageState.doc_productCode doc) then
    let key := toLowerCase (trim (default [] (PageState.doc_productCode doc))) in
    if nonempty key then Some key else None
  else None.

(** The outcomes that end [handleImport] before the category
    creation. *)
Definition stopsEarly (outcome : Outcome) : bool :=
  match outcome with
  | DemoReadOnly | NotAuthenticated | NoBusinessSelected | NoData
  | NothingSelected | Declined | UnresolvedInPlan _ => true
  | _ => false
  end.

(** The variant documents of the other products. *)
Definition otherVariants (productId : str) (docs : list (str * VariantData))
    : list (str * VariantData) :=
  List.filter (fun doc => negb (str_eqb (vd_productId (snd doc)) productId))
    docs.

End OrchestratorSpec.

(** * Sample inputs

    Concrete values on which the theorems are instantiated. *)

Module Samples.
Import Tokenizer Grouper Categories Resolver Detector Engine Store Orchestrator.

(** ** For the engine *)

Definition refusal : ThrownValue :=
  AppwriteException (Some 400%Z) (lit "Invalid document structure")
    (lit "document_invalid_structure").

Definition overload : ThrownValue :=
  AppwriteException (Some 429%Z) (lit "Rate limit exceeded")
    (lit "general_rate_limit_exceeded").

Definition sampleItems : list nat := [10; 20; 30; 40]%nat.

(** The world counts the handler calls; every second item is refused. *)
Definition everySecondFails (item index calls : nat)
    : nat * option ThrownValue :=
  (S calls, if (S index mod 2 =? 0)%nat then Some refusal else None).

(** The first two calls meet an overloaded server. *)
Definition failsTwice (item index calls : nat) : nat * option ThrownValue :=
  (S calls, if (calls <? 2)%nat then Some overload else None).

Definition sampleOptions : RateLimitOptions nat nat :=
  {| batchSize := 3;
     batchDelayMs := 1500;
     parallel := 2;
     perItemDelayMs := 400;
     maxRetries := 5;
     retryInitialDelayMs := 1500;
     retryBackoffMultiplier := 2;
     shouldRetry := None;
     onProgress := Some (fun _ _ calls => calls) |}.

(** A world that counts the handler calls and keeps the arguments of
    the calls of [onProgress]. *)
Definition countingHandler (fails : nat -> nat -> option ThrownValue)
    (item index : nat) (w : nat * list (nat * nat))
    : (nat * list (nat * nat)) * option ThrownValue :=
  ((S (fst w), snd w), fails index (fst w)).

(** Every second item is refused, whatever the call. *)
Definition everySecondRefused (index calls : nat) : option ThrownValue :=
  if (S index mod 2 =? 0)%nat then Some refusal else None.


Definition reportingOptions : RateLimitOptions nat (nat * list (nat * nat)) :=
  {| batchSize := 3;
     batchDelayMs := 1500;
     parallel := 1;
     perItemDelayMs := 400;
     maxRetries := 5;
     retryInitialDelayMs := 1500;
     retryBackoffMultiplier := 2;
     shouldRetry := None;
     onProgress := Some (fun completed total w =>
                           (fst w, snd w ++ [(completed, total)])) |}.

(** Of the pending handler calls the first settles first. *)
Definition inOrder (offset step : nat) : nat := 0%nat.

(** Options with a batch size of zero. *)
Definition stalledOptions : RateLimitOptions nat nat :=
  {| batchSize := 0;
     batchDelayMs := 1500;
     parallel := 1;
     perItemDelayMs := 0;
     maxRetries := 5;
     retryInitialDelayMs := 1500;
     retryBackoffMultiplier := 2;
     shouldRetry := None;
     onProgress := None |}.

(** Options that run the items one after the other. *)
Definition serialOptions : RateLimitOptions nat nat :=
  {| batchSize := 3;
     batchDelayMs := 1500;
     parallel := 1;
     perItemDelayMs := 400;
     maxRetries := 5;
     retryInitialDelayMs := 1500;
     retryBackoffMultiplier := 2;
     shouldRetry := None;
     onProgress := None |}.

(** ** For the resolver *)

Definition handles : Category :=
  {| cat_id := lit "c1"; cat_name := lit "Handles";
     cat_slug := Some (lit "handles"); cat_description := None;
     cat_image := None; cat_parentId := None; cat_sortOrder := Some 0%Z |}.

Definition draft (code nm cat : str) (vs : list Variant) : ParsedProduct :=
  {| productCode := code; name := nm; category := cat;
     categoryId := None; categorySlug := None; categoryPath := None;
     categoryPathLabel := None; categoryAncestors := None;
     categoryMatchType := None;
     shortDescription := []; fullDescription := [];
     variants := vs; imageUrl := []; action := create;
     existingProductId := None; existingProductName := None;
     existingUpdatedAt := None; existingMatchType := None |}.

Definition matt96 : Variant :=
  {| v_size := lit "96MM"; v_finish := lit "Matt"; v_price := 132;
     v_sku := lit "S-106-96" |}.

Definition gloss128 : Variant :=
  {| v_size := lit "128MM"; v_finish := lit "Gloss"; v_price := 164;
     v_sku := lit "S-106-128" |}.

Definition pullHandle : ParsedProduct :=
  draft (lit "S-106") (lit "Pull handle") (lit "Hardware > Handles") [matt96].

(** ** For the detector *)

Definition storedPullHandle : ExistingProductMeta :=
  {| meta_id := lit "p1"; meta_name := lit "Pull handle";
     meta_updatedAt := lit "2025-01-05T10:00:00.000+00:00";
     meta_productCode := Some (lit "S-106") |}.

Definition sampleExisting : ExistingProducts :=
  {| byCode := assign (lit "s-106") storedPullHandle emptyDictionary;
     byName := assign (lit "pull handle") storedPullHandle emptyDictionary |}.

(** The index before any product document is listed. *)
Definition emptyIndex : ExistingProducts :=
  {| byCode := emptyDictionary; byName := emptyDictionary |}.

(** A draft that the operator has marked for update, matched by code
    with the stored product [p1] before the index was loaded again. *)
Definition matchedUpdate (code : str) : ParsedProduct :=
  with_action update
    (with_existing (Some (lit "p1")) (Some (lit "Knob"))
       (Some (lit "2025-01-05T10:00:00.000+00:00")) (Some match_code)
       (draft code (lit "Knob") [] [matt96])).

(** Two listed product documents. *)
Definition storedDocuments : list PageState.ProductDocument :=
  [ {| PageState.doc_id := lit "p1";
       PageState.doc_updatedAt := lit "2025-01-05T10:00:00.000+00:00";
       PageState.doc_name := Some (lit "Pull handle");
       PageState.doc_productCode := Some (lit " S-106 ") |};
    {| PageState.doc_id := lit "p2";
       PageState.doc_updatedAt := lit "2025-02-11T08:30:00.000+00:00";
       PageState.doc_name := Some (lit "Knob");
       PageState.doc_productCode := None |} ].

(** ** For the orchestrator *)

Definition emptyStore : Remote :=
  {| categoryDocs := []; productDocs := []; variantDocs := [];
     nextId := 0; faults := fun _ => None; requests := 0%nat; trace := [] |}.

(** The operator has ticked both proposed categories. *)
Definition samplePage : Page :=
  {| isDemoUser := false; userId := Some (lit "u1");
     currentBusiness := Some (lit "b1");
     parsedData := [pullHandle]; categories := [];
     categoryCreationChoices :=
       <[lit "hardware" := true]> (<[lit "hardware>handles" := true]> ∅);
     confirmAnswer := true; now := 0 |}.

Definition storedProduct : ProductData :=
  {| pd_name := lit "Pull handle"; pd_description := None;
     pd_category := None; pd_basePrice := 0; pd_hasVariants := true;
     pd_businessId := Some (lit "b1"); pd_userId := Some (lit "u1");
     pd_archived := Some false; pd_images := Some [] |}.

Definition storedVariant (business : option str) (size : str) : VariantData :=
  {| vd_productId := lit "p1"; vd_userId := Some (lit "u1");
     vd_businessId := business;
     vd_variantName := size ++ lit " - Matt";
     vd_attributes := (size, lit "Matt"); vd_price := 120;
     vd_sku := None; vd_enabled := true; vd_images := [] |}.

(** One product with two stored variants: one of the business, one
    written before documents carried a business id. *)
Definition mixedStore : Remote :=
  {| categoryDocs := [];
     productDocs := [(lit "p1", storedProduct)];
     variantDocs :=
       [(lit "v1", storedVariant (Some (lit "b1")) (lit "96MM"));
        (lit "v2", storedVariant None (lit "160MM"))];
     nextId := 0; faults := fun _ => None; requests := 0%nat; trace := [] |}.

Definition pullHandleUpdate : ParsedProduct :=
  with_action update
    (with_existing (Some (lit "p1")) (Some (lit "Pull handle"))
       (Some (lit "2025-01-05T10:00:00.000+00:00")) (Some match_code)
       (draft (lit "S-106") (lit "Pull handle") [] [matt96; gloss128])).

Definition updatePage : Page :=
  {| isDemoUser := false; userId := Some (lit "u1");
     currentBusiness := Some (lit "b1");
     parsedData := [pullHandleUpdate]; categories := [];
     categoryCreationChoices := ∅;
     confirmAnswer := true; now := 0 |}.

(** The operator has unticked every proposed category. *)
Definition unselectedPage : Page :=
  {| isDemoUser := false; userId := Some (lit "u1");
     currentBusiness := Some (lit "b1");
     parsedData := [pullHandle]; categories := [];
     categoryCreationChoices :=
       <[lit "hardware" := false]> (<[lit "hardware>handles" := false]> ∅);
     confirmAnswer := true; now := 0 |}.

(** A store that refuses its second request. *)
Definition faultyStore : Remote :=
  {| categoryDocs := []; productDocs := []; variantDocs := [];
     nextId := 0;
     faults := fun n => if (n =? 1)%nat then Some refusal else None;
     requests := 0%nat; trace := [] |}.

(** A draft marked for update that carries no reference. *)
Definition strayUpdate : ParsedProduct :=
  with_action update
    (draft (lit "S-200") (lit "Knob") [] [matt96]).

(** A draft for a product the store does not hold. *)
Definition staleUpdate : ParsedProduct :=
  with_action update
    (with_existing (Some (lit "p9")) (Some (lit "Knob"))
       (Some (lit "2025-01-05T10:00:00.000+00:00")) (Some match_code)
       (draft (lit "S-200") (lit "Knob") [] [matt96])).

(** ** For the tokenizer *)

Definition blankRow : CSVRow := createEmptyCSVRow.

(** A row with a comma in the name and a line break in the
    description. *)
Definition awkwardRow : CSVRow :=
  set_column ProductCode (lit "S-106")
    (set_column ProductName (lit "Pull handle, brass")
       (set_column FullDescription
          (lit "Solid brass." ++ [NEWLINE] ++ lit "Sold in pairs.")
          (set_column MRP (lit "132") blankRow))).

(** A row whose name holds a double quote. *)
Definition quotedRow : CSVRow :=
  set_column ProductCode (lit "S-107")
    (set_column ProductName (lit "6" ++ [DQUOTE] ++ lit " pull") blankRow).

End Samples.

(** * Facts about the tokenizer and the serializer *)

Module TokenizerFacts.
Import Tokenizer Grouper TokenizerSpec.
Open Scope N_scope.

(** * Strings *)

Section StringFacts.


Lemma trimStart_head s : head_clear (trimStart s).
Proof.
  induction s as [|c s IH]; simpl; [exact I|].
  destruct (is_space c) eqn:E; [exact IH | exact E].
Qed.

Lemma trimStart_clear s : head_clear s -> trimStart s = s.
Proof. destruct s as [|c s]; simpl; [reflexivity|]. intros ->. reflexivity. Qed.

Lemma trimStart_snoc s c :
  is_space c = false -> trimStart (s ++ [c]) = trimStart s ++ [c].
Proof.
  intros Hc. induction s as [|d s IH]; simpl.
  - rewrite Hc. reflexivity.
  - destruct (is_space d); [exact IH | reflexivity].
Qed.

Lemma trimEnd_head s : head_clear s -> head_clear (trimEnd s).
Proof.
  destruct s as [|c s]; [intros _; exact I|]. simpl. intros Hc.
  unfold trimEnd. simpl. rewrite trimStart_snoc by exact Hc.
  rewrite rev_app_distr. simpl. exact Hc.
Qed.

Lemma trimEnd_last s : head_clear (rev (trimEnd s)).
Proof. unfold trimEnd. rewrite rev_involutive. apply trimStart_head. Qed.

Lemma trimEnd_clear s : head_clear (rev s) -> trimEnd s = s.
Proof.
  intros Hs. unfold trimEnd. rewrite trimStart_clear by exact Hs.
  apply rev_involutive.
Qed.

Lemma trim_idempotent s : trim (trim s) = trim s.
Proof.
  unfold trim.
  rewrite (trimStart_clear (trimEnd (trimStart s))).
  - apply trimEnd_clear, trimEnd_last.
  - apply trimEnd_head, trimStart_head.
Qed.

Lemma trimStart_incl s c : In c (trimStart s) -> In c s.
Proof.
  induction s as [|d s IH]; simpl; [tauto|].
  destruct (is_space d); simpl; intros Hin; [right; auto | exact Hin].
Qed.

Lemma trim_incl s c : In c (trim s) -> In c s.
Proof.
  unfold trim, trimEnd. intros Hin.
  apply trimStart_incl. apply in_rev in Hin.
  apply trimStart_incl in Hin. apply in_rev in Hin. exact Hin.
Qed.

End StringFacts.


Lemma field_ok_trim s : ~ In DQUOTE s -> field_ok (trim s).
Proof.
  intros Hq. split; [apply trim_idempotent|].
  intros Hin. apply Hq. eapply trim_incl; eauto.
Qed.

Lemma field_ok_nil : field_ok [].
Proof. split; [reflexivity | intros []]. Qed.

Lemma parseCSVLine_loop_ok line : forall result current q,
  Forall field_ok result -> ~ In DQUOTE current ->
  Forall field_ok (parseCSVLine_loop line result current q).
Proof.
  induction line as [|char rest IH]; intros result current q Hres Hcur; simpl.
  - apply Forall_app. split; [exact Hres|].
    constructor; [apply field_ok_trim; exact Hcur | constructor].
  - destruct (char =? DQUOTE) eqn:Eq.
    + apply IH; assumption.
    + destruct ((char =? COMMA) && negb q).
      * apply IH; [|intros []].
        apply Forall_app. split; [exact Hres|].
        constructor; [apply field_ok_trim; exact Hcur | constructor].
      * apply IH; [exact Hres|].
        intros Hin. apply in_app_or in Hin. destruct Hin as [Hin|[Heq|[]]].
        -- auto.
        -- apply N.eqb_neq in Eq. auto.
Qed.

Lemma parseCSVLine_ok line : Forall field_ok (parseCSVLine line).
Proof. apply parseCSVLine_loop_ok; [constructor | intros []]. Qed.

(** Rows *)


Lemma get_set_column c c' v r :
  get_column c (set_column c' v r) = if decide (c = c') then v else get_column c r.
Proof. destruct r, c, c'; reflexivity. Qed.


Lemma fillRow_ok headers : forall index values row,
  Forall field_ok values -> row_ok row ->
  row_ok (fillRow headers index values row).
Proof.
  induction headers as [|header rest IH]; intros index values row Hv Hr; simpl.
  - exact Hr.
  - apply IH; [exact Hv|].
    destruct (column_of_header header) as [key|]; [|exact Hr].
    intros c. rewrite get_set_column. destruct (decide (c = key)); [|apply Hr].
    destruct (values !! index) as [v|] eqn:Ev; simpl.
    + rewrite Forall_forall in Hv. apply Hv.
      eapply list_elem_of_lookup_2; eauto.
    + apply field_ok_nil.
Qed.

Lemma buildRows_ok headers lines : Forall row_ok (buildRows headers lines).
Proof.
  unfold buildRows. apply Forall_map. apply Forall_forall. intros line _.
  apply fillRow_ok; [apply parseCSVLine_ok|].
  intros c. destruct c; apply field_ok_nil.
Qed.

Lemma tokenize_ok text rows : tokenize text = Some rows -> Forall row_ok rows.
Proof.
  unfold tokenize. destruct (splitLines text) as [|header lines]; [discriminate|].
  intros [= <-]. apply buildRows_ok.
Qed.

(** C10: for every input text, every field the tokenizer produces is
    its own trim and holds no double quote. This is so of the fields
    [parseCSVLine] cuts from each line that the line splitter returns,
    and of every column of every row that [tokenize] assembles, the
    columns no header names included. *)
Theorem tokenizer_fields_trimmed_unquoted (text : str) :
  Forall (fun line => Forall field_ok (parseCSVLine line)) (splitLines text) /\
  match tokenize text with
  | Some rows => Forall (fun row => forall c, field_ok (get_column c row)) rows
  | None => True
  end.
Proof.
  split.
  - apply Forall_forall. intros line _. apply parseCSVLine_ok.
  - destruct (tokenize text) as [rows|] eqn:E; [|exact I].
    exact (tokenize_ok _ _ E).
Qed.

(** * Round trip through the serializer *)

Import Serializer.


Lemma stays_app q a b :
  stays q (a ++ b) = match stays q a with Some q' => stays q' b | None => None end.
Proof.
  revert q. induction a as [|c a IH]; intros q; simpl; [reflexivity|].
  destruct ((c =? NEWLINE) && negb (if c =? DQUOTE then negb q else q));
    [reflexivity | apply IH].
Qed.

Lemma splitLines_loop_stays s : forall t lines cur q q',
  stays q s = Some q' ->
  splitLines_loop (s ++ t) lines cur q = splitLines_loop t lines (cur ++ s) q'.
Proof.
  induction s as [|c s IH]; intros t lines cur q q' Hs; simpl in *.
  - injection Hs as <-. rewrite app_nil_r. reflexivity.
  - destruct ((c =? NEWLINE) && negb (if c =? DQUOTE then negb q else q));
      [discriminate|].
    rewrite (IH _ _ _ _ _ Hs). rewrite <- app_assoc. reflexivity.
Qed.


Lemma needsQuotes_false f :
  needsQuotes f = false -> forallb plain f = true.
Proof.
  unfold needsQuotes. induction f as [|c f IH]; simpl; [reflexivity|].
  intros Hf. apply orb_false_elim in Hf as [Hc Hf].
  unfold plain at 1. rewrite Hc. simpl. auto.
Qed.

Lemma stays_plain q f : forallb plain f = true -> stays q f = Some q.
Proof.
  revert q. induction f as [|c f IH]; intros q; simpl; [reflexivity|].
  intros Hf. apply andb_prop in Hf as [Hc Hf]. unfold plain in Hc.
  apply negb_true_iff in Hc. apply orb_false_elim in Hc as [Hc Hq].
  apply orb_false_elim in Hc as [_ Hn]. rewrite Hq, Hn. simpl. auto.
Qed.

Lemma stays_quoted f : ~ In DQUOTE f -> stays true f = Some true.
Proof.
  induction f as [|c f IH]; simpl; [reflexivity|]. intros Hq.
  destruct (c =? DQUOTE) eqn:E.
  - apply N.eqb_eq in E. exfalso. apply Hq. left. congruence.
  - simpl. rewrite andb_false_r. apply IH. tauto.
Qed.

Lemma escape_unquoted f :
  ~ In DQUOTE f ->
  flat_map (fun c => if c =? DQUOTE then [DQUOTE; DQUOTE] else [c]) f = f.
Proof.
  induction f as [|c f IH]; simpl; [reflexivity|]. intros Hq.
  destruct (c =? DQUOTE) eqn:E.
  - apply N.eqb_eq in E. exfalso. apply Hq. left. congruence.
  - simpl. rewrite IH by tauto. reflexivity.
Qed.

Lemma stays_field f : ~ In DQUOTE f -> stays false (serializeField f) = Some false.
Proof.
  intros Hq. unfold serializeField. destruct (needsQuotes f) eqn:E.
  - rewrite escape_unquoted by exact Hq. simpl.
    rewrite stays_app, stays_quoted by exact Hq. reflexivity.
  - apply stays_plain, needsQuotes_false, E.
Qed.

Lemma stays_record fields :
  Forall (fun f => ~ In DQUOTE f) fields ->
  stays false (serializeRecord fields) = Some false.
Proof.
  unfold serializeRecord. induction 1 as [|f fields Hf _ IH]; [reflexivity|].
  simpl. destruct (List.map serializeField fields) eqn:E.
  - apply stays_field, Hf.
  - rewrite stays_app, stays_field by exact Hf. simpl. exact IH.
Qed.

Lemma splitLines_join records : forall lines,
  Forall (fun r => stays false r = Some false /\ nonempty (trim r) = true) records ->
  splitLines_loop (join [NEWLINE] records) lines [] false = lines ++ records.
Proof.
  induction records as [|r records IH]; intros lines Hr; simpl.
  - rewrite app_nil_r. reflexivity.
  - inversion Hr as [|? ? [Hs Hn] Hr']; subst.
    destruct records as [|r' records].
    + rewrite <- (app_nil_r r) at 1.
      rewrite (splitLines_loop_stays _ _ _ _ _ _ Hs). simpl.
      unfold pushLine. rewrite Hn. reflexivity.
    + rewrite (splitLines_loop_stays _ _ _ _ _ _ Hs).
      cbn [app]. cbn [splitLines_loop]. change (NEWLINE =? DQUOTE) with false.
      cbn. unfold pushLine at 1. rewrite Hn.
      rewrite (IH _ Hr'). rewrite <- app_assoc. reflexivity.
Qed.

Lemma parse_plain f : forall t result cur q,
  forallb plain f = true ->
  parseCSVLine_loop (f ++ t) result cur q =
  parseCSVLine_loop t result (cur ++ f) q.
Proof.
  induction f as [|c f IH]; intros t result cur q Hf; simpl.
  - rewrite app_nil_r. reflexivity.
  - simpl in Hf. apply andb_prop in Hf as [Hc Hf]. unfold plain in Hc.
    apply negb_true_iff in Hc. apply orb_false_elim in Hc as [Hc Hq].
    apply orb_false_elim in Hc as [Hc _]. rewrite Hq, Hc. simpl.
    rewrite IH by exact Hf. rewrite <- app_assoc. reflexivity.
Qed.

Lemma parse_inside f : forall t result cur,
  ~ In DQUOTE f ->
  parseCSVLine_loop (f ++ t) result cur true =
  parseCSVLine_loop t result (cur ++ f) true.
Proof.
  induction f as [|c f IH]; intros t result cur Hq; simpl.
  - rewrite app_nil_r. reflexivity.
  - destruct (c =? DQUOTE) eqn:E.
    + apply N.eqb_eq in E. exfalso. apply Hq. left. congruence.
    + rewrite andb_false_r. rewrite IH by (simpl in Hq; tauto).
      rewrite <- app_assoc. reflexivity.
Qed.

Lemma parse_field f t result cur :
  ~ In DQUOTE f ->
  parseCSVLine_loop (serializeField f ++ t) result cur false =
  parseCSVLine_loop t result (cur ++ f) false.
Proof.
  intros Hq. unfold serializeField. destruct (needsQuotes f) eqn:E.
  - rewrite escape_unquoted by exact Hq.
    cbn [app]. cbn [parseCSVLine_loop]. rewrite N.eqb_refl.
    rewrite <- app_assoc. rewrite parse_inside by exact Hq.
    cbn [app]. cbn [parseCSVLine_loop]. rewrite N.eqb_refl. reflexivity.
  - apply parse_plain, needsQuotes_false, E.
Qed.

Lemma parse_record fields : forall result,
  Forall field_ok fields -> fields <> [] ->
  parseCSVLine_loop (serializeRecord fields) result [] false = result ++ fields.
Proof.
  unfold serializeRecord.
  induction fields as [|f fields IH]; intros result Hok Hne; [congruence|].
  inversion Hok as [|? ? [Ht Hq] Hok']; subst.
  destruct fields as [|f' fields].
  - simpl. rewrite <- (app_nil_r (serializeField f)).
    rewrite parse_field by exact Hq. simpl. rewrite Ht. reflexivity.
  - change (join [COMMA] (List.map serializeField (f :: f' :: fields)))
      with (serializeField f ++ [COMMA] ++
            join [COMMA] (List.map serializeField (f' :: fields))).
    rewrite parse_field by exact Hq.
    cbn [app]. cbn [parseCSVLine_loop].
    change (COMMA =? DQUOTE) with false. rewrite N.eqb_refl. cbn [andb negb].
    rewrite Ht. rewrite IH by (auto; congruence).
    rewrite <- app_assoc. reflexivity.
Qed.

Lemma trim_nonempty s c :
  In c s -> is_space c = false -> nonempty (trim s) = true.
Proof.
  intros Hin Hc.
  assert (Hs : exists d rest, trimStart s = d :: rest /\ is_space d = false).
  { induction s as [|d s IH]; [destruct Hin|]. simpl.
    destruct (is_space d) eqn:Ed.
    - apply IH. destruct Hin as [->|Hin]; [congruence | exact Hin].
    - eauto. }
  destruct Hs as (d & rest & Hs & Hd). unfold trim, trimEnd. rewrite Hs.
  simpl. rewrite trimStart_snoc by exact Hd. rewrite rev_app_distr.
  reflexivity.
Qed.

Lemma in_join_sep sep a b rest : In sep (join [sep] (a :: b :: rest)).
Proof.
  change (join [sep] (a :: b :: rest)) with (a ++ [sep] ++ join [sep] (b :: rest)).
  apply in_or_app. right. left. reflexivity.
Qed.

Lemma fillRow_fieldsOf row :
  fillRow (List.map header_of all_columns) 0 (fieldsOf row) createEmptyCSVRow = row.
Proof. destruct row. vm_compute. reflexivity. Qed.

Lemma fieldsOf_ok row : row_ok row -> Forall field_ok (fieldsOf row).
Proof. intros Hr. unfold fieldsOf. apply Forall_map, Forall_forall. intros c _. apply Hr. Qed.

Lemma record_sealed row :
  row_ok row ->
  stays false (serializeRecord (fieldsOf row)) = Some false /\
  nonempty (trim (serializeRecord (fieldsOf row))) = true.
Proof.
  intros Hr. split.
  - apply stays_record. apply Forall_map, Forall_forall. intros c _. apply Hr.
  - apply (trim_nonempty _ COMMA); [|reflexivity].
    unfold serializeRecord, fieldsOf. cbn [List.map all_columns].
    apply in_join_sep.
Qed.


Lemma header_record :
  parseCSVLine (serializeRecord (List.map header_of all_columns)) =
  List.map header_of all_columns.
Proof. vm_compute. reflexivity. Qed.

Lemma header_sealed :
  stays false (serializeRecord (List.map header_of all_columns)) = Some false /\
  nonempty (trim (serializeRecord (List.map header_of all_columns))) = true.
Proof. split; vm_compute; reflexivity. Qed.

Lemma List_filter_cons {A} (f : A -> bool) x l :
  List.filter f (x :: l) = if f x then x :: List.filter f l else List.filter f l.
Proof. reflexivity. Qed.

Lemma buildRows_serialized rows :
  Forall row_ok rows ->
  buildRows (List.map header_of all_columns)
    (List.map (fun row => serializeRecord (fieldsOf row)) rows) = rows.
Proof.
  unfold buildRows. induction 1 as [|row rows Hrow _ IH]; [reflexivity|].
  rewrite map_cons. rewrite List_filter_cons.
  destruct (record_sealed row Hrow) as [_ Hn]. rewrite Hn.
  rewrite map_cons. f_equal; [|exact IH].
  unfold parseCSVLine. rewrite parse_record.
  - apply fillRow_fieldsOf.
  - apply fieldsOf_ok, Hrow.
  - discriminate.
Qed.

(** C7, amended: when every field of every row is its own trim and
    holds no double quote, tokenizing the serialized rows gives the rows
    back, whatever commas and line breaks the fields hold. *)
Theorem serialize_tokenize_roundtrip (rows : list CSVRow) :
  Forall (fun row => forall c, field_ok (get_column c row)) rows ->
  tokenize (serialize rows) = Some rows.
Proof.
  intros Hrows. unfold tokenize, serialize, splitLines.
  rewrite splitLines_join.
  - rewrite app_nil_l. rewrite header_record. f_equal.
    apply buildRows_serialized, Hrows.
  - constructor; [exact header_sealed|].
    apply Forall_map. eapply Forall_impl; [exact Hrows|].
    intros row Hrow. apply record_sealed. exact Hrow.
Qed.

(** The round trip holds on a row with a comma in one field and a line
    break in another. *)
Lemma serialize_tokenize_roundtrip_witness :
  Forall (fun row => forall c, field_ok (get_column c row)) [Samples.awkwardRow] /\
  tokenize (serialize [Samples.awkwardRow]) = Some [Samples.awkwardRow].
Proof.
  assert (Hok : Forall (fun row => forall c, field_ok (get_column c row))
                  [Samples.awkwardRow]).
  { constructor; [|constructor]. intros c. split.
    - destruct c; vm_compute; reflexivity.
    - destruct c; vm_compute; intros Hin;
        repeat (destruct Hin as [Hin|Hin]; [discriminate Hin|]); exact Hin. }
  split; [exact Hok | exact (serialize_tokenize_roundtrip _ Hok)].
Defined.

(** A double quote inside a field does not come back: the serialized
    text is well formed, the tokenizer returns the name without its
    quote. *)
Lemma roundtrip_loses_quote :
  col_ProductName Samples.quotedRow = lit "6" ++ [DQUOTE] ++ lit " pull" /\
  tokenize (serialize [Samples.quotedRow]) =
    Some [set_column ProductName (lit "6 pull") Samples.quotedRow] /\
  tokenize (serialize [Samples.quotedRow]) <> Some [Samples.quotedRow].
Proof.
  split; [reflexivity|]. split; [vm_compute; reflexivity|].
  vm_compute. discriminate.
Qed.

End TokenizerFacts.

(** * Facts about the grouper *)

Module GrouperFacts.
Import Tokenizer Grouper TokenizerSpec TokenizerFacts.
Open Scope nat_scope.

(** * The grouper *)

Lemma str_eqb_true a b : str_eqb a b = true <-> a = b.
Proof. unfold str_eqb. apply bool_decide_eq_true. Qed.

Lemma str_eqb_false a b : str_eqb a b = false <-> a <> b.
Proof. unfold str_eqb. apply bool_decide_eq_false. Qed.

Lemma map_has_In {V} key (m : list (str * V)) :
  map_has key m = true <-> In key (List.map fst m).
Proof.
  induction m as [|[k v] m IH]; simpl; [split; [discriminate | tauto]|].
  rewrite orb_true_iff, IH, str_eqb_true. tauto.
Qed.

Lemma map_modify_keys {V} key (f : V -> V) (m : list (str * V)) :
  List.map fst (map_modify key f m) = List.map fst m.
Proof.
  induction m as [|[k v] m IH]; simpl; [reflexivity|].
  destruct (str_eqb k key); simpl; [reflexivity | f_equal; exact IH].
Qed.



Lemma rowsOf_snoc code rows row :
  rowsOf code (rows ++ [row]) =
  rowsOf code rows ++ (if str_eqb (col_ProductCode row) code then [row] else []).
Proof. unfold rowsOf. rewrite List.filter_app. reflexivity. Qed.

Lemma rowsOf_absent code rows :
  ~ In code (List.map col_ProductCode rows) -> rowsOf code rows = [].
Proof.
  unfold rowsOf. induction rows as [|r rows IH]; simpl; [reflexivity|].
  intros Hn. destruct (str_eqb (col_ProductCode r) code) eqn:E.
  - apply str_eqb_true in E. tauto.
  - apply IH. tauto.
Qed.

Lemma groupRow_modify rows row : forall m : list (str * ParsedProduct),
  NoDup (List.map fst m) ->
  Forall (fun entry =>
            productCode (snd entry) = fst entry /\
            variants (snd entry) = List.map variantOfRow (rowsOf (fst entry) rows))
         m ->
  Forall (fun entry =>
            productCode (snd entry) = fst entry /\
            variants (snd entry) =
              List.map variantOfRow (rowsOf (fst entry) (rows ++ [row])))
         (map_modify (col_ProductCode row)
            (fun product =>
               with_variants (variants product ++ [variantOfRow row]) product)
            m).
Proof.
  induction m as [|[k p] m IH]; intros Hnd Hall; simpl; [constructor|].
  simpl in Hnd. apply NoDup_cons in Hnd as [Hk Hnd'].
  apply Forall_cons in Hall as [[Hc Hv] Hall']. simpl in *.
  destruct (str_eqb k (col_ProductCode row)) eqn:E.
  - apply str_eqb_true in E. rewrite E in *. clear E. constructor.
    + simpl. split; [exact Hc|]. rewrite rowsOf_snoc, List.map_app, Hv.
      assert (Hrefl : str_eqb (col_ProductCode row) (col_ProductCode row) = true)
        by (apply str_eqb_true; reflexivity).
      rewrite Hrefl. reflexivity.
    + rewrite Forall_forall in Hall'. apply Forall_forall.
      intros [k' p'] Hin. destruct (Hall' _ Hin) as [Hc' Hv']. simpl in *.
      split; [exact Hc'|]. rewrite rowsOf_snoc.
      destruct (str_eqb (col_ProductCode row) k') eqn:E'.
      * apply str_eqb_true in E'. exfalso. apply Hk.
        apply list_elem_of_fmap. exists (k', p'). split; [exact E' | exact Hin].
      * rewrite app_nil_r. exact Hv'.
  - constructor.
    + simpl. split; [exact Hc|]. rewrite rowsOf_snoc.
      destruct (str_eqb (col_ProductCode row) k) eqn:E'.
      * apply str_eqb_true in E'. apply str_eqb_false in E. congruence.
      * rewrite app_nil_r. exact Hv.
    + apply IH; assumption.
Qed.

Lemma groupRow_grouped rows row m :
  grouped rows m -> grouped (rows ++ [row]) (groupRow m row).
Proof.
  intros (Hnd & Hkeys & Hall). unfold groupRow.
  set (code := col_ProductCode row).
  assert (Hcodes : forall c, In c (List.map col_ProductCode (rows ++ [row])) <->
                             In c (List.map col_ProductCode rows) \/ c = code).
  { intros c. rewrite List.map_app, in_app_iff. simpl. fold code.
    intuition congruence. }
  destruct (map_has code m) eqn:E.
  - split; [|split].
    + rewrite map_modify_keys. exact Hnd.
    + intros c. rewrite map_modify_keys, Hcodes, Hkeys.
      split; [tauto|]. intros [Hc| ->]; [exact Hc|].
      apply Hkeys. apply map_has_In. exact E.
    + apply groupRow_modify; assumption.
  - assert (Hfresh : ~ In code (List.map fst m)).
    { intros Hin. apply map_has_In in Hin. congruence. }
    split; [|split].
    + rewrite map_modify_keys, List.map_app. apply NoDup_app.
      split; [exact Hnd|]. split.
      * intros k Hk Hk'. simpl in Hk'. apply list_elem_of_singleton in Hk'.
        subst k. apply Hfresh. apply list_elem_of_In. exact Hk.
      * simpl. apply NoDup_singleton.
    + intros c. rewrite map_modify_keys, Hcodes, List.map_app, in_app_iff, Hkeys.
      simpl. intuition congruence.
    + apply groupRow_modify.
      * rewrite List.map_app. apply NoDup_app. split; [exact Hnd|]. split.
        -- intros k Hk Hk'. simpl in Hk'. apply list_elem_of_singleton in Hk'.
           subst k. apply Hfresh. apply list_elem_of_In. exact Hk.
        -- simpl. apply NoDup_singleton.
      * apply Forall_app. split; [exact Hall|]. constructor; [|constructor].
        simpl. split; [reflexivity|]. rewrite rowsOf_absent; [reflexivity|].
        intros Hin. apply Hkeys in Hin. contradiction.
Qed.

Lemma foldl_groupRow_grouped rows : forall done m,
  grouped done m -> grouped (done ++ rows) (foldl groupRow m rows).
Proof.
  induction rows as [|row rows IH]; intros done m Hg; simpl.
  - rewrite app_nil_r. exact Hg.
  - replace (done ++ row :: rows) with ((done ++ [row]) ++ rows)
      by (rewrite <- app_assoc; reflexivity).
    apply IH, groupRow_grouped, Hg.
Qed.

Lemma groupRows_grouped rows : grouped rows (foldl groupRow [] rows).
Proof.
  apply (foldl_groupRow_grouped rows [] []).
  split; [constructor|]. split; [simpl; tauto | constructor].
Qed.

Lemma rowsOf_cons code row rows :
  rowsOf code (row :: rows) =
  if str_eqb (col_ProductCode row) code then row :: rowsOf code rows
  else rowsOf code rows.
Proof. reflexivity. Qed.

Lemma rowsOf_other row rows codes :
  ~ In (col_ProductCode row) codes ->
  List.map (fun c => length (rowsOf c (row :: rows))) codes =
  List.map (fun c => length (rowsOf c rows)) codes.
Proof.
  intros Hn. apply List.map_ext_in. intros c Hc. rewrite rowsOf_cons.
  destruct (str_eqb (col_ProductCode row) c) eqn:E; [|reflexivity].
  apply str_eqb_true in E. congruence.
Qed.

(** Every row is among the rows of exactly one of a duplicate-free
    list of codes that holds its own. *)
Lemma rowsOf_one_more row rows : forall codes,
  NoDup codes -> In (col_ProductCode row) codes ->
  sum_list (List.map (fun c => length (rowsOf c (row :: rows))) codes) =
  S (sum_list (List.map (fun c => length (rowsOf c rows)) codes)).
Proof.
  induction codes as [|c codes IHc]; intros Hnd Hin; [destruct Hin|].
  apply NoDup_cons in Hnd as [Hc Hnd].
  rewrite !map_cons. cbn [sum_list sum_list_with]. rewrite rowsOf_cons.
  destruct (str_eqb (col_ProductCode row) c) eqn:E.
  - apply str_eqb_true in E. rewrite rowsOf_other.
    + reflexivity.
    + rewrite E. intros H. apply Hc. apply list_elem_of_In. exact H.
  - destruct Hin as [->|Hin].
    + apply str_eqb_false in E. congruence.
    + rewrite IHc by assumption. lia.
Qed.

Lemma rowsOf_partition rows : forall codes,
  NoDup codes ->
  (forall c, In c (List.map col_ProductCode rows) -> In c codes) ->
  sum_list (List.map (fun c => length (rowsOf c rows)) codes) = length rows.
Proof.
  induction rows as [|row rows IH]; intros codes Hnd Hall.
  - clear. induction codes as [|c codes IHc]; [reflexivity|]. simpl. exact IHc.
  - rewrite rowsOf_one_more.
    + simpl. f_equal. apply IH; [exact Hnd|]. intros c Hc. apply Hall.
      right. exact Hc.
    + exact Hnd.
    + apply Hall. left. reflexivity.
Qed.

Lemma groupRows_codes rows :
  List.map productCode (groupRows rows) = List.map fst (foldl groupRow [] rows).
Proof.
  destruct (groupRows_grouped rows) as (_ & _ & Hall).
  unfold groupRows, map_values. rewrite List.map_map.
  apply List.map_ext_in. intros entry Hin.
  rewrite Forall_forall in Hall. apply Hall. apply list_elem_of_In. exact Hin.
Qed.

Lemma groupRows_distinct rows :
  length (groupRows rows) = length (remove_dups (List.map col_ProductCode rows)).
Proof.
  destruct (groupRows_grouped rows) as (Hnd & Hkeys & _).
  rewrite <- (length_map productCode), groupRows_codes.
  apply Permutation_length. apply NoDup_Permutation.
  - exact Hnd.
  - apply NoDup_remove_dups.
  - intros code. rewrite elem_of_remove_dups, !list_elem_of_In. apply Hkeys.
Qed.

(** C8: the grouper returns one product per distinct product code of
    its input rows, each with one variant per row of its code, in the
    order of the rows; the variant counts add up to the number of rows.
    The rows the tokenizer hands over hold trimmed codes, so that on
    them the number of products is the number of distinct trimmed
    codes. *)
Theorem grouper_counts (rows : list CSVRow) (text : str) :
  let products := groupRows rows in
  (NoDup (List.map productCode products) /\
   (forall code, In code (List.map productCode products) <->
                 In code (List.map col_ProductCode rows)) /\
   length products = length (remove_dups (List.map col_ProductCode rows)) /\
   Forall (fun product =>
             variants product =
             List.map variantOfRow (rowsOf (productCode product) rows))
          products /\
   sum_list (List.map (fun product => length (variants product)) products) =
   length rows) /\
  match tokenize text with
  | Some parsed =>
      length (groupRows parsed) =
      length (remove_dups (List.map (fun row => trim (col_ProductCode row)) parsed))
  | None => True
  end.
Proof.
  destruct (groupRows_grouped rows) as (Hnd & Hkeys & Hall).
  cbn zeta. split; [split; [|split; [|split; [|split]]]|].
  - rewrite groupRows_codes. exact Hnd.
  - rewrite groupRows_codes. exact Hkeys.
  - apply groupRows_distinct.
  - unfold groupRows, map_values. apply Forall_map.
    eapply Forall_impl; [exact Hall|]. intros entry [Hc Hv]. simpl.
    rewrite Hc. exact Hv.
  - rewrite <- (rowsOf_partition rows (List.map fst (foldl groupRow [] rows))).
    + unfold groupRows, map_values. rewrite !List.map_map. f_equal.
      apply List.map_ext_in. intros entry Hin.
      rewrite Forall_forall in Hall.
      destruct (Hall entry) as [_ ->]; [apply list_elem_of_In; exact Hin|].
      apply length_map.
    + exact Hnd.
    + intros c Hc. apply Hkeys. exact Hc.
  - destruct (tokenize text) as [parsed|] eqn:E; [|exact I].
    rewrite groupRows_distinct. do 2 f_equal.
    apply List.map_ext_in. intros row Hin.
    pose proof (tokenize_ok _ _ E) as Hok. rewrite Forall_forall in Hok.
    symmetry. apply (Hok row (proj2 (list_elem_of_In _ _) Hin) ProductCode).
Qed.

End GrouperFacts.

(** * Facts about the category walks *)

Module CategoryFacts.
Import Categories CategoryPaths CategorySpec.
Open Scope nat_scope.

(** * Category paths *)


Lemma walk_chain field lookup currentId visited path :
  exists chain,
    walk field lookup currentId visited path =
      path ++ List.map (fun step => field (snd step)) chain /\
    chain_ok lookup visited chain.
Proof.
  funelim (walk field lookup currentId visited path);
    try (exists []; rewrite app_nil_r; split; [reflexivity|split; constructor]).
  destruct H as (chain & Hwalk & Hnd & Hall).
  exists ((n :: l, category) :: chain). split.
  - rewrite Hwalk. rewrite <- app_assoc. reflexivity.
  - split.
    + simpl. apply NoDup_cons. split; [|exact Hnd].
      intros Hin. apply list_elem_of_fmap in Hin as ([k c] & Hk & Hin).
      simpl in Hk. subst k. rewrite Forall_forall in Hall.
      destruct (Hall _ Hin) as [_ Hv]. simpl in Hv. set_solver.
    + constructor; [split; [exact Hget | exact Hfresh]|].
      eapply Forall_impl; [exact Hall|]. intros step [Hl Hv].
      split; [exact Hl | set_solver].
Qed.

Lemma chain_length lookup visited chain :
  chain_ok lookup visited chain -> length chain <= size (dom lookup ∖ visited).
Proof.
  intros [Hnd Hall].
  rewrite <- (length_map fst chain).
  rewrite <- (size_list_to_set (C := gset (list N)) (List.map fst chain)) by exact Hnd.
  apply subseteq_size. intros k Hk. apply elem_of_list_to_set in Hk.
  apply list_elem_of_fmap in Hk as (step & -> & Hin).
  rewrite Forall_forall in Hall. destruct (Hall _ Hin) as [Hl Hv].
  apply elem_of_difference. split; [|exact Hv].
  apply elem_of_dom. eauto.
Qed.

Lemma buildCategoryMap_size categories :
  size (buildCategoryMap categories) <= length categories.
Proof.
  unfold buildCategoryMap.
  assert (H : forall (m : gmap (list N) Category),
            size (foldl (fun m c => <[cat_id c := c]> m) m categories)
            <= size m + length categories).
  { induction categories as [|c cs IH]; intros m; simpl; [lia|].
    etransitivity; [apply IH|].
    destruct (m !! cat_id c) eqn:E.
    - rewrite map_size_insert_Some by eauto. lia.
    - rewrite map_size_insert_None by exact E. lia. }
  specialize (H ∅). rewrite map_size_empty in H. exact H.
Qed.

Lemma buildCategoryMap_lookup categories id c :
  buildCategoryMap categories !! id = Some c -> cat_id c = id /\ In c categories.
Proof.
  unfold buildCategoryMap.
  assert (H : forall cs (m : gmap (list N) Category),
            (forall c, In c cs -> In c categories) ->
            (forall k v, m !! k = Some v -> cat_id v = k /\ In v categories) ->
            foldl (fun m c => <[cat_id c := c]> m) m cs !! id = Some c ->
            cat_id c = id /\ In c categories).
  { induction cs as [|c0 cs IH]; intros m Hcs Hm; simpl; [apply Hm|].
    apply IH.
    - intros c' Hc'. apply Hcs. right. exact Hc'.
    - intros k v. rewrite lookup_insert. case_decide as Hk.
      + intros [= <-]. split; [exact Hk | apply Hcs; left; reflexivity].
      + apply Hm. }
  apply H; [auto|]. intros k v Hk. rewrite lookup_empty in Hk. discriminate.
Qed.

Lemma walk_revisit field lookup id visited path :
  id ∈ visited -> walk field lookup (Some id) visited path = path.
Proof.
  intros Hin. funelim (walk field lookup (Some id) visited path);
    try reflexivity.
  contradiction.
Qed.

Lemma walk_absent field lookup id visited path :
  lookup !! id = None -> walk field lookup (Some id) visited path = path.
Proof.
  intros Hno. funelim (walk field lookup (Some id) visited path);
    try reflexivity.
  congruence.
Qed.

(** C9: on the lookup built from any list of categories, with cycles
    or dangling parents as they come, [getCategoryPath] and
    [getCategoryAncestry] return a list no longer than the list of
    categories; the ancestry names no id twice and only ids of the
    list. A walk that arrives at an id it has seen, or at an id the
    lookup does not hold, ends with the path it has. *)
Theorem category_walks_end (categories : list Category) (categoryId : str) :
  let lookup := buildCategoryMap categories in
  length (getCategoryPath categoryId lookup) <= length categories /\
  length (getCategoryAncestry categoryId lookup) <= length categories /\
  NoDup (getCategoryAncestry categoryId lookup) /\
  (forall id, In id (getCategoryAncestry categoryId lookup) ->
              In id (List.map cat_id categories)) /\
  (forall field visited path,
     walk field lookup (Some categoryId) ({[categoryId]} ∪ visited) path = path) /\
  (forall field visited path,
     walk field (delete categoryId lookup) (Some categoryId) visited path = path).
Proof.
  intros lookup.
  assert (Hlen : forall field,
            length (rev (walk field lookup (Some categoryId) ∅ [])) <= length categories).
  { intros field.
    destruct (walk_chain field lookup (Some categoryId) ∅ []) as (chain & -> & Hc).
    rewrite length_rev, app_nil_l, length_map.
    etransitivity; [apply (chain_length _ _ _ Hc)|].
    etransitivity; [apply subseteq_size; apply subseteq_difference_l; reflexivity|].
    rewrite size_dom. apply buildCategoryMap_size. }
  split; [apply Hlen|]. split; [apply Hlen|].
  destruct (walk_chain cat_id lookup (Some categoryId) ∅ []) as (chain & Hw & Hnd & Hall).
  assert (Hids : List.map (fun step => cat_id (snd step)) chain = List.map fst chain).
  { apply List.map_ext_in. intros step Hin. rewrite Forall_forall in Hall.
    destruct (Hall step) as [Hl _]; [apply list_elem_of_In; exact Hin|].
    apply buildCategoryMap_lookup in Hl. apply Hl. }
  unfold getCategoryAncestry. rewrite Hw, app_nil_l, Hids.
  split; [rewrite <- Permutation_rev; exact Hnd|]. split; [|split].
  - intros id Hin. apply in_rev in Hin. apply in_map_iff in Hin as (step & <- & Hin).
    rewrite Forall_forall in Hall.
    destruct (Hall step) as [Hl _]; [apply list_elem_of_In; exact Hin|].
    apply buildCategoryMap_lookup in Hl as [<- Hc]. apply in_map. exact Hc.
  - intros field visited path. apply walk_revisit. set_solver.
  - intros field visited path. apply walk_absent. apply lookup_delete_eq.
Qed.

End CategoryFacts.

(** * Facts about the category resolver *)

Module ResolverFacts.
Import Categories Grouper Resolver.
Open Scope nat_scope.

(** C3, at a failing input. The tree holds the single root category
    Handles; the product's path is Hardware > Handles. The walk misses
    Hardware, and then looks the next segment up among the root
    categories, where it finds Handles: the segment after the miss
    becomes no proposal. Without the root category both segments are
    proposed. *)
Theorem segment_after_miss_matched_at_root :
  List.map pc_key
    (buildProposedCategoriesForProducts (H := asciiRuntime)
       [Samples.pullHandle] [Samples.handles]) = [lit "hardware"] /\
  List.map pc_key
    (buildProposedCategoriesForProducts (H := asciiRuntime)
       [Samples.pullHandle] []) = [lit "hardware"; lit "hardware>handles"].
Proof. split; vm_compute; reflexivity. Qed.

End ResolverFacts.

(** * Facts about the detector of existing products *)

Module DetectorFacts.
Import Grouper Detector.
Open Scope nat_scope.

(** * Duplicate detection *)

Section Detection.
Context `{JSRuntime}.

Lemma redetectProduct_unmutated existing product :
  snd (redetectProduct existing product) = false ->
  fst (redetectProduct existing product) = product.
Proof.
  unfold redetectProduct.
  destruct (detectExistingProduct existing (productCode product) (name product))
    as [[found type]|].
  - destruct (_ && _); [reflexivity | discriminate].
  - destruct (truthy (existingProductId product)); [discriminate | reflexivity].
Qed.

Lemma redetect_map existing prev :
  redetect true existing prev =
  List.map (fun product => fst (redetectProduct existing product)) prev.
Proof.
  unfold redetect. cbn [negb]. rewrite List.map_map.
  destruct (existsb snd (List.map (redetectProduct existing) prev)) eqn:E;
    [reflexivity|].
  induction prev as [|product prev IH]; [reflexivity|].
  simpl in E. apply orb_false_elim in E as [Hp Hprev]. simpl.
  rewrite (redetectProduct_unmutated _ _ Hp). f_equal. apply IH, Hprev.
Qed.

(** What one run of the re-detection pass does to a product, by what
    the lookup reads. *)
Lemma redetectProduct_cases existing product :
  let product' := fst (redetectProduct existing product) in
  productCode product' = productCode product /\
  name product' = name product /\
  variants product' = variants product /\
  match detectExistingProduct existing (productCode product) (name product) with
  | Some (found, type) =>
      existingProductId product' = read_id found /\
      existingMatchType product' = Some type /\
      (truthy (existingProductId product) = false ->
       existingProductId product <> read_id found ->
       action product' = skip) /\
      (truthy (existingProductId product) = true ->
       action product' = action product)
  | None =>
      truthy (existingProductId product') = false /\
      (truthy (existingProductId product) = true ->
       existingProductId product' = None /\
       existingProductName product' = None /\
       existingUpdatedAt product' = None /\
       existingMatchType product' = None /\
       action product' =
         match action product with skip => skip | _ => create end)
  end.
Proof.
  cbv zeta. unfold redetectProduct.
  destruct (detectExistingProduct existing (productCode product) (name product))
    as [[found type]|].
  - destruct (bool_decide (existingProductId product = read_id found) &&
              bool_decide (existingMatchType product = Some type)) eqn:E.
    + apply andb_prop in E as [E1 E2].
      apply bool_decide_eq_true in E1. apply bool_decide_eq_true in E2.
      cbn [fst]. repeat split; try reflexivity; try congruence.
    + cbn [fst]. split; [reflexivity|]. split; [reflexivity|].
      split; [reflexivity|]. split; [reflexivity|]. split; [reflexivity|].
      split.
      * intros Hno _. rewrite Hno. reflexivity.
      * intros Hyes. rewrite Hyes. reflexivity.
  - destruct (truthy (existingProductId product)) eqn:Et; cbn [fst].
    + repeat split; reflexivity.
    + repeat split; try reflexivity; try assumption; discriminate.
Qed.

End Detection.

(** C4: the re-detection pass can leave a draft as [update] without a
    product to update. The index of existing products is empty, so no
    stored product matches; the draft was matched by code with the
    product [p1] and marked for update. With the product code
    [constructor] the lookup [byCode[codeKey]] reads the function that
    every object inherits under that name, and the pass keeps the
    action [update], writes [undefined] for the id and the name of the
    function for the name. With a product code that names no inherited
    property the same draft loses its four reference fields and goes
    back to [create]. *)
Theorem redetection_keeps_update_on_inherited_key :
  detectExistingProduct (H := asciiRuntime) Samples.emptyIndex
    (lit "constructor") (lit "Knob") =
    Some (RMethod (lit "Object"), match_code) /\
  (exists product',
     redetect (H := asciiRuntime) true Samples.emptyIndex
       [Samples.matchedUpdate (lit "constructor")] = [product'] /\
     action product' = update /\
     existingProductId product' = None /\
     existingProductName product' = Some (lit "Object") /\
     existingUpdatedAt product' = None /\
     existingMatchType product' = Some match_code) /\
  (exists product',
     redetect (H := asciiRuntime) true Samples.emptyIndex
       [Samples.matchedUpdate (lit "S-200")] = [product'] /\
     action product' = create /\
     existingProductId product' = None /\
     existingProductName product' = None /\
     existingUpdatedAt product' = None /\
     existingMatchType product' = None).
Proof.
  split; [vm_compute; reflexivity|].
  split; eexists; (split; [vm_compute; reflexivity|]); repeat split.
Qed.

End DetectorFacts.

(** * Facts about the rate-limited engine *)

Module EngineFacts.
Import Engine.
Open Scope nat_scope.

(** * The batched execution engine *)

Section Runs.
Context `{JSRuntime} {T W : Type}.
Variable handler : T -> nat -> W -> W * option ThrownValue.
Variable options : RateLimitOptions T W.
Variable items : list T.
Variable total : nat.

#[local] Abbreviation Run := (Run T W).
#[local] Abbreviation Event := (Event T).
#[local] Abbreviation tryOnce := (tryOnce T W handler options).
#[local] Abbreviation afterLoop := (afterLoop T W options total).
#[local] Abbreviation canRetry := (canRetry T W options).
#[local] Abbreviation backoffDelay := (backoffDelay T W options).
#[local] Abbreviation failureOf := (failureOf T).
#[local] Abbreviation isTerminal := (isTerminal T W options).
#[local] Abbreviation settled := (settled T W options).
#[local] Abbreviation failuresOf := (failuresOf T W options).
#[local] Abbreviation progressOf := (progressOf T).
#[local] Abbreviation itemStatus := (itemStatus T W options).
#[local] Abbreviation statusStep := (statusStep T W options).
#[local] Abbreviation backoffCheck := (backoffCheck T W options).
#[local] Abbreviation sleepStep := (sleepStep T W options).
#[local] Abbreviation attemptIndices := (attemptIndices T).
#[local] Abbreviation expectedProgress := (EngineSpec.expectedProgress options total).
#[local] Abbreviation justified := (EngineSpec.justified handler items).
#[local] Abbreviation Inv := (EngineSpec.Inv handler options items total).
#[local] Abbreviation retryEvents := (EngineSpec.retryEvents options).
#[local] Abbreviation closingEvents := (EngineSpec.closingEvents options total).
#[local] Abbreviation itemDone := (EngineSpec.itemDone handler options items total).
#[local] Abbreviation rangeDone := (EngineSpec.rangeDone handler options items total).
#[local] Abbreviation inflightOf := (@EngineSpec.inflightOf T).
#[local] Abbreviation inflight := (@EngineSpec.inflight T).
#[local] Abbreviation workerCost := (EngineSpec.workerCost options).
#[local] Abbreviation poolCost := (EngineSpec.poolCost options).
#[local] Abbreviation workerOK := (EngineSpec.workerOK options items).
#[local] Abbreviation Progress := (EngineSpec.Progress handler options items total).
#[local] Abbreviation everyKthFails := (EngineSpec.everyKthFails handler options items).






Lemma tryOnce_retry item index attempts r r' :
  tryOnce item index attempts r = (r', true) ->
  exists error,
    snd (handler item index (world r)) = Some error /\
    canRetry attempts error item = true /\
    events r' = events r ++ retryEvents index item attempts error /\
    failures r' = failures r /\ completed r' = completed r /\
    world r' = fst (handler item index (world r)).
Proof.
  unfold Engine.tryOnce. destruct (handler item index (world r)) as [w [error|]];
    cbn [log world failures completed events].
  - destruct (canRetry attempts error item) eqn:E; cbn [negb].
    + intros [= <-]. exists error. cbn. rewrite <- app_assoc.
      repeat split; auto.
    + intros [=].
  - intros [=].
Qed.

Lemma tryOnce_break item index attempts r r' :
  tryOnce item index attempts r = (r', false) ->
  let outcome := snd (handler item index (world r)) in
  isTerminal (EvAttempt index item attempts outcome) = true /\
  events r' = events r ++ [EvAttempt index item attempts outcome] /\
  failures r' =
    failures r ++ failuresOf [EvAttempt index item attempts outcome] /\
  completed r' = completed r /\
  world r' = fst (handler item index (world r)).
Proof.
  unfold Engine.tryOnce. destruct (handler item index (world r)) as [w [error|]];
    cbn [log world failures completed events snd fst].
  - destruct (canRetry attempts error item) eqn:E; cbn [negb].
    + intros [=].
    + intros [= <-]. cbn. rewrite E. cbn. rewrite ?app_nil_r.
      repeat split; auto.
  - intros [= <-]. cbn. rewrite ?app_nil_r. repeat split; auto.
Qed.

Lemma afterLoop_spec r :
  events (afterLoop r) = events r ++ closingEvents (completed r) /\
  failures (afterLoop r) = failures r /\
  completed (afterLoop r) = S (completed r).
Proof.
  unfold Engine.afterLoop, EngineSpec.closingEvents.
  destruct (onProgress T W options); destruct (0 <? perItemDelayMs T W options)%Z;
    cbn; rewrite <- ?app_assoc, ?app_nil_r; auto.
Qed.

(** Summaries of a log that grows. *)

Lemma settled_app a b : settled (a ++ b) = settled a ++ settled b.
Proof. apply flat_map_app. Qed.

Lemma failuresOf_app a b : failuresOf (a ++ b) = failuresOf a ++ failuresOf b.
Proof. apply flat_map_app. Qed.

Lemma progressOf_app a b : progressOf (a ++ b) = progressOf a ++ progressOf b.
Proof. apply flat_map_app. Qed.

Lemma attemptIndices_app a b :
  attemptIndices (a ++ b) = attemptIndices a ++ attemptIndices b.
Proof. apply flat_map_app. Qed.

Lemma closing_summary c :
  settled (closingEvents c) = [] /\ failuresOf (closingEvents c) = [] /\
  attemptIndices (closingEvents c) = [] /\
  progressOf (closingEvents c) =
    match onProgress T W options with Some _ => [(S c, total)] | None => [] end /\
  foldl sleepStep Quiet (closingEvents c) = Quiet /\
  (forall j s, foldl (statusStep j) s (closingEvents c) = s) /\
  Forall justified (closingEvents c).
Proof.
  unfold EngineSpec.closingEvents.
  destruct (onProgress T W options); destruct (0 <? perItemDelayMs T W options)%Z;
    cbn; repeat split; auto; repeat constructor.
Qed.

Lemma expectedProgress_S c :
  expectedProgress (S c) =
  expectedProgress c ++
  match onProgress T W options with Some _ => [(S c, total)] | None => [] end.
Proof.
  unfold EngineSpec.expectedProgress. destruct (onProgress T W options); [|reflexivity].
  rewrite seq_S, List.map_app. reflexivity.
Qed.


Lemma itemStatus_app j a b :
  itemStatus j (a ++ b) = foldl (statusStep j) (itemStatus j a) b.
Proof. apply foldl_app. Qed.

Lemma backoffCheck_app a b :
  backoffCheck (a ++ b) = foldl sleepStep (backoffCheck a) b.
Proof. apply foldl_app. Qed.

(** A failed attempt that is retried. *)
Lemma Inv_retry r r' item index attempts :
  Inv r -> items !! index = Some item ->
  tryOnce item index attempts r = (r', true) ->
  Inv r' /\
  attempts <= maxRetries T W options /\
  settled (events r') = settled (events r) /\
  attemptIndices (events r') = attemptIndices (events r) ++ [index] /\
  (forall j, j <> index -> itemStatus j (events r') = itemStatus j (events r)) /\
  (itemStatus index (events r) = Open attempts ->
   itemStatus index (events r') = Open (S attempts)).
Proof.
  intros [If Ip Ib Ij Ic] Hitem Htry.
  apply tryOnce_retry in Htry as (error & Hout & Hcan & Hev & Hf & Hc & Hw).
  assert (Hterm : isTerminal (EvAttempt index item attempts (Some error)) = false)
    by (cbn; rewrite Hcan; reflexivity).
  split; [|split; [|split; [|split; [|split]]]].
  - constructor.
    + rewrite Hf, Hev, failuresOf_app, If. cbn. rewrite Hcan. cbn.
      rewrite app_nil_r. reflexivity.
    + rewrite Hc, Hev, progressOf_app, Ip. cbn. apply app_nil_r.
    + rewrite Hev, backoffCheck_app, Ib. cbn. rewrite Hcan. cbn.
      rewrite Z.eqb_refl. reflexivity.
    + rewrite Hev. apply Forall_app. split; [exact Ij|].
      constructor; [|repeat constructor]. split; [exact Hitem|].
      exists (world r). symmetry. exact Hout.
    + rewrite Hc, Hev, settled_app, Ic. cbn. rewrite Hcan. cbn.
      rewrite app_nil_r. reflexivity.
  - unfold Engine.canRetry in Hcan. apply andb_prop in Hcan as [Hle _].
    apply Nat.leb_le. exact Hle.
  - rewrite Hev, settled_app. cbn. rewrite Hcan. cbn. apply app_nil_r.
  - rewrite Hev, attemptIndices_app. reflexivity.
  - intros j Hj. rewrite Hev, itemStatus_app. cbn.
    destruct (index =? j) eqn:E; [|reflexivity].
    apply Nat.eqb_eq in E. congruence.
  - intros Hs. rewrite Hev, itemStatus_app, Hs. cbn.
    rewrite !Nat.eqb_refl, Hcan. reflexivity.
Qed.

(** An attempt that settles its item. *)
Lemma Inv_break r r' item index attempts :
  Inv r -> items !! index = Some item ->
  tryOnce item index attempts r = (r', false) ->
  Inv (afterLoop r') /\
  settled (events (afterLoop r')) = settled (events r) ++ [index] /\
  attemptIndices (events (afterLoop r')) = attemptIndices (events r) ++ [index] /\
  (forall j, j <> index ->
     itemStatus j (events (afterLoop r')) = itemStatus j (events r)) /\
  (itemStatus index (events r) = Open attempts ->
   itemStatus index (events (afterLoop r')) = Closed).
Proof.
  intros [If Ip Ib Ij Ic] Hitem Htry.
  apply tryOnce_break in Htry. cbn zeta in Htry.
  set (ev := EvAttempt index item attempts
               (snd (handler item index (world r)))) in *.
  destruct Htry as (Hterm & Hev & Hf & Hc & Hw).
  destruct (afterLoop_spec r') as (Hev' & Hf' & Hc').
  destruct (closing_summary (completed r'))
    as (Cs & Cf & Ca & Cp & Cb & Cst & Cj).
  assert (Hsettled : settled [ev] = [index]).
  { unfold Engine.settled. cbn [flat_map]. unfold ev at 1.
    fold ev. rewrite Hterm. reflexivity. }
  assert (Hquiet : sleepStep Quiet ev = Quiet).
  { unfold ev in *. destruct (snd (handler item index (world r))) as [error|];
      [|reflexivity]. cbn in Hterm |- *.
    destruct (canRetry attempts error item); [discriminate | reflexivity]. }
  split; [|split; [|split; [|split]]].
  - constructor.
    + rewrite Hf', Hf, Hev', Hev, !failuresOf_app, Cf, app_nil_r, If.
      reflexivity.
    + rewrite Hc', Hev', Hev, !progressOf_app, Cp, Ip, Hc, expectedProgress_S.
      unfold ev. cbn. rewrite app_nil_r. reflexivity.
    + rewrite Hev', Hev, !backoffCheck_app, Ib. cbn [foldl].
      rewrite Hquiet. exact Cb.
    + rewrite Hev', Hev. apply Forall_app. split; [|exact Cj].
      apply Forall_app. split; [exact Ij|]. constructor; [|constructor].
      split; [exact Hitem|]. exists (world r). reflexivity.
    + rewrite Hc', Hc, Hev', Hev, !settled_app, Cs, Hsettled, app_nil_r, Ic.
      rewrite length_app. cbn. lia.
  - rewrite Hev', Hev, !settled_app, Cs, Hsettled, app_nil_r. reflexivity.
  - rewrite Hev', Hev, !attemptIndices_app, Ca, app_nil_r. reflexivity.
  - intros j Hj. rewrite Hev', Hev, !itemStatus_app, Cst. unfold ev. cbn.
    destruct (index =? j) eqn:E; [|reflexivity].
    apply Nat.eqb_eq in E. congruence.
  - intros Hs. rewrite Hev', Hev, !itemStatus_app, Cst, Hs. cbn [foldl].
    unfold ev at 1. cbn [Engine.statusStep]. fold ev.
    rewrite !Nat.eqb_refl, Hterm. reflexivity.
Qed.


#[local] Abbreviation executeLoop := (executeLoop T W handler options).
#[local] Abbreviation executeItem := (executeItem T W handler options total).
#[local] Abbreviation runSequential := (runSequential T W handler options total).


Lemma executeLoop_spec item index : forall fuel attempts r,
  Inv r -> items !! index = Some item ->
  attempts <= maxRetries T W options ->
  maxRetries T W options + 1 <= fuel + attempts ->
  itemStatus index (events r) = Open (S attempts) ->
  exists r', executeLoop fuel item index attempts r = Some r' /\
             itemDone index r (afterLoop r').
Proof.
  induction fuel as [|fuel IH]; intros attempts r HI Hitem Hle Hfuel Hst;
    [lia|].
  cbn [Engine.executeLoop].
  destruct (tryOnce item index (S attempts) r) as [r1 [|]] eqn:Htry.
  - destruct (Inv_retry _ _ _ _ _ HI Hitem Htry)
      as (HI1 & Hle1 & Hs1 & Ha1 & Ho1 & Hst1).
    destruct (IH (S attempts) r1 HI1 Hitem Hle1 ltac:(lia) (Hst1 Hst))
      as (r' & Hloop & HI' & Hs' & (added & Ha' & Hadded) & Ho' & Hc').
    exists r'. split; [exact Hloop|]. split; [exact HI'|].
    split; [rewrite Hs', Hs1; reflexivity|]. split; [|split].
    + exists (index :: added). split; [|constructor; auto].
      rewrite Ha', Ha1, <- app_assoc. reflexivity.
    + intros j Hj. rewrite Ho', Ho1 by exact Hj. reflexivity.
    + exact Hc'.
  - destruct (Inv_break _ _ _ _ _ HI Hitem Htry) as (HI1 & Hs1 & Ha1 & Ho1 & Hst1).
    exists r1. split; [reflexivity|]. split; [exact HI1|].
    split; [exact Hs1|]. split; [|split].
    + exists [index]. split; [exact Ha1 | repeat constructor].
    + exact Ho1.
    + apply Hst1, Hst.
Qed.

Lemma executeItem_spec item index r :
  Inv r -> items !! index = Some item ->
  itemStatus index (events r) = Open 1 ->
  exists r', executeItem item index r = Some r' /\ itemDone index r r'.
Proof.
  intros HI Hitem Hst. unfold Engine.executeItem.
  destruct (executeLoop_spec item index (S (maxRetries T W options)) 0 r
              HI Hitem ltac:(lia) ltac:(lia) Hst) as (r' & -> & Hdone).
  eexists. split; [reflexivity | exact Hdone].
Qed.


Lemma runSequential_spec : forall batchItems offset localIndex r,
  Inv r ->
  (forall j item, batchItems !! j = Some item ->
                  items !! (offset + localIndex + j) = Some item) ->
  (forall j, offset + localIndex <= j -> itemStatus j (events r) = Open 1) ->
  exists r',
    runSequential batchItems offset localIndex r = Some r' /\
    rangeDone (offset + localIndex) (length batchItems) r r' /\
    (exists added,
       attemptIndices (events r') = attemptIndices (events r) ++ added /\
       StronglySorted le added).
Proof.
  induction batchItems as [|item rest IH]; intros offset localIndex r HI Hitems Hopen.
  - exists r. split; [reflexivity|]. split.
    + split; [exact HI|]. split; [rewrite app_nil_r; reflexivity|].
      split; [exists []; rewrite app_nil_r; auto|].
      split; [reflexivity | intros j Hj; cbn in Hj; lia].
    + exists []. rewrite app_nil_r. split; [reflexivity | constructor].
  - cbn [Engine.runSequential].
    assert (Hitem : items !! (offset + localIndex) = Some item).
    { rewrite <- (Nat.add_0_r (offset + localIndex)). apply Hitems. reflexivity. }
    destruct (executeItem_spec item (offset + localIndex) r HI Hitem
                (Hopen (offset + localIndex) (Nat.le_refl _)))
      as (r1 & -> & HI1 & Hs1 & (added1 & Ha1 & Hadded1) & Ho1 & Hc1).
    destruct (IH offset (S localIndex) r1 HI1) as (r' & Hrun & Hrange & Hsorted).
    { intros j it Hj. replace (offset + S localIndex + j)
        with (offset + localIndex + S j) by lia. apply Hitems. exact Hj. }
    { intros j Hj. rewrite Ho1 by lia. apply Hopen. lia. }
    destruct Hrange as (HI' & Hs' & (added & Ha' & Hadded) & Ho' & Hc').
    destruct Hsorted as (added' & Ha'' & Hsorted).
    exists r'. split; [exact Hrun|]. split.
    + split; [exact HI'|]. split; [|split; [|split]].
      * rewrite Hs', Hs1, <- app_assoc. cbn [length seq app].
        replace (offset + S localIndex) with (S (offset + localIndex)) by lia.
        reflexivity.
      * exists (added1 ++ added). split.
        -- rewrite Ha', Ha1, <- app_assoc. reflexivity.
        -- apply Forall_app. split.
           ++ eapply Forall_impl; [exact Hadded1|]. cbn. intros j ->. lia.
           ++ eapply Forall_impl; [exact Hadded|]. cbn. intros j Hj. lia.
      * intros j Hj. cbn [length] in Hj. rewrite Ho' by lia. apply Ho1. lia.
      * intros j Hj. cbn [length] in Hj.
        destruct (decide (j = offset + localIndex)) as [->|Hne].
        -- rewrite Ho' by lia. exact Hc1.
        -- apply Hc'. lia.
    + exists (added1 ++ added). split.
      * rewrite Ha', Ha1, <- app_assoc. reflexivity.
      * assert (added' = added) as -> by (rewrite Ha' in Ha''; eapply app_inv_head; eauto).
        clear - Hadded1 Hadded Hsorted.
        induction added1 as [|j added1 IHa]; [exact Hsorted|].
        apply Forall_cons in Hadded1 as [-> Hadded1]. cbn.
        constructor; [apply IHa, Hadded1|].
        apply Forall_app. split.
        -- eapply Forall_impl; [exact Hadded1|]. cbn. intros j ->. lia.
        -- eapply Forall_impl; [exact Hadded|]. cbn. intros j Hj. lia.
Qed.


(** ** The worker pool *)

#[local] Abbreviation Worker := (Worker T).
#[local] Abbreviation Pool := (Pool T W).
#[local] Abbreviation resume := (resume T W handler options total).
#[local] Abbreviation runPool := (runPool T W handler options total).
#[local] Abbreviation runParallel := (runParallel T W handler options total).






Section Batch.
Variable batchItems : list T.
Variable offset : nat.
Variable r0 : Run.
#[local] Abbreviation PoolInv := (EngineSpec.PoolInv handler options items total batchItems offset r0).

#[local] Abbreviation len := (length batchItems).

Hypothesis batch_items : forall j item,
  batchItems !! j = Some item -> items !! (offset + j) = Some item.
Hypothesis fresh : NoDup (settled (events r0) ++ seq offset len).
Hypothesis untouched : forall j, offset <= j -> itemStatus j (events r0) = Open 1.


Lemma inflight_middle l1 s l2 :
  inflight (l1 ++ s :: l2) = inflight l1 ++ inflightOf s ++ inflight l2.
Proof. unfold EngineSpec.inflight. rewrite flat_map_app. reflexivity. Qed.

Lemma cost_middle l1 s l2 :
  sum_list_with workerCost (l1 ++ s :: l2) =
  workerCost s + sum_list_with workerCost (l1 ++ l2).
Proof. rewrite !sum_list_with_app. cbn. lia. Qed.

Lemma workerOK_keep evs evs' s :
  (forall j, j ∈ inflightOf s -> itemStatus j evs' = itemStatus j evs) ->
  workerOK evs s -> workerOK evs' s.
Proof.
  destruct s as [item index attempts|item index attempts| |]; cbn; auto;
    intros Hsame [Hitem Hst]; (split; [exact Hitem|]);
    rewrite Hsame; auto; apply list_elem_of_singleton; reflexivity.
Qed.


Lemma insert_middle (l1 : list Worker) s l2 s' :
  <[length l1 := s']> (l1 ++ s :: l2) = l1 ++ s' :: l2.
Proof.
  rewrite insert_app_r_alt by lia. rewrite Nat.sub_diag. reflexivity.
Qed.

Lemma resume_middle l1 s l2 c r :
  resume batchItems offset (length l1) (mkPool T W c (l1 ++ s :: l2) r) =
  match s with
  | WAwait item index attempts =>
      match tryOnce item index attempts r with
      | (r', true) => mkPool T W c (l1 ++ WBackoff item index attempts :: l2) r'
      | (r', false) => mkPool T W c (l1 ++ WPace :: l2) (afterLoop r')
      end
  | WBackoff item index attempts =>
      mkPool T W c (l1 ++ WAwait item index (S attempts) :: l2) r
  | WPace =>
      match batchItems !! c with
      | Some item =>
          mkPool T W (S c) (l1 ++ WAwait item (offset + c) 1 :: l2) r
      | None => mkPool T W c (l1 ++ WDone :: l2) r
      end
  | WDone => mkPool T W c (l1 ++ s :: l2) r
  end.
Proof.
  unfold Engine.resume. cbn [workers run cursor].
  rewrite list_lookup_middle by reflexivity.
  destruct s as [item index attempts|item index attempts| |].
  - destruct (tryOnce item index attempts r) as [r' [|]];
      rewrite insert_middle; reflexivity.
  - rewrite insert_middle. reflexivity.
  - unfold pull. cbn [workers run cursor].
    destruct (batchItems !! c); rewrite insert_middle; reflexivity.
  - reflexivity.
Qed.

Lemma inflight_distinct l1 index l2 (evs : list nat) tail :
  NoDup (evs ++ (inflight l1 ++ [index] ++ inflight l2) ++ tail) ->
  (index ∉ inflight l1) /\ (index ∉ inflight l2) /\ (index ∉ evs) /\ (index ∉ tail).
Proof.
  intros Hnd.
  apply NoDup_app in Hnd as (_ & Hev & Hnd).
  apply NoDup_app in Hnd as (Hin & Htail & _).
  apply NoDup_app in Hin as (_ & Hl1 & Hin).
  apply NoDup_app in Hin as (_ & Hl2 & _).
  assert (Hmid : index ∈ inflight l1 ++ [index] ++ inflight l2) by set_solver.
  repeat split.
  - intros Hi. apply (Hl1 _ Hi). set_solver.
  - intros Hi. apply (Hl2 index); [set_solver | exact Hi].
  - intros Hi. apply (Hev _ Hi). set_solver.
  - intros Hi. apply (Htail _ Hmid). exact Hi.
Qed.


Lemma workers_keep evs evs' (l : list Worker) :
  (forall j, j ∈ inflight l -> itemStatus j evs' = itemStatus j evs) ->
  Forall (workerOK evs) l -> Forall (workerOK evs') l.
Proof.
  induction l as [|s l IH]; intros Hsame Hall; [constructor|].
  apply Forall_cons in Hall as [Hs Hall]. constructor.
  - eapply workerOK_keep; [|exact Hs]. intros j Hj. apply Hsame.
    unfold EngineSpec.inflight. cbn. apply elem_of_app. left. exact Hj.
  - apply IH; [|exact Hall]. intros j Hj. apply Hsame.
    unfold EngineSpec.inflight. cbn. apply elem_of_app. right. exact Hj.
Qed.

Lemma resume_step l1 s l2 c r :
  PoolInv (mkPool T W c (l1 ++ s :: l2) r) -> is_live T s = true ->
  PoolInv (resume batchItems offset (length l1) (mkPool T W c (l1 ++ s :: l2) r)) /\
  poolCost len (resume batchItems offset (length l1) (mkPool T W c (l1 ++ s :: l2) r))
  < poolCost len (mkPool T W c (l1 ++ s :: l2) r).
Proof.
  intros [HI Hperm Hcur Hws Hrange Hun Hcl Hbef Hdone Hadd] Hlive.
  cbn [workers run cursor] in *.
  assert (Hnd : NoDup (settled (events r) ++ inflight (l1 ++ s :: l2) ++
                       seq (offset + c) (len - c)))
    by (rewrite Hperm; exact fresh).
  rewrite resume_middle. unfold EngineSpec.poolCost. cbn [workers run cursor].
  rewrite inflight_middle in Hperm, Hnd, Hrange, Hcl.
  apply Forall_app in Hws as [Hw1 Hws]. apply Forall_cons in Hws as [Hs Hw2].
  destruct s as [item index attempts|item index attempts| |];
    [| | |discriminate Hlive]; cbn [inflightOf] in *.
  - (* a handler call settles *)
    destruct Hs as [Hitem Hst].
    destruct (inflight_distinct _ _ _ _ _ Hnd) as (Hn1 & Hn2 & Hn3 & Hn4).
    assert (Hin : offset <= index < offset + c).
    { rewrite Forall_forall in Hrange. apply Hrange. set_solver. }
    destruct (tryOnce item index attempts r) as [r' [|]] eqn:Htry.
    + destruct (Inv_retry _ _ _ _ _ HI Hitem Htry)
        as (HI' & Hle & Hs' & Ha' & Ho' & Hst').
      split.
      * constructor; cbn [workers run cursor].
        -- exact HI'.
        -- rewrite Hs', inflight_middle. exact Hperm.
        -- exact Hcur.
        -- apply Forall_app. split; [|constructor; [split; auto|]].
           ++ eapply workers_keep; [|exact Hw1]. intros j Hj. apply Ho'.
              intros ->. contradiction.
           ++ eapply workers_keep; [|exact Hw2]. intros j Hj. apply Ho'.
              intros ->. contradiction.
        -- rewrite inflight_middle. exact Hrange.
        -- intros j Hj. rewrite Ho' by lia. apply Hun, Hj.
        -- intros j Hj Hnot. rewrite inflight_middle in Hnot.
           rewrite Ho'; [apply Hcl; assumption|]. intros ->. apply Hnot.
           cbn. set_solver.
        -- intros j Hj. rewrite Ho' by lia. apply Hbef, Hj.
        -- intros Hd. apply Hdone. rewrite !elem_of_app, !elem_of_cons in *.
           destruct Hd as [Hd|[Hd|Hd]]; auto. discriminate.
        -- destruct Hadd as (added & Hadd & Hall). exists (added ++ [index]).
           split; [rewrite Ha', Hadd, <- app_assoc; reflexivity|].
           apply Forall_app. split; [exact Hall|]. repeat constructor; lia.
      * cbn [workers run cursor]. rewrite !cost_middle. cbn [workerCost].
        generalize ((len - c) * (2 * maxRetries T W options + 2)). lia.
    + destruct (Inv_break _ _ _ _ _ HI Hitem Htry)
        as (HI' & Hs' & Ha' & Ho' & Hst').
      split.
      * constructor; cbn [workers run cursor].
        -- exact HI'.
        -- rewrite Hs', inflight_middle. cbn [inflightOf]. rewrite <- Hperm.
           rewrite <- !app_assoc. apply Permutation_app_head. cbn [app].
           rewrite <- Permutation_middle. reflexivity.
        -- exact Hcur.
        -- apply Forall_app. split; [|constructor; [exact I|]].
           ++ eapply workers_keep; [|exact Hw1]. intros j Hj. apply Ho'.
              intros ->. contradiction.
           ++ eapply workers_keep; [|exact Hw2]. intros j Hj. apply Ho'.
              intros ->. contradiction.
        -- rewrite inflight_middle. cbn [inflightOf app].
           apply Forall_app in Hrange as [Hr1 Hr2].
           apply Forall_cons in Hr2 as [_ Hr2]. apply Forall_app. auto.
        -- intros j Hj. rewrite Ho' by lia. apply Hun, Hj.
        -- intros j Hj Hnot. rewrite inflight_middle in Hnot.
           cbn [inflightOf app] in Hnot.
           destruct (decide (j = index)) as [->|Hne]; [apply Hst', Hst|].
           rewrite Ho' by exact Hne. apply Hcl; [exact Hj|]. set_solver.
        -- intros j Hj. rewrite Ho' by lia. apply Hbef, Hj.
        -- intros Hd. apply Hdone. rewrite !elem_of_app, !elem_of_cons in *.
           destruct Hd as [Hd|[Hd|Hd]]; auto. discriminate.
        -- destruct Hadd as (added & Hadd & Hall). exists (added ++ [index]).
           split; [rewrite Ha', Hadd, <- app_assoc; reflexivity|].
           apply Forall_app. split; [exact Hall|]. repeat constructor; lia.
      * cbn [workers run cursor]. rewrite !cost_middle. cbn [workerCost].
        generalize ((len - c) * (2 * maxRetries T W options + 2)). lia.
  - (* the back-off sleep is over *)
    destruct Hs as [Hitem Hst]. split.
    + constructor; cbn [workers run cursor]; auto.
      * rewrite inflight_middle. exact Hperm.
      * apply Forall_app. split; [exact Hw1|]. constructor; [split; auto | exact Hw2].
      * rewrite inflight_middle. exact Hrange.
      * intros j Hj Hnot. rewrite inflight_middle in Hnot. apply Hcl; assumption.
      * intros Hd. apply Hdone. rewrite !elem_of_app, !elem_of_cons in *.
        destruct Hd as [Hd|[Hd|Hd]]; auto. discriminate.
    + cbn [workers run cursor]. rewrite !cost_middle. cbn [workerCost].
      generalize ((len - c) * (2 * maxRetries T W options + 2)). lia.
  - (* the worker is back at the head of its loop *)
    destruct (batchItems !! c) as [item|] eqn:Hc.
    + assert (Hlt : c < len) by (eapply lookup_lt_Some; exact Hc).
      assert (Hseq : seq (offset + c) (len - c) =
                     (offset + c) :: seq (offset + S c) (len - S c)).
      { replace (len - c) with (S (len - S c)) by lia. cbn.
        replace (S (offset + c)) with (offset + S c) by lia. reflexivity. }
      split.
      * constructor; cbn [workers run cursor]; auto.
        -- rewrite inflight_middle. cbn [inflightOf]. rewrite <- Hperm, Hseq.
           apply Permutation_app_head. cbn [app].
           rewrite <- !app_assoc. cbn [app].
           apply Permutation_app_head. rewrite <- Permutation_middle.
           reflexivity.
        -- apply Forall_app. split; [exact Hw1|]. constructor; [|exact Hw2].
           split; [apply batch_items, Hc | apply Hun; lia].
        -- rewrite inflight_middle. cbn [inflightOf app].
           apply Forall_app in Hrange as [Hr1 Hr2]. apply Forall_app. split.
           ++ eapply Forall_impl; [exact Hr1|]. cbn. lia.
           ++ constructor; [lia|]. eapply Forall_impl; [exact Hr2|]. cbn. lia.
        -- intros j Hj. apply Hun. lia.
        -- intros j Hj Hnot. rewrite inflight_middle in Hnot.
           cbn [inflightOf app] in Hnot. apply Hcl; [|set_solver].
           assert (j <> offset + c) by set_solver. lia.
        -- intros Hd. exfalso.
           assert (Hd' : WDone ∈ l1 ++ WPace :: l2).
           { rewrite !elem_of_app, !elem_of_cons in *.
             destruct Hd as [Hd|[Hd|Hd]]; auto. discriminate. }
           specialize (Hdone Hd'). lia.
      * cbn [workers run cursor]. rewrite !cost_middle. cbn [workerCost].
        assert (E : (len - c) * (2 * maxRetries T W options + 2) =
                    (len - S c) * (2 * maxRetries T W options + 2) +
                    (2 * maxRetries T W options + 2)).
        { replace (len - c) with (S (len - S c)) by lia.
          apply Nat.mul_succ_l. }
        rewrite E.
        generalize ((len - S c) * (2 * maxRetries T W options + 2)). lia.
    + apply lookup_ge_None in Hc. fold len in Hc. split.
      * constructor; cbn [workers run cursor]; auto.
        -- rewrite inflight_middle. exact Hperm.
        -- apply Forall_app. split; [exact Hw1|]. constructor; [exact I | exact Hw2].
        -- rewrite inflight_middle. exact Hrange.
        -- intros j Hj Hnot. rewrite inflight_middle in Hnot. apply Hcl; assumption.
        -- intros _. lia.
      * cbn [workers run cursor]. rewrite !cost_middle. cbn [workerCost].
        generalize ((len - c) * (2 * maxRetries T W options + 2)). lia.
Qed.


Lemma live_In (ws : list Worker) w :
  In w (live T ws) ->
  exists l1 s l2, ws = l1 ++ s :: l2 /\ w = length l1 /\ is_live T s = true.
Proof.
  unfold live. intros Hin. apply filter_In in Hin as [Hw Hl].
  destruct (ws !! w) as [s|] eqn:Hs; [|discriminate].
  exists (take w ws), s, (drop (S w) ws). split; [|split].
  - symmetry. apply take_drop_middle. exact Hs.
  - apply lookup_lt_Some in Hs. rewrite length_take. lia.
  - exact Hl.
Qed.

Lemma live_nil (ws : list Worker) :
  live T ws = [] -> Forall (fun s => s = WDone) ws.
Proof.
  intros Hnil. apply Forall_lookup. intros w s Hs.
  destruct s; try reflexivity; exfalso;
    (assert (Hin : In w (live T ws));
     [unfold live; apply filter_In; split;
      [apply in_seq; apply lookup_lt_Some in Hs; lia | rewrite Hs; reflexivity]
     | rewrite Hnil in Hin; destruct Hin]).
Qed.

Lemma inflight_done (ws : list Worker) :
  Forall (fun s => s = WDone) ws -> inflight ws = [].
Proof.
  induction 1 as [|s ws -> _ IH]; [reflexivity|]. exact IH.
Qed.

Lemma runPool_spec choose : forall fuel step p,
  PoolInv p -> poolCost len p < fuel -> workers T W p <> [] ->
  exists r',
    runPool fuel choose step batchItems offset p = Some r' /\
    rangeDone offset len r0 r'.
Proof.
  induction fuel as [|fuel IH]; intros step p HP Hcost Hne; [lia|].
  cbn [Engine.runPool].
  destruct (live T (workers T W p)) as [|w0 ready] eqn:Hlive.
  - exists (run T W p). split; [reflexivity|].
    apply live_nil in Hlive.
    destruct HP as [HI Hperm Hcur Hws Hrange Hun Hcl Hbef Hdone Hadd].
    assert (Hc : cursor T W p = len).
    { apply Hdone. destruct (workers T W p) as [|s ws]; [congruence|].
      apply Forall_cons in Hlive as [-> _]. left. }
    rewrite (inflight_done _ Hlive) in *. rewrite Hc, Nat.sub_diag in *.
    cbn [seq app] in Hperm. rewrite app_nil_r in Hperm.
    split; [exact HI|]. split; [exact Hperm|]. split; [exact Hadd|]. split.
    + intros j Hj. destruct (decide (j < offset)) as [Hlt|Hge].
      * apply Hbef, Hlt.
      * rewrite Hun by lia. symmetry. apply untouched. lia.
    + intros j Hj. apply Hcl; [exact Hj|]. apply not_elem_of_nil.
  - set (w := nth (choose step mod length (w0 :: ready)) (w0 :: ready) w0).
    assert (Hin : In w (live T (workers T W p))).
    { rewrite Hlive. apply nth_In. apply Nat.mod_upper_bound. discriminate. }
    apply live_In in Hin as (l1 & s & l2 & Hw & -> & Hs).
    destruct p as [c ws r]. cbn [workers] in *. subst ws.
    destruct (resume_step l1 s l2 c r HP Hs) as [HP' Hcost'].
    apply IH; [exact HP' | lia |].
    rewrite resume_middle.
    destruct s as [item index attempts|item index attempts| |];
      [destruct (tryOnce item index attempts r) as [r' [|]]| |
       destruct (batchItems !! c)|]; cbn [workers];
      intros Heq; apply (f_equal length) in Heq;
      rewrite length_app in Heq; cbn in Heq; lia.
Qed.


Lemma inflight_replicate n : inflight (replicate n WPace) = [].
Proof. induction n as [|n IH]; [reflexivity | exact IH]. Qed.

Lemma cost_replicate n : sum_list_with workerCost (replicate n WPace) = n.
Proof. induction n as [|n IH]; [reflexivity | cbn; rewrite IH; reflexivity]. Qed.

Hypothesis sound0 : Inv r0.

Lemma PoolInv_init workerCount :
  PoolInv (mkPool T W 0 (replicate workerCount WPace) r0).
Proof.
  constructor; cbn [workers run cursor].
  - exact sound0.
  - rewrite inflight_replicate, Nat.add_0_r, Nat.sub_0_r. reflexivity.
  - lia.
  - apply Forall_replicate. exact I.
  - rewrite inflight_replicate. constructor.
  - intros j Hj. apply untouched. lia.
  - intros j Hj. lia.
  - reflexivity.
  - intros Hd. apply elem_of_replicate in Hd as [Hd _]. discriminate.
  - exists []. rewrite app_nil_r. split; [reflexivity | constructor].
Qed.

Lemma startPool_spec workerCount : forall k,
  k <= workerCount ->
  let p := foldl (fun p w => pull T W batchItems offset w p)
             (mkPool T W 0 (replicate workerCount WPace) r0) (seq 0 k) in
  PoolInv p /\
  poolCost len p + k <= workerCount + len * (2 * maxRetries T W options + 2) /\
  length (workers T W p) = workerCount /\
  (forall j, k <= j < workerCount -> workers T W p !! j = Some WPace).
Proof.
  induction k as [|k IH]; intros Hk; cbn zeta.
  - cbn [seq foldl]. split; [apply PoolInv_init|]. split; [|split].
    + unfold EngineSpec.poolCost. cbn [workers cursor]. rewrite cost_replicate. lia.
    + apply length_replicate.
    + intros j Hj. apply lookup_replicate_2. lia.
  - rewrite seq_S, foldl_app. cbn [foldl Nat.add].
    destruct (IH ltac:(lia)) as (HP & Hcost & Hlen & Hpace).
    set (p := foldl _ _ (seq 0 k)) in *. clearbody p.
    destruct p as [c ws r]. cbn [workers] in *.
    assert (Hk' : ws !! k = Some WPace) by (apply Hpace; lia).
    assert (Hsplit : ws = take k ws ++ WPace :: drop (S k) ws)
      by (symmetry; apply take_drop_middle; exact Hk').
    assert (Hlk : length (take k ws) = k) by (rewrite length_take; lia).
    assert (Hpull : pull T W batchItems offset k (mkPool T W c ws r) =
                    resume batchItems offset (length (take k ws))
                      (mkPool T W c (take k ws ++ WPace :: drop (S k) ws) r)).
    { rewrite <- Hsplit, Hlk. unfold Engine.resume. cbn [workers].
      rewrite Hk'. reflexivity. }
    rewrite Hpull. rewrite Hsplit in HP, Hcost.
    destruct (resume_step _ _ _ _ _ HP eq_refl) as [HP' Hcost'].
    split; [exact HP'|]. split; [lia|].
    rewrite <- Hpull. unfold pull. cbn [workers cursor run].
    destruct (batchItems !! c); cbn [workers]; rewrite length_insert;
      (split; [exact Hlen|]); intros j Hj;
      rewrite list_lookup_insert_ne by lia; apply Hpace; lia.
Qed.

Lemma runParallel_spec choose workerCount :
  0 < workerCount ->
  exists r',
    runParallel choose batchItems offset workerCount r0 = Some r' /\
    rangeDone offset len r0 r'.
Proof.
  intros Hwc. unfold Engine.runParallel, Engine.startPool.
  destruct (startPool_spec workerCount workerCount (Nat.le_refl _))
    as (HP & Hcost & Hlen & _).
  apply runPool_spec; [exact HP | fold len; lia |].
  intros Hnil. rewrite Hnil in Hlen. cbn in Hlen. lia.
Qed.

End Batch.


(** ** The loop over the batches *)

#[local] Abbreviation runBatch := (runBatch T W handler options total items).
#[local] Abbreviation runBatches := (runBatches T W handler options total items).


Lemma Inv_sleep ms r : Inv r -> Inv (sleep T W ms r).
Proof.
  intros [If Ip Ib Ij Ic]. unfold sleep, log. constructor; cbn [failures events completed].
  - rewrite failuresOf_app, <- If. cbn. rewrite app_nil_r. reflexivity.
  - rewrite progressOf_app, Ip. cbn. apply app_nil_r.
  - rewrite backoffCheck_app, Ib. reflexivity.
  - apply Forall_app. split; [exact Ij | repeat constructor].
  - rewrite settled_app, Ic. cbn. rewrite app_nil_r. reflexivity.
Qed.

Lemma Progress_sleep ms n r : Progress n r -> Progress n (sleep T W ms r).
Proof.
  intros (HI & Hp & Hc & Ho & Hr). unfold EngineSpec.Progress.
  split; [apply Inv_sleep, HI|]. unfold sleep, log. cbn [events].
  rewrite settled_app, attemptIndices_app. cbn. rewrite !app_nil_r.
  split; [exact Hp|]. split; [|split; [|assumption]].
  - intros j Hj. rewrite itemStatus_app. cbn. apply Hc, Hj.
  - intros j Hj. rewrite itemStatus_app. cbn. apply Ho, Hj.
Qed.

Lemma sorted_app (old added : list nat) n :
  StronglySorted le old -> Forall (fun j => j < n) old ->
  StronglySorted le added -> Forall (fun j => n <= j) added ->
  StronglySorted le (old ++ added).
Proof.
  intros Hold Hlt Hadded Hge. induction Hold as [|j old Hold IH Hj]; [exact Hadded|].
  apply Forall_cons in Hlt as [Hjn Hlt]. cbn. constructor; [apply IH, Hlt|].
  apply Forall_app. split; [exact Hj|].
  eapply Forall_impl; [exact Hge|]. cbn. lia.
Qed.

Lemma rangeDone_Progress offset count r r' :
  Progress offset r -> rangeDone offset count r r' ->
  Progress (offset + count) r'.
Proof.
  intros (HI & Hp & Hc & Ho & Hr) (HI' & Hp' & (added & Ha & Hadded) & Hout & Hin).
  split; [exact HI'|]. split; [|split; [|split]].
  - rewrite Hp', Hp, seq_app. reflexivity.
  - intros j Hj. destruct (decide (j < offset)) as [Hlt|Hge].
    + rewrite Hout by lia. apply Hc, Hlt.
    + apply Hin. lia.
  - intros j Hj. rewrite Hout by lia. apply Ho. lia.
  - rewrite Ha. apply Forall_app. split.
    + eapply Forall_impl; [exact Hr|]. cbn. lia.
    + eapply Forall_impl; [exact Hadded|]. cbn. lia.
Qed.

Hypothesis total_items : total = length items.

Lemma batch_lookup offset j item :
  firstn (batchSize T W options) (skipn offset items) !! j = Some item ->
  items !! (offset + j) = Some item.
Proof.
  intros Hj. apply lookup_take_Some in Hj as [Hj _].
  rewrite lookup_drop in Hj. exact Hj.
Qed.

Lemma batch_length offset :
  offset <= total ->
  offset + length (firstn (batchSize T W options) (skipn offset items)) =
  Nat.min (offset + batchSize T W options) total.
Proof.
  intros Hle. rewrite length_take, length_drop, <- total_items. lia.
Qed.

Lemma runBatch_spec schedule offset r :
  Progress offset r -> offset < total ->
  exists r',
    runBatch schedule offset r = Some r' /\
    Progress (Nat.min (offset + batchSize T W options) total) r' /\
    (parallel T W options <= 1 ->
     StronglySorted le (attemptIndices (events r)) ->
     StronglySorted le (attemptIndices (events r'))).
Proof.
  intros HP Hlt. unfold Engine.runBatch.
  set (batchItems := firstn (batchSize T W options) (skipn offset items)).
  pose proof HP as (HI & Hp & Hc & Ho & Hr).
  assert (Hfresh : NoDup (settled (events r) ++ seq offset (length batchItems))).
  { rewrite Hp, <- seq_app. apply NoDup_seq. }
  assert (Hlen : offset + length batchItems =
                 Nat.min (offset + batchSize T W options) total)
    by (apply batch_length; lia).
  assert (Hcore : exists r1,
            (if Nat.min (Nat.max 1 (parallel T W options)) (length batchItems) <=? 1
             then runSequential batchItems offset 0 r
             else runParallel (schedule offset) batchItems offset
                    (Nat.min (Nat.max 1 (parallel T W options)) (length batchItems)) r)
            = Some r1 /\
            rangeDone offset (length batchItems) r r1 /\
            (parallel T W options <= 1 ->
             exists added,
               attemptIndices (events r1) = attemptIndices (events r) ++ added /\
               StronglySorted le added)).
  { destruct (Nat.min (Nat.max 1 (parallel T W options)) (length batchItems) <=? 1)
      eqn:Emode.
    - destruct (runSequential_spec batchItems offset 0 r HI) as (r1 & Hrun & Hdone & Hs).
      + intros j item Hj. rewrite Nat.add_0_r. apply batch_lookup, Hj.
      + intros j Hj. apply Ho. lia.
      + rewrite Nat.add_0_r in Hdone. exists r1. auto.
    - apply Nat.leb_gt in Emode.
      destruct (runParallel_spec batchItems offset r (batch_lookup offset)
                  Hfresh Ho HI (schedule offset)
                  (Nat.min (Nat.max 1 (parallel T W options)) (length batchItems)))
        as (r1 & Hrun & Hdone); [lia|].
      exists r1. split; [exact Hrun|]. split; [exact Hdone|]. intros Hpar. lia. }
  destruct Hcore as (r1 & -> & Hdone & Hsorted).
  pose proof (rangeDone_Progress _ _ _ _ HP Hdone) as HP1. rewrite Hlen in HP1.
  eexists. split; [reflexivity|]. split.
  - destruct (_ && _); [apply Progress_sleep|]; exact HP1.
  - intros Hpar Hold. destruct (Hsorted Hpar) as (added & Ha & Hs).
    destruct Hdone as (_ & _ & (added' & Ha' & Hadded) & _).
    assert (added' = added) as -> by (rewrite Ha' in Ha; eapply app_inv_head; eauto).
    assert (Hnew : StronglySorted le (attemptIndices (events r1))).
    { rewrite Ha. eapply sorted_app; [exact Hold | exact Hr | exact Hs|].
      eapply Forall_impl; [exact Hadded|]. cbn. lia. }
    destruct (_ && _); [|exact Hnew].
    unfold sleep, log. cbn [events]. rewrite attemptIndices_app. cbn.
    rewrite app_nil_r. exact Hnew.
Qed.

Lemma runBatches_spec schedule : forall fuel offset r,
  0 < batchSize T W options ->
  Progress (Nat.min offset total) r -> total - offset < fuel ->
  exists r',
    runBatches fuel schedule offset r = Some r' /\
    Progress total r' /\
    (parallel T W options <= 1 ->
     StronglySorted le (attemptIndices (events r)) ->
     StronglySorted le (attemptIndices (events r'))).
Proof.
  induction fuel as [|fuel IH]; intros offset r Hb HP Hfuel; [lia|].
  cbn [Engine.runBatches]. destruct (offset <? total) eqn:E.
  - apply Nat.ltb_lt in E. rewrite Nat.min_l in HP by lia.
    destruct (runBatch_spec schedule offset r HP E) as (r1 & -> & HP1 & Hs1).
    destruct (IH (offset + batchSize T W options) r1 Hb HP1 ltac:(lia))
      as (r' & Hrun & HP' & Hs').
    exists r'. split; [exact Hrun|]. split; [exact HP'|]. auto.
  - apply Nat.ltb_ge in E. rewrite Nat.min_r in HP by lia.
    exists r. auto.
Qed.


Lemma Progress_start w : Progress 0 (mkRun w [] 0 []).
Proof.
  split; [|split; [reflexivity|split; [|split]]].
  - constructor; cbn; try reflexivity; [|constructor].
    unfold EngineSpec.expectedProgress. destruct (onProgress T W options); reflexivity.
  - intros j Hj. lia.
  - intros j _. reflexivity.
  - constructor.
Qed.


Lemma kth_failures K evs :
  everyKthFails K -> Forall justified evs ->
  List.map (f_index T) (failuresOf evs) =
  List.filter (fun index => S index mod K =? 0) (settled evs).
Proof.
  intros HK. induction 1 as [|e evs He _ IH]; [reflexivity|].
  change (e :: evs) with ([e] ++ evs).
  rewrite failuresOf_app, settled_app, List.map_app, List.filter_app, IH.
  f_equal. destruct e as [index item attempts outcome| |]; try reflexivity.
  destruct He as [Hitem [w ->]]. specialize (HK index item w Hitem).
  cbn. destruct (snd (handler item index w)) as [error|].
  - destruct HK as [Hk Hno]. unfold Engine.canRetry. rewrite Hno, andb_false_r.
    cbn. rewrite Hk. reflexivity.
  - cbn. apply Nat.eqb_neq in HK. rewrite HK. reflexivity.
Qed.

End Runs.

Import EngineSpec.

Lemma filter_Permutation {A} (f : A -> bool) (l k : list A) :
  Permutation l k -> Permutation (List.filter f l) (List.filter f k).
Proof.
  induction 1 as [|x l k _ IH|x y l|l k m _ IH1 _ IH2]; cbn.
  - constructor.
  - destruct (f x); [constructor|]; exact IH.
  - destruct (f x), (f y); try reflexivity. apply perm_swap.
  - etransitivity; eauto.
Qed.

(** Among 1 .. n there are n / K multiples of K. *)
Lemma count_multiples K n :
  0 < K ->
  length (List.filter (fun index => S index mod K =? 0) (seq 0 n)) = n / K.
Proof.
  intros HK. induction n as [|n IH]; [symmetry; apply Nat.Div0.div_0_l|].
  rewrite seq_S, List.filter_app, length_app, IH. cbn [seq List.filter Nat.add].
  pose proof (Nat.div_mod_eq n K) as Hn.
  pose proof (Nat.mod_upper_bound n K ltac:(lia)) as Hr.
  pose proof (Nat.div_mod_eq (S n) K) as Hn'.
  pose proof (Nat.mod_upper_bound (S n) K ltac:(lia)) as Hr'.
  destruct (S n mod K =? 0) eqn:E.
  - apply Nat.eqb_eq in E. cbn [length]. nia.
  - apply Nat.eqb_neq in E. cbn [length]. nia.
Qed.

Section EngineTheorems.
Context `{JSRuntime} {T W : Type}.
Variable items : list T.
Variable handler : T -> nat -> W -> W * option ThrownValue.
Variable options : RateLimitOptions T W.
Variable schedule : nat -> nat -> nat.
Variable w : W.

Lemma processWithRateLimit_spec :
  0 < batchSize T W options ->
  exists r,
    processWithRateLimit items handler options schedule w = Some r /\
    Progress handler options items (length items) (length items) r /\
    (parallel T W options <= 1 ->
     StronglySorted le (attemptIndices T (events r))).
Proof.
  intros Hb. unfold processWithRateLimit. cbn zeta.
  destruct (length items =? 0) eqn:E.
  - apply Nat.eqb_eq in E. eexists. split; [reflexivity|]. rewrite E.
    split; [apply Progress_start; congruence | intros _; cbn; constructor].
  - destruct (runBatches_spec handler options items (length items) eq_refl
                schedule (S (length items)) 0 (mkRun w [] 0 []) Hb)
      as (r & Hrun & HP & Hs).
    + rewrite Nat.min_0_l. apply Progress_start; reflexivity.
    + lia.
    + exists r. split; [exact Hrun|]. split; [exact HP|].
      intros Hpar. apply Hs; [exact Hpar | cbn; constructor].
Qed.

End EngineTheorems.

Section RetryTheorems.
Context `{JSRuntime} {T W : Type}.

Lemma defaultShouldRetry_spec (error : ThrownValue) :
  defaultShouldRetry error = true <->
  (exists code,
     d_code (extractErrorDetails error) = Some code /\
     In code retryableCodes) \/
  (exists message text,
     d_message (extractErrorDetails error) = Some message /\
     In text retryableTexts /\
     includes (toLowerCase message) text = true).
Proof.
  unfold defaultShouldRetry.
  set (byCode := match d_code (extractErrorDetails error) with
                 | Some code =>
                     negb (code =? 0)%Z &&
                     existsb (fun c => (c =? code)%Z) retryableCodes
                 | None => false
                 end).
  assert (HbyCode : byCode = true <->
            exists code, d_code (extractErrorDetails error) = Some code /\
                         In code retryableCodes).
  { unfold byCode. destruct (d_code (extractErrorDetails error)) as [code|].
    - rewrite andb_true_iff, negb_true_iff, existsb_exists. split.
      + intros [_ (c & Hc & Heq)]. apply Z.eqb_eq in Heq. subst c. eauto.
      + intros (c & [= <-] & Hc). split.
        * apply Z.eqb_neq. intros ->. cbn in Hc. intuition discriminate.
        * exists code. split; [exact Hc | apply Z.eqb_refl].
    - split; [discriminate | intros (c & Hc & _); discriminate]. }
  destruct byCode.
  - split; [intros _; left; apply HbyCode; reflexivity | reflexivity].
  - split.
    + intros Hm. right.
      destruct (d_message (extractErrorDetails error)) as [message|];
        [|discriminate].
      apply existsb_exists in Hm as (text & Hin & Hinc). eauto.
    + intros [Hc|(message & text & -> & Hin & Hinc)].
      * apply HbyCode in Hc. discriminate.
      * apply existsb_exists. eauto.
Qed.

End RetryTheorems.

End EngineFacts.

(** * Bounds on the runs of the engine *)

Module EngineBounds.
Import Engine EngineSpec EngineFacts.
Open Scope nat_scope.

(** ** Sorted lists of indices *)

Lemma StronglySorted_sub {A} (R : A -> A -> Prop) (l k : list A) :
  l `sublist_of` k -> StronglySorted R k -> StronglySorted R l.
Proof.
  induction 1 as [|x l k Hsub IH|x l k Hsub IH]; intros Hk.
  - constructor.
  - apply StronglySorted_inv in Hk as [Hk Hx]. constructor; [auto|].
    rewrite Forall_forall in Hx |- *. intros y Hy. apply Hx.
    eapply elem_of_sublist; eauto.
  - apply StronglySorted_inv in Hk as [Hk _]. auto.
Qed.

Lemma seq_sorted_lt first count : StronglySorted lt (seq first count).
Proof.
  revert first. induction count as [|count IH]; intros first; cbn;
    constructor; [apply IH|].
  apply Forall_forall. intros j Hj. apply elem_of_seq in Hj. lia.
Qed.

Lemma seq_sorted_le first count : StronglySorted le (seq first count).
Proof.
  revert first. induction count as [|count IH]; intros first; cbn;
    constructor; [apply IH|].
  apply Forall_forall. intros j Hj. apply elem_of_seq in Hj. lia.
Qed.

Lemma sum_bounded (f : nat -> nat) (m : nat) (l : list nat) :
  (forall j, j ∈ l -> f j <= m) ->
  sum_list (List.map f l) <= length l * m.
Proof.
  induction l as [|j l IH]; intros Hf; cbn; [lia|].
  assert (f j <= m) by (apply Hf; left).
  assert (sum_list (List.map f l) <= length l * m)
    by (apply IH; intros; apply Hf; right; assumption).
  lia.
Qed.

Lemma sum_pointwise (f g : nat -> nat) (l : list nat) :
  sum_list (List.map (fun j => f j + g j) l) =
  sum_list (List.map f l) + sum_list (List.map g l).
Proof. induction l as [|j l IH]; cbn; lia. Qed.

Lemma sum_zero (l : list nat) : sum_list (List.map (fun _ => 0) l) = 0.
Proof. induction l; cbn; lia. Qed.

Lemma sum_at (i first count : nat) :
  sum_list (List.map (fun j => if i =? j then 1 else 0) (seq first count)) =
  if (first <=? i) && (i <? first + count) then 1 else 0.
Proof.
  revert first. induction count as [|count IH]; intros first; cbn [seq List.map sum_list].
  - destruct (first <=? i) eqn:E1, (i <? first + 0) eqn:E2; try reflexivity.
    apply Nat.leb_le in E1. apply Nat.ltb_lt in E2. lia.
  - rewrite IH.
    destruct (Nat.eqb_spec i first) as [->|Hne].
    + rewrite Nat.leb_refl.
      replace (first <? first + S count) with true
        by (symmetry; apply Nat.ltb_lt; lia).
      replace (S first <=? first) with false
        by (symmetry; apply Nat.leb_gt; lia).
      reflexivity.
    + destruct (first <=? i) eqn:E1, (S first <=? i) eqn:E2,
        (i <? first + S count) eqn:E3, (i <? S first + count) eqn:E4;
        try reflexivity;
        repeat match goal with
        | H : (_ <=? _) = true |- _ => apply Nat.leb_le in H
        | H : (_ <=? _) = false |- _ => apply Nat.leb_gt in H
        | H : (_ <? _) = true |- _ => apply Nat.ltb_lt in H
        | H : (_ <? _) = false |- _ => apply Nat.ltb_ge in H
        end; lia.
Qed.

(** ** What the log says about the attempts *)

Section Logs.
Context `{JSRuntime} {T W : Type}.
Variable handler : T -> nat -> W -> W * option ThrownValue.
Variable options : RateLimitOptions T W.
Variable items : list T.

#[local] Abbreviation itemStatus := (itemStatus T W options).
#[local] Abbreviation statusStep := (statusStep T W options).
#[local] Abbreviation settled := (settled T W options).
#[local] Abbreviation failuresOf := (failuresOf T W options).
#[local] Abbreviation attemptIndices := (attemptIndices T).
#[local] Abbreviation attemptsOf := (@attemptsOf T).
#[local] Abbreviation canRetry := (canRetry T W options).
#[local] Abbreviation justified := (@justified T W handler items).
#[local] Abbreviation failure_ok := (failure_ok options items).

Lemma attemptsOf_app index a b :
  attemptsOf index (a ++ b) = attemptsOf index a ++ attemptsOf index b.
Proof. apply flat_map_app. Qed.

Lemma itemStatus_snoc index evs e :
  itemStatus index (evs ++ [e]) = statusStep index (itemStatus index evs) e.
Proof. unfold Engine.itemStatus. rewrite foldl_app. reflexivity. Qed.

(** The attempts on an index whose reading is not broken are numbered
    1, 2, ... and stay within [maxRetries + 1]. *)
Lemma status_attempts index evs :
  match itemStatus index evs with
  | Open next =>
      1 <= next <= maxRetries T W options + 1 /\
      attemptsOf index evs = seq 1 (next - 1)
  | Closed =>
      exists k, 1 <= k <= maxRetries T W options + 1 /\
                attemptsOf index evs = seq 1 k
  | Broken => True
  end.
Proof.
  induction evs as [|e evs IH] using rev_ind.
  - cbn. split; [lia | reflexivity].
  - rewrite itemStatus_snoc, attemptsOf_app.
    destruct e as [i item attempts outcome|ms|c t]; cbn [Engine.statusStep];
      try (cbn; rewrite app_nil_r; exact IH).
    cbn [EngineSpec.attemptsOf flat_map]. rewrite app_nil_r.
    destruct (i =? index) eqn:Ei; [|rewrite app_nil_r; exact IH].
    destruct (itemStatus index evs) as [next| |]; [|exact I|exact I].
    destruct IH as [Hnext Hseq].
    destruct (Nat.eqb_spec attempts next) as [->|Hne]; [|exact I].
    assert (Hsnoc : seq 1 (next - 1) ++ [next] = seq 1 next).
    { replace next with (S (next - 1)) at 2 3 by lia. rewrite seq_S.
      reflexivity. }
    destruct (isTerminal T W options (EvAttempt i item next outcome)) eqn:Et.
    + exists next. rewrite Hseq, Hsnoc. split; [lia | reflexivity].
    + destruct outcome as [error|]; [|discriminate Et].
      cbn in Et. apply negb_false_iff in Et. unfold Engine.canRetry in Et.
      apply andb_prop in Et as [Hle _]. apply Nat.leb_le in Hle.
      rewrite Hseq, Hsnoc. split; [lia|].
      replace (S next - 1) with next by lia. reflexivity.
Qed.

Lemma attempt_counted index item attempts outcome evs :
  EvAttempt index item attempts outcome ∈ evs ->
  attempts ∈ attemptsOf index evs.
Proof.
  intros Hin. apply list_elem_of_In. apply in_flat_map.
  exists (EvAttempt index item attempts outcome).
  split; [apply list_elem_of_In, Hin|]. cbn. rewrite Nat.eqb_refl. left.
  reflexivity.
Qed.

Lemma attempts_partition n evs :
  Forall (fun j => j < n) (attemptIndices evs) ->
  length (attemptIndices evs) =
  sum_list (List.map (fun j => length (attemptsOf j evs)) (seq 0 n)).
Proof.
  induction evs as [|e evs IH]; intros Hall.
  - cbn. rewrite sum_zero. reflexivity.
  - change (e :: evs) with ([e] ++ evs) in *.
    rewrite attemptIndices_app in Hall |- *.
    apply Forall_app in Hall as [He Hall].
    rewrite length_app, (IH Hall).
    transitivity
      (sum_list
         (List.map (fun j => length (attemptsOf j [e]) + length (attemptsOf j evs))
            (seq 0 n))).
    2: { f_equal. apply map_ext. intros j.
         rewrite attemptsOf_app, length_app. reflexivity. }
    rewrite sum_pointwise. f_equal.
    destruct e as [i item attempts outcome|ms|c t]; cbn;
      try (rewrite sum_zero; reflexivity).
    apply Forall_cons in He as [Hi _].
    transitivity
      (sum_list (List.map (fun j => if i =? j then 1 else 0) (seq 0 n))).
    + rewrite (sum_at i 0 n).
      replace (0 <=? i) with true by (symmetry; apply Nat.leb_le; lia).
      replace (i <? 0 + n) with true by (symmetry; apply Nat.ltb_lt; lia).
      reflexivity.
    + f_equal. apply map_ext. intros j. destruct (i =? j); reflexivity.
Qed.

Lemma failures_settled evs :
  List.map (f_index T) (failuresOf evs) `sublist_of` settled evs.
Proof.
  induction evs as [|e evs IH]; [constructor|].
  change (e :: evs) with ([e] ++ evs).
  rewrite failuresOf_app, settled_app, List.map_app.
  apply sublist_app; [|exact IH].
  destruct e as [index item attempts [error|]|ms|c t]; cbn;
    try apply sublist_nil_l.
  destruct (canRetry attempts error item); cbn; reflexivity.
Qed.

Lemma settled_attempted evs : settled evs `sublist_of` attemptIndices evs.
Proof.
  induction evs as [|e evs IH]; [constructor|].
  change (e :: evs) with ([e] ++ evs).
  rewrite settled_app, attemptIndices_app.
  apply sublist_app; [|exact IH].
  destruct e as [index item attempts [error|]|ms|c t]; cbn;
    try apply sublist_nil_l; [|reflexivity].
  destruct (canRetry attempts error item); cbn;
    [apply sublist_nil_l | reflexivity].
Qed.

Lemma failuresOf_ok evs :
  Forall justified evs ->
  (forall index, itemStatus index evs <> Broken) ->
  Forall failure_ok (failuresOf evs).
Proof.
  intros Hj Hst. apply Forall_forall. intros f Hf.
  apply list_elem_of_In, in_flat_map in Hf as (e & He & Hf).
  apply list_elem_of_In in He.
  destruct e as [index item attempts [error|]|ms|c t]; try contradiction.
  destruct (canRetry attempts error item) eqn:Ec; [contradiction|].
  destruct Hf as [<-|[]].
  rewrite Forall_forall in Hj. destruct (Hj _ He) as [Hitem _].
  pose proof (attempt_counted _ _ _ _ _ He) as Hcount.
  pose proof (status_attempts index evs) as Hs. specialize (Hst index).
  assert (Hbound : 1 <= attempts <= maxRetries T W options + 1).
  { destruct (Engine.itemStatus T W options index evs) as [next| |];
      [| |contradiction].
    - destruct Hs as [Hn Hs]. rewrite Hs in Hcount.
      apply elem_of_seq in Hcount. lia.
    - destruct Hs as (k & Hk & Hs). rewrite Hs in Hcount.
      apply elem_of_seq in Hcount. lia. }
  unfold EngineSpec.failure_ok. cbn.
  split; [exact Hitem|]. split; [exact Hbound|].
  split; [|repeat split; reflexivity].
  intros Hle. unfold Engine.canRetry in Ec.
  apply andb_false_iff in Ec as [Ec|Ec]; [|exact Ec].
  apply Nat.leb_gt in Ec. lia.
Qed.

End Logs.

(** ** The run as a whole *)

Section Bounds.
Context `{JSRuntime} {T W : Type}.
Variable items : list T.
Variable handler : T -> nat -> W -> W * option ThrownValue.
Variable options : RateLimitOptions T W.
Variable schedule : nat -> nat -> nat.
Variable w : W.

(** X1: the handler is called on every item at least once and at most
    [maxRetries + 1] times, with the attempt counts 1, 2, ...; a run
    over N items makes at most N * (maxRetries + 1) calls. *)
Theorem handler_calls_bounded :
  0 < batchSize T W options ->
  exists r,
    processWithRateLimit items handler options schedule w = Some r /\
    (forall index, index < length items ->
       exists k, 1 <= k <= maxRetries T W options + 1 /\
                 attemptsOf index (events r) = seq 1 k) /\
    length (attemptIndices T (events r)) <=
      length items * (maxRetries T W options + 1).
Proof.
  intros Hb.
  destruct (processWithRateLimit_spec items handler options schedule w Hb)
    as (r & Hrun & HP & _).
  destruct HP as (_ & _ & Hclosed & _ & Hbelow).
  assert (Hper : forall index, index < length items ->
            exists k, 1 <= k <= maxRetries T W options + 1 /\
                      attemptsOf index (events r) = seq 1 k).
  { intros index Hi. pose proof (status_attempts options index (events r)) as Hs.
    rewrite (Hclosed index Hi) in Hs. exact Hs. }
  exists r. split; [exact Hrun|]. split; [exact Hper|].
  rewrite (attempts_partition (length items) (events r) Hbelow).
  etransitivity; [apply (sum_bounded _ (maxRetries T W options + 1))|].
  - intros j Hj. apply elem_of_seq in Hj.
    destruct (Hper j) as (k & Hk & ->); [lia|]. rewrite length_seq. lia.
  - rewrite length_seq. reflexivity.
Qed.

(** X2: every failure returned names an item of the list at its index,
    an attempt count between 1 and [maxRetries + 1], and the code,
    message and type extracted from its error; when retries were left,
    the retry predicate had refused the error. No index fails twice. *)
Theorem failures_well_formed :
  0 < batchSize T W options ->
  exists r,
    processWithRateLimit items handler options schedule w = Some r /\
    Forall (failure_ok options items) (failures r) /\
    NoDup (List.map (f_index T) (failures r)).
Proof.
  intros Hb.
  destruct (processWithRateLimit_spec items handler options schedule w Hb)
    as (r & Hrun & HP & _).
  destruct HP as ([If _ _ Ij _] & Hperm & Hclosed & Hopen & _).
  exists r. split; [exact Hrun|]. rewrite If. split.
  - apply (failuresOf_ok handler); [exact Ij|].
    intros index. destruct (Nat.lt_ge_cases index (length items)) as [Hi|Hi].
    + rewrite (Hclosed index Hi). discriminate.
    + rewrite (Hopen index Hi). discriminate.
  - eapply sublist_NoDup; [|apply failures_settled].
    rewrite Hperm. apply NoDup_seq.
Qed.

(** X3: without workers in parallel the items settle in the order of
    the list, and the failures come in the order of their indices. *)
Theorem serial_run_keeps_order :
  0 < batchSize T W options ->
  parallel T W options <= 1 ->
  exists r,
    processWithRateLimit items handler options schedule w = Some r /\
    settled T W options (events r) = seq 0 (length items) /\
    StronglySorted lt (List.map (f_index T) (failures r)).
Proof.
  intros Hb Hpar.
  destruct (processWithRateLimit_spec items handler options schedule w Hb)
    as (r & Hrun & HP & Hsorted).
  destruct HP as ([If _ _ _ _] & Hperm & _).
  assert (Hset : settled T W options (events r) = seq 0 (length items)).
  { apply (StronglySorted_unique le); [| |exact Hperm].
    - eapply StronglySorted_sub; [apply settled_attempted | exact (Hsorted Hpar)].
    - apply seq_sorted_le. }
  exists r. split; [exact Hrun|]. split; [exact Hset|].
  rewrite If. eapply StronglySorted_sub; [apply failures_settled|].
  rewrite Hset. apply seq_sorted_lt.
Qed.

(** X4: with a batch size of zero the loop over the batches makes no
    progress: however many turns it is given, it has not returned, and
    [processWithRateLimit] on a list that is not empty does not return. *)
Theorem zero_batch_size_never_returns :
  batchSize T W options = 0 -> items <> [] ->
  (forall fuel r,
     runBatches T W handler options (length items) items fuel schedule 0 r =
     None) /\
  processWithRateLimit items handler options schedule w = None.
Proof.
  intros Hzero Hitems.
  assert (Hlen : 0 < length items) by (destruct items; [congruence | cbn; lia]).
  assert (Hloop : forall fuel r,
            runBatches T W handler options (length items) items fuel schedule
              0 r = None).
  { induction fuel as [|fuel IH]; intros r; [reflexivity|].
    cbn [runBatches].
    replace (0 <? length items) with true by (symmetry; apply Nat.ltb_lt; lia).
    unfold runBatch. rewrite Hzero. cbn [firstn length Nat.min Nat.max].
    rewrite Nat.min_0_r. cbn [Nat.leb runSequential Nat.add]. apply IH. }
  split; [exact Hloop|].
  unfold processWithRateLimit. cbn zeta.
  replace (length items =? 0) with false by (symmetry; apply Nat.eqb_neq; lia).
  apply Hloop.
Qed.

End Bounds.

Lemma handler_calls_bounded_witness :
  0 < batchSize nat nat Samples.sampleOptions /\
  exists r,
    processWithRateLimit (H := asciiRuntime) Samples.sampleItems
      Samples.failsTwice Samples.sampleOptions Samples.inOrder 0 = Some r /\
    length (attemptIndices nat (events r)) <= 4 * 6.
Proof.
  assert (Hb : 0 < batchSize nat nat Samples.sampleOptions) by (cbn; lia).
  split; [exact Hb|].
  destruct (handler_calls_bounded (H := asciiRuntime) Samples.sampleItems
              Samples.failsTwice Samples.sampleOptions Samples.inOrder 0 Hb)
    as (r & Hrun & _ & Hcalls).
  exists r. split; [exact Hrun | exact Hcalls].
Defined.

Lemma failures_well_formed_witness :
  0 < batchSize nat nat Samples.sampleOptions /\
  exists r,
    processWithRateLimit (H := asciiRuntime) Samples.sampleItems
      Samples.everySecondFails Samples.sampleOptions Samples.inOrder 0 =
      Some r /\
    NoDup (List.map (f_index nat) (failures r)).
Proof.
  assert (Hb : 0 < batchSize nat nat Samples.sampleOptions) by (cbn; lia).
  split; [exact Hb|].
  destruct (failures_well_formed (H := asciiRuntime) Samples.sampleItems
              Samples.everySecondFails Samples.sampleOptions Samples.inOrder 0 Hb)
    as (r & Hrun & _ & Hnd).
  exists r. split; [exact Hrun | exact Hnd].
Defined.

Lemma serial_run_keeps_order_witness :
  0 < batchSize nat nat Samples.serialOptions /\
  parallel nat nat Samples.serialOptions <= 1 /\
  exists r,
    processWithRateLimit (H := asciiRuntime) Samples.sampleItems
      Samples.everySecondFails Samples.serialOptions Samples.inOrder 0 =
      Some r /\
    settled (H := asciiRuntime) nat nat Samples.serialOptions (events r) =
      [0; 1; 2; 3].
Proof.
  assert (Hb : 0 < batchSize nat nat Samples.serialOptions) by (cbn; lia).
  assert (Hp : parallel nat nat Samples.serialOptions <= 1) by (cbn; lia).
  split; [exact Hb|]. split; [exact Hp|].
  destruct (serial_run_keeps_order (H := asciiRuntime) Samples.sampleItems
              Samples.everySecondFails Samples.serialOptions Samples.inOrder 0
              Hb Hp)
    as (r & Hrun & Hset & _).
  exists r. split; [exact Hrun | exact Hset].
Defined.

Lemma zero_batch_size_never_returns_witness :
  batchSize nat nat Samples.stalledOptions = 0 /\
  Samples.sampleItems <> [] /\
  processWithRateLimit (H := asciiRuntime) Samples.sampleItems
    Samples.everySecondFails Samples.stalledOptions Samples.inOrder 0 = None.
Proof.
  split; [reflexivity|]. split; [discriminate|].
  apply (zero_batch_size_never_returns (H := asciiRuntime) Samples.sampleItems
           Samples.everySecondFails Samples.stalledOptions Samples.inOrder 0);
    [reflexivity | discriminate].
Defined.

End EngineBounds.

(** * The log of the engine and the retry rule *)

Module EngineClaims.
Import Engine EngineSpec EngineFacts EngineBounds.
Open Scope nat_scope.

(** ** The log tells what happened *)

Section Trace.
Context `{JSRuntime} {T W : Type}.
Variable handler : T -> nat -> W -> W * option ThrownValue.
Variable options : RateLimitOptions T W.
Variable total : nat.
Variable w0 : W.

#[local] Abbreviation effect := (EngineSpec.effect handler options).
#[local] Abbreviation replay := (EngineSpec.replay handler options).
#[local] Abbreviation happened := (EngineSpec.happened handler options).
#[local] Abbreviation Traced := (EngineSpec.Traced handler options w0).

Lemma replay_app a b w : replay (a ++ b) w = replay b (replay a w).
Proof. apply foldl_app. Qed.

Lemma happened_app a b w :
  happened (a ++ b) w <-> happened a w /\ happened b (replay a w).
Proof.
  revert w. induction a as [|e a IH]; intros w; cbn.
  - tauto.
  - rewrite IH. tauto.
Qed.

(** One more event, with the world it leaves. *)
Lemma Traced_event (r : Run T W) (e : Event T) fs c :
  Traced r ->
  match e with
  | EvAttempt index item _ outcome =>
      outcome = snd (handler item index (world r))
  | _ => True
  end ->
  Traced (mkRun (effect e (world r)) fs c (events r ++ [e])).
Proof.
  intros [Hh Hw] He. split; cbn [events world].
  - apply happened_app. split; [exact Hh|]. cbn. rewrite <- Hw.
    split; [exact He | exact I].
  - rewrite replay_app, <- Hw. reflexivity.
Qed.

Lemma Traced_same (r : Run T W) fs c :
  Traced r -> Traced (mkRun (world r) fs c (events r)).
Proof. intros Hr. exact Hr. Qed.

Lemma Traced_sleep ms (r : Run T W) : Traced r -> Traced (sleep T W ms r).
Proof.
  intros Hr. apply (Traced_event r (EvSleep ms) (failures r) (completed r) Hr I).
Qed.

Lemma Traced_tryOnce item index attempts (r : Run T W) :
  Traced r -> Traced (fst (tryOnce T W handler options item index attempts r)).
Proof.
  intros Hr. unfold tryOnce.
  destruct (handler item index (world r)) as [w outcome] eqn:Eh.
  assert (Hlogged : Traced
            (log T W (EvAttempt index item attempts outcome)
               (mkRun w (failures r) (completed r) (events r)))).
  { pose proof (Traced_event r (EvAttempt index item attempts outcome)
                  (failures r) (completed r) Hr) as Hev.
    cbn in Hev. rewrite Eh in Hev. apply Hev. reflexivity. }
  destruct outcome as [error|]; [|exact Hlogged].
  destruct (negb _); cbn [fst]; [exact Hlogged|].
  apply Traced_sleep, Hlogged.
Qed.

Lemma Traced_afterLoop (r : Run T W) :
  Traced r -> Traced (afterLoop T W options total r).
Proof.
  intros Hr. unfold afterLoop.
  assert (Hcalled : Traced
            match onProgress T W options with
            | Some callback =>
                log T W (EvProgress (S (completed r)) total)
                  (mkRun (callback (S (completed r)) total (world r))
                     (failures r) (S (completed r)) (events r))
            | None => mkRun (world r) (failures r) (S (completed r)) (events r)
            end).
  { pose proof (Traced_event r (EvProgress (S (completed r)) total)
                  (failures r) (S (completed r)) Hr I) as Hev.
    cbn in Hev. destruct (onProgress T W options); [exact Hev | exact Hr]. }
  destruct (0 <? perItemDelayMs T W options)%Z; [|exact Hcalled].
  apply Traced_sleep, Hcalled.
Qed.

Lemma Traced_executeLoop item index : forall fuel attempts (r r' : Run T W),
  executeLoop T W handler options fuel item index attempts r = Some r' ->
  Traced r -> Traced r'.
Proof.
  induction fuel as [|fuel IH]; intros attempts r r' Hrun Hr; [discriminate|].
  cbn in Hrun.
  pose proof (Traced_tryOnce item index (S attempts) r Hr) as Hstep.
  destruct (tryOnce T W handler options item index (S attempts) r)
    as [r1 [|]]; cbn [fst] in Hstep.
  - eapply IH; eassumption.
  - injection Hrun as <-. exact Hstep.
Qed.

Lemma Traced_executeItem item index (r r' : Run T W) :
  executeItem T W handler options total item index r = Some r' ->
  Traced r -> Traced r'.
Proof.
  unfold executeItem. intros Hrun Hr.
  destruct (executeLoop T W handler options _ item index 0 r) as [r1|] eqn:El;
    [|discriminate].
  injection Hrun as <-. apply Traced_afterLoop.
  eapply Traced_executeLoop; eassumption.
Qed.

Lemma Traced_runSequential : forall batchItems offset localIndex (r r' : Run T W),
  runSequential T W handler options total batchItems offset localIndex r =
    Some r' ->
  Traced r -> Traced r'.
Proof.
  induction batchItems as [|item rest IH]; intros offset localIndex r r' Hrun Hr.
  - injection Hrun as <-. exact Hr.
  - cbn [runSequential] in Hrun.
    destruct (executeItem T W handler options total item _ r) as [r1|] eqn:Ei;
      [|discriminate].
    eapply IH; [exact Hrun|]. eapply Traced_executeItem; eassumption.
Qed.

Lemma Traced_pull batchItems offset k (p : Pool T W) :
  run T W (pull T W batchItems offset k p) = run T W p.
Proof. unfold pull. destruct (batchItems !! cursor T W p); reflexivity. Qed.

Lemma Traced_resume batchItems offset k (p : Pool T W) :
  Traced (run T W p) ->
  Traced (run T W (resume T W handler options total batchItems offset k p)).
Proof.
  intros Hp. unfold resume.
  destruct (workers T W p !! k) as [[item index attempts|item index attempts| |]|];
    try exact Hp.
  - pose proof (Traced_tryOnce item index attempts (run T W p) Hp) as Hstep.
    destruct (tryOnce T W handler options item index attempts (run T W p))
      as [r1 [|]]; cbn [fst run] in *; [exact Hstep|].
    apply Traced_afterLoop, Hstep.
  - rewrite Traced_pull. exact Hp.
Qed.

Lemma Traced_startPool batchItems offset workerCount (r : Run T W) :
  run T W (startPool T W batchItems offset workerCount r) = r.
Proof.
  unfold startPool.
  assert (Hgen : forall ks (p : Pool T W),
            run T W (foldl (fun p k => pull T W batchItems offset k p) p ks) =
            run T W p).
  { induction ks as [|k ks IH]; intros p; cbn; [reflexivity|].
    rewrite IH. apply Traced_pull. }
  rewrite Hgen. reflexivity.
Qed.

Lemma Traced_runPool choose batchItems offset :
  forall fuel step (p : Pool T W) r',
    runPool T W handler options total fuel choose step batchItems offset p =
      Some r' ->
    Traced (run T W p) -> Traced r'.
Proof.
  induction fuel as [|fuel IH]; intros step p r' Hrun Hp; [discriminate|].
  cbn [runPool] in Hrun. destruct (live T (workers T W p)) as [|k0 ready].
  - injection Hrun as <-. exact Hp.
  - eapply IH; [exact Hrun|]. apply Traced_resume, Hp.
Qed.

Lemma Traced_runBatch (items : list T) schedule offset (r r' : Run T W) :
  runBatch T W handler options total items schedule offset r = Some r' ->
  Traced r -> Traced r'.
Proof.
  unfold runBatch. cbv zeta. intros Hrun Hr.
  set (batchItems := firstn (batchSize T W options) (skipn offset items)) in *.
  set (workerCount := Nat.min (Nat.max 1 (parallel T W options))
                        (length batchItems)) in *.
  assert (Hbatch : forall r1,
            (if workerCount <=? 1
             then runSequential T W handler options total batchItems offset 0 r
             else runParallel T W handler options total (schedule offset)
                    batchItems offset workerCount r) = Some r1 ->
            Traced r1).
  { intros r1. destruct (workerCount <=? 1).
    - intros Hs. eapply Traced_runSequential; eassumption.
    - unfold runParallel. intros Hp. eapply Traced_runPool; [exact Hp|].
      rewrite Traced_startPool. exact Hr. }
  destruct (if workerCount <=? 1 then _ else _) as [r1|]; [|discriminate].
  injection Hrun as <-. specialize (Hbatch r1 eq_refl).
  destruct (_ && _); [apply Traced_sleep, Hbatch | exact Hbatch].
Qed.

Lemma Traced_runBatches (items : list T) schedule :
  forall fuel offset (r r' : Run T W),
    runBatches T W handler options total items fuel schedule offset r =
      Some r' ->
    Traced r -> Traced r'.
Proof.
  induction fuel as [|fuel IH]; intros offset r r' Hrun Hr; [discriminate|].
  cbn [runBatches] in Hrun. destruct (offset <? total).
  - destruct (runBatch T W handler options total items schedule offset r)
      as [r1|] eqn:Eb; [|discriminate].
    eapply IH; [exact Hrun|]. eapply Traced_runBatch; eassumption.
  - injection Hrun as <-. exact Hr.
Qed.

End Trace.

(** ** The retry rule of the code is the rule of the specification *)

Section Rule.
Context `{JSRuntime} {T W : Type}.
Variable options : RateLimitOptions T W.

#[local] Abbreviation accepts := (EngineSpec.accepts options).
#[local] Abbreviation retried := (EngineSpec.retried options).
#[local] Abbreviation recorded := (EngineSpec.recorded options).

Lemma accepts_spec error (item : T) :
  effectiveShouldRetry T W options error item = accepts error item.
Proof.
  unfold effectiveShouldRetry, EngineSpec.accepts.
  destruct (shouldRetry T W options); [reflexivity|].
  unfold defaultShouldRetry. cbv zeta.
  destruct (d_code (extractErrorDetails error)) as [code|]; [|reflexivity].
  assert (Hcode : negb (code =? 0)%Z &&
                  existsb (fun c => (c =? code)%Z) retryableCodes =
                  existsb (Z.eqb code) [408; 425; 429; 500; 502; 503; 504]%Z).
  { unfold retryableCodes. cbn [existsb]. rewrite !(Z.eqb_sym code).
    destruct (Z.eqb_spec 0 code) as [<-|_]; reflexivity. }
  rewrite Hcode. destruct (existsb (Z.eqb code) _); reflexivity.
Qed.

Lemma retried_spec attempts error (item : T) :
  canRetry T W options attempts error item = retried attempts error item.
Proof. unfold canRetry, EngineSpec.retried. rewrite accepts_spec. reflexivity. Qed.

Lemma recorded_spec (evs : list (Event T)) :
  failuresOf T W options evs = recorded evs.
Proof.
  unfold failuresOf, EngineSpec.recorded.
  induction evs as [|e evs IH]; [reflexivity|]. cbn [flat_map]. rewrite IH.
  f_equal. destruct e as [index item attempts [error|]| |]; try reflexivity.
  rewrite retried_spec. reflexivity.
Qed.


(** *** The sleep after a failure that is retried *)



(** *** The attempts on one item *)








End Rule.

(** ** The two claims about the engine *)

Section Claims.
Context `{JSRuntime} {T W : Type}.
Variable items : list T.
Variable handler : T -> nat -> W -> W * option ThrownValue.
Variable options : RateLimitOptions T W.
Variable schedule : nat -> nat -> nat.
Variable w : W.

Lemma run_traced :
  0 < batchSize T W options ->
  exists r,
    processWithRateLimit items handler options schedule w = Some r /\
    Progress handler options items (length items) (length items) r /\
    (parallel T W options <= 1 ->
     StronglySorted le (attemptIndices T (events r))) /\
    Traced handler options w r.
Proof.
  intros Hb.
  destruct (processWithRateLimit_spec items handler options schedule w Hb)
    as (r & Hrun & HP & Hsorted).
  exists r. split; [exact Hrun|]. split; [exact HP|]. split; [exact Hsorted|].
  assert (Hstart : Traced handler options w (mkRun w [] 0 []))
    by (split; [exact I | reflexivity]).
  unfold processWithRateLimit in Hrun. cbv zeta in Hrun.
  destruct (length items =? 0).
  - injection Hrun as <-. exact Hstart.
  - eapply Traced_runBatches; eassumption.
Qed.

Lemma justified_called (evs : list (Event T)) :
  Forall (justified handler items) evs -> Forall (called items) evs.
Proof.
  intros Hj. eapply Forall_impl; [exact Hj|].
  intros [index item attempts outcome| |]; cbn; tauto.
Qed.

Lemma refused_fails K :
  everyKthRefused handler options items K ->
  everyKthFails handler options items K.
Proof.
  intros HK index item w' Hitem. specialize (HK index item w' Hitem).
  destruct (snd (handler item index w')); [|exact HK].
  rewrite accepts_spec. exact HK.
Qed.

(** C1: with a positive batch size [processWithRateLimit] returns, for
    every list of items, handler, schedule and starting world. The log
    of the run tells what happened: every attempt is a call of the
    handler on an item of the list with the outcome the handler had,
    and the world the run leaves is the starting world after the
    handler calls and the calls of [onProgress] of the log, in their
    order. Every item is called, with attempt counts 1, 2, ...; the
    failures returned are the records of the attempts that failed and
    were not retried; [onProgress], when given, was called with 1, 2,
    ... up to the number of items, each time with the total, so that
    its last call reports the total as completed. When every Kth
    handler call throws an error that the retry predicate refuses and
    the others return, the failures are at the indices K-1, 2K-1, ...,
    and there are N / K of them. *)
Theorem engine_never_aborts :
  0 < batchSize T W options ->
  exists r,
    processWithRateLimit items handler options schedule w = Some r /\
    happened handler options (events r) w /\
    world r = replay handler options (events r) w /\
    Forall (called items) (events r) /\
    (forall index, index < length items ->
       exists k, 1 <= k /\ attemptsOf index (events r) = seq 1 k) /\
    failures r = recorded options (events r) /\
    completed r = length items /\
    progressOf T (events r) =
      match onProgress T W options with
      | Some _ => List.map (fun c => (c, length items)) (seq 1 (length items))
      | None => []
      end /\
    (onProgress T W options <> None -> items <> [] ->
     last (progressOf T (events r)) = Some (length items, length items)) /\
    forall K,
      0 < K -> everyKthRefused handler options items K ->
      Permutation (List.map (f_index T) (failures r))
        (List.filter (fun index => S index mod K =? 0) (seq 0 (length items))) /\
      length (failures r) = length items / K.
Proof.
  intros Hb. destruct (run_traced Hb) as (r & Hrun & HP & _ & Hh & Hw).
  destruct HP as ([If Ip Ib Ij Ic] & Hperm & Hclosed & _).
  assert (Hc : completed r = length items).
  { rewrite Ic, (Permutation_length Hperm). apply length_seq. }
  assert (Hprogress : progressOf T (events r) =
            match onProgress T W options with
            | Some _ =>
                List.map (fun c => (c, length items)) (seq 1 (length items))
            | None => []
            end).
  { rewrite Ip, Hc. reflexivity. }
  exists r. split; [exact Hrun|]. split; [exact Hh|]. split; [exact Hw|].
  split; [apply justified_called, Ij|]. split.
  { intros index Hindex.
    pose proof (status_attempts options index (events r)) as Hs.
    rewrite (Hclosed _ Hindex) in Hs. destruct Hs as (k & [Hk _] & Hseq).
    eauto. }
  split; [rewrite If; apply recorded_spec|]. split; [exact Hc|].
  split; [exact Hprogress|]. split.
  - intros Hgiven Hitems. rewrite Hprogress.
    destruct (onProgress T W options); [|contradiction Hgiven; reflexivity].
    destruct (length items) as [|n] eqn:En;
      [destruct items; [contradiction Hitems; reflexivity | discriminate En]|].
    rewrite seq_S, List.map_app. cbn [List.map]. apply last_snoc.
  - intros K HK Hkth. apply refused_fails in Hkth.
    assert (Hidx : Permutation (List.map (f_index T) (failures r))
              (List.filter (fun index => S index mod K =? 0)
                 (seq 0 (length items)))).
    { rewrite If, (kth_failures handler options items K _ Hkth Ij).
      apply filter_Permutation, Hperm. }
    split; [exact Hidx|].
    rewrite <- (length_map (f_index T)), (Permutation_length Hidx).
    apply count_multiples, HK.
Qed.


End Claims.

(** Four items, every second one refused for good; the world keeps the
    calls of [onProgress]. *)
Lemma engine_never_aborts_witness :
  0 < batchSize nat (nat * list (nat * nat)) Samples.reportingOptions /\
  exists r,
    processWithRateLimit (H := asciiRuntime) Samples.sampleItems
      (Samples.countingHandler Samples.everySecondRefused)
      Samples.reportingOptions Samples.inOrder (0, []) = Some r /\
    completed r = 4 /\
    length (failures r) = 2 /\
    world r = (4, [(1, 4); (2, 4); (3, 4); (4, 4)]).
Proof.
  assert (Hb : 0 < batchSize nat (nat * list (nat * nat))
                     Samples.reportingOptions) by (cbv; lia).
  split; [exact Hb|].
  destruct (engine_never_aborts (H := asciiRuntime) Samples.sampleItems
              (Samples.countingHandler Samples.everySecondRefused)
              Samples.reportingOptions Samples.inOrder (0, []) Hb)
    as (r & Hrun & _ & Hw & _ & _ & _ & Hc & _ & _ & HK).
  exists r. split; [exact Hrun|]. split; [exact Hc|]. split.
  - destruct (HK 2) as [_ Hlen]; [lia | | exact Hlen].
    intros index item calls _.
    unfold Samples.countingHandler, Samples.everySecondRefused. cbn [snd].
    destruct (Nat.eqb_spec (S index mod 2) 0) as [E|E];
      [split; [exact E | vm_compute; reflexivity] | exact E].
  - assert (Hcomp : exists r0,
              processWithRateLimit (H := asciiRuntime) Samples.sampleItems
                (Samples.countingHandler Samples.everySecondRefused)
                Samples.reportingOptions Samples.inOrder (0, []) = Some r0 /\
              world r0 = (4, [(1, 4); (2, 4); (3, 4); (4, 4)])).
    { eexists. split; vm_compute; reflexivity. }
    destruct Hcomp as (r0 & Hrun0 & Hw0). congruence.
Defined.


End EngineClaims.

(** * Facts about the import orchestrator *)

Module OrchestratorFacts.
Import Categories CategoryPaths Grouper Resolver Engine Store Orchestrator OrchestratorSpec.
Import TokenizerFacts GrouperFacts EngineFacts.
Open Scope nat_scope.

(** * The import orchestrator *)



Lemma categoriesOnly_refl s : categoriesOnly s s.
Proof.
  split; [reflexivity|]. split; [reflexivity|].
  exists []. rewrite app_nil_r. split; [reflexivity | constructor].
Qed.

Lemma categoriesOnly_trans s1 s2 s3 :
  categoriesOnly s1 s2 -> categoriesOnly s2 s3 -> categoriesOnly s1 s3.
Proof.
  intros (Hp & Hv & a & Ht & Ha) (Hp' & Hv' & b & Ht' & Hb).
  split; [congruence|]. split; [congruence|].
  exists (a ++ b). split; [rewrite Ht', Ht, app_assoc; reflexivity|].
  apply Forall_app; auto.
Qed.

Lemma categoriesOnly_pause ms s : categoriesOnly s (pause ms s).
Proof.
  split; [reflexivity|]. split; [reflexivity|].
  exists [Pause ms]. split; [reflexivity | repeat constructor].
Qed.

Lemma runWithRequestPause_only {A} (action : M A) s :
  categoriesOnly s (fst (action s)) ->
  categoriesOnly s (fst (runWithRequestPause action s)).
Proof.
  intros Ha. unfold runWithRequestPause.
  destruct (action s) as [s1 [error|a]]; cbn [fst] in *.
  - eapply categoriesOnly_trans; [exact Ha|].
    eapply categoriesOnly_trans; [|apply categoriesOnly_pause].
    destruct (d_code (extractErrorDetails error)) as [code|];
      [|apply categoriesOnly_refl].
    destruct (_ && _); [apply categoriesOnly_pause | apply categoriesOnly_refl].
  - eapply categoriesOnly_trans; [exact Ha | apply categoriesOnly_pause].
Qed.

Lemma createCategoryDocument_only data s :
  categoriesOnly s (fst (createCategoryDocument data s)).
Proof.
  unfold createCategoryDocument, request, record.
  cbn [faults requests categoryDocs productDocs variantDocs nextId trace].
  destruct (faults s (requests s)); cbn [fst];
    (split; [reflexivity|]; split; [reflexivity|];
     exists [CreateCategory data]; split; [reflexivity | repeat constructor]).
Qed.

Section Preparation.
Context `{JSRuntime}.

Lemma createCategory_only page businessId proposal c s :
  categoriesOnly s (fst (createCategory page businessId proposal c s)).
Proof.
  unfold createCategory.
  destruct (findCategoryInIndex _ _ _); [apply categoriesOnly_refl|].
  unfold bind.
  match goal with
  | |- context [runWithRequestPause ?a s] =>
      pose proof (runWithRequestPause_only a s
                    (createCategoryDocument_only _ s)) as Hrun;
      destruct (runWithRequestPause a s) as [s1 [error|doc]]
  end; exact Hrun.
Qed.

Lemma createCategories_only page businessId proposals : forall c s,
  categoriesOnly s (fst (createCategories page businessId proposals c s)).
Proof.
  induction proposals as [|proposal rest IH]; intros c s;
    [apply categoriesOnly_refl|].
  cbn [createCategories]. unfold bind.
  pose proof (createCategory_only page businessId proposal c s) as Hone.
  destruct (createCategory page businessId proposal c s) as [s1 [error|c1]];
    cbn [fst] in *; [exact Hone|].
  eapply categoriesOnly_trans; [exact Hone | apply IH].
Qed.

Lemma prepare_only page s : categoriesOnly s (fst (prepare page s)).
Proof.
  unfold prepare.
  repeat match goal with
  | |- categoriesOnly s (fst (if ?b then _ else _)) => destruct b
  | |- categoriesOnly s (fst (match currentBusiness page with _ => _ end)) =>
      destruct (currentBusiness page)
  | |- categoriesOnly s (fst (s, _)) => apply categoriesOnly_refl
  end.
  match goal with
  | |- context [createCategories ?p ?b ?l ?c s] =>
      pose proof (createCategories_only p b l c s) as Hc;
      destruct (createCategories p b l c s) as [s1 [error|creation]]
  end; exact Hc.
Qed.

(** C5: when, after the category creation and the re-resolution, some
    product to import has a non-empty category text and no category
    id, [handleImport] ends with the list of these products; the
    product and the variant documents of the store are as before, and
    all that reached the store are category creations. *)
Theorem unresolved_categories_abort_before_writes
    (page : Page) (schedule : nat -> nat -> nat) (s s1 : Remote)
    (businessId : str) (productsReadyForImport : list ParsedProduct)
    (lookup : gmap (list N) Category) :
  prepare page s = (s1, Ready businessId productsReadyForImport lookup) ->
  unresolvedAfterCreation productsReadyForImport <> [] ->
  handleImport page schedule s =
    (s1, UnresolvedAfterCreation (unresolvedAfterCreation productsReadyForImport)) /\
  productDocs s1 = productDocs s /\
  variantDocs s1 = variantDocs s /\
  exists added,
    trace s1 = trace s ++ added /\
    Forall (fun q => match q with
                     | CreateCategory _ | Pause _ => True
                     | _ => False
                     end) added.
Proof.
  intros Hprep Hun. split.
  - unfold handleImport. rewrite Hprep.
    destruct (unresolvedAfterCreation productsReadyForImport); [congruence|].
    reflexivity.
  - pose proof (prepare_only page s) as Honly. rewrite Hprep in Honly.
    exact Honly.
Qed.


End Preparation.

(** ** Requests against a store that answers *)



Lemma request_answers {A} q (serve : Remote -> Remote * (ThrownValue + A)) s :
  answers s -> request q serve s = serve (reached q s).
Proof.
  intros Hs. unfold request, record, reached.
  cbn [faults requests categoryDocs productDocs variantDocs nextId trace].
  rewrite Hs. reflexivity.
Qed.

Lemma runWithRequestPause_ok {A} (action : M A) s s1 a :
  action s = (s1, inr a) ->
  runWithRequestPause action s = (pause IMPORT_RATE_LIMIT_requestPauseMs s1, inr a).
Proof. intros Ha. unfold runWithRequestPause. rewrite Ha. reflexivity. Qed.

Lemma map_has_filter_other {V} (id id' : str) (docs : list (str * V)) :
  id' <> id -> map_has id' docs = true ->
  map_has id' (List.filter (fun doc => negb (str_eqb (fst doc) id)) docs) = true.
Proof.
  intros Hne. induction docs as [|[k v] docs IH]; cbn; [auto|].
  intros Hh. apply orb_true_iff in Hh as [Hk|Hh].
  - apply bool_decide_eq_true in Hk. subst k.
    assert (E : str_eqb id' id = false) by (apply bool_decide_eq_false; exact Hne).
    rewrite E. cbn. unfold str_eqb at 1. rewrite bool_decide_eq_true_2 by reflexivity.
    reflexivity.
  - destruct (str_eqb k id); cbn; [auto|]. rewrite IH by exact Hh.
    apply orb_true_r.
Qed.


Lemma without_nil docs : without [] docs = docs.
Proof.
  unfold without. induction docs as [|d docs IH]; [reflexivity|]. cbn.
  rewrite bool_decide_eq_false_2 by apply not_elem_of_nil. cbn. f_equal. exact IH.
Qed.

Lemma without_cons id ids docs :
  without ids (List.filter (fun doc => negb (str_eqb (fst doc) id)) docs) =
  without (id :: ids) docs.
Proof.
  unfold without. induction docs as [|d docs IH]; [reflexivity|]. cbn.
  unfold str_eqb at 1.
  destruct (decide (fst d = id)) as [Heq|Hne].
  - rewrite (bool_decide_eq_true_2 _ Heq). cbn.
    rewrite (bool_decide_eq_true_2 (fst d ∈ id :: ids)) by (rewrite Heq; left).
    cbn. exact IH.
  - rewrite (bool_decide_eq_false_2 _ Hne). cbn.
    destruct (decide (fst d ∈ ids)) as [Hin|Hnin].
    + rewrite (bool_decide_eq_true_2 _ Hin).
      rewrite (bool_decide_eq_true_2 (fst d ∈ id :: ids)) by (right; exact Hin).
      cbn. exact IH.
    + rewrite (bool_decide_eq_false_2 _ Hnin).
      rewrite (bool_decide_eq_false_2 (fst d ∈ id :: ids)).
      * cbn. f_equal. exact IH.
      * intros Hin. apply elem_of_cons in Hin as [Hin|Hin]; auto.
Qed.


Lemma deletes_ok : forall docs s,
  answers s -> NoDup (List.map fst docs) ->
  (forall doc, doc ∈ docs -> map_has (fst doc) (variantDocs s) = true) ->
  exists s',
    forEach docs
      (fun variant => runWithRequestPause (deleteVariantDocument (fst variant))) s
      = (s', inr tt) /\
    answers s' /\
    variantDocs s' = without (List.map fst docs) (variantDocs s) /\
    productDocs s' = productDocs s /\
    trace s' = trace s ++ deletionSteps docs.
Proof.
  induction docs as [|doc docs IH]; intros s Hs Hnd Hin.
  - exists s. cbn. rewrite without_nil, app_nil_r. auto.
  - cbn [forEach]. unfold bind.
    assert (Hdel : deleteVariantDocument (fst doc) s =
              (mkRemote (categoryDocs s) (productDocs s)
                 (List.filter (fun d => negb (str_eqb (fst d) (fst doc)))
                    (variantDocs s))
                 (nextId s) (faults s) (S (requests s))
                 (trace s ++ [DeleteVariant (fst doc)]), inr tt)).
    { unfold deleteVariantDocument. rewrite request_answers by exact Hs.
      unfold reached. cbn [variantDocs categoryDocs productDocs nextId faults requests trace].
      rewrite (Hin doc) by left. reflexivity. }
    rewrite (runWithRequestPause_ok _ _ _ _ Hdel).
    cbn [List.map] in Hnd. apply NoDup_cons in Hnd as [Hfresh Hnd].
    match goal with |- context [forEach docs _ ?st] => set (s1 := st) end.
    destruct (IH s1) as (s' & Hrun & Hs' & Hv & Hp & Ht).
    + exact Hs.
    + exact Hnd.
    + intros d Hd. unfold s1, pause, record. cbn [variantDocs].
      apply map_has_filter_other; [|apply Hin; right; exact Hd].
      intros Heq. apply Hfresh. rewrite <- Heq.
      apply list_elem_of_fmap. exists d. auto.
    + exists s'. split; [exact Hrun|]. split; [exact Hs'|]. split; [|split].
      * rewrite Hv. unfold s1, pause, record. cbn [variantDocs List.map].
        apply without_cons.
      * rewrite Hp. reflexivity.
      * rewrite Ht. unfold s1, pause, record. cbn [trace].
        rewrite <- !app_assoc. reflexivity.
Qed.


Lemma creates_ok (payload : Variant -> VariantData) : forall drafts s,
  answers s ->
  exists s' created,
    forEach drafts
      (fun variant =>
         bind (runWithRequestPause (createVariantDocument (payload variant)))
           (fun _ => ret tt)) s
      = (s', inr tt) /\
    answers s' /\
    variantDocs s' = variantDocs s ++ created /\
    List.map snd created = List.map payload drafts /\
    productDocs s' = productDocs s /\
    trace s' = trace s ++ creationSteps (List.map payload drafts).
Proof.
  induction drafts as [|variant drafts IH]; intros s Hs.
  - exists s, []. cbn. rewrite !app_nil_r. auto 10.
  - cbn [forEach]. unfold bind at 1 2.
    assert (Hnew : createVariantDocument (payload variant) s =
              (mkRemote (categoryDocs s) (productDocs s)
                 (variantDocs s ++ [(freshId s, payload variant)])
                 (nextId s + 1)%N (faults s) (S (requests s))
                 (trace s ++ [CreateVariant (payload variant)]),
               inr (freshId s))).
    { unfold createVariantDocument. rewrite request_answers by exact Hs.
      reflexivity. }
    rewrite (runWithRequestPause_ok _ _ _ _ Hnew). cbn [ret].
    match goal with |- context [forEach drafts _ ?st] => set (s1 := st) end.
    destruct (IH s1) as (s' & created & Hrun & Hs' & Hv & Hc & Hp & Ht);
      [exact Hs|].
    exists s', ((freshId s, payload variant) :: created).
    split; [exact Hrun|]. split; [exact Hs'|]. split; [|split; [|split]].
    + rewrite Hv. unfold s1, pause, record. cbn [variantDocs].
      rewrite <- app_assoc. reflexivity.
    + cbn. rewrite Hc. reflexivity.
    + rewrite Hp. reflexivity.
    + rewrite Ht. unfold s1, pause, record. cbn [trace List.map creationSteps flat_map].
      rewrite <- !app_assoc. reflexivity.
Qed.



Lemma listed_in productId businessId docs doc :
  doc ∈ listedVariants productId businessId docs -> doc ∈ docs.
Proof.
  unfold listedVariants. cbn zeta.
  destruct (_ =? 0)%nat; intros Hin;
    apply (fun H => elem_of_sublist _ _ _ H (sublist_take _ _)) in Hin;
    apply list_elem_of_In, filter_In in Hin as [Hin _];
    apply list_elem_of_In; exact Hin.
Qed.

Lemma map_has_elem {V} (doc : str * V) docs :
  doc ∈ docs -> map_has (fst doc) docs = true.
Proof.
  intros Hin. apply map_has_In. apply in_map, list_elem_of_In, Hin.
Qed.

Lemma sublist_map {A B} (g : A -> B) (l1 l2 : list A) :
  l1 `sublist_of` l2 -> List.map g l1 `sublist_of` List.map g l2.
Proof. induction 1; cbn; [constructor | apply sublist_skip | apply sublist_cons]; auto. Qed.

Lemma NoDup_sublist_take_filter {V} (f : str * V -> bool) n (docs : list (str * V)) :
  NoDup (List.map fst docs) ->
  NoDup (List.map fst (firstn n (List.filter f docs))).
Proof.
  intros Hnd. eapply sublist_NoDup; [exact Hnd|].
  apply sublist_map. etransitivity; [apply sublist_take|].
  clear. induction docs as [|d docs IH]; cbn; [constructor|].
  destruct (f d); [apply sublist_skip | apply sublist_cons]; exact IH.
Qed.

Section UpdateFacts.
Context `{JSRuntime}.


Lemma update_steps page businessId lookup product existingId s :
  action product = update ->
  existingProductId product = Some existingId -> existingId <> [] ->
  answers s -> map_has existingId (productDocs s) = true ->
  NoDup (List.map fst (variantDocs s)) ->
  let listed := listedVariants existingId businessId (variantDocs s) in
  exists s' data created added,
    importProduct page businessId lookup product s = (s', inr tt) /\
    trace s' = trace s ++ added /\
    List.filter isRequest added =
      [UpdateProduct existingId data;
       ListVariants existingId (Some businessId) 200] ++
      (if (length (firstn 200
                     (List.filter (matchesVariant existingId (Some businessId))
                        (variantDocs s))) =? 0)
       then [ListVariants existingId None 200] else []) ++
      List.map DeleteVariant (List.map fst listed) ++
      List.map CreateVariant
        (List.map (variantDataOf page businessId existingId) (variants product)) /\
    variantDocs s' = without (List.map fst listed) (variantDocs s) ++ created /\
    List.map snd created =
      List.map (variantDataOf page businessId existingId) (variants product).
Proof.
  intros Hact Hid Hne Hs Hhas Hnd listed.
  destruct existingId as [|c0 id0]; [congruence|].
  unfold importProduct. rewrite Hact, Hid. cbv beta iota zeta.
  match goal with
  | |- context [updateProductDocument _ ?d] => set (data := d)
  end.
  (* the product document *)
  assert (Hupd : updateProductDocument (c0 :: id0) data s =
            (mkRemote (categoryDocs s)
               (map_modify (c0 :: id0) (fun old => mergeProduct old data)
                  (productDocs s))
               (variantDocs s) (nextId s) (faults s) (S (requests s))
               (trace s ++ [UpdateProduct (c0 :: id0) data]), inr tt)).
  { unfold updateProductDocument. rewrite request_answers by exact Hs.
    unfold reached. cbn [productDocs]. rewrite Hhas. reflexivity. }
  unfold bind at 1. rewrite (runWithRequestPause_ok _ _ _ _ Hupd).
  match goal with |- context [bind _ _ ?st] => set (s1 := st) end.
  assert (Hs1 : answers s1) by exact Hs.
  (* the listing within the business *)
  set (first := firstn 200
                  (List.filter (matchesVariant (c0 :: id0) (Some businessId))
                     (variantDocs s))).
  assert (Hlist1 : listVariantDocuments (c0 :: id0) (Some businessId) 200 s1 =
            (reached (ListVariants (c0 :: id0) (Some businessId) 200) s1,
             inr first)).
  { unfold listVariantDocuments. rewrite request_answers by exact Hs1.
    reflexivity. }
  unfold bind at 1. rewrite (runWithRequestPause_ok _ _ _ _ Hlist1).
  match goal with |- context [bind _ _ ?st] => set (s2 := st) end.
  assert (Hs2 : answers s2) by exact Hs.
  (* the listing without the business, when the first is empty *)
  set (s3 := if length first =? 0
             then pause IMPORT_RATE_LIMIT_requestPauseMs
                    (reached (ListVariants (c0 :: id0) None 200) s2)
             else s2).
  assert (Hlist2 :
            (if length first =? 0
             then runWithRequestPause
                    (listVariantDocuments (c0 :: id0) None 200)
             else ret first) s2 = (s3, inr listed)).
  { unfold s3, listed, listedVariants. fold first.
    destruct (length first =? 0); [|reflexivity].
    apply runWithRequestPause_ok. unfold listVariantDocuments.
    rewrite request_answers by exact Hs2. reflexivity. }
  unfold bind at 1. rewrite Hlist2.
  assert (Hs3 : answers s3) by (unfold s3; destruct (length first =? 0); exact Hs).
  assert (Hv3 : variantDocs s3 = variantDocs s)
    by (unfold s3; destruct (length first =? 0); reflexivity).
  (* the deletions *)
  destruct (deletes_ok listed s3 Hs3) as (s4 & Hdel & Hs4 & Hv4 & Hp4 & Ht4).
  { unfold listed, listedVariants. cbn zeta.
    destruct (_ =? 0); apply NoDup_sublist_take_filter, Hnd. }
  { intros doc Hdoc. rewrite Hv3. apply map_has_elem.
    eapply listed_in. exact Hdoc. }
  unfold bind at 1. rewrite Hdel.
  (* the fresh variants *)
  destruct (creates_ok (variantDataOf page businessId (c0 :: id0))
              (variants product) s4 Hs4)
    as (s5 & created & Hcre & Hs5 & Hv5 & Hc5 & Hp5 & Ht5).
  exists s5, data, created.
  eexists. split; [exact Hcre|]. split.
  - rewrite Ht5, Ht4. unfold s3.
    instantiate (1 :=
      [UpdateProduct (c0 :: id0) data; Pause IMPORT_RATE_LIMIT_requestPauseMs;
       ListVariants (c0 :: id0) (Some businessId) 200;
       Pause IMPORT_RATE_LIMIT_requestPauseMs] ++
      (if length first =? 0
       then [ListVariants (c0 :: id0) None 200;
             Pause IMPORT_RATE_LIMIT_requestPauseMs] else []) ++
      deletionSteps listed ++
      creationSteps (List.map (variantDataOf page businessId (c0 :: id0))
                       (variants product))).
    destruct (length first =? 0); unfold s2, s1, pause, record, reached;
      cbn [trace]; rewrite <- !app_assoc; reflexivity.
  - split; [|split].
    + rewrite !List.filter_app. fold first.
      assert (Hd : forall docs,
                List.filter isRequest (deletionSteps docs) =
                List.map DeleteVariant (List.map fst docs)).
      { unfold deletionSteps.
        induction docs as [|d docs IHd]; [reflexivity|]. cbn. rewrite IHd.
        reflexivity. }
      assert (Hc : forall payloads,
                List.filter isRequest (creationSteps payloads) =
                List.map CreateVariant payloads).
      { unfold creationSteps.
        induction payloads as [|d payloads IHd]; [reflexivity|]. cbn.
        rewrite IHd. reflexivity. }
      rewrite Hd, Hc. destruct (length first =? 0); reflexivity.
    + rewrite Hv5, Hv4, Hv3. reflexivity.
    + exact Hc5.
Qed.


(** What the write phase is handed: the drafts that are not skipped,
    their categories resolved again. *)
Lemma prepare_ready page s s1 businessId productsReadyForImport lookup :
  prepare page s = (s1, Ready businessId productsReadyForImport lookup) ->
  exists slugs names,
    productsReadyForImport =
      List.map (reresolve lookup slugs names)
        (List.filter (fun product => negb (bool_decide (action product = skip)))
           (parsedData page)).
Proof.
  unfold prepare.
  repeat match goal with
  | |- (if ?b then _ else _) = _ -> _ => destruct b
  | |- match currentBusiness page with _ => _ end = _ -> _ =>
      destruct (currentBusiness page)
  | |- (_, Stopped _) = _ -> _ => intros [=]
  end.
  match goal with
  | |- context [createCategories ?p ?b ?l ?c s] =>
      destruct (createCategories p b l c s) as [s2 [error|creation]]
  end; intros [= <- <- <- <-]. eauto.
Qed.


End UpdateFacts.



(** The draft's path is Hardware > Handles, nothing is stored, and the
    operator has both categories created. The flat re-resolution does
    not find the path, and the run stops with the two category
    documents written and nothing else. *)
Lemma unresolved_categories_abort_before_writes_witness :
  exists s1 unresolved,
    handleImport (H := asciiRuntime) Samples.samplePage Samples.inOrder
      Samples.emptyStore = (s1, UnresolvedAfterCreation unresolved) /\
    List.map productCode unresolved = [lit "S-106"] /\
    productDocs s1 = [] /\
    variantDocs s1 = [] /\
    List.map (fun doc => cd_name (snd doc)) (categoryDocs s1) =
      [lit "Hardware"; lit "Handles"].
Proof.
  assert (Hprep : exists s1 ready lookup,
            prepare (H := asciiRuntime) Samples.samplePage Samples.emptyStore =
              (s1, Ready (lit "b1") ready lookup) /\
            List.map productCode (unresolvedAfterCreation ready) =
              [lit "S-106"] /\
            List.map (fun doc => cd_name (snd doc)) (categoryDocs s1) =
              [lit "Hardware"; lit "Handles"]).
  { eexists _, _, _. split; [vm_compute; reflexivity|].
    split; vm_compute; reflexivity. }
  destruct Hprep as (s1 & ready & lookup & Hprep & Hun & Hcats).
  destruct (unresolved_categories_abort_before_writes (H := asciiRuntime)
              Samples.samplePage Samples.inOrder Samples.emptyStore s1
              (lit "b1") ready lookup Hprep)
    as (Hrun & Hp & Hv & _).
  { intros E. rewrite E in Hun. discriminate Hun. }
  exists s1, (unresolvedAfterCreation ready).
  split; [exact Hrun|]. split; [exact Hun|]. split; [exact Hp|].
  split; [exact Hv | exact Hcats].
Defined.

End OrchestratorFacts.

(** * The steps of an import *)

Module OrchestratorSteps.
Import Categories CategoryPaths Grouper Resolver Engine Store Orchestrator.
Import OrchestratorSpec EngineSpec.
Import EngineFacts EngineBounds EngineClaims OrchestratorFacts.
Open Scope nat_scope.

(** ** The steps of a run of requests *)

Lemma continues_refl s : continues s s [].
Proof.
  split; [reflexivity|]. split; [rewrite app_nil_r; reflexivity | cbn; lia].
Qed.

Lemma continues_trans s1 s2 s3 a b :
  continues s1 s2 a -> continues s2 s3 b -> continues s1 s3 (a ++ b).
Proof.
  intros (Hf1 & Ht1 & Hr1) (Hf2 & Ht2 & Hr2). split; [congruence|]. split.
  - rewrite Ht2, Ht1, app_assoc. reflexivity.
  - rewrite Hr2, Hr1, List.filter_app, length_app. lia.
Qed.

Lemma continues_pause ms s : continues s (pause ms s) [Pause ms].
Proof. split; [reflexivity|]. split; [reflexivity | cbn; lia]. Qed.

Lemma request_continues {A} q
    (serve : Remote -> Remote * (ThrownValue + A)) s :
  (forall s0, faults (fst (serve s0)) = faults s0 /\
              trace (fst (serve s0)) = trace s0 /\
              requests (fst (serve s0)) = requests s0) ->
  isRequest q = true ->
  continues s (fst (request q serve s)) [q].
Proof.
  intros Hserve Hq.
  assert (Hlen : length (List.filter isRequest [q]) = 1)
    by (cbn [List.filter]; rewrite Hq; reflexivity).
  unfold continues. rewrite Hlen. unfold request, record. cbn.
  destruct (faults s (requests s)); cbn.
  - split; [reflexivity|]. split; [reflexivity|]. lia.
  - match goal with |- faults (fst (serve ?s0)) = _ /\ _ =>
      destruct (Hserve s0) as (Hf & Ht & Hr)
    end.
    split; [exact Hf|]. split; [exact Ht|]. rewrite Hr. cbn. lia.
Qed.

Lemma runWithRequestPause_steps {A} (action : M A) s added :
  continues s (fst (action s)) added ->
  exists pauses,
    continues s (fst (runWithRequestPause action s)) (added ++ pauses) /\
    Forall (fun q => exists ms, q = Pause ms) pauses /\
    snd (runWithRequestPause action s) = snd (action s).
Proof.
  intros Hc. unfold runWithRequestPause.
  destruct (action s) as [s1 [error|a]]; cbn [fst snd] in *.
  - set (s2 := match d_code (extractErrorDetails error) with
               | Some code => _
               | None => s1
               end).
    assert (H2 : exists pauses,
              continues s1 s2 pauses /\
              Forall (fun q => exists ms, q = Pause ms) pauses).
    { unfold s2. destruct (d_code (extractErrorDetails error)) as [code|];
        [|exists []; split; [apply continues_refl | constructor]].
      destruct (_ && _);
        [|exists []; split; [apply continues_refl | constructor]].
      cbv zeta. destruct (0 <? _)%Z;
        [|exists []; split; [apply continues_refl | constructor]].
      eexists [_]. split; [apply continues_pause|]. repeat constructor. eauto. }
    destruct H2 as (pauses & Hp & Hall).
    destruct (0 <? IMPORT_RATE_LIMIT_requestPauseMs)%Z; cbn [fst snd].
    + exists (pauses ++ [Pause IMPORT_RATE_LIMIT_requestPauseMs]).
      split; [|split; [|reflexivity]].
      * eapply continues_trans; [exact Hc|].
        eapply continues_trans; [exact Hp | apply continues_pause].
      * apply Forall_app. split; [exact Hall|]. repeat constructor. eauto.
    + exists pauses. split; [|split; [exact Hall | reflexivity]].
      eapply continues_trans; eassumption.
  - destruct (0 <? IMPORT_RATE_LIMIT_requestPauseMs)%Z; cbn [fst snd].
    + exists [Pause IMPORT_RATE_LIMIT_requestPauseMs].
      split; [|split; [|reflexivity]].
      * eapply continues_trans; [exact Hc | apply continues_pause].
      * repeat constructor. eauto.
    + exists []. split; [|split; [constructor | reflexivity]].
      rewrite app_nil_r. exact Hc.
Qed.

Lemma pauses_no_requests pauses :
  Forall (fun q => exists ms, q = Pause ms) pauses ->
  List.filter isRequest pauses = [].
Proof.
  induction 1 as [|q pauses [ms ->] _ IH]; [reflexivity | exact IH].
Qed.

(** ** How the creation of the categories ends *)

Lemma endsByFaults_refl {A} s (a : A) : endsByFaults s s (inr a).
Proof. intros n Hn. lia. Qed.

Lemma endsByFaults_bind {A B} s s1 s2 a b (x : A) (result : ThrownValue + B) :
  continues s s1 a -> endsByFaults s s1 (inr x) ->
  continues s1 s2 b -> endsByFaults s1 s2 result ->
  endsByFaults s s2 result.
Proof.
  intros (Hf1 & _ & Hr1) H1 (_ & _ & Hr2) H2. cbn in H1.
  destruct result as [error|y]; cbn in *.
  - destruct H2 as (Hlt & Hlast & Hbefore). rewrite Hf1 in *.
    split; [lia|]. split; [exact Hlast|].
    intros n Hn. destruct (Nat.lt_ge_cases n (requests s1));
      [apply H1 | apply Hbefore]; lia.
  - rewrite Hf1 in H2. intros n Hn.
    destruct (Nat.lt_ge_cases n (requests s1)); [apply H1 | apply H2]; lia.
Qed.

Lemma createCategoryDocument_steps data s :
  continues s (fst (createCategoryDocument data s)) [CreateCategory data] /\
  endsByFaults s (fst (createCategoryDocument data s))
    (snd (createCategoryDocument data s)).
Proof.
  split.
  - apply request_continues; [|reflexivity]. intros s0. cbn. auto.
  - unfold createCategoryDocument, request, record. cbn.
    destruct (faults s (requests s)) as [error|] eqn:Ef; cbn.
    + split; [lia|]. rewrite Nat.sub_0_r. split; [exact Ef|].
      intros n Hn. lia.
    + intros n Hn. replace n with (requests s) by lia. exact Ef.
Qed.

Section Creation.
Context `{JSRuntime}.

Lemma createCategory_steps page businessId proposal c s :
  exists added,
    continues s (fst (createCategory page businessId proposal c s)) added /\
    Forall isCategoryStep added /\
    endsByFaults s (fst (createCategory page businessId proposal c s))
      (snd (createCategory page businessId proposal c s)).
Proof.
  unfold createCategory. cbv zeta.
  destruct (findCategoryInIndex _ _ _).
  { exists []. cbn. split; [apply continues_refl|]. split; [constructor|].
    intros n Hn. lia. }
  unfold bind.
  match goal with
  | |- context [runWithRequestPause (createCategoryDocument ?d) s] =>
      set (data := d)
  end.
  destruct (createCategoryDocument_steps data s) as (Hc & He).
  destruct (runWithRequestPause_steps (createCategoryDocument data) s _ Hc)
    as (pauses & Hcp & Hall & Hres).
  assert (Hreq : requests (fst (runWithRequestPause
                                  (createCategoryDocument data) s)) =
                 requests (fst (createCategoryDocument data s))).
  { destruct Hcp as (_ & _ & Hr). destruct Hc as (_ & _ & Hr').
    rewrite Hr, Hr', List.filter_app, (pauses_no_requests _ Hall), app_nil_r.
    reflexivity. }
  destruct (runWithRequestPause (createCategoryDocument data) s)
    as [s1 [error|doc]] eqn:Er; cbn [fst snd] in *.
  - exists ([CreateCategory data] ++ pauses). split; [exact Hcp|]. split.
    + apply Forall_app. split; [repeat constructor|].
      eapply Forall_impl; [exact Hall|]. intros q [ms ->]. exact I.
    + rewrite <- Hres in He. cbn in He |- *. rewrite Hreq. exact He.
  - exists ([CreateCategory data] ++ pauses). split; [exact Hcp|]. split.
    + apply Forall_app. split; [repeat constructor|].
      eapply Forall_impl; [exact Hall|]. intros q [ms ->]. exact I.
    + rewrite <- Hres in He. cbn in He |- *. rewrite Hreq. exact He.
Qed.

Lemma createCategories_steps page businessId proposals : forall c s,
  exists added,
    continues s (fst (createCategories page businessId proposals c s)) added /\
    Forall isCategoryStep added /\
    endsByFaults s (fst (createCategories page businessId proposals c s))
      (snd (createCategories page businessId proposals c s)).
Proof.
  induction proposals as [|proposal proposals IH]; intros c s.
  { exists []. cbn. split; [apply continues_refl|]. split; [constructor|].
    intros n Hn. lia. }
  cbn [createCategories]. unfold bind.
  destruct (createCategory_steps page businessId proposal c s)
    as (a & Hc & Ha & He).
  destruct (createCategory page businessId proposal c s)
    as [s1 [error|c1]]; cbn [fst snd] in *.
  - exists a. auto.
  - destruct (IH c1 s1) as (b & Hc' & Hb & He').
    exists (a ++ b). split; [eapply continues_trans; eassumption|].
    split; [apply Forall_app; split; assumption|].
    eapply endsByFaults_bind; eassumption.
Qed.

(** [prepare] takes steps of the category creation only, and ends by
    the faults of the store. *)
Lemma prepare_steps page s :
  exists added,
    continues s (fst (prepare page s)) added /\
    Forall isCategoryStep added /\
    match snd (prepare page s) with
    | Stopped outcome =>
        (stopsEarly outcome = true /\ added = []) \/
        (exists error,
           outcome = Rejected error /\
           endsByFaults (A := unit) s (fst (prepare page s)) (inl error))
    | Ready _ _ _ => endsByFaults s (fst (prepare page s)) (inr tt)
    end.
Proof.
  unfold prepare.
  repeat match goal with
  | |- context [if ?b then (s, Stopped _) else _] => destruct b
  | |- context [match currentBusiness page with _ => _ end] =>
      destruct (currentBusiness page)
  | |- exists added, continues s (fst (s, Stopped ?o)) added /\ _ =>
      exists []; cbn; split; [apply continues_refl|]; split; [constructor|];
      left; split; reflexivity
  end.
  cbv zeta.
  match goal with
  | |- context [createCategories ?p ?b ?l ?c s] =>
      destruct (createCategories_steps p b l c s) as (added & Hc & Ha & He);
      destruct (createCategories p b l c s) as [s1 [error|creation]]
  end; cbn [fst snd] in *.
  - exists added. split; [exact Hc|]. split; [exact Ha|]. right. eauto.
  - exists added. split; [exact Hc|]. split; [exact Ha|]. exact He.
Qed.

End Creation.

(** ** The steps of the write phase *)

Lemma writesOnly_ret {A} (a : A) : writesOnly (ret a).
Proof.
  intros s. exists []. split; [apply continues_refl | constructor].
Qed.

Lemma writesOnly_bind {A B} (m : M A) (k : A -> M B) :
  writesOnly m -> (forall a, writesOnly (k a)) -> writesOnly (bind m k).
Proof.
  intros Hm Hk s. unfold bind. destruct (Hm s) as (a & Hc & Ha).
  destruct (m s) as [s1 [error|x]]; cbn [fst] in *; [eauto|].
  destruct (Hk x s1) as (b & Hc' & Hb).
  exists (a ++ b). split; [eapply continues_trans; eassumption|].
  apply Forall_app. split; assumption.
Qed.

Lemma writesOnly_request {A} q
    (serve : Remote -> Remote * (ThrownValue + A)) :
  (forall s0, faults (fst (serve s0)) = faults s0 /\
              trace (fst (serve s0)) = trace s0 /\
              requests (fst (serve s0)) = requests s0) ->
  isRequest q = true -> isWriteStep q ->
  writesOnly (request q serve).
Proof.
  intros Hserve Hq Hw s. exists [q].
  split; [apply request_continues; assumption | repeat constructor; exact Hw].
Qed.

Lemma writesOnly_pause {A} (action : M A) :
  writesOnly action -> writesOnly (runWithRequestPause action).
Proof.
  intros Ha s. destruct (Ha s) as (added & Hc & Hall).
  destruct (runWithRequestPause_steps action s added Hc)
    as (pauses & Hcp & Hp & _).
  exists (added ++ pauses). split; [exact Hcp|].
  apply Forall_app. split; [exact Hall|].
  eapply Forall_impl; [exact Hp|]. intros q [ms ->]. exact I.
Qed.

Lemma writesOnly_forEach {A} (l : list A) (body : A -> M unit) :
  (forall a, writesOnly (body a)) -> writesOnly (forEach l body).
Proof.
  intros Hbody. induction l as [|a l IH]; cbn [forEach].
  - apply writesOnly_ret.
  - apply writesOnly_bind; [apply Hbody | intros _; exact IH].
Qed.

Lemma writesOnly_createProduct data : writesOnly (createProductDocument data).
Proof.
  apply writesOnly_request; [|reflexivity | exact I]. intros s0. cbn. auto.
Qed.

Lemma writesOnly_updateProduct id data :
  writesOnly (updateProductDocument id data).
Proof.
  apply writesOnly_request; [|reflexivity | exact I]. intros s0.
  destruct (map_has id (productDocs s0)); cbn; auto.
Qed.

Lemma writesOnly_listVariants productId businessId limit :
  writesOnly (listVariantDocuments productId businessId limit).
Proof.
  apply writesOnly_request; [|reflexivity | exact I]. intros s0. cbn. auto.
Qed.

Lemma writesOnly_deleteVariant id : writesOnly (deleteVariantDocument id).
Proof.
  apply writesOnly_request; [|reflexivity | exact I]. intros s0.
  destruct (map_has id (variantDocs s0)); cbn; auto.
Qed.

Lemma writesOnly_createVariant data : writesOnly (createVariantDocument data).
Proof.
  apply writesOnly_request; [|reflexivity | exact I]. intros s0. cbn. auto.
Qed.

Lemma writesOnly_importProduct page businessId lookup product :
  writesOnly (importProduct page businessId lookup product).
Proof.
  unfold importProduct. cbv zeta.
  assert (Hinsert : forall target,
            writesOnly
              (forEach (variants product) (fun variant =>
                 bind (runWithRequestPause
                         (createVariantDocument
                            (variantDataOf page businessId target variant)))
                   (fun _ => ret tt)))).
  { intros target. apply writesOnly_forEach. intros variant.
    apply writesOnly_bind;
      [apply writesOnly_pause, writesOnly_createVariant
      | intros _; apply writesOnly_ret]. }
  destruct (action product);
    try (apply writesOnly_bind;
           [apply writesOnly_pause, writesOnly_createProduct
           | intros created; apply Hinsert]).
  destruct (existingProductId product) as [[|c id]|];
    try (apply writesOnly_bind;
           [apply writesOnly_pause, writesOnly_createProduct
           | intros created; apply Hinsert]).
  apply writesOnly_bind; [apply writesOnly_pause, writesOnly_updateProduct|].
  intros _.
  apply writesOnly_bind; [apply writesOnly_pause, writesOnly_listVariants|].
  intros listed. apply writesOnly_bind.
  { destruct (length listed =? 0);
      [apply writesOnly_pause, writesOnly_listVariants | apply writesOnly_ret]. }
  intros existing. apply writesOnly_bind; [|intros _; apply Hinsert].
  apply writesOnly_forEach. intros variant.
  apply writesOnly_pause, writesOnly_deleteVariant.
Qed.

Section WritePhase.
Context `{JSRuntime}.

(** The store after the events of a run of the write phase. *)
Lemma replay_writes page businessId lookup (evs : list (Event ParsedProduct)) :
  forall s,
    exists added,
      continues s
        (replay (importHandler page businessId lookup) importOptions evs s)
        added /\
      Forall isWriteStep added.
Proof.
  induction evs as [|e evs IH]; intros s.
  { exists []. split; [apply continues_refl | constructor]. }
  cbn [EngineSpec.replay foldl].
  assert (Hstep : exists a,
            continues s
              (effect (importHandler page businessId lookup) importOptions e s)
              a /\ Forall isWriteStep a).
  { destruct e as [index item attempts outcome|ms|done whole]; cbn.
    - unfold importHandler.
      destruct (writesOnly_importProduct page businessId lookup item s)
        as (a & Hc & Ha).
      destruct (importProduct page businessId lookup item s) as [s1 [error|u]];
        cbn [fst] in *; eauto.
    - exists []. split; [apply continues_refl | constructor].
    - exists []. split; [apply continues_refl | constructor]. }
  destruct Hstep as (a & Hc & Ha).
  destruct (IH (effect (importHandler page businessId lookup) importOptions e s))
    as (b & Hc' & Hb).
  exists (a ++ b). split; [eapply continues_trans; eassumption|].
  apply Forall_app. split; assumption.
Qed.

Lemma writeProducts_steps page businessId ready lookup schedule s r :
  writeProducts page businessId ready lookup schedule s = Some r ->
  exists added, continues s (world r) added /\ Forall isWriteStep added.
Proof.
  unfold writeProducts. intros Hrun.
  destruct (run_traced ready (importHandler page businessId lookup)
              importOptions schedule s) as (r' & Hrun' & _ & _ & _ & Hw);
    [cbv; lia|].
  assert (r' = r) by congruence. subst r'. rewrite Hw.
  apply replay_writes.
Qed.

(** The steps of an import: those of the category creation, then those
    of the write phase. *)
Lemma handleImport_steps page schedule s :
  exists created written,
    continues s (fst (prepare page s)) created /\
    Forall isCategoryStep created /\
    continues (fst (prepare page s)) (fst (handleImport page schedule s))
      written /\
    Forall isWriteStep written /\
    match snd (prepare page s) with
    | Stopped outcome =>
        handleImport page schedule s = (fst (prepare page s), outcome) /\
        written = [] /\
        ((stopsEarly outcome = true /\ created = []) \/
         (exists error,
            outcome = Rejected error /\
            endsByFaults (A := unit) s (fst (prepare page s)) (inl error)))
    | Ready _ _ _ =>
        endsByFaults s (fst (prepare page s)) (inr tt) /\
        forall error, snd (handleImport page schedule s) <> Rejected error
    end.
Proof.
  destruct (prepare_steps page s) as (created & Hc & Ha & Hend).
  exists created. unfold handleImport.
  destruct (prepare page s) as [s1 [outcome|businessId ready lookup]];
    cbn [fst snd] in *.
  - exists []. split; [exact Hc|]. split; [exact Ha|].
    split; [apply continues_refl|]. split; [constructor|].
    split; [reflexivity|]. split; [reflexivity | exact Hend].
  - destruct (0 <? length (unresolvedAfterCreation ready)).
    { exists []. split; [exact Hc|]. split; [exact Ha|].
      split; [apply continues_refl|]. split; [constructor|].
      split; [exact Hend | discriminate]. }
    destruct (writeProducts page businessId ready lookup schedule s1)
      as [r|] eqn:Ew.
    + destruct (writeProducts_steps _ _ _ _ _ _ _ Ew) as (written & Hw & Hall).
      exists written. cbn [fst snd].
      split; [exact Hc|]. split; [exact Ha|]. split; [exact Hw|].
      split; [exact Hall|]. split; [exact Hend | discriminate].
    + exists []. split; [exact Hc|]. split; [exact Ha|].
      split; [apply continues_refl|]. split; [constructor|].
      split; [exact Hend | discriminate].
Qed.

End WritePhase.

End OrchestratorSteps.

(** * The branches and the endings of an import *)

Module OrchestratorCases.
Import Categories CategoryPaths Grouper Resolver Engine Store Orchestrator.
Import OrchestratorSpec EngineSpec.
Import GrouperFacts EngineFacts EngineBounds EngineClaims OrchestratorFacts
  OrchestratorSteps.
Open Scope nat_scope.

(** ** The two branches of [importProduct] *)

(** Unless the action is [update] and the reference is there, the
    create branch runs. *)
Lemma importProduct_as_create page businessId lookup product :
  (action product = update -> truthy (existingProductId product) = false) ->
  importProduct page businessId lookup product =
  importProduct page businessId lookup (with_action create product).
Proof.
  intros Hno. destruct product as [code nm cat cid cslug cpath clabel canc cmt
    sd fd vs img act eid ename eupd emt]. cbn in Hno.
  destruct act; try reflexivity.
  destruct eid as [[|c id]|]; try reflexivity.
  specialize (Hno eq_refl). discriminate Hno.
Qed.

Lemma filter_requests_creations payloads :
  List.filter isRequest (creationSteps payloads) =
  List.map CreateVariant payloads.
Proof.
  unfold creationSteps. induction payloads as [|d payloads IH]; [reflexivity|].
  cbn. rewrite IH. reflexivity.
Qed.

(** X5: a draft whose action is [create] is written, when the store
    answers, as one new product document, owned by the user and not
    archived, and one variant document per variant draft, each naming
    the new product; nothing is listed, updated or deleted. *)
Theorem create_adds_product_and_variants
    (page : Page) (businessId : str) (lookup : gmap (list N) Category)
    (product : ParsedProduct) (s : Remote) :
  action product = create -> answers s ->
  exists s' data created added,
    importProduct page businessId lookup product s = (s', inr tt) /\
    trace s' = trace s ++ added /\
    List.filter isRequest added =
      CreateProduct data ::
      List.map CreateVariant
        (List.map (variantDataOf page businessId (freshId s)) (variants product)) /\
    productDocs s' = productDocs s ++ [(freshId s, data)] /\
    pd_name data = name product /\
    pd_userId data = userId page /\
    pd_businessId data = Some businessId /\
    pd_archived data = Some false /\
    variantDocs s' = variantDocs s ++ created /\
    List.map snd created =
      List.map (variantDataOf page businessId (freshId s)) (variants product).
Proof.
  intros Hact Hs. unfold importProduct. rewrite Hact. cbn zeta.
  match goal with
  | |- context [createProductDocument ?d] => set (data := d)
  end.
  assert (Hcreate : createProductDocument data s =
            (mkRemote (categoryDocs s) (productDocs s ++ [(freshId s, data)])
               (variantDocs s) (nextId s + 1)%N (faults s) (S (requests s))
               (trace s ++ [CreateProduct data]), inr (freshId s))).
  { unfold createProductDocument. rewrite request_answers by exact Hs.
    reflexivity. }
  unfold bind at 1. rewrite (runWithRequestPause_ok _ _ _ _ Hcreate).
  match goal with |- context [forEach _ _ ?st] => set (s1 := st) end.
  assert (Hs1 : answers s1) by exact Hs.
  destruct (creates_ok (variantDataOf page businessId (freshId s))
              (variants product) s1 Hs1)
    as (s2 & created & Hcre & _ & Hv2 & Hc2 & Hp2 & Ht2).
  exists s2, data, created.
  exists ([CreateProduct data; Pause IMPORT_RATE_LIMIT_requestPauseMs] ++
          creationSteps
            (List.map (variantDataOf page businessId (freshId s))
               (variants product))).
  split; [exact Hcre|]. split.
  { rewrite Ht2. unfold s1, pause, record. cbn [trace].
    rewrite <- !app_assoc. reflexivity. }
  split.
  { rewrite List.filter_app, filter_requests_creations. reflexivity. }
  split; [rewrite Hp2; reflexivity|].
  repeat (split; [reflexivity|]).
  split; [rewrite Hv2; reflexivity | exact Hc2].
Qed.

(** X6: a draft marked [update] that carries no reference to a stored
    product is handled exactly as a draft marked [create]. *)
Theorem update_without_reference_creates
    (page : Page) (businessId : str) (lookup : gmap (list N) Category)
    (product : ParsedProduct) (s : Remote) :
  action product = update ->
  truthy (existingProductId product) = false ->
  importProduct page businessId lookup product s =
  importProduct page businessId lookup (with_action create product) s.
Proof.
  intros _ Hno. rewrite importProduct_as_create by (intros _; exact Hno).
  reflexivity.
Qed.

(** X7: when the product to update is not in the store, the update
    request is the only one sent: the handler throws the store's
    answer, and no variant document has been listed, deleted or
    created. *)
Theorem update_of_missing_product_changes_nothing
    (page : Page) (businessId : str) (lookup : gmap (list N) Category)
    (product : ParsedProduct) (existingId : str) (s : Remote) :
  action product = update ->
  existingProductId product = Some existingId -> existingId <> [] ->
  answers s -> map_has existingId (productDocs s) = false ->
  exists s' data,
    importProduct page businessId lookup product s = (s', inl notFound) /\
    trace s' =
      trace s ++ [UpdateProduct existingId data;
                  Pause IMPORT_RATE_LIMIT_requestPauseMs] /\
    productDocs s' = productDocs s /\
    variantDocs s' = variantDocs s /\
    categoryDocs s' = categoryDocs s.
Proof.
  intros Hact Hid Hne Hs Hhas. unfold importProduct. rewrite Hact, Hid.
  destruct existingId as [|c0 id0]; [congruence|]. cbn zeta.
  match goal with
  | |- context [updateProductDocument _ ?d] => set (data := d)
  end.
  assert (Hupd : updateProductDocument (c0 :: id0) data s =
            (reached (UpdateProduct (c0 :: id0) data) s, inl notFound)).
  { unfold updateProductDocument. rewrite request_answers by exact Hs.
    unfold reached at 1. cbn [productDocs]. rewrite Hhas. reflexivity. }
  exists (pause IMPORT_RATE_LIMIT_requestPauseMs
            (reached (UpdateProduct (c0 :: id0) data) s)), data.
  split.
  { unfold bind at 1. unfold runWithRequestPause at 1. rewrite Hupd.
    reflexivity. }
  split.
  { unfold pause, record, reached. cbn [trace]. rewrite <- app_assoc.
    reflexivity. }
  repeat split; reflexivity.
Qed.

(** ** The variants of the other products *)

Lemma listed_matches productId businessId docs doc :
  doc ∈ listedVariants productId businessId docs ->
  str_eqb (vd_productId (snd doc)) productId = true.
Proof.
  unfold listedVariants. cbn zeta. intros Hin.
  assert (Hsome : exists business,
            doc ∈ List.filter (matchesVariant productId business) docs).
  { destruct (_ =? 0); eexists;
      (eapply elem_of_sublist; [exact Hin | apply sublist_take]). }
  destruct Hsome as (business & Hdoc).
  apply list_elem_of_In, filter_In in Hdoc as [_ Hm].
  unfold matchesVariant in Hm. apply andb_prop in Hm as [Hm _]. exact Hm.
Qed.

Lemma NoDup_keys_eq {V} (docs : list (str * V)) (a b : str * V) :
  NoDup (List.map fst docs) -> a ∈ docs -> b ∈ docs -> fst a = fst b -> a = b.
Proof.
  induction docs as [|d docs IH]; intros Hnd Ha Hb Hk;
    [apply elem_of_nil in Ha; contradiction|].
  cbn in Hnd. apply NoDup_cons in Hnd as [Hd Hnd].
  apply elem_of_cons in Ha as [->|Ha], Hb as [->|Hb]; [reflexivity| | |auto].
  - exfalso. apply Hd. rewrite Hk. apply list_elem_of_fmap.
    exists b. split; [reflexivity | exact Hb].
  - exfalso. apply Hd. rewrite <- Hk. apply list_elem_of_fmap.
    exists a. split; [reflexivity | exact Ha].
Qed.

Lemma List_filter_narrow {A} (f g : A -> bool) (l : list A) :
  (forall x, x ∈ l -> f x = true -> g x = true) ->
  List.filter f (List.filter g l) = List.filter f l.
Proof.
  induction l as [|x l IH]; intros Himp; [reflexivity|]. cbn.
  assert (IH' : List.filter f (List.filter g l) = List.filter f l)
    by (apply IH; intros y Hy; apply Himp; right; exact Hy).
  destruct (g x) eqn:Eg; cbn.
  - rewrite IH'. reflexivity.
  - destruct (f x) eqn:Ef; [|exact IH'].
    rewrite (Himp x) in Eg; [discriminate | left | exact Ef].
Qed.

Lemma List_filter_none {A} (f : A -> bool) (l : list A) :
  (forall x, x ∈ l -> f x = false) -> List.filter f l = [].
Proof.
  induction l as [|x l IH]; intros Hf; [reflexivity|]. cbn.
  rewrite (Hf x) by left. apply IH. intros y Hy. apply Hf. right. exact Hy.
Qed.

(** X8: an update replaces variants of its own product only: the
    variant documents of every other product are after the update what
    they were before. *)
Theorem update_spares_other_products
    (page : Page) (businessId : str) (lookup : gmap (list N) Category)
    (product : ParsedProduct) (existingId : str) (s : Remote) :
  action product = update ->
  existingProductId product = Some existingId -> existingId <> [] ->
  answers s -> map_has existingId (productDocs s) = true ->
  NoDup (List.map fst (variantDocs s)) ->
  exists s',
    importProduct page businessId lookup product s = (s', inr tt) /\
    otherVariants existingId (variantDocs s') =
    otherVariants existingId (variantDocs s).
Proof.
  intros Hact Hid Hne Hs Hhas Hnd.
  destruct (update_steps page businessId lookup product existingId s
              Hact Hid Hne Hs Hhas Hnd)
    as (s' & data & created & added & Hrun & _ & _ & Hdocs & Hcreated).
  exists s'. split; [exact Hrun|].
  unfold otherVariants. rewrite Hdocs, List.filter_app.
  rewrite (List_filter_none _ created).
  - rewrite app_nil_r. unfold without. apply List_filter_narrow.
    intros doc Hdoc Hother. apply negb_true_iff, bool_decide_eq_false.
    intros Hin. apply list_elem_of_fmap in Hin as (doc' & Hk & Hin).
    pose proof (listed_matches _ _ _ _ Hin) as Hm.
    apply listed_in in Hin.
    rewrite (NoDup_keys_eq _ doc doc' Hnd Hdoc Hin Hk) in Hother.
    rewrite Hm in Hother. discriminate Hother.
  - intros doc Hdoc. apply negb_false_iff.
    assert (Hsnd : snd doc ∈ List.map snd created)
      by (apply list_elem_of_fmap; exists doc; split; [reflexivity | exact Hdoc]).
    rewrite Hcreated in Hsnd. apply list_elem_of_fmap in Hsnd as (v & -> & _).
    cbn. apply bool_decide_eq_true. reflexivity.
Qed.

(** ** How [handleImport] ends *)

Section Endings.
Context `{JSRuntime}.

Lemma prepare_stopped page s s1 outcome :
  prepare page s = (s1, Stopped outcome) ->
  (stopsEarly outcome = true /\ s1 = s) \/
  (exists error, outcome = Rejected error /\ categoriesOnly s s1).
Proof.
  intros Hprep. pose proof (prepare_only page s) as Honly.
  rewrite Hprep in Honly. cbn [fst] in Honly. revert Hprep. unfold prepare.
  repeat match goal with
  | |- (if ?b then _ else _) = _ -> _ => destruct b
  | |- match currentBusiness page with _ => _ end = _ -> _ =>
      destruct (currentBusiness page)
  | |- (_, Stopped _) = _ -> _ => intros [= <- <-]; left; split; reflexivity
  end.
  match goal with
  | |- context [createCategories ?p ?b ?l ?c s] =>
      destruct (createCategories p b l c s) as [s2 [error|creation]]
  end; intros [= <- <-]. right. eauto.
Qed.

(** X9: when [handleImport] ends on one of its guards (demo mode, no
    user, no business, no data, nothing selected, the operator's no, a
    category plan that leaves a product unresolved), no request has
    reached the store. *)
Theorem early_stop_sends_nothing
    (page : Page) (schedule : nat -> nat -> nat) (s s' : Remote)
    (outcome : Outcome) :
  handleImport page schedule s = (s', outcome) ->
  stopsEarly outcome = true ->
  s' = s.
Proof.
  unfold handleImport.
  destruct (prepare page s) as [s1 [stopped|businessId ready lookup]] eqn:Hprep.
  - intros [= <- <-] Hearly.
    destruct (prepare_stopped _ _ _ _ Hprep) as [[_ Hs]|(error & -> & _)];
      [exact Hs | discriminate Hearly].
  - destruct (0 <? length (unresolvedAfterCreation ready)).
    + intros [= <- <-]. discriminate.
    + destruct (writeProducts page businessId ready lookup schedule s1);
        intros [= <- <-]; discriminate.
Qed.

(** X10: when the store answers a category creation of an import with
    a fault, [handleImport] ends with that fault: the creation was the
    last request of the import, only category creations have reached
    the store, and the product and variant documents are as before. *)
Theorem failed_category_creation_stops_import
    (page : Page) (schedule : nat -> nat -> nat) (s : Remote)
    (added : list Request) (n : nat) (data : CategoryData)
    (error : ThrownValue) :
  trace (fst (handleImport page schedule s)) = trace s ++ added ->
  List.filter isRequest added !! n = Some (CreateCategory data) ->
  faults s (requests s + n) = Some error ->
  snd (handleImport page schedule s) = Rejected error /\
  length (List.filter isRequest added) = S n /\
  Forall isCategoryStep added /\
  productDocs (fst (handleImport page schedule s)) = productDocs s /\
  variantDocs (fst (handleImport page schedule s)) = variantDocs s.
Proof.
  intros Htrace Hnth Hfault.
  destruct (handleImport_steps page schedule s)
    as (created & written & Hc & Ha & Hw & Hall & Hend).
  pose proof (prepare_only page s) as (Hp & Hv & _).
  assert (Hadded : added = created ++ written).
  { destruct Hc as (_ & Ht & _). destruct Hw as (_ & Ht' & _).
    rewrite Ht', Ht, <- app_assoc in Htrace.
    apply app_inv_head in Htrace. symmetry. exact Htrace. }
  assert (Hreq : requests (fst (prepare page s)) =
                 requests s + length (List.filter isRequest created))
    by apply Hc.
  assert (Hsame : faults (fst (prepare page s)) = faults s) by apply Hc.
  subst added. rewrite List.filter_app in Hnth |- *.
  destruct (snd (prepare page s)) as [outcome|businessId ready lookup].
  - destruct Hend as (Hrun & -> & Hcase). rewrite Hrun. cbn [fst snd].
    rewrite !app_nil_r in *.
    destruct Hcase as [[_ ->]|(error' & -> & Hlt & Hlast & Hbefore)];
      [discriminate Hnth|].
    apply lookup_lt_Some in Hnth as Hn.
    assert (Hpos : requests s + n = requests (fst (prepare page s)) - 1).
    { destruct (Nat.eq_dec (requests s + n)
                  (requests (fst (prepare page s)) - 1)) as [E|E]; [exact E|].
      rewrite Hbefore in Hfault by lia. discriminate Hfault. }
    rewrite Hpos in Hfault.
    split; [congruence|]. split; [lia|]. split; [exact Ha|].
    split; assumption.
  - exfalso. destruct Hend as (Hok & _). cbn in Hok.
    destruct (Nat.lt_ge_cases n (length (List.filter isRequest created)))
      as [Hn|Hn].
    + rewrite Hok in Hfault by lia. discriminate Hfault.
    + rewrite lookup_app_r in Hnth by exact Hn.
      apply list_elem_of_lookup_2, list_elem_of_In, filter_In in Hnth
        as [Hin _].
      rewrite Forall_forall in Hall. apply list_elem_of_In in Hin.
      exact (Hall _ Hin).
Qed.

(** X11: when the write phase has run, the products counted as
    imported and the failures add up to the drafts that were not
    skipped, and no draft fails twice. *)
Theorem imported_and_failed_add_up
    (page : Page) (schedule : nat -> nat -> nat) (s s' : Remote)
    (count : nat) (failed : list (ProcessFailure ParsedProduct)) :
  handleImport page schedule s = (s', Imported count failed) ->
  count + length failed =
    length (List.filter (fun product => negb (bool_decide (action product = skip)))
              (parsedData page)) /\
  NoDup (List.map (f_index ParsedProduct) failed).
Proof.
  unfold handleImport.
  destruct (prepare page s) as [s1 [stopped|businessId ready lookup]] eqn:Hprep;
    [intros [= <- ->];
     destruct (prepare_stopped _ _ _ _ Hprep) as [[Hearly _]|(e & He & _)];
     discriminate|].
  destruct (0 <? length (unresolvedAfterCreation ready)); [intros [=]|].
  destruct (processWithRateLimit_spec ready
              (importHandler page businessId lookup) importOptions schedule s1)
    as (r & Hrun & HP & _); [cbv; lia|].
  unfold writeProducts. rewrite Hrun. intros [= <- <- <-].
  destruct HP as ([If _ _ _ _] & Hperm & _).
  pose proof (failures_settled importOptions (events r)) as Hsub.
  rewrite <- If in Hsub.
  assert (Hnd : NoDup (List.map (f_index ParsedProduct) (failures r))).
  { eapply sublist_NoDup; [|exact Hsub]. rewrite Hperm. apply NoDup_seq. }
  split; [|exact Hnd].
  apply sublist_length in Hsub.
  rewrite length_map, (Permutation_length Hperm), length_seq in Hsub.
  destruct (prepare_ready _ _ _ _ _ _ Hprep) as (slugs & names & Hready).
  assert (Hlen : length ready =
            length (List.filter
                      (fun product => negb (bool_decide (action product = skip)))
                      (parsedData page)))
    by (rewrite Hready; apply length_map).
  lia.
Qed.

End Endings.

Lemma create_adds_product_and_variants_witness :
  action Samples.pullHandle = create /\
  answers Samples.emptyStore /\
  exists s',
    importProduct Samples.samplePage (lit "b1") ∅ Samples.pullHandle
      Samples.emptyStore = (s', inr tt) /\
    List.map fst (productDocs s') = [lit "doc0"] /\
    List.map (fun doc => vd_productId (snd doc)) (variantDocs s') =
      [lit "doc0"].
Proof.
  assert (Hs : answers Samples.emptyStore) by (intros n; reflexivity).
  split; [reflexivity|]. split; [exact Hs|].
  destruct (create_adds_product_and_variants Samples.samplePage (lit "b1") ∅
              Samples.pullHandle Samples.emptyStore eq_refl Hs)
    as (s' & data & created & added & Hrun & _ & _ & Hp & _ & _ & _ & _ & Hv & Hc).
  exists s'. split; [exact Hrun|]. split.
  - rewrite Hp. reflexivity.
  - rewrite Hv. cbn [variantDocs Samples.emptyStore app].
    rewrite <- (List.map_map snd vd_productId), Hc. reflexivity.
Defined.

Lemma update_without_reference_creates_witness :
  action Samples.strayUpdate = update /\
  truthy (existingProductId Samples.strayUpdate) = false /\
  exists s',
    importProduct Samples.samplePage (lit "b1") ∅ Samples.strayUpdate
      Samples.mixedStore = (s', inr tt) /\
    List.map fst (productDocs s') = [lit "p1"; lit "doc0"].
Proof.
  split; [reflexivity|]. split; [reflexivity|].
  rewrite (update_without_reference_creates Samples.samplePage (lit "b1") ∅
             Samples.strayUpdate Samples.mixedStore eq_refl eq_refl).
  eexists. split; [vm_compute; reflexivity|]. vm_compute. reflexivity.
Defined.

Lemma update_of_missing_product_changes_nothing_witness :
  map_has (lit "p9") (productDocs Samples.mixedStore) = false /\
  exists s',
    importProduct Samples.updatePage (lit "b1") ∅ Samples.staleUpdate
      Samples.mixedStore = (s', inl notFound) /\
    variantDocs s' = variantDocs Samples.mixedStore.
Proof.
  split; [reflexivity|].
  destruct (update_of_missing_product_changes_nothing Samples.updatePage
              (lit "b1") ∅ Samples.staleUpdate (lit "p9") Samples.mixedStore)
    as (s' & data & Hrun & _ & _ & Hv & _);
    [reflexivity | reflexivity | discriminate | intros n; reflexivity
    | reflexivity |].
  exists s'. split; [exact Hrun | exact Hv].
Defined.

Lemma update_spares_other_products_witness :
  exists s',
    importProduct Samples.updatePage (lit "b1") ∅ Samples.pullHandleUpdate
      Samples.mixedStore = (s', inr tt) /\
    otherVariants (lit "p1") (variantDocs s') =
    otherVariants (lit "p1") (variantDocs Samples.mixedStore).
Proof.
  apply (update_spares_other_products Samples.updatePage
           (lit "b1") ∅ Samples.pullHandleUpdate (lit "p1") Samples.mixedStore).
  - reflexivity.
  - reflexivity.
  - discriminate.
  - intros n. reflexivity.
  - reflexivity.
  - refine (bool_decide_unpack _ _). vm_compute. exact I.
Defined.

Lemma early_stop_sends_nothing_witness :
  exists unresolved,
    handleImport (H := asciiRuntime) Samples.unselectedPage Samples.inOrder
      Samples.emptyStore = (Samples.emptyStore, UnresolvedInPlan unresolved) /\
    List.map productCode unresolved = [lit "S-106"].
Proof.
  assert (Hrun : exists s' unresolved,
            handleImport (H := asciiRuntime) Samples.unselectedPage
              Samples.inOrder Samples.emptyStore =
              (s', UnresolvedInPlan unresolved) /\
            List.map productCode unresolved = [lit "S-106"]).
  { eexists _, _. split; vm_compute; reflexivity. }
  destruct Hrun as (s' & unresolved & Hrun & Hcodes).
  exists unresolved. split; [|exact Hcodes].
  rewrite <- (early_stop_sends_nothing (H := asciiRuntime) _ _ _ _ _ Hrun eq_refl)
    at 2.
  exact Hrun.
Defined.

(** The store refuses its second request, the creation of the second
    category. *)
Lemma failed_category_creation_stops_import_witness :
  faults Samples.faultyStore (requests Samples.faultyStore + 1) =
    Some Samples.refusal /\
  snd (handleImport (H := asciiRuntime) Samples.samplePage Samples.inOrder
         Samples.faultyStore) = Rejected Samples.refusal /\
  productDocs
    (fst (handleImport (H := asciiRuntime) Samples.samplePage Samples.inOrder
            Samples.faultyStore)) = [].
Proof.
  assert (Hcomp : exists added data,
            trace (fst (handleImport (H := asciiRuntime) Samples.samplePage
                          Samples.inOrder Samples.faultyStore)) =
              trace Samples.faultyStore ++ added /\
            List.filter isRequest added !! 1 = Some (CreateCategory data)).
  { eexists _, _. split; vm_compute; reflexivity. }
  destruct Hcomp as (added & data & Htrace & Hnth).
  split; [reflexivity|].
  destruct (failed_category_creation_stops_import (H := asciiRuntime)
              Samples.samplePage Samples.inOrder Samples.faultyStore
              added 1 data Samples.refusal Htrace Hnth eq_refl)
    as (Hout & _ & _ & Hp & _).
  split; [exact Hout | exact Hp].
Defined.

Lemma imported_and_failed_add_up_witness :
  exists s' count failed,
    handleImport (H := asciiRuntime) Samples.updatePage Samples.inOrder
      Samples.mixedStore = (s', Imported count failed) /\
    count + length failed = 1.
Proof.
  assert (Hrun : exists s' count failed,
            handleImport (H := asciiRuntime) Samples.updatePage Samples.inOrder
              Samples.mixedStore = (s', Imported count failed)).
  { eexists _, _, _. vm_compute. reflexivity. }
  destruct Hrun as (s' & count & failed & Hrun).
  exists s', count, failed. split; [exact Hrun|].
  exact (proj1 (imported_and_failed_add_up (H := asciiRuntime) _ _ _ _ _ _ Hrun)).
Defined.

End OrchestratorCases.

(** * The edges of the tokenizer and the grouper *)

Module TokenizerCases.
Import Tokenizer Grouper TokenizerSpec TokenizerFacts GrouperFacts.
Open Scope nat_scope.

(** ** Blank lines *)

Lemma trimStart_blank s :
  Forall (fun c => is_space c = true) s -> trimStart s = [].
Proof.
  induction 1 as [|c s Hc _ IH]; [reflexivity|]. cbn. rewrite Hc. exact IH.
Qed.

Lemma trim_blank s :
  nonempty (trim s) = false <-> Forall (fun c => is_space c = true) s.
Proof.
  split.
  - intros Hn. apply Forall_forall. intros c Hc.
    destruct (is_space c) eqn:E; [reflexivity|].
    rewrite (trim_nonempty s c) in Hn; [discriminate | | exact E].
    apply list_elem_of_In. exact Hc.
  - intros Hall. unfold trim. rewrite trimStart_blank by exact Hall.
    reflexivity.
Qed.

Lemma pushLine_keeps lines cur : lines <> [] -> pushLine lines cur <> [].
Proof.
  unfold pushLine. destruct (nonempty (trim cur)); [|auto].
  intros _ E. apply app_eq_nil in E as [_ E]. discriminate E.
Qed.

Lemma splitLines_loop_keeps text : forall lines cur q,
  lines <> [] -> splitLines_loop text lines cur q <> [].
Proof.
  induction text as [|c text IH]; intros lines cur q Hl; cbn.
  - apply pushLine_keeps, Hl.
  - destruct (_ && _); apply IH; [apply pushLine_keeps|]; exact Hl.
Qed.

Lemma NEWLINE_space : is_space NEWLINE = true.
Proof. reflexivity. Qed.

Lemma splitLines_loop_blank text : forall cur q,
  splitLines_loop text [] cur q = [] <->
  Forall (fun c => is_space c = true) (cur ++ text).
Proof.
  induction text as [|c text IH]; intros cur q; cbn.
  - rewrite app_nil_r. unfold pushLine.
    destruct (nonempty (trim cur)) eqn:E.
    + split; [intros Habs; destruct cur; discriminate Habs|].
      intros Hall. apply trim_blank in Hall. congruence.
    + split; [intros _; apply trim_blank, E | reflexivity].
  - destruct ((c =? NEWLINE)%N && _) eqn:Enl.
    + apply andb_prop in Enl as [Ec _]. apply N.eqb_eq in Ec. subst c.
      unfold pushLine. destruct (nonempty (trim cur)) eqn:E.
      * split.
        -- intros Habs. exfalso.
           eapply (splitLines_loop_keeps text ([] ++ [cur])); [|exact Habs].
           discriminate.
        -- intros Hall. apply Forall_app in Hall as [Hcur _].
           apply trim_blank in Hcur. congruence.
      * rewrite (IH [] _). cbn. apply trim_blank in E.
        rewrite Forall_app, Forall_cons. split.
        -- intros Ht. split; [exact E|]. split; [apply NEWLINE_space | exact Ht].
        -- intros (_ & _ & Ht). exact Ht.
    + rewrite (IH (cur ++ [c]) _). rewrite <- app_assoc. reflexivity.
Qed.

Lemma pushLine_nonblank lines cur :
  Forall (fun line => nonempty (trim line) = true) lines ->
  Forall (fun line => nonempty (trim line) = true) (pushLine lines cur).
Proof.
  intros Hl. unfold pushLine. destruct (nonempty (trim cur)) eqn:E; [|exact Hl].
  apply Forall_app. split; [exact Hl|]. constructor; [exact E | constructor].
Qed.

Lemma splitLines_loop_nonblank text : forall lines cur q,
  Forall (fun line => nonempty (trim line) = true) lines ->
  Forall (fun line => nonempty (trim line) = true)
    (splitLines_loop text lines cur q).
Proof.
  induction text as [|c text IH]; intros lines cur q Hl; cbn.
  - apply pushLine_nonblank, Hl.
  - destruct (_ && _); apply IH; [apply pushLine_nonblank|]; exact Hl.
Qed.

Lemma List_filter_all {A} (f : A -> bool) (l : list A) :
  Forall (fun x => f x = true) l -> List.filter f l = l.
Proof.
  induction 1 as [|x l Hx _ IH]; [reflexivity|]. cbn. rewrite Hx, IH.
  reflexivity.
Qed.

(** X12: the tokenizer fails for want of a header line exactly on the
    texts that hold nothing but white space; on every other text it
    returns one row per line that follows the header, the blank lines
    not counted. *)
Theorem tokenizer_fails_on_blank_text_only (text : str) :
  (tokenize text = None <-> Forall (fun c => is_space c = true) text) /\
  match tokenize text with
  | Some rows => S (length rows) = length (splitLines text)
  | None => splitLines text = []
  end.
Proof.
  pose proof (splitLines_loop_blank text [] false) as Hblank.
  pose proof (splitLines_loop_nonblank text [] [] false (List.Forall_nil _)) as Hnb.
  fold (splitLines text) in Hblank, Hnb. cbn [app] in Hblank.
  unfold tokenize. destruct (splitLines text) as [|header lines].
  - split; [|reflexivity]. split; [intros _; apply Hblank; reflexivity|].
    reflexivity.
  - split.
    + split; [discriminate|]. intros Hall. apply Hblank in Hall.
      discriminate Hall.
    + apply Forall_cons in Hnb as [_ Hnb]. unfold buildRows.
      rewrite length_map, (List_filter_all _ lines Hnb). reflexivity.
Qed.

(** ** Columns *)

Lemma column_of_header_self c : column_of_header (header_of c) = Some c.
Proof. destruct c; vm_compute; reflexivity. Qed.

Lemma column_of_header_Some header key :
  column_of_header header = Some key -> header_of key = header.
Proof.
  unfold column_of_header. intros Hfind. apply find_some in Hfind as [_ He].
  apply str_eqb_true in He. exact He.
Qed.

Lemma fillRow_columns headers values c : forall index row,
  get_column c (fillRow headers index values row) =
  match lastIndexFrom (header_of c) headers index with
  | Some i => default [] (values !! i)
  | None => get_column c row
  end.
Proof.
  induction headers as [|h headers IH]; intros index row; [reflexivity|].
  cbn [fillRow lastIndexFrom]. rewrite IH.
  destruct (lastIndexFrom (header_of c) headers (S index)); [reflexivity|].
  destruct (column_of_header h) as [key|] eqn:Ek.
  - rewrite get_set_column. apply column_of_header_Some in Ek. subst h.
    destruct (decide (c = key)) as [->|Hne].
    + replace (str_eqb (header_of key) (header_of key)) with true
        by (symmetry; apply str_eqb_true; reflexivity).
      reflexivity.
    + replace (str_eqb (header_of key) (header_of c)) with false;
        [reflexivity|].
      symmetry. apply str_eqb_false. intros Heq. apply Hne.
      pose proof (column_of_header_self c) as Hc. rewrite <- Heq in Hc.
      rewrite column_of_header_self in Hc. congruence.
  - replace (str_eqb h (header_of c)) with false; [reflexivity|].
    symmetry. apply str_eqb_false. intros ->.
    rewrite column_of_header_self in Ek. discriminate Ek.
Qed.

(** X13: in every row the tokenizer returns, a column holds the field
    that stands, in the row's line, under the last header of the
    column's name; it is empty when the line has no field there or when
    no header names the column. Headers that name no column are passed
    over. *)
Theorem rows_follow_header (text : str) :
  match splitLines text with
  | [] => tokenize text = None
  | header :: lines =>
      tokenize text =
      Some (List.map
              (fun line =>
                 fillRow (parseCSVLine header) 0 (parseCSVLine line)
                   createEmptyCSVRow)
              lines) /\
      forall line c,
        get_column c
          (fillRow (parseCSVLine header) 0 (parseCSVLine line)
             createEmptyCSVRow) =
        valueUnder (parseCSVLine header) (parseCSVLine line) c
  end.
Proof.
  pose proof (splitLines_loop_nonblank text [] [] false (List.Forall_nil _)) as Hnb.
  fold (splitLines text) in Hnb.
  unfold tokenize. destruct (splitLines text) as [|header lines];
    [reflexivity|].
  apply Forall_cons in Hnb as [_ Hnb]. split.
  - unfold buildRows. rewrite (List_filter_all _ lines Hnb). reflexivity.
  - intros line c. rewrite fillRow_columns. unfold valueUnder.
    destruct (lastIndexFrom _ _ _); [reflexivity|]. destruct c; reflexivity.
Qed.

(** ** The first row of a code *)

Lemma with_variants_twice a b p :
  with_variants a (with_variants b p) = with_variants a p.
Proof. destruct p; reflexivity. Qed.

Lemma based_snoc rows row entry :
  based rows entry -> based (rows ++ [row]) entry.
Proof.
  intros (first & rest & Hrows & Hbase).
  exists first. eexists. split; [|exact Hbase].
  rewrite rowsOf_snoc, Hrows. reflexivity.
Qed.

Lemma based_modify rows row : forall m : list (str * ParsedProduct),
  Forall (based rows) m ->
  Forall (based (rows ++ [row]))
    (map_modify (col_ProductCode row)
       (fun product =>
          with_variants (variants product ++ [variantOfRow row]) product)
       m).
Proof.
  induction m as [|[k p] m IH]; intros Hall; cbn; [constructor|].
  apply Forall_cons in Hall as [Hentry Hall].
  destruct (str_eqb k (col_ProductCode row)); constructor.
  - apply (based_snoc _ row) in Hentry as (first & rest & Hrows & Hbase).
    exists first, rest. cbn [fst snd] in *. split; [exact Hrows|].
    rewrite with_variants_twice. exact Hbase.
  - eapply Forall_impl; [exact Hall|]. intros entry. apply based_snoc.
  - apply based_snoc, Hentry.
  - apply IH, Hall.
Qed.

Lemma map_modify_fresh {V} (key : str) (f : V -> V) (v : V)
    (m : list (str * V)) :
  ~ In key (List.map fst m) ->
  map_modify key f (m ++ [(key, v)]) = m ++ [(key, f v)].
Proof.
  induction m as [|[k w] m IH]; intros Hfresh; cbn.
  - replace (str_eqb key key) with true
      by (symmetry; apply str_eqb_true; reflexivity).
    reflexivity.
  - replace (str_eqb k key) with false.
    + rewrite IH; [reflexivity|]. intros Hin. apply Hfresh. right. exact Hin.
    + symmetry. apply str_eqb_false. intros ->. apply Hfresh. left. reflexivity.
Qed.

Lemma groupRow_based rows row m :
  grouped rows m -> Forall (based rows) m ->
  Forall (based (rows ++ [row])) (groupRow m row).
Proof.
  intros (_ & Hkeys & _) Hall. unfold groupRow.
  destruct (map_has (col_ProductCode row) m) eqn:E.
  - apply based_modify, Hall.
  - assert (Hfresh : ~ In (col_ProductCode row) (List.map fst m)).
    { intros Hin. apply map_has_In in Hin. congruence. }
    rewrite map_modify_fresh by exact Hfresh.
    apply Forall_app. split.
    + eapply Forall_impl; [exact Hall|]. intros entry. apply based_snoc.
    + constructor; [|constructor]. exists row, []. cbn [fst snd]. split.
      * rewrite rowsOf_snoc, rowsOf_absent.
        -- replace (str_eqb (col_ProductCode row) (col_ProductCode row))
             with true by (symmetry; apply str_eqb_true; reflexivity).
           reflexivity.
        -- intros Hin. apply Hfresh, Hkeys. exact Hin.
      * reflexivity.
Qed.

Lemma foldl_groupRow_based rows : forall done m,
  grouped done m -> Forall (based done) m ->
  Forall (based (done ++ rows)) (foldl groupRow m rows).
Proof.
  induction rows as [|row rows IH]; intros done m Hg Hb; cbn.
  - rewrite app_nil_r. exact Hb.
  - replace (done ++ row :: rows) with ((done ++ [row]) ++ rows)
      by (rewrite <- app_assoc; reflexivity).
    apply IH; [apply groupRow_grouped, Hg | apply groupRow_based; assumption].
Qed.


Lemma elem_of_rev {A} (x : A) (l : list A) : x ∈ rev l <-> x ∈ l.
Proof. rewrite !list_elem_of_In. symmetry. apply in_rev. Qed.



Lemma groupRows_based (rows : list CSVRow) :
  Forall (fun product =>
            exists row rest,
              rowsOf (productCode product) rows = row :: rest /\
              with_variants [] product = newProduct row)
         (groupRows rows).
Proof.
  pose proof (foldl_groupRow_based rows [] []) as Hb. cbn [app] in Hb.
  specialize (Hb (groupRows_grouped []) (List.Forall_nil _)).
  destruct (groupRows_grouped rows) as (_ & _ & Hcodes).
  unfold groupRows, map_values. apply Forall_fmap.
  rewrite Forall_forall in Hb, Hcodes |- *. intros [k p] Hin.
  destruct (Hb _ Hin) as (row & rest & Hrows & Hbase).
  destruct (Hcodes _ Hin) as [Hc _]. cbn [fst snd compose] in *.
  exists row, rest. rewrite Hc. split; [exact Hrows | exact Hbase].
Qed.


End TokenizerCases.

(** * Facts about slugs and category paths *)

Module SlugFacts.
Import Categories TokenizerSpec SlugSpec TokenizerFacts TokenizerCases.
Open Scope N_scope.

(** ** The shape of a slug *)

Lemma no_double_dash_cons a b rest :
  no_double_dash (a :: b :: rest) =
  negb ((a =? DASH) && (b =? DASH)) && no_double_dash (b :: rest).
Proof. reflexivity. Qed.

(** What [collapse_separators] returns on letters, digits, white space
    and dashes: letters, digits and single dashes, and no dash in front
    when a run of separators is under way. *)
Lemma collapse_shape s : forall in_run,
  Forall (fun c => is_word c || is_space c || (c =? DASH) = true) s ->
  let out := collapse_separators s in_run in
  Forall (fun c => is_alnum c = true \/ c = DASH) out /\
  no_double_dash out = true /\
  (in_run = true -> head out <> Some DASH).
Proof.
  induction s as [|c s IH]; intros in_run Hall; cbn zeta.
  - cbn. split; [constructor|]. split; [reflexivity | discriminate].
  - apply Forall_cons in Hall as [Hc Hall]. cbn [collapse_separators].
    destruct (is_separator c) eqn:Es.
    + destruct (IH true Hall) as (Hout & Hnd & Hhead). cbn zeta in *.
      destruct in_run.
      * split; [exact Hout|]. split; [exact Hnd|]. intros _. auto.
      * split; [constructor; [right; reflexivity | exact Hout]|].
        split; [|discriminate].
        remember (collapse_separators s true) as rest eqn:Eo in *.
        destruct rest as [|d out]; [reflexivity|].
        rewrite no_double_dash_cons, Hnd, andb_true_r.
        apply negb_true_iff, andb_false_iff. right.
        apply N.eqb_neq. intros ->. apply Hhead; reflexivity.
    + destruct (IH false Hall) as (Hout & Hnd & _). cbn zeta in *.
      assert (Hal : is_alnum c = true).
      { unfold is_separator in Es. apply orb_false_elim in Es as [Es Ed].
        apply orb_false_elim in Es as [Esp Eu].
        rewrite Esp, Ed, !orb_false_r in Hc.
        unfold is_alnum. rewrite Hc, Eu. reflexivity. }
      assert (Hnot : (c =? DASH) = false).
      { unfold is_separator in Es. apply orb_false_elim in Es as [_ Ed].
        exact Ed. }
      split; [constructor; [left; exact Hal | exact Hout]|].
      split.
      * remember (collapse_separators s false) as rest eqn:Eo in *.
        destruct rest as [|d out]; [reflexivity|].
        rewrite no_double_dash_cons, Hnot, Hnd. reflexivity.
      * intros _. cbn. intros [= ->]. discriminate Hnot.
Qed.

Lemma strip_leading_shape s :
  Forall (fun c => is_alnum c = true \/ c = DASH) s ->
  no_double_dash s = true ->
  let out := strip_leading_dashes s in
  Forall (fun c => is_alnum c = true \/ c = DASH) out /\
  no_double_dash out = true /\
  head out <> Some DASH /\
  (last s <> Some DASH -> last out <> Some DASH).
Proof.
  induction s as [|c s IH]; intros Hall Hnd; cbn zeta.
  - cbn. repeat split; auto; discriminate.
  - apply Forall_cons in Hall as [Hc Hall]. cbn [strip_leading_dashes].
    assert (Hnd' : no_double_dash s = true).
    { destruct s as [|d s]; [reflexivity|]. rewrite no_double_dash_cons in Hnd.
      apply andb_prop in Hnd as [_ Hnd]. exact Hnd. }
    destruct (c =? DASH) eqn:Ed.
    + destruct (IH Hall Hnd') as (Ho & Hn & Hh & Hl). cbn zeta in *.
      split; [exact Ho|]. split; [exact Hn|]. split; [exact Hh|].
      intros Hlast. apply Hl. intros Hs. apply Hlast.
      destruct s as [|d s]; [discriminate Hs|]. exact Hs.
    + split; [constructor; assumption|]. split; [exact Hnd|].
      split; [|auto]. cbn. intros [= ->]. discriminate Ed.
Qed.

Lemma no_double_dash_snoc s : forall a b,
  no_double_dash (s ++ [a; b]) =
  negb ((a =? DASH) && (b =? DASH)) && no_double_dash (s ++ [a]).
Proof.
  induction s as [|c s IH]; intros a b.
  - cbn. rewrite andb_true_r. reflexivity.
  - destruct s as [|d s].
    + cbn. rewrite !andb_true_r. apply andb_comm.
    + change ((c :: d :: s) ++ [a; b]) with (c :: d :: (s ++ [a; b])).
      change ((c :: d :: s) ++ [a]) with (c :: d :: (s ++ [a])).
      rewrite !no_double_dash_cons.
      change (d :: s ++ [a; b]) with ((d :: s) ++ [a; b]).
      change (d :: s ++ [a]) with ((d :: s) ++ [a]).
      rewrite IH. rewrite !andb_assoc. f_equal. apply andb_comm.
Qed.

Lemma no_double_dash_rev s :
  no_double_dash (rev s) = no_double_dash s.
Proof.
  induction s as [|c s IH]; [reflexivity|].
  destruct s as [|d s]; [reflexivity|].
  rewrite no_double_dash_cons, <- IH.
  cbn [rev]. rewrite <- app_assoc. cbn [app].
  rewrite no_double_dash_snoc. rewrite (andb_comm (d =? DASH)). reflexivity.
Qed.

Lemma last_rev_head {A} (s : list A) : last (rev s) = head s.
Proof.
  destruct s as [|c s]; [reflexivity|]. cbn. apply last_snoc.
Qed.

Lemma head_rev_last {A} (s : list A) : head (rev s) = last s.
Proof.
  rewrite <- (rev_involutive s) at 2. symmetry. apply last_rev_head.
Qed.

Lemma Forall_rev' {A} (P : A -> Prop) (s : list A) :
  Forall P s -> Forall P (rev s).
Proof.
  intros Hs. apply Forall_forall. intros x Hx.
  rewrite Forall_forall in Hs. apply Hs. apply elem_of_rev. exact Hx.
Qed.

Section Slugs.
Context `{JSRuntime}.

(** X15: whatever the value, its slug is made of letters, digits and
    dashes, neither begins nor ends with a dash and has no two dashes
    side by side. *)
Theorem slug_shape (value : str) :
  Forall (fun c => is_alnum c = true \/ c = DASH) (slugify value) /\
  head (slugify value) <> Some DASH /\
  last (slugify value) <> Some DASH /\
  no_double_dash (slugify value) = true.
Proof.
  unfold slugify, strip_dashes.
  set (kept := List.filter _ (trim (toLowerCase value))).
  assert (Hkept : Forall (fun c => is_word c || is_space c || (c =? DASH) = true)
                    kept).
  { apply Forall_forall. intros c Hc.
    apply list_elem_of_In, filter_In in Hc as [_ Hc]. exact Hc. }
  destruct (collapse_shape kept false Hkept) as (H1 & H2 & _). cbn zeta in *.
  destruct (strip_leading_shape _ H1 H2) as (H3 & H4 & H5 & _). cbn zeta in *.
  set (front := strip_leading_dashes (collapse_separators kept false)) in *.
  destruct (strip_leading_shape (rev front)) as (H6 & H7 & H8 & H9).
  { apply Forall_rev', H3. }
  { rewrite no_double_dash_rev. exact H4. }
  cbn zeta in *.
  split; [apply Forall_rev', H6|]. split; [|split].
  - rewrite head_rev_last. apply H9. rewrite last_rev_head. exact H5.
  - rewrite last_rev_head. exact H8.
  - rewrite no_double_dash_rev. exact H7.
Qed.

End Slugs.

(** ** Segments *)

Lemma split_loop_pieces sep s : forall cur,
  ~ In sep cur ->
  Forall (fun piece => ~ In sep piece) (split_loop sep s cur).
Proof.
  induction s as [|c s IH]; intros cur Hcur; cbn.
  - constructor; [exact Hcur | constructor].
  - destruct (N.eqb_spec c sep) as [->|Hne].
    + constructor; [exact Hcur|]. apply IH. intros [].
    + apply IH. intros Hin. apply in_app_iff in Hin as [Hin|[Hin|[]]];
        [exact (Hcur Hin) | congruence].
Qed.

Lemma split_loop_app sep a : forall t cur,
  ~ In sep a ->
  split_loop sep (a ++ t) cur = split_loop sep t (cur ++ a).
Proof.
  induction a as [|c a IH]; intros t cur Ha; cbn.
  - rewrite app_nil_r. reflexivity.
  - destruct (N.eqb_spec c sep) as [->|Hne]; [exfalso; apply Ha; left; reflexivity|].
    rewrite IH by (intros Hin; apply Ha; right; exact Hin).
    rewrite <- app_assoc. reflexivity.
Qed.

Lemma trimStart_spaces pad s :
  Forall (fun c => is_space c = true) pad -> trimStart (pad ++ s) = trimStart s.
Proof.
  induction 1 as [|c pad Hc _ IH]; [reflexivity|]. cbn. rewrite Hc. exact IH.
Qed.

Lemma trimmed_clear s :
  trim s = s -> head_clear s /\ head_clear (rev s).
Proof.
  intros Hs. split.
  - rewrite <- Hs. unfold trim. apply trimEnd_head, trimStart_head.
  - rewrite <- Hs. unfold trim. apply trimEnd_last.
Qed.

(** A trimmed string between two runs of white space. *)
Lemma trim_padded before s after :
  Forall (fun c => is_space c = true) before ->
  Forall (fun c => is_space c = true) after ->
  trim s = s ->
  trim (before ++ s ++ after) = s.
Proof.
  intros Hb Ha Hs. unfold trim. rewrite trimStart_spaces by exact Hb.
  destruct s as [|c s].
  - cbn [app]. rewrite trimStart_blank by exact Ha. reflexivity.
  - destruct (trimmed_clear _ Hs) as [Hhead Hlast].
    rewrite trimStart_clear by exact Hhead.
    unfold trimEnd. rewrite rev_app_distr.
    rewrite trimStart_spaces by (apply Forall_rev'; exact Ha).
    rewrite trimStart_clear by exact Hlast. apply rev_involutive.
Qed.

Lemma split_join_trimmed path : forall cur,
  path <> [] ->
  Forall segment_ok path ->
  Forall (fun c => is_space c = true) cur ->
  List.map trim (split_loop GT (join (lit " > ") path) cur) = path.
Proof.
  induction path as [|a path IH]; intros cur Hne Hall Hcur; [congruence|].
  apply Forall_cons in Hall as [(Ha & Htrim & Hgt) Hall].
  destruct path as [|b path].
  - cbn [join]. pose proof (split_loop_app GT a [] cur Hgt) as Hsplit.
    rewrite app_nil_r in Hsplit. rewrite Hsplit. cbn. f_equal.
    pose proof (trim_padded cur a [] Hcur (List.Forall_nil _) Htrim) as Ht.
    rewrite app_nil_r in Ht. exact Ht.
  - change (join (lit " > ") (a :: b :: path))
      with (a ++ lit " > " ++ join (lit " > ") (b :: path)).
    rewrite split_loop_app by exact Hgt.
    change (lit " > " ++ join (lit " > ") (b :: path))
      with (32 :: GT :: [32] ++ join (lit " > ") (b :: path)).
    cbn [split_loop]. change (32 =? GT) with false. change (GT =? GT) with true.
    cbn iota. cbn [List.map]. f_equal.
    + rewrite <- app_assoc. apply trim_padded;
        [exact Hcur | repeat constructor | exact Htrim].
    + change (32 :: join (lit " > ") (b :: path))
        with ([32] ++ join (lit " > ") (b :: path)).
      rewrite split_loop_app by (intros [Hin|[]]; discriminate Hin).
      apply IH; [discriminate | exact Hall | repeat constructor].
Qed.

(** X16: every segment that [parseCategorySegments] returns is not
    empty, is its own trim and holds no [>]. *)
Theorem segments_are_clean (rawValue : option str) :
  Forall segment_ok (parseCategorySegments rawValue).
Proof.
  unfold parseCategorySegments. destruct (truthy rawValue); [|constructor].
  apply Forall_forall. intros segment Hin.
  apply list_elem_of_In, filter_In in Hin as [Hin Hne].
  apply in_map_iff in Hin as (piece & <- & Hin).
  pose proof (split_loop_pieces GT (default [] rawValue) [] (fun F => F)) as Hp.
  rewrite Forall_forall in Hp. specialize (Hp piece (proj2 (list_elem_of_In _ _) Hin)).
  split; [|split].
  - intros E. rewrite E in Hne. discriminate Hne.
  - apply trim_idempotent.
  - intros Hgt. apply Hp. eapply trim_incl. exact Hgt.
Qed.

(** X17: a path of clean segments, written with [formatCategoryPath]
    and read back with [parseCategorySegments], is the same path. *)
Theorem format_then_parse_segments (path : list str) :
  Forall segment_ok path ->
  parseCategorySegments (Some (formatCategoryPath path)) = path.
Proof.
  intros Hall. unfold parseCategorySegments, formatCategoryPath.
  destruct path as [|a path]; [reflexivity|].
  assert (Hne : nonempty (join (lit " > ") (a :: path)) = true).
  { apply Forall_cons in Hall as [(Ha & _) _].
    destruct a as [|c a]; [congruence|]. destruct path; reflexivity. }
  cbn [truthy default]. rewrite Hne. unfold split, id.
  rewrite split_join_trimmed; [|discriminate | exact Hall | constructor].
  apply List_filter_all. eapply Forall_impl; [exact Hall|].
  intros segment (Hs & _). destruct segment; [congruence | reflexivity].
Qed.

Lemma format_then_parse_segments_witness :
  Forall segment_ok [lit "Hardware"; lit "Door handles"; lit "Brass"] /\
  parseCategorySegments (Some (lit "Hardware > Door handles > Brass")) =
    [lit "Hardware"; lit "Door handles"; lit "Brass"].
Proof.
  assert (Hok : Forall segment_ok
                  [lit "Hardware"; lit "Door handles"; lit "Brass"]).
  { repeat constructor; try discriminate; try reflexivity;
      vm_compute; intros Hin;
      repeat (destruct Hin as [Hin|Hin]; [discriminate Hin|]); exact Hin. }
  split; [exact Hok|].
  exact (format_then_parse_segments _ Hok).
Defined.

End SlugFacts.

(** * The chains of the category walks *)

Module CategoryChains.
Import Categories CategoryPaths CategorySpec CategoryFacts.
Open Scope nat_scope.

Lemma walk_linked field lookup currentId visited path :
  exists chain,
    walk field lookup currentId visited path =
      path ++ List.map (fun step => field (snd step)) chain /\
    linked lookup visited currentId chain.
Proof.
  funelim (walk field lookup currentId visited path);
    try (exists []; rewrite app_nil_r; split; [reflexivity|];
         first [ apply linked_none | apply linked_empty
               | apply linked_seen; assumption
               | apply linked_absent; assumption ]).
  destruct H as (chain & Hwalk & Hlinked).
  exists ((n :: l, category) :: chain). split.
  - rewrite Hwalk. rewrite <- app_assoc. reflexivity.
  - apply linked_step; [discriminate | assumption | assumption | exact Hlinked].
Qed.

Lemma linked_unique lookup visited currentId chain1 chain2 :
  linked lookup visited currentId chain1 ->
  linked lookup visited currentId chain2 ->
  chain1 = chain2.
Proof.
  intros H1. revert chain2.
  induction H1 as [visited|visited|visited id Hseen|visited id Habsent
                  |visited id category chain Hne Hfresh Hget _ IH];
    intros chain2 H2; inversion H2; subst; try reflexivity;
    try congruence; try contradiction.
  assert (category0 = category) as -> by congruence.
  f_equal. apply IH. assumption.
Qed.

Lemma linked_held lookup visited currentId chain :
  linked lookup visited currentId chain ->
  Forall (fun step => lookup !! fst step = Some (snd step)) chain.
Proof.
  induction 1; constructor; assumption.
Qed.

Lemma linked_head lookup visited id chain :
  linked lookup visited (Some id) chain ->
  chain = [] \/ exists category rest, chain = (id, category) :: rest.
Proof. inversion 1; subst; eauto. Qed.

Lemma linked_empty_iff lookup id :
  linked lookup ∅ (Some id) [] <-> id = [] \/ lookup !! id = None.
Proof.
  split.
  - inversion 1; subst; auto. set_solver.
  - intros [->|Hno]; [constructor | apply linked_absent, Hno].
Qed.

Lemma linked_link lookup before : forall visited currentId child c parent c' after,
  linked lookup visited currentId
    (before ++ [(child, c); (parent, c')] ++ after) ->
  cat_parentId c = Some parent.
Proof.
  induction before as [|step before IH];
    intros visited currentId child c parent c' after Hl.
  - cbn in Hl. inversion Hl as [| | | |v i cat ch Hne Hfresh Hget Hrest]; subst.
    inversion Hrest; subst. reflexivity.
  - cbn in Hl. inversion Hl as [| | | |v i cat ch Hne Hfresh Hget Hrest]; subst.
    eapply IH. exact Hrest.
Qed.

Lemma map_decompose {A B} (f : A -> B) (l : list A) : forall front x y back,
  List.map f l = front ++ [x; y] ++ back ->
  exists l1 a b l2,
    l = l1 ++ [a; b] ++ l2 /\ f a = x /\ f b = y.
Proof.
  induction l as [|a l IH]; intros front x y back Hmap.
  - destruct front; discriminate Hmap.
  - destruct front as [|z front].
    + destruct l as [|b l]; [discriminate Hmap|].
      cbn in Hmap. injection Hmap as Ha Hb _.
      exists [], a, b, l. auto.
    + cbn in Hmap. injection Hmap as _ Hmap.
      destruct (IH _ _ _ _ Hmap) as (l1 & a' & b' & l2 & -> & Ha & Hb).
      exists (a :: l1), a', b', l2. auto.
Qed.

(** X18: on the lookup built from a list of categories, the path and
    the ancestry of a category run side by side, root first: the path
    holds the names of the categories the ancestry names; the ancestry
    is empty exactly when the id is empty or unknown, and otherwise
    ends with the category itself; of two neighbours in the ancestry
    the first is the parent the second names. *)
Theorem path_follows_ancestry (categories : list Category) (categoryId : str) :
  let lookup := buildCategoryMap categories in
  let ids := getCategoryAncestry categoryId lookup in
  getCategoryPath categoryId lookup =
    List.map (fun id => default [] (cat_name <$> lookup !! id)) ids /\
  (ids = [] <-> categoryId = [] \/ lookup !! categoryId = None) /\
  (ids <> [] -> last ids = Some categoryId) /\
  (forall before parent child after,
     ids = before ++ [parent; child] ++ after ->
     exists category,
       lookup !! child = Some category /\
       cat_parentId category = Some parent).
Proof.
  cbn zeta. set (lookup := buildCategoryMap categories).
  unfold getCategoryPath, getCategoryAncestry.
  destruct (walk_linked cat_name lookup (Some categoryId) ∅ [])
    as (chain & Hnames & Hlinked).
  destruct (walk_linked cat_id lookup (Some categoryId) ∅ [])
    as (chain' & Hids & Hlinked').
  rewrite (linked_unique _ _ _ _ _ Hlinked' Hlinked) in Hids. clear chain' Hlinked'.
  rewrite Hnames, Hids. cbn [app].
  pose proof (linked_held _ _ _ _ Hlinked) as Hheld.
  assert (Hkeys : List.map (fun step => cat_id (snd step)) chain =
                  List.map fst chain).
  { apply map_ext_Forall. eapply Forall_impl; [exact Hheld|].
    intros [id c] Hget. cbn in *.
    apply buildCategoryMap_lookup in Hget as [Hid _]. exact Hid. }
  rewrite Hkeys. split; [|split; [|split]].
  - rewrite <- !List.map_rev. rewrite List.map_map.
    apply map_ext_Forall. apply Forall_forall. intros step Hin.
    rewrite Forall_forall in Hheld.
    rewrite (Hheld step); [reflexivity|].
    apply list_elem_of_In, in_rev, list_elem_of_In. exact Hin.
  - split.
    + intros Hnil. apply (f_equal (@rev _)) in Hnil.
      rewrite rev_involutive in Hnil. cbn in Hnil.
      destruct chain; [|discriminate Hnil].
      apply linked_empty_iff. exact Hlinked.
    + intros Hstop. apply linked_empty_iff in Hstop.
      rewrite (linked_unique _ _ _ _ _ Hlinked Hstop). reflexivity.
  - intros Hne.
    destruct (linked_head _ _ _ _ Hlinked) as [->|(category & rest & ->)];
      [contradiction Hne; reflexivity|].
    cbn [List.map rev fst]. apply last_snoc.
  - intros before parent child after Hdec.
    apply (f_equal (@rev _)) in Hdec. rewrite rev_involutive in Hdec.
    rewrite !rev_app_distr in Hdec. cbn [rev app] in Hdec.
    rewrite <- !app_assoc in Hdec. cbn [app] in Hdec.
    destruct (map_decompose fst chain (rev after) child parent (rev before) Hdec)
      as (l1 & [k c] & [k' c'] & l2 & Hchain & Hk & Hk').
    cbn in Hk, Hk'. subst k k'. exists c. split.
    + rewrite Forall_forall in Hheld. apply (Hheld (child, c)).
      rewrite Hchain. set_solver.
    + rewrite Hchain in Hlinked. eapply linked_link. exact Hlinked.
Qed.

End CategoryChains.

(** * Facts about the category index and the proposals *)

Module ResolverCases.
Import Categories CategoryPaths Grouper Resolver Engine Store Orchestrator.
Import ResolverSpec OrchestratorSpec GrouperFacts OrchestratorFacts
  OrchestratorCases.
Open Scope nat_scope.

(** ** Sorting *)

Lemma sort_insert_perm {A} (compare : A -> A -> Z) (x : A) (sorted : list A) :
  Permutation (sort_insert compare x sorted) (x :: sorted).
Proof.
  induction sorted as [|y sorted IH]; cbn; [reflexivity|].
  destruct (compare x y <? 0)%Z; [reflexivity|].
  rewrite IH. apply perm_swap.
Qed.

Lemma sort_perm {A} (compare : A -> A -> Z) (l : list A) :
  Permutation (sort compare l) l.
Proof.
  unfold sort.
  assert (Hgen : forall sorted,
            Permutation (foldl (fun sorted x => sort_insert compare x sorted)
                           sorted l) (sorted ++ l)).
  { induction l as [|x l IH]; intros sorted; cbn.
    - rewrite app_nil_r. reflexivity.
    - rewrite IH, sort_insert_perm. cbn. apply Permutation_middle. }
  apply (Hgen []).
Qed.

Section Proposals.
Context `{JSRuntime}.

Lemma compare_depth a b :
  ((compareProposals a b <? 0)%Z = true -> pc_depth a <= pc_depth b) /\
  ((compareProposals a b <? 0)%Z = false -> pc_depth b <= pc_depth a).
Proof.
  unfold compareProposals.
  destruct (Nat.eqb_spec (pc_depth a) (pc_depth b)) as [->|Hne]; cbn [negb].
  - split; intros _; lia.
  - split; intros Hc.
    + apply Z.ltb_lt in Hc. lia.
    + apply Z.ltb_ge in Hc. lia.
Qed.

Lemma sort_insert_by_depth x sorted :
  by_depth sorted -> by_depth (sort_insert compareProposals x sorted).
Proof.
  unfold by_depth. induction 1 as [|y sorted Hs IH Hy]; cbn.
  - repeat constructor.
  - destruct (compareProposals x y <? 0)%Z eqn:E.
    + apply compare_depth in E. constructor; [constructor; assumption|].
      constructor; [exact E|]. eapply Forall_impl; [exact Hy|].
      intros z Hz. cbn in *. lia.
    + apply compare_depth in E. constructor; [exact IH|].
      rewrite sort_insert_perm. constructor; [exact E | exact Hy].
Qed.

Lemma sort_by_depth l : by_depth (sort compareProposals l).
Proof.
  unfold sort.
  assert (Hgen : forall sorted,
            by_depth sorted ->
            by_depth (foldl (fun sorted x => sort_insert compareProposals x sorted)
                        sorted l)).
  { induction l as [|x l IH]; intros sorted Hs; cbn; [exact Hs|].
    apply IH, sort_insert_by_depth, Hs. }
  apply Hgen. constructor.
Qed.

(** ** The index by parent *)

Lemma slug_key_not_name_key (a b : str) : lit "slug:" ++ a <> lit "name:" ++ b.
Proof.
  intros Heq. apply (f_equal (hd 0%N)) in Heq. vm_compute in Heq.
  discriminate Heq.
Qed.

Lemma addCategoryToIndex_lookup index category parentKey :
  addCategoryToIndex index category !! parentKey =
    if decide (default ROOT (cat_parentId category) = parentKey)
    then Some
           (let bucket :=
              <[lit "name:" ++ toLowerCase (trim (cat_name category)) := category]>
                (default ∅ (index !! parentKey)) in
            match cat_slug category with
            | Some slug =>
                if nonempty slug
                then <[lit "slug:" ++ toLowerCase (trim slug) := category]> bucket
                else bucket
            | None => bucket
            end)
    else index !! parentKey.
Proof.
  unfold addCategoryToIndex. cbv zeta.
  destruct (decide _) as [<-|Hne].
  - rewrite lookup_insert_eq. reflexivity.
  - rewrite lookup_insert_ne by exact Hne. reflexivity.
Qed.

(** Whatever a bucket holds is a listed category of that parent, under
    one of its own keys. *)
Lemma index_sound categories : forall parentKey bucket key found,
  buildCategoryIndexByParent categories !! parentKey = Some bucket ->
  bucket !! key = Some found ->
  In found categories /\
  default ROOT (cat_parentId found) = parentKey /\
  filed_under found key.
Proof.
  unfold buildCategoryIndexByParent.
  induction categories as [|category categories IH] using rev_ind;
    intros parentKey bucket key found Hb Hk.
  { cbn in Hb. rewrite lookup_empty in Hb. discriminate. }
  rewrite foldl_app in Hb. cbn [foldl] in Hb.
  rewrite addCategoryToIndex_lookup in Hb.
  assert (Hold : forall old,
            default ∅ (foldl addCategoryToIndex ∅ categories !! parentKey) !! key
              = Some old ->
            In old (categories ++ [category]) /\
            default ROOT (cat_parentId old) = parentKey /\ filed_under old key).
  { intros old Hlook.
    destruct (foldl addCategoryToIndex ∅ categories !! parentKey)
      as [before|] eqn:Eb; cbn in Hlook;
      [|rewrite lookup_empty in Hlook; discriminate].
    destruct (IH _ _ _ _ Eb Hlook) as (Hin & Hp & Hf).
    split; [apply in_or_app; left; exact Hin | split; assumption]. }
  destruct (decide _) as [Hp|Hp]; cycle 1.
  { destruct (IH _ _ _ _ Hb Hk) as (Hin & Hp' & Hf).
    split; [apply in_or_app; left; exact Hin | split; assumption]. }
  injection Hb as <-. cbv zeta in Hk.
  assert (Hname : forall found',
            <[lit "name:" ++ toLowerCase (trim (cat_name category)) := category]>
              (default ∅ (foldl addCategoryToIndex ∅ categories !! parentKey))
              !! key = Some found' ->
            In found' (categories ++ [category]) /\
            default ROOT (cat_parentId found') = parentKey /\
            filed_under found' key).
  { intros found' Hlook.
    destruct (decide (lit "name:" ++ toLowerCase (trim (cat_name category)) = key))
      as [<-|Hne].
    - rewrite lookup_insert_eq in Hlook. injection Hlook as <-.
      split; [apply in_or_app; right; left; reflexivity|].
      split; [exact Hp | left; reflexivity].
    - rewrite lookup_insert_ne in Hlook by exact Hne. apply Hold, Hlook. }
  destruct (cat_slug category) as [slug|] eqn:Eslug; [|apply Hname, Hk].
  destruct (nonempty slug) eqn:Enon; [|apply Hname, Hk].
  destruct (decide (lit "slug:" ++ toLowerCase (trim slug) = key)) as [<-|Hne].
  - rewrite lookup_insert_eq in Hk. injection Hk as <-.
    split; [apply in_or_app; right; left; reflexivity|].
    split; [exact Hp|]. right. exists slug. repeat split; assumption.
  - rewrite lookup_insert_ne in Hk by exact Hne. apply Hname, Hk.
Qed.

(** Every key of a listed category is taken in the bucket of its
    parent. *)
Lemma index_complete categories : forall category key,
  In category categories -> filed_under category key ->
  exists bucket,
    buildCategoryIndexByParent categories
      !! default ROOT (cat_parentId category) = Some bucket /\
    is_Some (bucket !! key).
Proof.
  unfold buildCategoryIndexByParent.
  induction categories as [|last categories IH] using rev_ind;
    intros category key Hin Hf; [destruct Hin|].
  rewrite foldl_app. cbn [foldl]. rewrite addCategoryToIndex_lookup.
  apply in_app_or in Hin.
  destruct (decide _) as [Hp|Hp].
  - eexists. split; [reflexivity|]. cbv zeta.
    assert (Hcase :
              (category = last /\ filed_under last key) \/
              is_Some (default ∅
                         (foldl addCategoryToIndex ∅ categories
                            !! default ROOT (cat_parentId category)) !! key)).
    { destruct Hin as [Hin|[<-|[]]]; [right | left; split; [reflexivity|exact Hf]].
      destruct (IH _ _ Hin Hf) as (bucket & -> & Hsome). exact Hsome. }
    set (before := default ∅ _) in *.
    assert (Hstep : forall (k : str) (m : gmap (list N) Category),
              is_Some (m !! key) -> is_Some (<[k := last]> m !! key)).
    { intros k m Hm. apply lookup_insert_is_Some.
      destruct (decide (k = key)); [left; assumption | right; split; assumption]. }
    destruct Hcase as [[-> [->|(slug & Eslug & Enon & ->)]]|Hsome].
    + assert (Hn : is_Some
                (<[lit "name:" ++ toLowerCase (trim (cat_name last)) := last]>
                   before !! (lit "name:" ++ toLowerCase (trim (cat_name last))))).
      { rewrite lookup_insert_eq. eauto. }
      destruct (cat_slug last) as [slug|]; [|exact Hn].
      destruct (nonempty slug); [apply Hstep, Hn | exact Hn].
    + rewrite Eslug, Enon. rewrite lookup_insert_eq. eauto.
    + destruct (cat_slug last) as [slug|]; [|apply Hstep, Hsome].
      destruct (nonempty slug); [apply Hstep, Hstep, Hsome | apply Hstep, Hsome].
  - destruct Hin as [Hin|[<-|[]]]; [|contradiction Hp; reflexivity].
    apply IH; assumption.
Qed.

(** X19: what [findCategoryInIndex] finds in the index of
    [buildCategoryIndexByParent] is a listed category of the asked
    parent whose name, trimmed and lower-cased, is that of the segment,
    or whose slug is the segment's; it finds nothing only when no
    listed category of that parent has that name, nor that slug when
    the segment has one. *)
Theorem index_finds_listed_categories (categories : list Category)
    (parentId : option str) (segment : str) :
  match
    findCategoryInIndex (buildCategoryIndexByParent categories) parentId segment
  with
  | Some found =>
      In found categories /\
      default ROOT (cat_parentId found) = default ROOT parentId /\
      (toLowerCase (trim (cat_name found)) = toLowerCase (trim segment) \/
       exists slug,
         cat_slug found = Some slug /\ nonempty slug = true /\
         toLowerCase (trim slug) = toLowerCase (slugify segment))
  | None =>
      forall category,
        In category categories ->
        default ROOT (cat_parentId category) = default ROOT parentId ->
        toLowerCase (trim (cat_name category)) <> toLowerCase (trim segment) /\
        (nonempty (slugify segment) = true ->
         forall slug,
           cat_slug category = Some slug -> nonempty slug = true ->
           toLowerCase (trim slug) <> toLowerCase (slugify segment))
  end.
Proof.
  unfold findCategoryInIndex. cbv zeta.
  set (index := buildCategoryIndexByParent categories).
  assert (Hfound : forall bucket key found,
            index !! default ROOT parentId = Some bucket ->
            bucket !! key = Some found ->
            In found categories /\
            default ROOT (cat_parentId found) = default ROOT parentId /\
            ((exists name, key = lit "name:" ++ name /\
                toLowerCase (trim (cat_name found)) = name) \/
             (exists slug' slug, key = lit "slug:" ++ slug' /\
                cat_slug found = Some slug /\ nonempty slug = true /\
                toLowerCase (trim slug) = slug'))).
  { intros bucket key found Hb Hk.
    destruct (index_sound _ _ _ _ _ Hb Hk) as (Hin & Hp & Hf).
    split; [exact Hin|]. split; [exact Hp|].
    destruct Hf as [->|(slug & Eslug & Enon & ->)]; [left | right]; eauto 10. }
  assert (Hmissing : forall category key,
            In category categories ->
            default ROOT (cat_parentId category) = default ROOT parentId ->
            filed_under category key ->
            match index !! default ROOT parentId with
            | Some bucket => is_Some (bucket !! key)
            | None => False
            end).
  { intros category key Hin Hp Hf.
    destruct (index_complete _ _ _ Hin Hf) as (bucket & Hb & Hsome).
    fold index in Hb. rewrite Hp in Hb. rewrite Hb. exact Hsome. }
  destruct (index !! default ROOT parentId) as [bucket|] eqn:Eb.
  - destruct (bucket !! (lit "name:" ++ toLowerCase (trim segment)))
      as [nameMatch|] eqn:En.
    + destruct (Hfound _ _ _ eq_refl En)
        as (Hin & Hp & [(name & Hkey & Hname)|(s' & slug & Hkey & _)]).
      * apply app_inv_head in Hkey. subst name. auto.
      * symmetry in Hkey. apply slug_key_not_name_key in Hkey. destruct Hkey.
    + assert (Hnames : forall category,
                In category categories ->
                default ROOT (cat_parentId category) = default ROOT parentId ->
                toLowerCase (trim (cat_name category)) <>
                  toLowerCase (trim segment)).
      { intros category Hin Hp Heq.
        pose proof (Hmissing category _ Hin Hp (or_introl eq_refl)) as Hsome.
        rewrite Heq, En in Hsome. destruct Hsome as [? [=]]. }
      destruct (nonempty (slugify segment)) eqn:Eseg.
      * destruct (bucket !! (lit "slug:" ++ toLowerCase (slugify segment)))
          as [slugMatch|] eqn:Es.
        -- destruct (Hfound _ _ _ eq_refl Es)
             as (Hin & Hp & [(name & Hkey & _)|(s' & slug & Hkey & Hslug)]).
           ++ apply slug_key_not_name_key in Hkey. destruct Hkey.
           ++ apply app_inv_head in Hkey. subst s'.
              destruct Hslug as (Eslug & Enon & Heq). eauto 10.
        -- intros category Hin Hp. split; [apply Hnames; assumption|].
           intros _ slug Eslug Enon Heq.
           assert (Hf : filed_under category
                          (lit "slug:" ++ toLowerCase (trim slug))).
           { right. exists slug. repeat split; assumption. }
           pose proof (Hmissing category _ Hin Hp Hf) as Hsome.
           rewrite Heq, Es in Hsome. destruct Hsome as [? [=]].
      * intros category Hin Hp. split; [apply Hnames; assumption|].
        intros [=].
  - intros category Hin Hp.
    destruct (Hmissing category _ Hin Hp (or_introl eq_refl)).
Qed.

(** ** The map of the proposals *)

Lemma proposeSegment_keyed index st segment :
  keyed (snd st) -> keyed (snd (proposeSegment index st segment)).
Proof.
  destruct st as [[parentId parentPath] proposals]. cbn [snd].
  intros [Hnd Hall]. unfold proposeSegment.
  destruct (findCategoryInIndex index parentId segment); cbn [snd];
    [split; assumption|].
  destruct (map_has _ proposals) eqn:E; [split; assumption|].
  split.
  - rewrite List.map_app. apply NoDup_app. split; [exact Hnd|]. split.
    + intros key Hin Hnew. cbn in Hnew. apply list_elem_of_singleton in Hnew.
      subst key. apply list_elem_of_In, map_has_In in Hin. congruence.
    + cbn. apply NoDup_singleton.
  - apply Forall_app. split; [exact Hall|]. constructor; [|constructor].
    cbn [fst snd pc_key]. split; [reflexivity|].
    exists segment. cbn. repeat split; reflexivity.
Qed.

Lemma foldl_proposeSegment_keyed index segments : forall st,
  keyed (snd st) -> keyed (snd (foldl (proposeSegment index) st segments)).
Proof.
  induction segments as [|segment segments IH]; intros st Hst; cbn; [exact Hst|].
  apply IH, proposeSegment_keyed, Hst.
Qed.

Lemma proposeForProduct_keyed index proposals product :
  keyed proposals -> keyed (proposeForProduct index proposals product).
Proof.
  intros Hk. unfold proposeForProduct. destruct (_ || _); [exact Hk|].
  apply (foldl_proposeSegment_keyed index _ (None, [], proposals)). exact Hk.
Qed.

Lemma foldl_proposeForProduct_keyed index products : forall proposals,
  keyed proposals -> keyed (foldl (proposeForProduct index) proposals products).
Proof.
  induction products as [|product products IH]; intros proposals Hk; cbn;
    [exact Hk|].
  apply IH, proposeForProduct_keyed, Hk.
Qed.

Lemma proposeForProduct_skipped index proposals product :
  truthy (categoryId product) = true \/ category product = [] ->
  proposeForProduct index proposals product = proposals.
Proof.
  intros Hskip. unfold proposeForProduct.
  destruct Hskip as [-> | ->]; [rewrite orb_true_r|]; reflexivity.
Qed.

(** X20: the proposals that [buildProposedCategoriesForProducts]
    returns have pairwise different keys; each has the key, the label
    and the depth of its path, the name and the slug of its last
    segment and the key of its parent path; no deeper proposal stands
    before a shallower one. Products that carry a category id or no
    category text propose nothing. *)
Theorem proposals_are_keyed_and_layered (products : list ParsedProduct)
    (categories : list Category) :
  let proposals := buildProposedCategoriesForProducts products categories in
  NoDup (List.map pc_key proposals) /\
  Forall proposal_ok proposals /\
  by_depth proposals /\
  (Forall (fun product => truthy (categoryId product) = true \/
                          category product = []) products ->
   proposals = []).
Proof.
  cbv zeta. unfold buildProposedCategoriesForProducts.
  destruct products as [|product products].
  { repeat split; try constructor. }
  set (index := buildCategoryIndexByParent categories).
  set (all := product :: products).
  destruct (foldl_proposeForProduct_keyed index all [])
    as [Hnd Hall]; [split; constructor|].
  set (final := foldl (proposeForProduct index) [] all) in *.
  assert (Hkeys : List.map pc_key (map_values final) = List.map fst final).
  { unfold map_values. rewrite List.map_map. apply map_ext_Forall.
    eapply Forall_impl; [exact Hall|]. intros entry [Hk _]. cbn. congruence. }
  split; [|split; [|split]].
  - rewrite (sort_perm compareProposals (map_values final)), Hkeys. exact Hnd.
  - rewrite (sort_perm compareProposals (map_values final)).
    unfold map_values. apply Forall_fmap. eapply Forall_impl; [exact Hall|].
    intros entry [_ Hok]. exact Hok.
  - apply sort_by_depth.
  - intros Hskip. replace final with (@nil (str * ProposedCategory));
      [reflexivity|].
    unfold final. clear -Hskip. generalize (@nil (str * ProposedCategory)).
    induction Hskip as [|p ps Hp _ IH]; intros base; [reflexivity|].
    cbn. rewrite proposeForProduct_skipped by exact Hp. apply IH.
Qed.

(** ** The plan check *)

Lemma proposeSegment_grows index st segment key :
  key ∈ List.map fst (snd st) ->
  key ∈ List.map fst (snd (proposeSegment index st segment)).
Proof.
  destruct st as [[parentId parentPath] proposals]. cbn [snd].
  intros Hin. unfold proposeSegment.
  destruct (findCategoryInIndex index parentId segment); cbn [snd];
    [exact Hin|].
  destruct (map_has _ proposals); [exact Hin|].
  rewrite List.map_app. apply elem_of_app. left. exact Hin.
Qed.

Lemma foldl_proposeSegment_grows index segments key : forall st,
  key ∈ List.map fst (snd st) ->
  key ∈ List.map fst (snd (foldl (proposeSegment index) st segments)).
Proof.
  induction segments as [|segment segments IH]; intros st Hin; cbn; [exact Hin|].
  apply IH, proposeSegment_grows, Hin.
Qed.

Lemma foldl_proposeForProduct_grows index products key : forall proposals,
  key ∈ List.map fst proposals ->
  key ∈ List.map fst (foldl (proposeForProduct index) proposals products).
Proof.
  induction products as [|product products IH]; intros proposals Hin; cbn;
    [exact Hin|].
  apply IH. unfold proposeForProduct. destruct (_ || _); [exact Hin|].
  apply (foldl_proposeSegment_grows index _ key (None, [], proposals)).
  exact Hin.
Qed.

(** A walk whose proposals are all selected is a walk the plan check
    lets through. *)
Lemma proposed_segments_resolve (index : gmap (list N) (gmap (list N) Category))
    (selected : gset (list N)) segments :
  forall parentId parentPath proposals,
    (forall key,
       key ∈ List.map fst
               (snd (foldl (proposeSegment index)
                       (parentId, parentPath, proposals) segments)) ->
       key ∈ selected) ->
    canResolveSegments index selected segments parentId parentPath = true.
Proof.
  induction segments as [|segment segments IH];
    intros parentId parentPath proposals Hsel; [reflexivity|].
  cbn [canResolveSegments]. cbn [foldl] in Hsel.
  unfold proposeSegment at 2 in Hsel.
  destruct (findCategoryInIndex index parentId segment) as [existing|].
  - eapply IH. exact Hsel.
  - cbv zeta in *.
    set (key := buildCategoryPathKey (parentPath ++ [segment])) in *.
    assert (Hkey : key ∈ selected).
    { apply Hsel. apply foldl_proposeSegment_grows. cbn [snd].
      destruct (map_has key proposals) eqn:E.
      - apply list_elem_of_In, map_has_In. exact E.
      - rewrite List.map_app. apply elem_of_app. right. left. }
    rewrite (bool_decide_eq_true_2 _ Hkey). cbn [negb].
    eapply IH. exact Hsel.
Qed.

Lemma proposed_products_resolve (index : gmap (list N) (gmap (list N) Category))
    (selected : gset (list N)) products :
  forall proposals,
    (forall key,
       key ∈ List.map fst (foldl (proposeForProduct index) proposals products) ->
       key ∈ selected) ->
    Forall (fun product =>
              canResolveCategoryForProduct index selected product = true)
      products.
Proof.
  induction products as [|product products IH]; intros proposals Hsel;
    constructor.
  - unfold canResolveCategoryForProduct.
    destruct (truthy (categoryId product)) eqn:Eid; [reflexivity|].
    destruct (negb (nonempty (category product)) ||
              negb (nonempty (trim (category product)))) eqn:Eraw;
      [reflexivity|].
    apply (proposed_segments_resolve index selected _ None [] proposals).
    intros key Hin. apply Hsel. cbn [foldl].
    apply foldl_proposeForProduct_grows. unfold proposeForProduct.
    apply orb_false_elim in Eraw as [Eraw _]. rewrite Eraw, Eid. exact Hin.
  - eapply IH. intros key Hin. apply Hsel. exact Hin.
Qed.

Lemma prepare_unresolved page s s1 products :
  prepare page s = (s1, Stopped (UnresolvedInPlan products)) ->
  exists product,
    In product (parsedData page) /\
    canResolveCategoryForProduct
      (buildCategoryIndexByParent (categories page))
      (selectedKeysOf
         (buildProposedCategoriesForProducts (parsedData page) (categories page))
         (categoryCreationChoices page))
      product = false.
Proof.
  unfold prepare.
  destruct (isDemoUser page); [intros [=]|].
  destruct (negb (truthy (userId page))); [intros [=]|].
  destruct (currentBusiness page) as [businessId|]; [|intros [=]].
  destruct (length (parsedData page) =? 0); [intros [=]|].
  destruct (length (List.filter _ (parsedData page)) =? 0); [intros [=]|].
  destruct (negb (confirmAnswer page)); [intros [=]|].
  cbv zeta.
  match goal with
  | |- (if 0 <? length ?l then _ else _) = _ -> _ =>
      destruct l as [|product unresolved] eqn:Eun
  end.
  - cbn [length Nat.ltb Nat.leb].
    match goal with
    | |- context [createCategories ?p ?b ?l ?c s] =>
        destruct (createCategories p b l c s) as [s2 [error|creation]]
    end; intros [=].
  - intros _. exists product.
    assert (Hin : In product (product :: unresolved)) by (left; reflexivity).
    rewrite <- Eun in Hin. apply filter_In in Hin as [Hin Hno].
    apply filter_In in Hin as [Hin _]. split; [exact Hin|].
    apply negb_true_iff. exact Hno.
Qed.

(** X21: when the operator has every proposed category created, which
    is what the choices default to, the plan check of [handleImport]
    lets every draft through, and the import does not end on a category
    that the plan leaves unresolved. *)
Theorem full_plan_passes_check (page : Page) (schedule : nat -> nat -> nat)
    (s : Remote) :
  (forall proposal,
     In proposal (buildProposedCategoriesForProducts (parsedData page)
                    (categories page)) ->
     categoryCreationChoices page !! pc_key proposal = Some true) ->
  Forall (fun product =>
            canResolveCategoryForProduct
              (buildCategoryIndexByParent (categories page))
              (selectedKeysOf
                 (buildProposedCategoriesForProducts (parsedData page)
                    (categories page))
                 (categoryCreationChoices page))
              product = true)
    (parsedData page) /\
  forall products,
    snd (handleImport page schedule s) <> UnresolvedInPlan products.
Proof.
  intros Hall.
  set (proposed := buildProposedCategoriesForProducts (parsedData page)
                     (categories page)) in *.
  set (index := buildCategoryIndexByParent (categories page)).
  set (selected := selectedKeysOf proposed (categoryCreationChoices page)).
  assert (Hres : Forall (fun product =>
                   canResolveCategoryForProduct index selected product = true)
                   (parsedData page)).
  { apply (proposed_products_resolve index selected _ []).
    intros key Hin. unfold selected, selectedKeysOf.
    apply elem_of_list_to_set, list_elem_of_fmap.
    assert (Hprop : exists proposal, In proposal proposed /\ pc_key proposal = key).
    { unfold proposed, buildProposedCategoriesForProducts.
      destruct (parsedData page) as [|product products] eqn:Ep;
        [apply elem_of_nil in Hin; contradiction|].
      fold index.
      destruct (foldl_proposeForProduct_keyed index (product :: products) [])
        as [_ Hk]; [split; constructor|].
      apply list_elem_of_fmap in Hin as (entry & -> & Hin).
      exists (snd entry). split.
      - apply list_elem_of_In. rewrite (sort_perm compareProposals).
        unfold map_values. apply list_elem_of_fmap. eauto.
      - rewrite Forall_forall in Hk. destruct (Hk _ Hin) as [Hkey _].
        congruence. }
    destruct Hprop as (proposal & Hin' & <-).
    exists proposal. split; [reflexivity|].
    apply list_elem_of_In, filter_In. split; [exact Hin'|].
    rewrite (Hall _ Hin'). reflexivity. }
  split; [exact Hres|].
  intros products. unfold handleImport.
  destruct (prepare page s) as [s1 [outcome|businessId ready lookup]] eqn:Hprep.
  - cbn [snd]. intros ->.
    destruct (prepare_unresolved _ _ _ _ Hprep) as (product & Hin & Hno).
    rewrite Forall_forall in Hres. apply list_elem_of_In in Hin.
    pose proof (Hres _ Hin) as Hyes. unfold index, selected, proposed in Hyes.
    congruence.
  - destruct (0 <? length (unresolvedAfterCreation ready)); [intros [=]|].
    destruct (writeProducts page businessId ready lookup schedule s1);
      intros [=].
Qed.

End Proposals.

Lemma full_plan_passes_check_witness :
  List.map pc_key
    (buildProposedCategoriesForProducts (H := asciiRuntime)
       (parsedData Samples.samplePage) (categories Samples.samplePage)) =
    [lit "hardware"; lit "hardware>handles"] /\
  forall products,
    snd (handleImport (H := asciiRuntime) Samples.samplePage Samples.inOrder
           Samples.emptyStore) <> UnresolvedInPlan products.
Proof.
  split; [vm_compute; reflexivity|].
  apply (full_plan_passes_check (H := asciiRuntime) Samples.samplePage
           Samples.inOrder Samples.emptyStore).
  intros proposal Hin. vm_compute in Hin.
  destruct Hin as [<- | [<- | []]]; vm_compute; reflexivity.
Defined.

End ResolverCases.

(** * Facts about the state of the page *)

Module PageFacts.
Import Categories CategoryPaths Grouper Resolver Detector Parser PageState.
Import TokenizerSpec TokenizerFacts GrouperFacts TokenizerCases DetectorFacts.
Open Scope nat_scope.

(** ** The re-detection pass *)

Section Redetection.
Context `{JSRuntime}.

Lemma redetectProduct_result existing product :
  let product' := fst (redetectProduct existing product) in
  productCode product' = productCode product /\
  name product' = name product /\
  match detectExistingProduct existing (productCode product) (name product) with
  | Some (found, type) =>
      existingProductId product' = read_id found /\
      existingMatchType product' = Some type
  | None => truthy (existingProductId product') = false
  end.
Proof.
  destruct (redetectProduct_cases existing product) as (Hc & Hn & _ & Hd).
  cbv zeta in *. split; [exact Hc|]. split; [exact Hn|].
  destruct (detectExistingProduct existing (productCode product) (name product))
    as [[found type]|]; [|apply Hd].
  destruct Hd as (Hid & Hty & _). split; assumption.
Qed.

Lemma redetectProduct_settled existing product :
  redetectProduct existing (fst (redetectProduct existing product)) =
  (fst (redetectProduct existing product), false).
Proof.
  destruct (redetectProduct_result existing product) as (Hc & Hn & Hd).
  cbv zeta in *.
  set (product' := fst (redetectProduct existing product)) in *.
  unfold redetectProduct. rewrite Hc, Hn.
  destruct (detectExistingProduct existing (productCode product) (name product))
    as [[found type]|].
  - destruct Hd as [-> ->]. rewrite !bool_decide_eq_true_2 by reflexivity.
    reflexivity.
  - rewrite Hd. reflexivity.
Qed.

Lemma enrich_settled categories existing product :
  truthy (existingProductId product) = false ->
  redetectProduct existing (enrich categories existing product) =
  (enrich categories existing product, false).
Proof.
  intros Hno. unfold enrich. cbv zeta.
  set (enriched := match resolveCategoryFromMaps _ _ _ _ with
                   | Some r => _
                   | None => product
                   end).
  assert (Hcode : productCode enriched = productCode product)
    by (unfold enriched; destruct (resolveCategoryFromMaps _ _ _ _);
        destruct product; reflexivity).
  assert (Hname : name enriched = name product)
    by (unfold enriched; destruct (resolveCategoryFromMaps _ _ _ _);
        destruct product; reflexivity).
  assert (Hid : existingProductId enriched = existingProductId product)
    by (unfold enriched; destruct (resolveCategoryFromMaps _ _ _ _);
        destruct product; reflexivity).
  destruct (detectExistingProduct existing (productCode enriched) (name enriched))
    as [[found type]|] eqn:Ed; unfold redetectProduct.
  - replace (productCode (with_action _ _)) with (productCode enriched)
      by (destruct enriched; reflexivity).
    replace (name (with_action _ _)) with (name enriched)
      by (destruct enriched; reflexivity).
    rewrite Ed. cbn [existingProductId existingMatchType with_action with_existing].
    rewrite !bool_decide_eq_true_2 by reflexivity. reflexivity.
  - replace (productCode (with_action _ _)) with (productCode enriched)
      by (destruct enriched; reflexivity).
    replace (name (with_action _ _)) with (name enriched)
      by (destruct enriched; reflexivity).
    rewrite Ed.
    replace (existingProductId (with_action create enriched))
      with (existingProductId product)
      by (rewrite <- Hid; destruct enriched; reflexivity).
    rewrite Hno. reflexivity.
Qed.

Lemma redetect_fixed existing products :
  Forall (fun product =>
            redetectProduct existing product = (product, false)) products ->
  redetect true existing products = products.
Proof.
  intros Hall. rewrite redetect_map.
  induction Hall as [|product products Hp _ IH]; [reflexivity|].
  cbn. rewrite Hp, IH. reflexivity.
Qed.

(** X22: the re-detection pass settles: run a second time against the
    same index it changes nothing; and the data [parseCSV] produces
    against an index is left unchanged by the pass against that
    index. *)
Theorem redetection_settles (existing : ExistingProducts)
    (prev : list ParsedProduct) (text : str) (categories : list Category) :
  redetect true existing (redetect true existing prev) =
    redetect true existing prev /\
  match parseCSV text categories existing with
  | Some parsed => redetect true existing parsed = parsed
  | None => True
  end.
Proof.
  split.
  - apply redetect_fixed. rewrite redetect_map. apply Forall_fmap.
    apply Forall_forall. intros product _. apply redetectProduct_settled.
  - unfold parseCSV. destruct (tokenize text) as [rows|]; [|exact I].
    apply redetect_fixed. apply Forall_fmap.
    eapply Forall_impl; [apply groupRows_based|].
    intros product (row & rest & _ & Hbase). cbn [compose].
    apply enrich_settled.
    replace (existingProductId product)
      with (existingProductId (with_variants [] product))
      by (destruct product; reflexivity).
    rewrite Hbase. reflexivity.
Qed.

(** ** Fresh drafts *)

Lemma enrich_action categories existing product :
  existingProductId product = None ->
  let enriched := enrich categories existing product in
  productCode enriched = productCode product /\
  name enriched = name product /\
  variants enriched = variants product /\
  match detectExistingProduct existing (productCode product) (name product) with
  | Some (found, type) =>
      action enriched = skip /\
      existingProductId enriched = read_id found /\
      existingProductName enriched = read_name found /\
      existingUpdatedAt enriched = read_updatedAt found /\
      existingMatchType enriched = Some type
  | None => action enriched = create /\ existingProductId enriched = None
  end.
Proof.
  intros Hno. unfold enrich. cbv zeta.
  set (enriched := match resolveCategoryFromMaps _ _ _ _ with
                   | Some r => _
                   | None => product
                   end).
  assert (Hid : existingProductId enriched = None)
    by (unfold enriched; destruct (resolveCategoryFromMaps _ _ _ _);
        destruct product; exact Hno).
  assert (Hv : variants enriched = variants product)
    by (unfold enriched; destruct (resolveCategoryFromMaps _ _ _ _);
        destruct product; reflexivity).
  assert (Hc : productCode enriched = productCode product)
    by (unfold enriched; destruct (resolveCategoryFromMaps _ _ _ _);
        destruct product; reflexivity).
  assert (Hn : name enriched = name product)
    by (unfold enriched; destruct (resolveCategoryFromMaps _ _ _ _);
        destruct product; reflexivity).
  rewrite Hc, Hn.
  destruct (detectExistingProduct existing (productCode product) (name product))
    as [[found type]|]; destruct enriched; cbn in *; subst;
    repeat split; reflexivity.
Qed.

Lemma totalVariants_sum (products : list ParsedProduct) :
  totalVariants products =
  sum_list (List.map (fun product => length (variants product)) products).
Proof.
  unfold totalVariants.
  assert (Hgen : forall base,
            foldl (fun sum product => sum + length (variants product)) base
              products =
            base + sum_list (List.map (fun product => length (variants product))
                               products)).
  { induction products as [|product products IH]; intros base; cbn; [lia|].
    rewrite IH. lia. }
  apply (Hgen 0).
Qed.

Lemma groupRows_variant_total (rows : list CSVRow) :
  sum_list (List.map (fun product => length (variants product))
              (groupRows rows)) = length rows.
Proof.
  destruct (groupRows_grouped rows) as (Hnd & Hkeys & Hall).
  rewrite <- (rowsOf_partition rows (List.map fst (foldl groupRow [] rows))).
  - unfold groupRows, map_values. rewrite !List.map_map. f_equal.
    apply List.map_ext_in. intros entry Hin.
    rewrite Forall_forall in Hall.
    destruct (Hall entry) as [_ ->]; [apply list_elem_of_In; exact Hin|].
    apply length_map.
  - exact Hnd.
  - intros c Hc. apply Hkeys. exact Hc.
Qed.

(** X23: what [parseCSV] hands to the page. No draft comes with action
    [update]: a draft is skipped exactly when the lookup in the index
    read something for its code or name, and then it carries the id,
    the name and the timestamp read from it, which are [undefined]
    where the lookup read an inherited property; it is to be created
    otherwise. The variants of all drafts together are as many as the
    rows of the file. *)
Theorem fresh_drafts_never_update (text : str) (categories : list Category)
    (existing : ExistingProducts) :
  match parseCSV text categories existing, tokenize text with
  | Some parsed, Some rows =>
      Forall (fun product =>
                action product <> update /\
                match detectExistingProduct existing (productCode product)
                        (name product) with
                | Some (found, type) =>
                    action product = skip /\
                    existingProductId product = read_id found /\
                    existingProductName product = read_name found /\
                    existingUpdatedAt product = read_updatedAt found /\
                    existingMatchType product = Some type
                | None =>
                    action product = create /\
                    existingProductId product = None
                end)
             parsed /\
      totalVariants parsed = length rows
  | None, None => True
  | _, _ => False
  end.
Proof.
  unfold parseCSV. destruct (tokenize text) as [rows|]; [|exact I].
  assert (Hall : Forall (fun product =>
                   let enriched := enrich categories existing product in
                   productCode enriched = productCode product /\
                   name enriched = name product /\
                   variants enriched = variants product /\
                   match detectExistingProduct existing (productCode product)
                           (name product) with
                   | Some (found, type) =>
                       action enriched = skip /\
                       existingProductId enriched = read_id found /\
                       existingProductName enriched = read_name found /\
                       existingUpdatedAt enriched = read_updatedAt found /\
                       existingMatchType enriched = Some type
                   | None =>
                       action enriched = create /\
                       existingProductId enriched = None
                   end)
                   (groupRows rows)).
  { eapply Forall_impl; [apply groupRows_based|].
    intros product (row & rest & _ & Hbase). apply enrich_action.
    replace (existingProductId product)
      with (existingProductId (with_variants [] product))
      by (destruct product; reflexivity).
    rewrite Hbase. reflexivity. }
  split.
  - apply Forall_fmap. eapply Forall_impl; [exact Hall|].
    intros product (Hc & Hn & _ & Hd). cbn [compose]. cbv zeta in *.
    rewrite Hc, Hn.
    destruct (detectExistingProduct existing (productCode product)
                (name product)) as [[found type]|].
    + destruct Hd as (Ha & Hrest). split; [congruence|].
      split; [exact Ha | exact Hrest].
    + destruct Hd as (Ha & Hid). split; [congruence|]. split; assumption.
  - rewrite totalVariants_sum, List.map_map.
    rewrite <- (groupRows_variant_total rows). f_equal.
    apply map_ext_Forall. eapply Forall_impl; [exact Hall|].
    intros product (_ & _ & Hv & _). cbn. rewrite Hv. reflexivity.
Qed.

(** ** Updates carry a reference *)

(** X24: where no draft's lookup reads an inherited property, so that
    whatever is detected for a draft carries a product id, neither the
    re-detection pass nor the bulk action on the duplicates makes a
    draft an [update] without a reference to a stored product: when
    every draft marked [update] names one before, so it is after. *)
Theorem updates_keep_reference (loaded : bool) (existing : ExistingProducts)
    (a : ImportAction) (prev : list ParsedProduct) :
  Forall (fun product =>
            match detectExistingProduct existing (productCode product)
                    (name product) with
            | Some (found, _) => read_id found <> None
            | None => True
            end) prev ->
  Forall (fun product => action product = update ->
                         existingProductId product <> None) prev ->
  Forall (fun product => action product = update ->
                         existingProductId product <> None)
    (redetect loaded existing prev) /\
  Forall (fun product => action product = update ->
                         existingProductId product <> None)
    (applyBulkActionToDuplicates a prev).
Proof.
  intros Hown Hall. split.
  - destruct loaded; [|exact Hall]. rewrite redetect_map. apply Forall_fmap.
    apply Forall_forall. intros product Hin. cbn [compose].
    rewrite Forall_forall in Hown, Hall.
    pose proof (Hown _ Hin) as Hread. pose proof (Hall _ Hin) as Hp.
    unfold redetectProduct.
    destruct (detectExistingProduct existing (productCode product)
                (name product)) as [[found type]|].
    + destruct (_ && _); [exact Hp|]. cbn [fst]. intros _.
      destruct product; exact Hread.
    + destruct (truthy (existingProductId product)); [|exact Hp].
      cbn [fst]. destruct product as [? ? ? ? ? ? ? ? ? ? ? ? ? act ? ? ? ?].
      destruct act; cbn; discriminate.
  - unfold applyBulkActionToDuplicates. apply Forall_fmap.
    eapply Forall_impl; [exact Hall|]. intros product Hp. cbn [compose].
    destruct (truthy (existingProductId product)) eqn:Et; [|exact Hp].
    intros _. destruct product as [? ? ? ? ? ? ? ? ? ? ? ? ? ? eid ? ? ?].
    cbn in *. destruct eid; [discriminate | discriminate Et].
Qed.

End Redetection.

Lemma updates_keep_reference_witness :
  Forall (fun product => action product = update ->
                         existingProductId product <> None)
    [Samples.pullHandleUpdate; Samples.pullHandle] /\
  Forall (fun product => action product = update ->
                         existingProductId product <> None)
    (redetect (H := asciiRuntime) true Samples.sampleExisting
       [Samples.pullHandleUpdate; Samples.pullHandle]) /\
  Forall (fun product => action product = update ->
                         existingProductId product <> None)
    (applyBulkActionToDuplicates update
       [Samples.pullHandleUpdate; Samples.pullHandle]).
Proof.
  assert (Hall : Forall (fun product => action product = update ->
                                        existingProductId product <> None)
                   [Samples.pullHandleUpdate; Samples.pullHandle]).
  { repeat constructor; intros; discriminate. }
  split; [exact Hall|].
  apply (updates_keep_reference (H := asciiRuntime) true
           Samples.sampleExisting update _); [|exact Hall].
  repeat constructor; vm_compute; discriminate.
Defined.

(** ** The figures of the summary *)

(** X25: the three figures of the summary add up: the drafts to
    create, to update and to skip are all the drafts, and those to
    create and to update are the drafts selected for import. *)
Theorem summary_counts_add_up (parsedData : list ParsedProduct) :
  createCount parsedData + updateCount parsedData + skipCount parsedData =
    length parsedData /\
  createCount parsedData + updateCount parsedData =
    length (selectedForImport parsedData).
Proof.
  unfold createCount, updateCount, skipCount, selectedForImport.
  induction parsedData as [|product parsedData [IH1 IH2]]; [split; reflexivity|].
  cbn [List.filter].
  destruct (action product) eqn:Ea; cbn [bool_decide negb];
    repeat (rewrite ?bool_decide_eq_true_2, ?bool_decide_eq_false_2
              by congruence; cbn [negb List.filter length]);
    cbn [List.filter length] in *;
    repeat (rewrite ?Ea, ?bool_decide_eq_true_2, ?bool_decide_eq_false_2
              by congruence; cbn [negb List.filter length]);
    split; lia.
Qed.

(** ** The choices of the category plan *)

Lemma nextChoices_lookup proposed prev key :
  nextChoices proposed prev !! key =
  if bool_decide (key ∈ List.map pc_key proposed)
  then Some (default true (prev !! key)) else None.
Proof.
  unfold nextChoices.
  assert (Hgen : forall (base : gmap (list N) bool),
            foldl (fun next proposal =>
                     <[pc_key proposal := default true (prev !! pc_key proposal)]>
                       next) base proposed !! key =
            if bool_decide (key ∈ List.map pc_key proposed)
            then Some (default true (prev !! key)) else base !! key).
  { induction proposed as [|proposal proposed IH]; intros base; [reflexivity|].
    cbn [foldl List.map]. rewrite IH.
    destruct (decide (key ∈ List.map pc_key proposed)) as [Hin|Hout].
    - rewrite !bool_decide_eq_true_2; [reflexivity | right; exact Hin | exact Hin].
    - rewrite (bool_decide_eq_false_2 _ Hout).
      destruct (decide (key = pc_key proposal)) as [->|Hne].
      + rewrite lookup_insert_eq. rewrite bool_decide_eq_true_2 by left.
        reflexivity.
      + rewrite lookup_insert_ne by congruence.
        rewrite bool_decide_eq_false_2; [reflexivity|].
        intros Hin. apply elem_of_cons in Hin as [Hk|Hin]; contradiction. }
  rewrite Hgen. destruct (bool_decide _); [reflexivity | apply lookup_empty].
Qed.

(** X26: the effect that keeps the choices of the category plan up to
    date gives every proposed category a choice, the earlier one where
    there was one and [true] otherwise, and drops the choices of keys
    that are no longer proposed; applied twice it changes nothing
    more. *)
Theorem choices_follow_proposals (proposed : list ProposedCategory)
    (prev : gmap (list N) bool) (key : str) :
  syncCategoryChoices proposed prev !! key =
    (if bool_decide (key ∈ List.map pc_key proposed)
     then Some (default true (prev !! key)) else None) /\
  syncCategoryChoices proposed (syncCategoryChoices proposed prev) =
    syncCategoryChoices proposed prev.
Proof.
  assert (Hsync : forall before,
            syncCategoryChoices proposed before = nextChoices proposed before).
  { intros before. unfold syncCategoryChoices. cbv zeta.
    destruct (_ && _) eqn:E; [|reflexivity].
    apply andb_prop in E as [Hsize Hall]. apply Nat.eqb_eq in Hsize.
    rewrite forallb_forall in Hall.
    assert (Hsub : before ⊆ nextChoices proposed before).
    { apply map_subseteq_spec. intros k v Hk.
      specialize (Hall (k, v)). cbn in Hall.
      eapply bool_decide_eq_true_1, Hall.
      apply list_elem_of_In, elem_of_map_to_list. exact Hk. }
    apply map_subseteq_size_eq; [exact Hsub | lia]. }
  split.
  - rewrite Hsync. apply nextChoices_lookup.
  - rewrite !Hsync. apply map_eq. intros k.
    rewrite !nextChoices_lookup.
    destruct (bool_decide (k ∈ List.map pc_key proposed)); reflexivity.
Qed.

(** ** The category pass *)

Section Recategorization.
Context `{JSRuntime}.

Lemma recategorizeProduct_result categories product :
  let product' := fst (recategorizeProduct categories product) in
  category product' = category product /\
  action product' = action product /\
  existingProductId product' = existingProductId product /\
  productCode product' = productCode product /\
  variants product' = variants product /\
  match resolveCategoryFromMaps (Some (category product))
          (buildCategoryMap categories) (buildCategorySlugMap categories)
          (buildCategoryNameMap categories) with
  | Some r =>
      categoryId product' = Some (rc_id r) /\
      categoryPathLabel product' = Some (rc_label r) /\
      categoryMatchType product' = Some (rc_matchType r)
  | None =>
      truthy (categoryId product') ||
      bool_decide (categoryPath product' <> None) ||
      truthy (categoryPathLabel product') ||
      bool_decide (categoryAncestors product' <> None) ||
      bool_decide (categoryMatchType product' <> None) = false
  end.
Proof.
  cbv zeta. unfold recategorizeProduct. cbv zeta.
  destruct (resolveCategoryFromMaps _ _ _ _) as [r|].
  - destruct (_ && _) eqn:E.
    + apply andb_prop in E as [E E3]. apply andb_prop in E as [E1 E2].
      apply bool_decide_eq_true in E1. apply bool_decide_eq_true in E2.
      apply bool_decide_eq_true in E3. cbn [fst]. auto 10.
    + cbn [fst]. destruct product; cbn. auto 10.
  - destruct (_ || _) eqn:E; cbn [fst].
    + destruct product; cbn. repeat split; reflexivity.
    + auto 10.
Qed.

Lemma recategorizeProduct_settled categories product :
  recategorizeProduct categories (fst (recategorizeProduct categories product)) =
  (fst (recategorizeProduct categories product), false).
Proof.
  destruct (recategorizeProduct_result categories product)
    as (Hc & _ & _ & _ & _ & Hd).
  cbv zeta in *.
  set (product' := fst (recategorizeProduct categories product)) in *.
  unfold recategorizeProduct. cbv zeta. rewrite Hc.
  destruct (resolveCategoryFromMaps _ _ _ _) as [r|].
  - destruct Hd as (-> & -> & ->). rewrite !bool_decide_eq_true_2 by reflexivity.
    reflexivity.
  - rewrite Hd. reflexivity.
Qed.

Lemma recategorizeProduct_unmutated categories product :
  snd (recategorizeProduct categories product) = false ->
  fst (recategorizeProduct categories product) = product.
Proof.
  unfold recategorizeProduct. cbv zeta.
  destruct (resolveCategoryFromMaps _ _ _ _) as [r|].
  - destruct (_ && _); [reflexivity | discriminate].
  - destruct (_ || _); [discriminate | reflexivity].
Qed.

Lemma recategorize_map categories prev :
  recategorize true categories prev =
  List.map (fun product => fst (recategorizeProduct categories product)) prev.
Proof.
  unfold recategorize. cbn [negb]. rewrite List.map_map.
  destruct (existsb snd (List.map (recategorizeProduct categories) prev)) eqn:E;
    [reflexivity|].
  induction prev as [|product prev IH]; [reflexivity|].
  cbn in E. apply orb_false_elim in E as [Hp Hprev]. cbn.
  rewrite (recategorizeProduct_unmutated _ _ Hp). f_equal. apply IH, Hprev.
Qed.

(** X27: the category pass changes of a draft nothing but its category
    fields, and it settles: a second run over the same categories
    changes nothing. After the pass a draft carries a category id
    exactly when its category text resolves, and then the id, the label
    and the kind of match of the resolution. *)
Theorem category_pass_settles (categories : list Category)
    (prev : list ParsedProduct) :
  recategorize true categories (recategorize true categories prev) =
    recategorize true categories prev /\
  Forall2 (fun product product' =>
             category product' = category product /\
             action product' = action product /\
             existingProductId product' = existingProductId product /\
             productCode product' = productCode product /\
             variants product' = variants product /\
             match resolveCategoryFromMaps (Some (category product))
                     (buildCategoryMap categories)
                     (buildCategorySlugMap categories)
                     (buildCategoryNameMap categories) with
             | Some r =>
                 categoryId product' = Some (rc_id r) /\
                 categoryPathLabel product' = Some (rc_label r) /\
                 categoryMatchType product' = Some (rc_matchType r)
             | None => truthy (categoryId product') = false
             end)
    prev (recategorize true categories prev).
Proof.
  rewrite !recategorize_map. split.
  - rewrite List.map_map. apply List.map_ext. intros product.
    rewrite recategorizeProduct_settled. reflexivity.
  - apply Forall2_fmap_r, Forall_Forall2_diag, Forall_forall.
    intros product _.
    destruct (recategorizeProduct_result categories product)
      as (H1 & H2 & H3 & H4 & H5 & H6). cbv zeta in *.
    repeat (split; [assumption|]).
    destruct (resolveCategoryFromMaps _ _ _ _); [exact H6|].
    apply orb_false_elim in H6 as [H6 _]. apply orb_false_elim in H6 as [H6 _].
    apply orb_false_elim in H6 as [H6 _]. apply orb_false_elim in H6 as [H6 _].
    exact H6.
Qed.

(** ** The index of the stored products *)

Lemma indexExistingProducts_snoc documents doc :
  indexExistingProducts (documents ++ [doc]) =
  indexDocument (indexExistingProducts documents) doc.
Proof. unfold indexExistingProducts. rewrite foldl_app. reflexivity. Qed.

Lemma index_no_proto documents :
  own (byCode (indexExistingProducts documents)) !! PROTO = None.
Proof.
  induction documents as [|last documents IH] using rev_ind;
    [apply lookup_empty|].
  rewrite indexExistingProducts_snoc. unfold indexDocument. cbv zeta.
  cbn [byCode].
  destruct (truthy (doc_productCode last)); [|exact IH].
  destruct (nonempty _); [|exact IH].
  unfold assign. destruct (str_eqb _ PROTO) eqn:E; cbn [own]; [exact IH|].
  apply str_eqb_false in E. rewrite lookup_insert_ne by exact E. exact IH.
Qed.

Lemma index_byCode documents key :
  (exists doc, In doc documents /\ OrchestratorSpec.codeKeyOf doc = Some key) ->
  exists meta doc,
    (if str_eqb key PROTO
     then prototype (byCode (indexExistingProducts documents)) = Some meta
     else own (byCode (indexExistingProducts documents)) !! key = Some meta) /\
    In doc documents /\ OrchestratorSpec.codeKeyOf doc = Some key /\
    meta_id meta = doc_id doc /\
    meta_productCode meta = doc_productCode doc.
Proof.
  induction documents as [|last documents IH] using rev_ind;
    [intros (doc & [] & _)|].
  intros (doc & Hin & Hkey). rewrite indexExistingProducts_snoc.
  unfold indexDocument at 1 2. cbv zeta. cbn [byCode].
  destruct (decide (OrchestratorSpec.codeKeyOf last = Some key)) as [Hlast|Hlast].
  - pose proof Hlast as Hlast'. unfold OrchestratorSpec.codeKeyOf in Hlast.
    destruct (truthy (doc_productCode last)); [|discriminate].
    cbv zeta in Hlast.
    destruct (nonempty (toLowerCase (trim (default [] (doc_productCode last)))));
      [|discriminate].
    injection Hlast as Hlast. rewrite Hlast.
    eexists _, last. split.
    { unfold assign. destruct (str_eqb key PROTO); cbn [own prototype];
        [reflexivity | apply lookup_insert_eq]. }
    split; [apply in_or_app; right; left; reflexivity|].
    split; [exact Hlast'|]. split; reflexivity.
  - destruct IH as (meta & doc' & Hget & Hin' & Hk' & Hid & Hcode).
    { exists doc. split; [|exact Hkey].
      apply in_app_or in Hin as [Hin|[->|[]]]; [exact Hin | contradiction]. }
    exists meta, doc'.
    split; [|split; [apply in_or_app; left; exact Hin' | auto]].
    unfold OrchestratorSpec.codeKeyOf in Hlast.
    destruct (truthy (doc_productCode last)); [|exact Hget].
    cbv zeta in Hlast.
    destruct (nonempty (toLowerCase (trim (default [] (doc_productCode last)))));
      [|exact Hget].
    assert (Hne : toLowerCase (trim (default [] (doc_productCode last))) <> key)
      by congruence.
    unfold assign.
    destruct (str_eqb key PROTO) eqn:Ek;
      destruct (str_eqb (toLowerCase (trim (default [] (doc_productCode last))))
                  PROTO) eqn:Ea; cbn [own prototype].
    + apply str_eqb_true in Ek, Ea. congruence.
    + exact Hget.
    + exact Hget.
    + rewrite lookup_insert_ne by exact Hne. exact Hget.
Qed.

(** X28: a draft whose product code is, up to case and surrounding
    white space, the code of a listed product document is detected as a
    duplicate by code, of a listed document with that code. *)
Theorem stored_code_is_detected (documents : list ProductDocument)
    (doc : ProductDocument) (code draftCode draftName : str) :
  In doc documents ->
  doc_productCode doc = Some code ->
  normalizeKey (Some draftCode) = normalizeKey (Some code) ->
  normalizeKey (Some code) <> [] ->
  exists meta found,
    detectExistingProduct (indexExistingProducts documents) draftCode draftName =
      Some (RMeta meta, match_code) /\
    In found documents /\
    meta_id meta = doc_id found /\
    normalizeKey (doc_productCode found) = normalizeKey (Some code).
Proof.
  intros Hin Hcode Hsame Hkey.
  assert (Hnorm : forall value key,
            OrchestratorSpec.codeKeyOf value = Some key ->
            normalizeKey (doc_productCode value) = key).
  { intros value key. unfold OrchestratorSpec.codeKeyOf, normalizeKey.
    destruct (truthy (doc_productCode value)); [|discriminate]. cbv zeta.
    destruct (nonempty _); [|discriminate]. intros [= <-]. reflexivity. }
  assert (Hdoc : OrchestratorSpec.codeKeyOf doc = Some (normalizeKey (Some code))).
  { pose proof Hkey as Hkey'. unfold normalizeKey in Hkey'.
    unfold OrchestratorSpec.codeKeyOf, normalizeKey. rewrite Hcode.
    destruct (truthy (Some code)) eqn:Et; [|congruence]. cbv zeta.
    cbn [default] in *. unfold id in *.
    destruct (toLowerCase (trim code)) eqn:El; [congruence | reflexivity]. }
  destruct (index_byCode documents (normalizeKey (Some code)))
    as (meta & found & Hget & Hfound & Hk & Hid & _); [eauto|].
  exists meta, found. split; [|split; [exact Hfound | split; [exact Hid|]]].
  - unfold detectExistingProduct. cbv zeta. rewrite Hsame.
    replace (nonempty (normalizeKey (Some code))) with true
      by (destruct (normalizeKey (Some code)); [congruence | reflexivity]).
    assert (Hread : read (byCode (indexExistingProducts documents))
                      (normalizeKey (Some code)) = RMeta meta).
    { unfold read. destruct (str_eqb (normalizeKey (Some code)) PROTO) eqn:Ep.
      - apply str_eqb_true in Ep. rewrite Ep, index_no_proto, Hget.
        reflexivity.
      - rewrite Hget. reflexivity. }
    rewrite Hread. reflexivity.
  - apply Hnorm. exact Hk.
Qed.

End Recategorization.

Lemma stored_code_is_detected_witness :
  exists meta,
    detectExistingProduct (H := asciiRuntime)
      (indexExistingProducts (H := asciiRuntime) Samples.storedDocuments)
      (lit "s-106") (lit "Handle") = Some (RMeta meta, match_code) /\
    meta_id meta = lit "p1".
Proof.
  destruct (stored_code_is_detected (H := asciiRuntime) Samples.storedDocuments
              (nth 0 Samples.storedDocuments
                 (mkProductDocument [] [] None None))
              (lit " S-106 ") (lit "s-106") (lit "Handle"))
    as (meta & found & Hdet & _ & _ & _).
  - left. reflexivity.
  - reflexivity.
  - vm_compute. reflexivity.
  - vm_compute. discriminate.
  - exists meta. split; [exact Hdet|].
    assert (Hcomp : exists meta',
              detectExistingProduct (H := asciiRuntime)
                (indexExistingProducts (H := asciiRuntime)
                   Samples.storedDocuments)
                (lit "s-106") (lit "Handle") = Some (RMeta meta', match_code) /\
              meta_id meta' = lit "p1").
    { eexists. split; vm_compute; reflexivity. }
    destruct Hcomp as (meta' & Hdet' & Hid). congruence.
Defined.

End PageFacts.

(** * The tree of the category options *)

Module CategoryTrees.
Import Categories CategoryPaths Grouper Resolver CategoryTree.
Import CategorySpec TreeSpec.
Import GrouperFacts CategoryFacts CategoryChains ResolverCases.
Open Scope nat_scope.

(** ** The map of the nodes *)

Lemma map_get_In {V} id (v : V) (m : list (str * V)) :
  map_get id m = Some v -> In (id, v) m.
Proof.
  induction m as [|[k w] m IH]; cbn; [discriminate|].
  destruct (str_eqb k id) eqn:E.
  - apply str_eqb_true in E. intros [= ->]. left. congruence.
  - intros Hget. right. apply IH, Hget.
Qed.

Lemma In_map_get {V} id (v : V) (m : list (str * V)) :
  NoDup (List.map fst m) -> In (id, v) m -> map_get id m = Some v.
Proof.
  induction m as [|[k w] m IH]; cbn; [intros _ []|].
  intros Hnd [Heq|Hin].
  - injection Heq as -> ->. rewrite (proj2 (str_eqb_true id id) eq_refl).
    reflexivity.
  - apply NoDup_cons in Hnd as [Hk Hnd].
    destruct (str_eqb k id) eqn:E; [|apply IH; assumption].
    apply str_eqb_true in E. subst k. contradiction Hk.
    apply list_elem_of_In. apply (in_map fst) in Hin. exact Hin.
Qed.

Lemma map_has_get {V} id (m : list (str * V)) :
  map_has id m = true <-> exists v, map_get id m = Some v.
Proof.
  induction m as [|[k w] m IH]; cbn.
  - split; [discriminate | intros [v [=]]].
  - destruct (str_eqb k id); cbn; [split; eauto | exact IH].
Qed.

Lemma map_get_modify {V} id key (v : V) (m : list (str * V)) :
  map_get id (map_modify key (fun _ => v) m) =
    if str_eqb key id
    then (if map_has key m then Some v else None)
    else map_get id m.
Proof.
  induction m as [|[k w] m IH]; cbn; [destruct (str_eqb key id); reflexivity|].
  destruct (str_eqb k key) eqn:Ek; cbn.
  - apply str_eqb_true in Ek. subst k. destruct (str_eqb key id); reflexivity.
  - rewrite IH. destruct (str_eqb key id) eqn:Ei; [|reflexivity].
    apply str_eqb_true in Ei. subst id. rewrite Ek. reflexivity.
Qed.

Lemma map_get_app {V} id (m m' : list (str * V)) :
  map_get id (m ++ m') =
    match map_get id m with Some v => Some v | None => map_get id m' end.
Proof.
  induction m as [|[k w] m IH]; cbn; [reflexivity|].
  destruct (str_eqb k id); [reflexivity | exact IH].
Qed.

Lemma setNode_get nodes category id :
  map_get id (setNode nodes category) =
    if str_eqb (cat_id category) id then Some category else map_get id nodes.
Proof.
  unfold setNode. destruct (map_has (cat_id category) nodes) eqn:Eh.
  - rewrite map_get_modify, Eh. reflexivity.
  - rewrite map_get_app. cbn.
    destruct (str_eqb (cat_id category) id) eqn:E.
    + apply str_eqb_true in E. subst id.
      destruct (map_get (cat_id category) nodes) eqn:Eg; [|reflexivity].
      assert (Hh : map_has (cat_id category) nodes = true)
        by (apply map_has_get; eauto).
      congruence.
    + destruct (map_get id nodes); reflexivity.
Qed.

Lemma map_modify_stored key category (nodes : list (str * Category)) :
  key = cat_id category ->
  Forall (fun entry => fst entry = cat_id (snd entry)) nodes ->
  Forall (fun entry => fst entry = cat_id (snd entry))
    (map_modify key (fun _ => category) nodes).
Proof.
  intros Hkey. induction 1 as [|[k w] nodes Hk Hall IH]; cbn; [constructor|].
  destruct (str_eqb k key) eqn:E.
  - apply str_eqb_true in E. constructor; [cbn; congruence | exact Hall].
  - constructor; [exact Hk | exact IH].
Qed.

Lemma setNode_stored nodes category :
  stored nodes -> stored (setNode nodes category).
Proof.
  intros [Hnd Hall]. unfold setNode.
  destruct (map_has (cat_id category) nodes) eqn:Eh; split.
  - rewrite map_modify_keys. exact Hnd.
  - apply map_modify_stored; [reflexivity | exact Hall].
  - rewrite List.map_app. apply NoDup_app. split; [exact Hnd|]. split.
    + intros key Hin Hnew. cbn in Hnew. apply list_elem_of_singleton in Hnew.
      subst key. apply list_elem_of_In, map_has_In in Hin. congruence.
    + cbn. apply NoDup_singleton.
  - apply Forall_app. split; [exact Hall|]. constructor; [reflexivity|constructor].
Qed.

Lemma treeNodes_stored categories : stored (treeNodes categories).
Proof.
  unfold treeNodes.
  assert (Hgen : forall nodes, stored nodes ->
                   stored (foldl setNode nodes categories)).
  { induction categories as [|category categories IH]; intros nodes Hst; cbn;
      [exact Hst|]. apply IH, setNode_stored, Hst. }
  apply Hgen. split; constructor.
Qed.

Lemma treeNodes_get categories id :
  map_get id (treeNodes categories) = buildCategoryMap categories !! id.
Proof.
  unfold treeNodes, buildCategoryMap.
  assert (Hgen : forall nodes (m : gmap (list N) Category),
            map_get id nodes = m !! id ->
            map_get id (foldl setNode nodes categories) =
              foldl (fun m category => <[cat_id category := category]> m) m
                categories !! id).
  { induction categories as [|category categories IH]; intros nodes m Hm; cbn;
      [exact Hm|].
    apply IH. rewrite setNode_get.
    destruct (str_eqb (cat_id category) id) eqn:E.
    - apply str_eqb_true in E. subst id. rewrite lookup_insert_eq. reflexivity.
    - apply str_eqb_false in E. rewrite lookup_insert_ne by exact E. exact Hm. }
  apply Hgen. reflexivity.
Qed.

Lemma stored_value nodes node :
  stored nodes -> In node (map_values nodes) ->
  map_get (cat_id node) nodes = Some node.
Proof.
  intros [Hnd Hall] Hin. unfold map_values in Hin.
  apply in_map_iff in Hin as ([k v] & <- & Hin). cbn.
  rewrite Forall_forall in Hall. apply list_elem_of_In in Hin.
  pose proof (Hall _ Hin) as Hk. cbn in Hk. subst k.
  apply In_map_get; [exact Hnd | apply list_elem_of_In, Hin].
Qed.

Lemma stored_ids nodes :
  stored nodes -> List.map cat_id (map_values nodes) = List.map fst nodes.
Proof.
  intros [_ Hall]. unfold map_values. rewrite List.map_map.
  apply map_ext_Forall. eapply Forall_impl; [exact Hall|].
  intros entry Hk. cbn. congruence.
Qed.

Lemma filter_ids_NoDup {A B} (f : A -> B) (p : A -> bool) (l : list A) :
  NoDup (List.map f l) -> NoDup (List.map f (List.filter p l)).
Proof.
  induction l as [|x l IH]; cbn; [intros _; constructor|].
  intros Hnd. apply NoDup_cons in Hnd as [Hx Hnd].
  destruct (p x); [|apply IH, Hnd]. cbn. apply NoDup_cons.
  split; [|apply IH, Hnd].
  intros Hin. apply Hx. apply list_elem_of_In in Hin. apply list_elem_of_In.
  apply in_map_iff in Hin as (y & Hy & Hin). apply filter_In in Hin as [Hin _].
  rewrite <- Hy. apply in_map, Hin.
Qed.

(** ** Rooted nodes *)

Lemma rooted_functional nodes id depth :
  rooted nodes id depth -> forall depth', rooted nodes id depth' -> depth = depth'.
Proof.
  induction 1 as [id node Hget Hroot|id node parentId depth Hget Hpar Hp Hr IH];
    intros depth' Hr'; inversion Hr'; subst; try congruence.
  f_equal. apply IH. congruence.
Qed.

Lemma rooted_chain nodes id depth :
  rooted nodes id depth ->
  exists ids,
    length ids = S depth /\ NoDup ids /\
    (forall x, In x ids -> In x (List.map fst nodes)) /\
    (forall x, In x ids -> exists m, m <= depth /\ rooted nodes x m).
Proof.
  induction 1 as [id node Hget Hroot|id node parentId depth Hget Hpar Hp Hr IH].
  - exists [id]. split; [reflexivity|]. split; [apply NoDup_singleton|]. split.
    + intros x [<-|[]]. apply map_get_In in Hget. apply (in_map fst) in Hget.
      exact Hget.
    + intros x [<-|[]]. exists 0. split; [lia|]. eapply rooted_root; eassumption.
  - destruct IH as (ids & Hlen & Hnd & Hkeys & Hdepths).
    assert (Hid : rooted nodes id (S depth))
      by (eapply rooted_child; eassumption).
    exists (id :: ids). split; [cbn; lia|]. split; [|split].
    + apply NoDup_cons. split; [|exact Hnd].
      intros Hin. apply list_elem_of_In in Hin.
      destruct (Hdepths _ Hin) as (m & Hm & Hrm).
      pose proof (rooted_functional _ _ _ Hid _ Hrm). lia.
    + intros x [<-|Hin]; [|apply Hkeys, Hin].
      apply map_get_In in Hget. apply (in_map fst) in Hget. exact Hget.
    + intros x [<-|Hin]; [exists (S depth); split; [lia | exact Hid]|].
      destruct (Hdepths _ Hin) as (m & Hm & Hrm). exists m. split; [lia|exact Hrm].
Qed.

Lemma rooted_bound nodes id depth :
  rooted nodes id depth -> depth < length nodes.
Proof.
  intros Hr. destruct (rooted_chain _ _ _ Hr) as (ids & Hlen & Hnd & Hkeys & _).
  assert (Hle : length ids <= length (List.map fst nodes)).
  { apply NoDup_incl_length; [apply NoDup_ListNoDup, Hnd | exact Hkeys]. }
  rewrite length_map in Hle. lia.
Qed.

Lemma descends_depth nodes top id :
  descends nodes top id ->
  forall k m, rooted nodes top k -> rooted nodes id m -> k <= m.
Proof.
  induction 1 as [|id node parentId Hget Hpar Hp Hd IH]; intros k m Hk Hm.
  - rewrite (rooted_functional _ _ _ Hk _ Hm). lia.
  - inversion Hm; subst; [congruence|].
    assert (parentId0 = parentId) by congruence. subst parentId0.
    specialize (IH _ _ Hk H2). lia.
Qed.

Lemma descends_same_depth nodes t1 id :
  descends nodes t1 id ->
  forall t2 k, descends nodes t2 id -> rooted nodes t1 k -> rooted nodes t2 k ->
  t1 = t2.
Proof.
  induction 1 as [|id node parentId Hget Hpar Hp Hd IH]; intros t2 k Hd2 H1 H2.
  - destruct Hd2 as [|id node parentId Hget Hpar Hp Hd2]; [reflexivity|].
    inversion H1; subst; [congruence|].
    assert (parentId0 = parentId) by congruence. subst parentId0.
    pose proof (descends_depth _ _ _ Hd2 _ _ H2 H4). lia.
  - inversion Hd2; subst.
    + inversion H2; subst; [congruence|].
      assert (parentId0 = parentId) by congruence. subst parentId0.
      pose proof (descends_depth _ _ _ Hd _ _ H1 H4). lia.
    + assert (parentId0 = parentId) by congruence. subst parentId0.
      eapply IH; eassumption.
Qed.

Lemma descends_extend nodes top child node id :
  map_get child nodes = Some node -> hasListedParent nodes node = true ->
  cat_parentId node = Some top ->
  descends nodes child id -> descends nodes top id.
Proof.
  intros Hget Hpar Hp. induction 1 as [|id node' parentId Hget' Hpar' Hp' Hd IH].
  - eapply descends_child; [eassumption..|apply descends_self].
  - eapply descends_child; eassumption.
Qed.

Lemma descends_split nodes top id :
  descends nodes top id ->
  id = top \/
  exists child node,
    map_get child nodes = Some node /\ hasListedParent nodes node = true /\
    cat_parentId node = Some top /\ descends nodes child id.
Proof.
  induction 1 as [|id node parentId Hget Hpar Hp Hd IH]; [left; reflexivity|].
  right. destruct IH as [->|(child & node' & Hget' & Hpar' & Hp' & Hd')].
  - exists id, node. repeat split; try assumption. apply descends_self.
  - exists child, node'. repeat split; try assumption.
    eapply descends_child; eassumption.
Qed.

Lemma descends_rooted nodes top id :
  descends nodes top id -> forall k, rooted nodes top k ->
  exists m, rooted nodes id m.
Proof.
  induction 1 as [|id node parentId Hget Hpar Hp Hd IH]; intros k Hk; [eauto|].
  destruct (IH _ Hk) as (m & Hm). exists (S m). eapply rooted_child; eassumption.
Qed.

Lemma rooted_descends nodes id depth :
  rooted nodes id depth ->
  exists root node,
    map_get root nodes = Some node /\ hasListedParent nodes node = false /\
    descends nodes root id.
Proof.
  induction 1 as [id node Hget Hroot|id node parentId depth Hget Hpar Hp Hr IH].
  - exists id, node. repeat split; try assumption. apply descends_self.
  - destruct IH as (root & rnode & Hg & Hroot & Hd).
    exists root, rnode. repeat split; try assumption.
    eapply descends_child; eassumption.
Qed.

(** ** The traversal *)

Section Traversal.
Context `{JSRuntime}.

Lemma childrenOf_In nodes id child :
  stored nodes -> In child (childrenOf nodes id) ->
  map_get (cat_id child) nodes = Some child /\
  hasListedParent nodes child = true /\ cat_parentId child = Some id.
Proof.
  intros Hst Hin. unfold childrenOf in Hin.
  apply filter_In in Hin as [Hin Hc]. apply andb_true_iff in Hc as [Hpar Hp].
  split; [apply stored_value; assumption|]. split; [exact Hpar|].
  apply str_eqb_true in Hp. unfold hasListedParent in Hpar.
  destruct (cat_parentId child); [cbn in Hp; congruence | discriminate].
Qed.

Lemma In_childrenOf nodes id child :
  map_get (cat_id child) nodes = Some child ->
  hasListedParent nodes child = true -> cat_parentId child = Some id ->
  In child (childrenOf nodes id).
Proof.
  intros Hget Hpar Hp. unfold childrenOf. apply filter_In. split.
  - apply map_get_In in Hget. apply (in_map snd) in Hget. exact Hget.
  - rewrite Hpar, Hp. cbn. apply str_eqb_true. reflexivity.
Qed.

Lemma stored_get_id nodes id node :
  stored nodes -> map_get id nodes = Some node -> cat_id node = id.
Proof.
  intros [_ Hall] Hget. apply map_get_In in Hget.
  rewrite Forall_forall in Hall. apply list_elem_of_In in Hget.
  symmetry. exact (Hall _ Hget).
Qed.

(** The options pushed for a level of nodes that are rooted at one
    depth. *)
Lemma level_spec nodes fuel depth (level : list Category) :
  NoDup (List.map cat_id level) ->
  Forall (fun node => rooted nodes (cat_id node) depth) level ->
  Forall (fun node =>
            exists options,
              traverseNode fuel nodes depth node = Some options /\
              subtree_ok nodes (cat_id node) options) level ->
  exists options,
    forEachNode (traverseNode fuel nodes depth) level = Some options /\
    NoDup (List.map opt_id options) /\
    Forall (fun item =>
              (exists node,
                 map_get (opt_id item) nodes = Some node /\
                 opt_label item =
                   optionLabel (opt_depth item) (cat_name node)) /\
              rooted nodes (opt_id item) (opt_depth item) /\
              exists top, In top level /\
                          descends nodes (cat_id top) (opt_id item))
      options /\
    (forall top id, In top level -> descends nodes (cat_id top) id ->
                    In id (List.map opt_id options)).
Proof.
  induction level as [|node level IH]; intros Hnd Hdepth Hall.
  { exists []. cbn. split; [reflexivity|]. split; [constructor|].
    split; [constructor|]. intros top id []. }
  cbn in Hnd. apply NoDup_cons in Hnd as [Hnode Hnd].
  apply Forall_cons in Hdepth as [Hroot Hdepth].
  apply Forall_cons in Hall as [(here & Hhere & Hnd1 & Hall1 & Hcov1) Hall].
  destruct (IH Hnd Hdepth Hall) as (after & Hafter & Hnd2 & Hall2 & Hcov2).
  exists (here ++ after). cbn. rewrite Hhere, Hafter.
  split; [reflexivity|]. split; [|split].
  - rewrite List.map_app. apply NoDup_app. split; [exact Hnd1|].
    split; [|exact Hnd2].
    intros id Hin1 Hin2. apply list_elem_of_In in Hin1, Hin2.
    apply in_map_iff in Hin1 as (o1 & Hid1 & Hin1).
    apply in_map_iff in Hin2 as (o2 & Hid2 & Hin2).
    rewrite Forall_forall in Hall1, Hall2.
    apply list_elem_of_In in Hin1, Hin2.
    destruct (Hall1 _ Hin1) as (_ & _ & Hd1).
    destruct (Hall2 _ Hin2) as (_ & _ & top & Htop & Hd2).
    rewrite Hid1 in Hd1. rewrite Hid2 in Hd2.
    rewrite Forall_forall in Hdepth.
    pose proof (Hdepth _ (proj2 (list_elem_of_In _ _) Htop)) as Hrtop.
    pose proof (descends_same_depth _ _ _ Hd1 _ _ Hd2 Hroot Hrtop) as Heq.
    apply Hnode. rewrite Heq. apply list_elem_of_In, in_map, Htop.
  - apply Forall_app. split.
    + eapply Forall_impl; [exact Hall1|]. intros item (Hl & Hr & Hd).
      split; [exact Hl|]. split; [exact Hr|]. exists node. split; [left; reflexivity|exact Hd].
    + eapply Forall_impl; [exact Hall2|].
      intros item (Hl & Hr & top & Htop & Hd).
      split; [exact Hl|]. split; [exact Hr|]. exists top. split; [right; exact Htop|exact Hd].
  - intros top id [<-|Htop] Hd; rewrite List.map_app; apply in_or_app.
    + left. apply Hcov1, Hd.
    + right. eapply Hcov2; eassumption.
Qed.

Lemma sort_In {A} (compare : A -> A -> Z) (l : list A) x :
  In x (sort compare l) <-> In x l.
Proof.
  rewrite <- !list_elem_of_In. rewrite (sort_perm compare l). reflexivity.
Qed.

Lemma traverseNode_spec nodes :
  stored nodes ->
  forall fuel depth node,
    map_get (cat_id node) nodes = Some node ->
    rooted nodes (cat_id node) depth ->
    length nodes <= depth + fuel ->
    exists options,
      traverseNode fuel nodes depth node = Some options /\
      subtree_ok nodes (cat_id node) options.
Proof.
  intros Hst. induction fuel as [|fuel IH]; intros depth node Hget Hroot Hfuel.
  { apply rooted_bound in Hroot. lia. }
  cbn [traverseNode].
  set (children := sort compareNodes (childrenOf nodes (cat_id node))).
  assert (Hchild : forall child, In child children ->
            map_get (cat_id child) nodes = Some child /\
            hasListedParent nodes child = true /\
            cat_parentId child = Some (cat_id node)).
  { intros child Hin. apply sort_In in Hin. apply childrenOf_In; assumption. }
  assert (Hrooted : forall child, In child children ->
            rooted nodes (cat_id child) (S depth)).
  { intros child Hin. destruct (Hchild _ Hin) as (Hg & Hpar & Hp).
    eapply rooted_child; eassumption. }
  destruct (level_spec nodes fuel (S depth) children)
    as (below & Hbelow & Hnd & Hall & Hcov).
  { unfold children. rewrite (sort_perm compareNodes).
    unfold childrenOf. apply filter_ids_NoDup.
    rewrite stored_ids by exact Hst. apply Hst. }
  { apply Forall_forall. intros child Hin. apply Hrooted, list_elem_of_In, Hin. }
  { apply Forall_forall. intros child Hin. apply list_elem_of_In in Hin.
    apply IH; [apply Hchild, Hin | apply Hrooted, Hin | lia]. }
  rewrite Hbelow. eexists. split; [reflexivity|].
  rewrite Forall_forall in Hall.
  split; [|split].
  - cbn. apply NoDup_cons. split; [|exact Hnd].
    intros Hin. apply list_elem_of_In, in_map_iff in Hin as (o & Hid & Hin).
    apply list_elem_of_In in Hin.
    destruct (Hall _ Hin) as (_ & Hr & top & Htop & Hd).
    pose proof (descends_depth _ _ _ Hd _ _ (Hrooted _ Htop) Hr) as Hle.
    rewrite Hid in Hr. pose proof (rooted_functional _ _ _ Hroot _ Hr). lia.
  - constructor.
    + cbn. split; [eauto|]. split; [exact Hroot | apply descends_self].
    + apply Forall_forall. intros item Hin.
      destruct (Hall _ Hin) as (Hl & Hr & top & Htop & Hd).
      split; [exact Hl|]. split; [exact Hr|].
      destruct (Hchild _ Htop) as (Hg & Hpar & Hp).
      eapply descends_extend; eassumption.
  - intros id Hd. cbn.
    destruct (descends_split _ _ _ Hd)
      as [->|(child & cnode & Hg & Hpar & Hp & Hd')]; [left; reflexivity|].
    right. pose proof (stored_get_id _ _ _ Hst Hg) as Hid. subst child.
    apply (Hcov cnode); [|exact Hd'].
    apply sort_In. apply In_childrenOf; assumption.
Qed.

(** [buildCategoryOptions] returns, and what it returns. *)
Lemma buildCategoryOptions_rooted (categories : list Category) :
  exists options,
    buildCategoryOptions categories = Some options /\
    NoDup (List.map opt_id options) /\
    Forall (fun item =>
              (exists node,
                 map_get (opt_id item) (treeNodes categories) = Some node /\
                 opt_label item = optionLabel (opt_depth item) (cat_name node)) /\
              rooted (treeNodes categories) (opt_id item) (opt_depth item))
      options /\
    (forall id depth,
       rooted (treeNodes categories) id depth ->
       exists item, In item options /\ opt_id item = id).
Proof.
  unfold buildCategoryOptions. cbv zeta.
  set (nodes := treeNodes categories).
  pose proof (treeNodes_stored categories) as Hst. fold nodes in Hst.
  set (roots := sort compareNodes (rootsOf nodes)).
  assert (Hroot : forall root, In root roots ->
            map_get (cat_id root) nodes = Some root /\
            hasListedParent nodes root = false).
  { intros root Hin. apply sort_In in Hin. unfold rootsOf in Hin.
    apply filter_In in Hin as [Hin Hno]. apply negb_true_iff in Hno.
    split; [apply stored_value; assumption | exact Hno]. }
  assert (Hrooted : forall root, In root roots -> rooted nodes (cat_id root) 0).
  { intros root Hin. destruct (Hroot _ Hin). eapply rooted_root; eassumption. }
  destruct (level_spec nodes (length nodes) 0 roots)
    as (options & Hrun & Hnd & Hall & Hcov).
  { unfold roots. rewrite (sort_perm compareNodes).
    unfold rootsOf. apply filter_ids_NoDup.
    rewrite stored_ids by exact Hst. apply Hst. }
  { apply Forall_forall. intros root Hin. apply Hrooted, list_elem_of_In, Hin. }
  { apply Forall_forall. intros root Hin. apply list_elem_of_In in Hin.
    apply traverseNode_spec;
      [exact Hst | apply Hroot, Hin | apply Hrooted, Hin | lia]. }
  exists options. split; [exact Hrun|]. split; [exact Hnd|]. split.
  - eapply Forall_impl; [exact Hall|]. intros item (Hl & Hr & _).
    split; assumption.
  - intros id depth Hr.
    destruct (rooted_descends _ _ _ Hr) as (root & rnode & Hg & Hno & Hd).
    pose proof (stored_get_id _ _ _ Hst Hg) as Hid. subst root.
    assert (Hin : In rnode roots).
    { apply sort_In. unfold rootsOf. apply filter_In. split.
      - apply map_get_In in Hg. apply (in_map snd) in Hg. exact Hg.
      - rewrite Hno. reflexivity. }
    pose proof (Hcov _ _ Hin Hd) as Hopt.
    apply in_map_iff in Hopt as (item & Hoid & Hopt). eauto.
Qed.

(** X29: [buildCategoryOptions] returns. It offers every category at
    most once; an option carries the name of the category that
    [buildCategoryMap] holds under its id, behind one [>] for every
    level of depth; and a category is offered at a depth exactly when
    that many steps from parent to listed parent lead to a category
    that has none: what sits on a cycle of parents is offered
    nowhere. *)
Theorem options_list_rooted_categories (categories : list Category) :
  exists options,
    buildCategoryOptions categories = Some options /\
    NoDup (List.map opt_id options) /\
    Forall (fun item =>
              exists category,
                buildCategoryMap categories !! opt_id item = Some category /\
                opt_label item =
                  optionLabel (opt_depth item) (cat_name category))
      options /\
    forall id depth,
      (exists item,
         In item options /\ opt_id item = id /\ opt_depth item = depth) <->
      rooted (treeNodes categories) id depth.
Proof.
  destruct (buildCategoryOptions_rooted categories)
    as (options & Hrun & Hnd & Hall & Hcov).
  exists options. split; [exact Hrun|]. split; [exact Hnd|].
  rewrite Forall_forall in Hall. split.
  - apply Forall_forall. intros item Hin.
    destruct (Hall _ Hin) as ((node & Hget & Hlabel) & _).
    exists node. split; [|exact Hlabel].
    rewrite treeNodes_get in Hget. exact Hget.
  - intros id depth. split.
    + intros (item & Hin & <- & <-). apply list_elem_of_In in Hin.
      apply (Hall _ Hin).
    + intros Hr. destruct (Hcov _ _ Hr) as (item & Hin & Hid).
      exists item. split; [exact Hin|]. split; [exact Hid|].
      apply list_elem_of_In in Hin. destruct (Hall _ Hin) as (_ & Hr').
      rewrite Hid in Hr'. exact (rooted_functional _ _ _ Hr' _ Hr).
Qed.

(** The walk of [getCategoryAncestry] from a rooted category goes up to
    its root. *)
Lemma rooted_linked categories id depth :
  rooted (treeNodes categories) id depth -> id <> [] ->
  forall visited : gset (list N),
    (forall x m, x ∈ visited -> rooted (treeNodes categories) x m -> depth < m) ->
    exists chain,
      linked (buildCategoryMap categories) visited (Some id) chain /\
      length chain = S depth /\
      forall i step, chain !! i = Some step ->
                     rooted (treeNodes categories) (fst step) (depth - i).
Proof.
  induction 1 as [id node Hget Hroot|id node parentId depth Hget Hpar Hp Hr IH];
    intros Hid visited Hvis.
  - assert (Hhere : rooted (treeNodes categories) id 0)
      by (eapply rooted_root; eassumption).
    exists [(id, node)]. split; [|split; [reflexivity|]].
    + apply linked_step; [exact Hid| | |].
      * intros Hin. specialize (Hvis _ _ Hin Hhere). lia.
      * rewrite <- treeNodes_get. exact Hget.
      * unfold hasListedParent in Hroot.
        destruct (cat_parentId node) as [parentId|]; [|apply linked_none].
        destruct parentId as [|c parentId]; [apply linked_empty|].
        cbn in Hroot. apply linked_absent. rewrite <- treeNodes_get.
        destruct (map_get (c :: parentId) (treeNodes categories)) eqn:Eg;
          [|reflexivity].
        assert (Hh : map_has (c :: parentId) (treeNodes categories) = true)
          by (apply map_has_get; eauto).
        congruence.
    + intros [|i] step Hstep; [|discriminate Hstep].
      injection Hstep as <-. exact Hhere.
  - assert (Hhere : rooted (treeNodes categories) id (S depth))
      by (eapply rooted_child; eassumption).
    assert (Hparent : parentId <> []).
    { unfold hasListedParent in Hpar. rewrite Hp in Hpar.
      intros ->. discriminate Hpar. }
    destruct (IH Hparent ({[id]} ∪ visited)) as (chain & Hlinked & Hlen & Hsteps).
    { intros x m Hin Hx. apply elem_of_union in Hin as [Hin|Hin].
      - apply elem_of_singleton in Hin. subst x.
        pose proof (rooted_functional _ _ _ Hhere _ Hx). lia.
      - specialize (Hvis _ _ Hin Hx). lia. }
    exists ((id, node) :: chain). split; [|split; [cbn; lia|]].
    + apply linked_step; [exact Hid| | |].
      * intros Hin. specialize (Hvis _ _ Hin Hhere). lia.
      * rewrite <- treeNodes_get. exact Hget.
      * rewrite Hp. exact Hlinked.
    + intros [|i] step Hstep.
      * injection Hstep as <-. exact Hhere.
      * cbn in Hstep. replace (S depth - S i) with (depth - i) by lia.
        apply Hsteps, Hstep.
Qed.

(** X30: the depth of an option counts the ancestors of its category:
    the ancestry that [getCategoryAncestry] reports for an offered
    category is one longer than the depth of its option, and the
    category it names at a position is the one offered at that
    depth. *)
Theorem option_depth_counts_ancestors (categories : list Category) :
  match buildCategoryOptions categories with
  | Some options =>
      Forall (fun item =>
                opt_id item <> [] ->
                let ancestry :=
                  getCategoryAncestry (opt_id item)
                    (buildCategoryMap categories) in
                length ancestry = S (opt_depth item) /\
                forall depth id,
                  ancestry !! depth = Some id ->
                  exists above,
                    In above options /\ opt_id above = id /\
                    opt_depth above = depth)
        options
  | None => False
  end.
Proof.
  destruct (buildCategoryOptions_rooted categories)
    as (options & Hrun & _ & Hall & Hcov).
  rewrite Hrun. eapply Forall_impl; [exact Hall|].
  intros item (_ & Hr) Hid. cbv zeta.
  destruct (rooted_linked _ _ _ Hr Hid ∅) as (chain & Hlinked & Hlen & Hsteps);
    [intros x m Hin; apply elem_of_empty in Hin; destruct Hin|].
  unfold getCategoryAncestry.
  destruct (walk_linked cat_id (buildCategoryMap categories)
              (Some (opt_id item)) ∅ []) as (chain' & Hwalk & Hlinked').
  rewrite (linked_unique _ _ _ _ _ Hlinked' Hlinked) in Hwalk.
  rewrite Hwalk. cbn [app]. split.
  - rewrite length_rev, length_map. exact Hlen.
  - intros depth id Hat.
    assert (Hrev : forall l : list str, rev l = reverse l)
      by (intros l; apply rev_alt).
    rewrite Hrev in Hat.
    assert (Hlt : depth < length chain).
    { apply lookup_lt_Some in Hat.
      rewrite length_reverse, length_map in Hat. exact Hat. }
    rewrite reverse_lookup in Hat by (rewrite length_map; exact Hlt).
    rewrite length_map in Hat. rewrite list_lookup_fmap in Hat.
    destruct (chain !! (length chain - S depth)) as [step|] eqn:Estep;
      [|discriminate Hat].
    cbn in Hat. injection Hat as <-.
    assert (Hown : cat_id (snd step) = fst step).
    { pose proof (linked_held _ _ _ _ Hlinked) as Hheld.
      rewrite Forall_forall in Hheld.
      apply (buildCategoryMap_lookup categories), Hheld.
      eapply list_elem_of_lookup_2, Estep. }
    rewrite Hown.
    pose proof (Hsteps _ _ Estep) as Hstep.
    replace (opt_depth item - (length chain - S depth)) with depth in Hstep
      by lia.
    destruct (Hcov _ _ Hstep) as (above & Hin & Habove).
    exists above. split; [exact Hin|]. split; [exact Habove|].
    rewrite Forall_forall in Hall. apply list_elem_of_In in Hin.
    destruct (Hall _ Hin) as (_ & Hr'). rewrite Habove in Hr'.
    exact (rooted_functional _ _ _ Hr' _ Hstep).
Qed.

End Traversal.

End CategoryTrees.
